(** * autoserverless: the batch orchestrator, its progress stream and the
      headline layout, embedded from the TypeScript sources.

    - [Js]      : the string and array primitives of the platform the code
                  calls ([split], [indexOf], [toLowerCase], [trim]), and
                  what the language fixes of [sort].
    - [Canvas]  : src/utils/canvas.ts ([calculateLines], the font fitting
                  loop of [composeImage], [drawHeadlineWithHighlights]).
    - [StreamClient] : the App component that reads the progress stream
                  (the reader loop and the [setTasks] updater).
    - [Server]  : the request handler that runs the batch and streams its
                  progress ([updateTask], the two phases).
    - [Client]  : the App component that runs the batch in the browser
                  (the trending merge, the two phases).
    - the properties the two orchestrators share, and worked examples.
    - [JsFacts], [GeminiFacts], [CanvasFacts], [StreamFacts], [ServerFacts],
      [ClientFacts] : further properties of the same code: the parser of
                  the analysis and its round trip, the errors of the
                  analysis call, the image loader and the crop, the text
                  that gets painted, the run of the page that reads the
                  stream, the handler's stream as a whole and what the page
                  makes of it, and the run in the browser.

    Text is modelled by Rocq strings: a JavaScript string is read through
    its code units, restricted to those below 256.  Widths and heights are
    rationals: every finite double is one, and only comparisons and exact
    products of them are used below. *)

From Stdlib Require Import ZArith QArith Lia Lqa Ascii String.
From stdpp Require Import base list strings gmap sorting pretty.
From Equations Require Import Equations.

Close Scope Q_scope.
Local Open Scope nat_scope.

(* ===================================================================== *)
(** * Platform primitives on strings *)
(* ===================================================================== *)

Module Js.

(** [s.length] *)
Abbreviation len := String.length.

(** [s.split(sep)] for a one-character separator: never empty, keeps empty
    pieces between adjacent separators and at both ends. *)
Fixpoint split (sep : ascii) (s : string) : list string :=
  match s with
  | EmptyString => [EmptyString]
  | String c s' =>
      if Ascii.eqb c sep then EmptyString :: split sep s'
      else match split sep s' with
           | [] => [String c EmptyString]
           | w :: ws => String c w :: ws
           end
  end.

(** [pieces.join(sep)] *)
Fixpoint join (sep : string) (pieces : list string) : string :=
  match pieces with
  | [] => ""
  | [p] => p
  | p :: ps => p +:+ sep +:+ join sep ps
  end.

(** Suffix of [s] from offset [n] on (the whole of [s] is dropped when [n]
    is past the end). *)
Fixpoint drop (n : nat) (s : string) : string :=
  match n, s with
  | 0, _ => s
  | S _, EmptyString => EmptyString
  | S n', String _ s' => drop n' s'
  end.

(** [s.substring(a, b)]: both ends are clamped to the length and swapped
    when out of order. *)
Definition substring (s : string) (a b : nat) : string :=
  String.substring (Nat.min a b) (Nat.max a b - Nat.min a b) s.

(** [s.startsWith(p)] *)
Definition startsWith (s p : string) : bool := String.prefix p s.

(** First offset [>= k] (counted from an origin [k] code units before [s])
    at which [p] starts. *)
Fixpoint indexOfAt (k : nat) (s p : string) : option nat :=
  if String.prefix p s then Some k
  else match s with
       | EmptyString => None
       | String _ s' => indexOfAt (S k) s' p
       end.

(** [s.indexOf(p, position)]: [None] stands for -1.  The position is
    clamped to the length, so the empty pattern is found at
    [min position s.length] whatever the position. *)
Definition indexOf (s p : string) (position : nat) : option nat :=
  let start := Nat.min position (len s) in
  indexOfAt start (drop start s) p.

(** [toLowerCase] on one code unit below 256: A-Z and the Latin-1 capitals
    U+00C0..U+00DE (U+00D7, the multiplication sign, excepted). *)
Definition lowerChar (c : ascii) : ascii :=
  let n := nat_of_ascii c in
  if ((65 <=? n) && (n <=? 90)) || ((192 <=? n) && (n <=? 222) && negb (n =? 215))
  then ascii_of_nat (n + 32) else c.

Fixpoint toLowerCase (s : string) : string :=
  match s with
  | EmptyString => EmptyString
  | String c s' => String (lowerChar c) (toLowerCase s')
  end.

(** White space and line terminators among the code units below 256. *)
Definition isWhiteSpace (c : ascii) : bool :=
  let n := nat_of_ascii c in
  ((9 <=? n) && (n <=? 13)) || (n =? 32) || (n =? 160).

Fixpoint trimStart (s : string) : string :=
  match s with
  | EmptyString => EmptyString
  | String c s' => if isWhiteSpace c then trimStart s' else s
  end.

Fixpoint rev (s : string) : string :=
  match s with
  | EmptyString => EmptyString
  | String c s' => rev s' +:+ String c EmptyString
  end.

(** [s.trim()] *)
Definition trim (s : string) : string := rev (trimStart (rev (trimStart s))).

(** [toUpperCase], likewise.  The three small letters below 256 whose
    capital lies elsewhere (U+00B5, U+00DF, U+00FF) are left as they are:
    none of them becomes an ASCII capital. *)
Definition upperChar (c : ascii) : ascii :=
  let n := nat_of_ascii c in
  if ((97 <=? n) && (n <=? 122)) || ((224 <=? n) && (n <=? 254) && negb (n =? 247))
  then ascii_of_nat (n - 32) else c.

Fixpoint toUpperCase (s : string) : string :=
  match s with
  | EmptyString => EmptyString
  | String c s' => String (upperChar c) (toUpperCase s')
  end.

(** [s.includes(p)] *)
Definition includes (s p : string) : bool :=
  match indexOf s p 0 with Some _ => true | None => false end.

(** [Boolean(s)]: a string is truthy unless it is empty. *)
Definition truthy (s : string) : bool := negb (String.eqb s "").

(** [!v] for a string that may be [undefined]. *)
Definition falsy (v : option string) : bool :=
  match v with
  | None => true
  | Some s => String.eqb s ""
  end.

Definition isDigit (c : ascii) : bool :=
  let n := nat_of_ascii c in (48 <=? n) && (n <=? 57).

(** The longest run of decimal digits that [s] starts with, read as a
    number, and how many digits it has. *)
Fixpoint leadingDigits (acc count : nat) (s : string) : nat * nat :=
  match s with
  | EmptyString => (acc, count)
  | String c s' =>
      if isDigit c then leadingDigits (10 * acc + (nat_of_ascii c - 48)) (S count) s'
      else (acc, count)
  end.

(** Line terminators, among the code units below 256. *)
Definition isLineTerminator (c : ascii) : bool :=
  let n := nat_of_ascii c in (n =? 10) || (n =? 13).

(** [map.set(k, v)] on a [Map] kept as the list of its entries in
    insertion order: a key already there keeps its place and takes the new
    value, a new key goes last. *)
Fixpoint mapSet {V} (k : string) (v : V) (m : list (string * V)) : list (string * V) :=
  match m with
  | [] => [(k, v)]
  | (k', v') :: m' =>
      if String.eqb k' k then (k', v) :: m' else (k', v') :: mapSet k v m'
  end.

(** [new Map(entries)] and [Array.from(map.values())] *)
Definition newMap {V} (entries : list (string * V)) : list (string * V) :=
  fold_left (λ m e, mapSet e.1 e.2 m) entries [].

Definition mapValues {V} (m : list (string * V)) : list V := map snd m.

(** [array.sort(compare)] is the platform's.  What the language fixes of
    it: the result holds the elements of the array, each as often as the
    array; and for a comparator that orders the elements consistently
    (here: one that is the difference of a key, largest first) the result
    is sorted, and stable: elements of the same key keep the order they
    had.  For any other comparator the order is left to the
    implementation. *)
Record ArraySort {A} (sort : (A → A → Z) → list A → list A) : Prop := {
  sort_permutation : ∀ compare l, sort compare l ≡ₚ l;
  sort_ordered : ∀ compare (key : A → Z) l,
    (∀ a b, a ∈ l → b ∈ l → compare a b = (key b - key a)%Z) →
    StronglySorted (λ a b, (key b <= key a)%Z) (sort compare l);
  sort_stable : ∀ compare (key : A → Z) l k,
    (∀ a b, a ∈ l → b ∈ l → compare a b = (key b - key a)%Z) →
    filter (λ a, key a = k) (sort compare l) = filter (λ a, key a = k) l;
}.

(** One sort that the language allows, for the examples: the stable
    insertion sort. *)
Fixpoint insertSorted {A} (compare : A → A → Z) (x : A) (l : list A) : list A :=
  match l with
  | [] => [x]
  | y :: l' =>
      if (compare x y <=? 0)%Z then x :: y :: l' else y :: insertSorted compare x l'
  end.

Definition insertionSort {A} (compare : A → A → Z) (l : list A) : list A :=
  foldr (insertSorted compare) [] l.

(** The text of a list of chunks, end to end. *)
Definition concat (chunks : list string) : string := foldr String.append "" chunks.

(** Writes a text that holds quotation marks: every apostrophe of [s]
    stands for one. *)
Fixpoint dq (s : string) : string :=
  match s with
  | EmptyString => EmptyString
  | String c s' => String (if Ascii.eqb c "'" then "034"%char else c) (dq s')
  end.

(** [p] occurs in [s] at offset [i]. *)
Definition occursAt (s p : string) (i : nat) : Prop :=
  ∃ pre post, s = pre +:+ p +:+ post ∧ len pre = i.

(** ** Facts on the primitives *)

(** *** [Map] *)

(** [map.get(k)] on the list of entries. *)
Fixpoint mapGet {V} (k : string) (m : list (string * V)) : option V :=
  match m with
  | [] => None
  | (k', v) :: m' => if String.eqb k' k then Some v else mapGet k m'
  end.

Lemma mapGet_mapSet_same {V} k (v : V) m : mapGet k (mapSet k v m) = Some v.
Proof.
  induction m as [| [k' v'] m IH]; simpl; [by rewrite String.eqb_refl |].
  destruct (String.eqb k' k) eqn:E; simpl; by rewrite E.
Qed.

Lemma mapGet_mapSet_other {V} k k' (v : V) m :
  k' ≠ k → mapGet k' (mapSet k v m) = mapGet k' m.
Proof.
  intros Hne. induction m as [| [k0 v0] m IH]; simpl.
  - by destruct (String.eqb_spec k k').
  - destruct (String.eqb_spec k0 k) as [-> | ?]; simpl.
    + by destruct (String.eqb_spec k k').
    + by rewrite IH.
Qed.

Lemma mapSet_keys {V} k (v : V) m :
  NoDup (map fst m) →
  NoDup (map fst (mapSet k v m))
  ∧ ∀ k', k' ∈ map fst (mapSet k v m) ↔ k' = k ∨ k' ∈ map fst m.
Proof.
  induction m as [| [k0 v0] m IH]; simpl; intros Hnd.
  - split; [apply NoDup_singleton |]. intros k'. rewrite list_elem_of_singleton.
    split; [by left | intros [? | ?%elem_of_nil]; done].
  - apply NoDup_cons in Hnd as [Hk0 Hnd].
    destruct (String.eqb_spec k0 k) as [-> | Hne]; simpl.
    + split; [by apply NoDup_cons |]. intros k'. rewrite elem_of_cons. tauto.
    + destruct (IH Hnd) as [Hnd' Hmem]. split.
      * apply NoDup_cons. split; [| done]. rewrite Hmem. intros [? | ?]; done.
      * intros k'. rewrite !elem_of_cons, Hmem. tauto.
Qed.

(** With distinct keys, an entry is in the list exactly when [get] finds
    it. *)
Lemma mapGet_elem_of {V} k (v : V) m :
  NoDup (map fst m) → (k, v) ∈ m ↔ mapGet k m = Some v.
Proof.
  induction m as [| [k0 v0] m IH]; simpl; intros Hnd.
  - split; [by intros ?%elem_of_nil | done].
  - apply NoDup_cons in Hnd as [Hk0 Hnd]. rewrite elem_of_cons, (IH Hnd).
    destruct (String.eqb_spec k0 k) as [-> | Hne].
    + split; [intros [[= ->] | Hget]; [done |] | intros [= ->]; by left].
      destruct Hk0. apply list_elem_of_fmap. exists (k, v). split; [done |].
      by apply (IH Hnd).
    + split; [intros [[= ? ?] | ?]; done | by right].
Qed.

(** What [new Map(entries)] holds: distinct keys, and under each key the
    value of the last entry with that key. *)
Lemma fold_mapSet {V} (entries : list (string * V)) m :
  NoDup (map fst m) →
  let m' := fold_left (λ m e, mapSet e.1 e.2 m) entries m in
  NoDup (map fst m')
  ∧ (∀ k, k ∈ map fst m' ↔ k ∈ map fst entries ∨ k ∈ map fst m)
  ∧ (∀ k, mapGet k m' =
          match last (filter (λ e, e.1 = k) entries) with
          | Some e => Some e.2
          | None => mapGet k m
          end).
Proof.
  revert m. induction entries as [| [k0 v0] entries IH]; intros m Hnd; simpl.
  { split; [done |]. split; [| done]. intros k. split; [by right |].
    intros [?%elem_of_nil | ?]; done. }
  destruct (mapSet_keys k0 v0 m Hnd) as [Hnd' Hmem].
  destruct (IH (mapSet k0 v0 m) Hnd') as (Hnd'' & Hmem' & Hget).
  split; [done |]. split.
  - intros k. rewrite Hmem', Hmem, elem_of_cons. tauto.
  - intros k. rewrite Hget, filter_cons. simpl.
    destruct (decide (k0 = k)) as [-> | Hne].
    + rewrite last_cons. destruct (last (filter _ entries)); [done |].
      simpl. apply mapGet_mapSet_same.
    + destruct (last (filter _ entries)); [done |].
      by apply mapGet_mapSet_other.
Qed.

(** *** [sort] *)

Lemma insertSorted_perm {A} (compare : A → A → Z) x l :
  insertSorted compare x l ≡ₚ x :: l.
Proof.
  induction l as [| y l IH]; simpl; [done |].
  destruct (compare x y <=? 0)%Z; [done |].
  rewrite IH. apply Permutation_swap.
Qed.

Lemma insertionSort_perm {A} (compare : A → A → Z) l : insertionSort compare l ≡ₚ l.
Proof.
  induction l as [| x l IH]; simpl; [done |].
  by rewrite insertSorted_perm, IH.
Qed.

(** A comparator that is the difference of a key, taken in descending
    order: the result is sorted by the key, largest first. *)
Lemma insertSorted_sorted {A} (compare : A → A → Z) (key : A → Z) x l :
  (∀ y, y ∈ l → compare x y = (key y - key x)%Z) →
  StronglySorted (λ a b, (key b <= key a)%Z) l →
  StronglySorted (λ a b, (key b <= key a)%Z) (insertSorted compare x l).
Proof.
  intros Hcmp Hsorted. induction Hsorted as [| y l Hl IH Hy]; simpl.
  - repeat constructor.
  - rewrite (Hcmp y) by (by left).
    destruct (key y - key x <=? 0)%Z eqn:Hle.
    + apply Z.leb_le in Hle. constructor; [by constructor |].
      constructor; [lia |]. eapply Forall_impl; [exact Hy |]. simpl. intros. lia.
    + apply Z.leb_gt in Hle. constructor.
      * apply IH. intros z Hz. apply Hcmp. by right.
      * rewrite insertSorted_perm. constructor; [lia | done].
Qed.

Lemma insertionSort_sorted {A} (compare : A → A → Z) (key : A → Z) l :
  (∀ a b, a ∈ l → b ∈ l → compare a b = (key b - key a)%Z) →
  StronglySorted (λ a b, (key b <= key a)%Z) (insertionSort compare l).
Proof.
  induction l as [| x l IH]; intros Hcmp; simpl; [constructor |].
  apply insertSorted_sorted.
  - intros y Hy. rewrite insertionSort_perm in Hy. apply Hcmp; [by left | by right].
  - apply IH. intros a b Ha Hb. apply Hcmp; by right.
Qed.

(** An element is put in front of those of its own key: it only passes
    elements of a larger key. *)
Lemma insertSorted_stable {A} (compare : A → A → Z) (key : A → Z) x l k :
  (∀ y, y ∈ l → compare x y = (key y - key x)%Z) →
  filter (λ a, key a = k) (insertSorted compare x l) = filter (λ a, key a = k) (x :: l).
Proof.
  induction l as [| y l IH]; intros Hcmp; simpl; [done |].
  rewrite (Hcmp y) by (by left).
  destruct (key y - key x <=? 0)%Z eqn:Hle; [done |].
  apply Z.leb_gt in Hle.
  rewrite (filter_cons _ y), IH by (intros z Hz; apply Hcmp; by right).
  rewrite !filter_cons.
  destruct (decide (key y = k)), (decide (key x = k)); try done. lia.
Qed.

Lemma insertionSort_stable {A} (compare : A → A → Z) (key : A → Z) l k :
  (∀ a b, a ∈ l → b ∈ l → compare a b = (key b - key a)%Z) →
  filter (λ a, key a = k) (insertionSort compare l) = filter (λ a, key a = k) l.
Proof.
  induction l as [| x l IH]; intros Hcmp; simpl; [done |].
  rewrite insertSorted_stable.
  - rewrite !filter_cons, IH; [done |]. intros a b Ha Hb. apply Hcmp; by right.
  - intros y Hy. rewrite insertionSort_perm in Hy. apply Hcmp; [by left | by right].
Qed.

Lemma insertionSort_ArraySort {A} : ArraySort (@insertionSort A).
Proof.
  split.
  - apply insertionSort_perm.
  - apply insertionSort_sorted.
  - intros compare key l k. apply insertionSort_stable.
Qed.

(** *** Strings *)

Lemma app_cons c s t : String c s +:+ t = String c (s +:+ t).
Proof. reflexivity. Qed.

Lemma app_nil_l s : "" +:+ s = s.
Proof. reflexivity. Qed.

Lemma app_nil_r s : s +:+ "" = s.
Proof. induction s as [| c s IH]; [done | by rewrite app_cons, IH]. Qed.

Lemma app_assoc s1 s2 s3 : (s1 +:+ s2) +:+ s3 = s1 +:+ s2 +:+ s3.
Proof. induction s1 as [| c s1 IH]; [done | by rewrite !app_cons, IH]. Qed.

Lemma len_app s1 s2 : len (s1 +:+ s2) = len s1 + len s2.
Proof. induction s1 as [| c s1 IH]; [done | rewrite app_cons; simpl; by rewrite IH]. Qed.

Lemma len_0 s : len s = 0 → s = "".
Proof. by destruct s. Qed.

Lemma len_toLowerCase s : len (toLowerCase s) = len s.
Proof. induction s as [| c s IH]; simpl; [done | by f_equal]. Qed.

Lemma prefix_spec p s : String.prefix p s = true ↔ ∃ post, s = p +:+ post.
Proof.
  revert p. induction s as [| c s IH]; intros [| a p]; simpl.
  - split; [by exists "" | done].
  - split; [done | by intros [post ?]].
  - split; [by exists (String c s) | done].
  - destruct (ascii_dec a c) as [-> | Hne].
    + rewrite IH. split; intros [post E]; exists post.
      * by rewrite app_cons, E.
      * rewrite app_cons in E. by injection E.
    + split; [done |]. intros [post E]. rewrite app_cons in E. injection E. congruence.
Qed.

Lemma split_nonempty sep s : split sep s ≠ [].
Proof.
  destruct s as [| c s]; simpl; [done |].
  destruct (Ascii.eqb c sep); [done |]. by destruct (split sep s).
Qed.

Lemma split_eq sep c s :
  split sep (String c s) =
    if Ascii.eqb c sep then EmptyString :: split sep s
    else match split sep s with
         | [] => [String c EmptyString]
         | w :: ws => String c w :: ws
         end.
Proof. reflexivity. Qed.

(** Splitting a text received in two parts: the pieces closed by a
    separator in the first part, then the split of what follows them. *)
Lemma split_app sep a b :
  split sep (a +:+ b) =
    removelast (split sep a) ++ split sep (default "" (last (split sep a)) +:+ b).
Proof.
  induction a as [| c a IH]; [done |].
  rewrite app_cons, !split_eq.
  pose proof (split_nonempty sep a) as Hne.
  destruct (Ascii.eqb c sep) eqn:Hc.
  - rewrite IH. destruct (split sep a) as [| w ws]; [done |]. reflexivity.
  - rewrite IH. destruct (split sep a) as [| w [| w2 ws]]; [done | |].
    + simpl. by rewrite Hc.
    + reflexivity.
Qed.

(** The pieces and the separators between them make up the text. *)
Lemma split_total_length sep s :
  sum_list (map (λ w, S (len w)) (split sep s)) = S (len s).
Proof.
  induction s as [| c s IH]; [done |].
  rewrite split_eq. pose proof (split_nonempty sep s) as Hne.
  destruct (Ascii.eqb c sep).
  - simpl in *. by rewrite IH.
  - destruct (split sep s) as [| w ws]; [done |]. simpl in *. lia.
Qed.

(** The last piece of a split holds no separator. *)
Lemma split_last sep s :
  split sep (default "" (last (split sep s))) = [default "" (last (split sep s))].
Proof.
  induction s as [| c s IH]; [done |].
  rewrite split_eq. pose proof (split_nonempty sep s) as Hne.
  destruct (Ascii.eqb c sep) eqn:Hc.
  - destruct (split sep s) as [| w ws]; [done |]. exact IH.
  - destruct (split sep s) as [| w [| w2 ws]]; [done | |].
    + simpl in *. by rewrite Hc, IH.
    + exact IH.
Qed.

Lemma prefix_empty s : String.prefix "" s = true.
Proof. by destruct s. Qed.

Lemma occursAt_0 s p : occursAt s p 0 ↔ String.prefix p s = true.
Proof.
  rewrite prefix_spec. split.
  - intros (pre & post & -> & Hlen). apply len_0 in Hlen as ->. by exists post.
  - intros [post ->]. by exists "", post.
Qed.

Lemma occursAt_S c s p i : occursAt (String c s) p (S i) ↔ occursAt s p i.
Proof.
  split.
  - intros ([| a pre] & post & E & Hlen); [done |].
    rewrite app_cons in E. simpl in Hlen. injection E as -> ->.
    exists pre, post. split; [done | lia].
  - intros (pre & post & -> & Hlen). exists (String c pre), post.
    rewrite app_cons. simpl. by rewrite Hlen.
Qed.

Lemma occursAt_bound s p i : occursAt s p i → i + len p ≤ len s.
Proof. intros (pre & post & -> & <-). rewrite !len_app. lia. Qed.

Lemma occursAt_drop n s p i : n ≤ len s → occursAt (drop n s) p i ↔ occursAt s p (n + i).
Proof.
  revert s. induction n as [| n IH]; intros s Hn; [done |].
  destruct s as [| c s]; simpl in *; [lia |].
  rewrite occursAt_S. apply IH. lia.
Qed.

Lemma indexOfAt_eq k s p :
  indexOfAt k s p =
    if String.prefix p s then Some k
    else match s with
         | EmptyString => None
         | String _ s' => indexOfAt (S k) s' p
         end.
Proof. by destruct s. Qed.

(** [indexOfAt] returns the first occurrence, if there is one. *)
Lemma indexOfAt_Some k s p j :
  indexOfAt k s p = Some j →
  k ≤ j ∧ occursAt s p (j - k) ∧ ∀ i, i < j - k → ¬ occursAt s p i.
Proof.
  revert k. induction s as [| c s IH]; intros k; rewrite indexOfAt_eq.
  - destruct (String.prefix p "") eqn:Hp; [| done].
    intros [= <-]. replace (k - k) with 0 by lia.
    split; [done |]. split; [by apply occursAt_0 | intros; lia].
  - destruct (String.prefix p (String c s)) eqn:Hp.
    + intros [= <-]. replace (k - k) with 0 by lia.
      split; [done |]. split; [by apply occursAt_0 | intros; lia].
    + intros H. apply IH in H as (Hle & Hocc & Hleast).
      split; [lia |].
      replace (j - k) with (S (j - S k)) by lia.
      split; [by apply occursAt_S |].
      intros [| i] Hi.
      * rewrite occursAt_0. congruence.
      * rewrite occursAt_S. apply Hleast. lia.
Qed.

Lemma indexOfAt_None k s p : indexOfAt k s p = None → ∀ i, ¬ occursAt s p i.
Proof.
  revert k. induction s as [| c s IH]; intros k; rewrite indexOfAt_eq.
  - destruct (String.prefix p "") eqn:Hp; [done |].
    intros _ i Hocc. pose proof (occursAt_bound _ _ _ Hocc) as Hb. simpl in Hb.
    assert (i = 0) as -> by lia. apply occursAt_0 in Hocc. congruence.
  - destruct (String.prefix p (String c s)) eqn:Hp; [done |].
    intros H [| i].
    + rewrite occursAt_0. congruence.
    + rewrite occursAt_S. by eapply IH.
Qed.

(** [indexOf]: the answer is the least occurrence at or after the clamped
    position; -1 means there is none from there on. *)
Lemma indexOf_Some s p position j :
  indexOf s p position = Some j →
  Nat.min position (len s) ≤ j ∧ occursAt s p j
  ∧ ∀ i, Nat.min position (len s) ≤ i < j → ¬ occursAt s p i.
Proof.
  unfold indexOf. intros H. apply indexOfAt_Some in H as (Hle & Hocc & Hleast).
  set (start := Nat.min position (len s)) in *.
  assert (Hstart : start ≤ len s) by (unfold start; lia).
  split; [done |]. split.
  - apply (occursAt_drop start) in Hocc; [| done].
    by replace (start + (j - start)) with j in Hocc by lia.
  - intros i Hi Hocc'. apply (Hleast (i - start)); [lia |].
    apply occursAt_drop; [done |]. by replace (start + (i - start)) with i by lia.
Qed.

Lemma indexOf_None s p position :
  indexOf s p position = None → ∀ i, Nat.min position (len s) ≤ i → ¬ occursAt s p i.
Proof.
  unfold indexOf. intros H i Hi Hocc.
  set (start := Nat.min position (len s)) in *.
  apply (indexOfAt_None _ _ _ H (i - start)).
  apply occursAt_drop; [unfold start; lia |].
  by replace (start + (i - start)) with i by lia.
Qed.

End Js.

(* ===================================================================== *)
(** * The records of types.ts *)
(* ===================================================================== *)

(** Modelled from the spec: types.ts is not among the sources.  The enum
    members are the ones the sources name; the fields of a task are the
    ones they read and write ([id], [categoryName], [status], and the
    optional [error] and [result]). *)
Inductive TaskStatus :=
  | PENDING | GATHERING | GATHERED | PROCESSING | GENERATING_IMAGE
  | COMPOSING | UPLOADING | SENDING_WEBHOOK | DONE | ERROR.

#[global] Instance TaskStatus_eq_dec : EqDecision TaskStatus.
Proof. solve_decision. Defined.

Module Task.

Record Result := {
  headline : string;
  imageUrl : string;
  caption : string;
  sourceUrl : string;
  sourceName : string;
}.

Record BatchTask := {
  id : string;
  categoryName : string;
  status : TaskStatus;
  error : option string;
  result : option Result;
}.

End Task.

Module Article.

(** Modelled from the spec: the article record of types.ts, with the
    fields the sources read. *)
Record NewsDataArticle := {
  link : string;
  title : string;
  content : option string;
  description : option string;
  source_id : string;
  image_url : option string;
  pubDate : option string;
}.

End Article.

Module Analysis.

(** Modelled from the spec: the analysis record of types.ts. *)
Record NewsAnalysis := {
  headline : string;
  highlightPhrases : list string;
  caption : string;
  imagePrompt : string;
  sourceName : string;
}.

End Analysis.

(** Modelled from the spec: an entry of NEWS_CATEGORIES (constants.ts is
    not among the sources). *)
Record Category := {
  name : string;
  apiValue : string;
}.

(** [interface CollectedData] *)
Record CollectedData := {
  taskId : string;
  analysis : Analysis.NewsAnalysis;
  article : Article.NewsDataArticle;
}.

(** [WebhookPayload], with the fields the orchestrators fill in. *)
Record WebhookPayload := {
  wp_headline : string;
  wp_imageUrl : string;
  wp_summary : string;
  wp_newsLink : string;
  wp_status : string;
}.

(* ===================================================================== *)
(** * Exceptions and state: the monad the asynchronous code runs in *)
(* ===================================================================== *)

(** A thrown value: an [Error] with its message, or anything else. *)
Inductive Thrown :=
  | ErrorObj (message : string)
  | NotAnError.

(** [err instanceof Error ? err.message : "An unknown error occurred."] *)
Definition errorMessage (err : Thrown) : string :=
  match err with
  | ErrorObj message => message
  | NotAnError => "An unknown error occurred."
  end.

(** A computation over a mutable state [St] that returns or throws.  What
    was written before a throw stays written. *)
Definition Exec (St A : Type) : Type := St → St * (Thrown + A).

Module Exec.

Definition ret {St A} (a : A) : Exec St A := λ s, (s, inr a).

Definition bind {St A B} (m : Exec St A) (k : A → Exec St B) : Exec St B :=
  λ s, match m s with
       | (s', inr a) => k a s'
       | (s', inl e) => (s', inl e)
       end.

Definition throw {St A} (e : Thrown) : Exec St A := λ s, (s, inl e).

(** [try { m } catch (e) { handler e }] *)
Definition tryCatch {St A} (m : Exec St A) (handler : Thrown → Exec St A) : Exec St A :=
  λ s, match m s with
       | (s', inl e) => handler e s'
       | r => r
       end.

Definition get {St} : Exec St St := λ s, (s, inr s).

Definition modify {St} (f : St → St) : Exec St unit := λ s, (f s, inr tt).

(** [for (const x of xs) { body x }] *)
Fixpoint forEach {St A} (xs : list A) (body : A → Exec St unit) : Exec St unit :=
  match xs with
  | [] => ret tt
  | x :: rest => bind (body x) (λ _, forEach rest body)
  end.

(** [await Promise.all(ms)]: every computation is started, in list order,
    and runs whatever becomes of the others. *)
Fixpoint settleAll {St A} (ms : list (Exec St A)) : St → St * list (Thrown + A) :=
  match ms with
  | [] => λ s, (s, [])
  | m :: rest =>
      λ s, match m s with
           | (s', r) =>
               match settleAll rest s' with
               | (s'', rs) => (s'', r :: rs)
               end
           end
  end.

Definition rejections {A} (rs : list (Thrown + A)) : list Thrown :=
  omap (λ r, match r with inl e => Some e | inr _ => None end) rs.

Definition fulfilments {A} (rs : list (Thrown + A)) : list A :=
  omap (λ r, match r with inl _ => None | inr a => Some a end) rs.

(** The results come back together, or the call throws what the first
    promise to fail was rejected with: first in time, which the list order
    does not tell.  [earliest] gives its place among the rejections. *)
Definition all {St A} (earliest : list Thrown → nat) (ms : list (Exec St A))
    : Exec St (list A) :=
  λ s, match settleAll ms s with
       | (s', rs) =>
           match rejections rs with
           | [] => (s', inr (fulfilments rs))
           | e :: es => (s', inl (default e ((e :: es) !! earliest (e :: es))))
           end
       end.

(** A loop whose body never throws runs over the whole list. *)
Lemma forEach_fold {St A} (body : A → Exec St unit) xs s :
  (∀ x s', (body x s').2 = inr tt) →
  forEach xs body s = (fold_left (λ s' x, (body x s').1) xs s, inr tt).
Proof.
  intros Hbody. revert s. induction xs as [| x xs IH]; intros s; simpl; [done |].
  unfold bind. specialize (Hbody x s).
  destruct (body x s) as [s' [e | []]]; simpl in *; [done |]. apply IH.
Qed.

Lemma fold_invariant {St A} (P : St → Prop) (step : St → A → St) xs s :
  (∀ x s', x ∈ xs → P s' → P (step s' x)) → P s → P (fold_left step xs s).
Proof.
  revert s. induction xs as [| x xs IH]; intros s Hstep Hs; simpl; [done |].
  apply IH.
  - intros y s' Hy. apply Hstep. by right.
  - apply Hstep; [by left | done].
Qed.

End Exec.

Declare Scope exec_scope.
Delimit Scope exec_scope with exec.
Notation "x ← m ; k" := (Exec.bind m (λ x, k))
  (at level 20, m at level 100, k at level 200, only parsing) : exec_scope.
Notation "m ;; k" := (Exec.bind m (λ _, k))
  (at level 100, k at level 200, only parsing, right associativity) : exec_scope.

(** A computation that returns, throws, or never returns: [inr None] is
    a call that does not come back (a loop that does not end).  Nothing
    that follows it runs, and no [catch] sees it. *)
Definition Run (St A : Type) : Type := Exec St (option A).

Module Run.

Definition ret {St A} (a : A) : Run St A := λ s, (s, inr (Some a)).

Definition bind {St A B} (m : Run St A) (k : A → Run St B) : Run St B :=
  λ s, match m s with
       | (s', inr (Some a)) => k a s'
       | (s', inr None) => (s', inr None)
       | (s', inl e) => (s', inl e)
       end.

Definition throw {St A} (e : Thrown) : Run St A := λ s, (s, inl e).

Definition never {St A} : Run St A := λ s, (s, inr None).

(** A computation that returns or throws, run where one may also hang. *)
Definition lift {St A} (m : Exec St A) : Run St A :=
  λ s, match m s with
       | (s', inr a) => (s', inr (Some a))
       | (s', inl e) => (s', inl e)
       end.

(** [try { m } catch (e) { handler e }] *)
Definition tryCatch {St A} (m : Run St A) (handler : Thrown → Run St A) : Run St A :=
  λ s, match m s with
       | (s', inl e) => handler e s'
       | r => r
       end.

Definition get {St} : Run St St := λ s, (s, inr (Some s)).

Definition modify {St} (f : St → St) : Run St unit := λ s, (f s, inr (Some tt)).

(** [for (const x of xs) { body x }] *)
Fixpoint forEach {St A} (xs : list A) (body : A → Run St unit) : Run St unit :=
  match xs with
  | [] => ret tt
  | x :: rest => bind (body x) (λ _, forEach rest body)
  end.

(** A loop all of whose rounds return runs over the whole list. *)
Lemma forEach_all_return {St A} (body : A → Run St unit) xs s :
  (∀ x s', x ∈ xs → (body x s').2 = inr (Some tt)) →
  forEach xs body s = (fold_left (λ s' x, (body x s').1) xs s, inr (Some tt)).
Proof.
  revert s. induction xs as [| x xs IH]; intros s Hbody; simpl; [done |].
  unfold bind. pose proof (Hbody x s (list_elem_of_here _ _)) as Hx.
  destruct (body x s) as [s' [e | [[] |]]]; simpl in *; try done.
  apply IH. intros y s'' Hy. apply Hbody. by right.
Qed.

(** A loop stops at the first round that does not return, with what that
    round left. *)
Lemma forEach_stops {St A} (body : A → Run St unit) xs s :
  (∃ final, forEach xs body s = (final, inr (Some tt)))
  ∨ ∃ before x after s',
      xs = before ++ x :: after
      ∧ forEach before body s = (s', inr (Some tt))
      ∧ (body x s').2 ≠ inr (Some tt)
      ∧ forEach xs body s = body x s'.
Proof.
  revert s. induction xs as [| x xs IH]; intros s; simpl; [left; by eexists |].
  unfold bind. destruct (body x s) as [s1 r] eqn:Hx.
  destruct r as [e | [[] |]].
  - right. exists [], x, xs, s. rewrite Hx. simpl. done.
  - destruct (IH s1) as [[final Hfinal] | (before & y & after & s' & -> & Hb & Hy & Hrun)].
    + left. by exists final.
    + right. exists (x :: before), y, after, s'. simpl. unfold bind. rewrite Hx.
      done.
  - right. exists [], x, xs, s. rewrite Hx. simpl. done.
Qed.

(** What every round keeps, the loop keeps; [ok] is what is known of the
    way the loop ended. *)
Lemma forEach_invariant {St A} (P : St → Prop) (ok : Thrown + option unit → Prop)
    (body : A → Run St unit) xs s :
  ok (inr (Some tt)) →
  (∀ x s', x ∈ xs → P s' → ok (body x s').2 → P (body x s').1) →
  P s → ok (forEach xs body s).2 → P (forEach xs body s).1.
Proof.
  intros Hok. revert s. induction xs as [| x xs IH]; intros s Hbody Hs; simpl; [done |].
  unfold bind. pose proof (Hbody x s (list_elem_of_here _ _) Hs) as Hx.
  destruct (body x s) as [s1 [e | [[] |]]]; simpl in *; try (intros; by apply Hx).
  apply IH; [| by apply Hx]. intros y s' Hy. apply Hbody. by right.
Qed.

End Run.

Declare Scope run_scope.
Delimit Scope run_scope with run.
Notation "x ← m ; k" := (Run.bind m (λ x, k))
  (at level 20, m at level 100, k at level 200, only parsing) : run_scope.
Notation "m ;; k" := (Run.bind m (λ _, k))
  (at level 100, k at level 200, only parsing, right associativity) : run_scope.

(* ===================================================================== *)
(** * src/services/gemini.ts *)
(* ===================================================================== *)
Module Gemini.

(** The locals of [parseAnalysisResponse]: the fields of [analysis] that
    the loop assigns, the two flags and the two line buffers. *)
Record ParseState := {
  headline : option string;
  highlightPhrases : list string;
  sourceName : option string;
  isParsingCaption : bool;
  captionLines : list string;
  isParsingImagePrompt : bool;
  imagePromptLines : list string;
}.

Definition parseInit : ParseState :=
  {| headline := None; highlightPhrases := []; sourceName := None;
     isParsingCaption := false; captionLines := [];
     isParsingImagePrompt := false; imagePromptLines := [] |}.

Definition fieldNames : list string :=
  ["HEADLINE:"; "HIGHLIGHT_WORDS:"; "SOURCE_NAME:"; "CAPTION:"; "IMAGE_PROMPT:"].

(** [line.substring(name.length).trim()] *)
Definition fieldValue (line name : string) : string :=
  Js.trim (Js.drop (Js.len name) line).

(** [....split(',').map(w => w.trim()).filter(Boolean)] *)
Definition splitPhrases (value : string) : list string :=
  List.filter Js.truthy (map Js.trim (Js.split "," value)).

(** The callback of [lines.forEach]. *)
Definition parseLine (st : ParseState) (line : string) : ParseState :=
  let reset := existsb (Js.startsWith line) fieldNames in
  let inCaption := if reset then false else isParsingCaption st in
  let inPrompt := if reset then false else isParsingImagePrompt st in
  if Js.startsWith line "HEADLINE:" then
    {| headline := Some (fieldValue line "HEADLINE:");
       highlightPhrases := highlightPhrases st; sourceName := sourceName st;
       isParsingCaption := inCaption; captionLines := captionLines st;
       isParsingImagePrompt := inPrompt; imagePromptLines := imagePromptLines st |}
  else if Js.startsWith line "HIGHLIGHT_WORDS:" then
    {| headline := headline st;
       highlightPhrases := splitPhrases (fieldValue line "HIGHLIGHT_WORDS:");
       sourceName := sourceName st;
       isParsingCaption := inCaption; captionLines := captionLines st;
       isParsingImagePrompt := inPrompt; imagePromptLines := imagePromptLines st |}
  else if Js.startsWith line "SOURCE_NAME:" then
    {| headline := headline st; highlightPhrases := highlightPhrases st;
       sourceName := Some (fieldValue line "SOURCE_NAME:");
       isParsingCaption := inCaption; captionLines := captionLines st;
       isParsingImagePrompt := inPrompt; imagePromptLines := imagePromptLines st |}
  else if Js.startsWith line "CAPTION:" then
    let captionPart := fieldValue line "CAPTION:" in
    {| headline := headline st; highlightPhrases := highlightPhrases st;
       sourceName := sourceName st;
       isParsingCaption := true;
       captionLines :=
         if Js.truthy captionPart then captionLines st ++ [captionPart] else captionLines st;
       isParsingImagePrompt := inPrompt; imagePromptLines := imagePromptLines st |}
  else if Js.startsWith line "IMAGE_PROMPT:" then
    let promptPart := fieldValue line "IMAGE_PROMPT:" in
    {| headline := headline st; highlightPhrases := highlightPhrases st;
       sourceName := sourceName st;
       isParsingCaption := inCaption; captionLines := captionLines st;
       isParsingImagePrompt := true;
       imagePromptLines :=
         if Js.truthy promptPart then imagePromptLines st ++ [promptPart]
         else imagePromptLines st |}
  else if inCaption then
    {| headline := headline st; highlightPhrases := highlightPhrases st;
       sourceName := sourceName st;
       isParsingCaption := inCaption; captionLines := captionLines st ++ [Js.trim line];
       isParsingImagePrompt := inPrompt; imagePromptLines := imagePromptLines st |}
  else if inPrompt then
    {| headline := headline st; highlightPhrases := highlightPhrases st;
       sourceName := sourceName st;
       isParsingCaption := inCaption; captionLines := captionLines st;
       isParsingImagePrompt := inPrompt;
       imagePromptLines := imagePromptLines st ++ [Js.trim line] |}
  else
    {| headline := headline st; highlightPhrases := highlightPhrases st;
       sourceName := sourceName st;
       isParsingCaption := inCaption; captionLines := captionLines st;
       isParsingImagePrompt := inPrompt; imagePromptLines := imagePromptLines st |}.

(** [if (lines.length > 0) field = lines.filter(Boolean).join(sep)] *)
Definition joinedField (lines : list string) (sep : string) : option string :=
  match lines with
  | [] => None
  | _ => Some (Js.join sep (List.filter Js.truthy lines))
  end.

Definition parseFailure : Thrown :=
  ErrorObj "Could not parse all required fields from the AI response. The format might be incorrect.".

Definition parseAnalysisResponse (text : string) : Thrown + Analysis.NewsAnalysis :=
  let st := fold_left parseLine (Js.split "010" text) parseInit in
  let caption := joinedField (captionLines st) (String "010" "") in
  let imagePrompt := joinedField (imagePromptLines st) " " in
  match headline st, caption, sourceName st, imagePrompt with
  | Some h, Some c, Some n, Some p =>
      if Js.falsy (Some h) || Js.falsy (Some c) || Js.falsy (Some n)
         || (length (highlightPhrases st) =? 0) || Js.falsy (Some p)
      then inl parseFailure
      else inr {| Analysis.headline := h;
                  Analysis.highlightPhrases := highlightPhrases st;
                  Analysis.caption := c;
                  Analysis.imagePrompt := p;
                  Analysis.sourceName := n |}
  | _, _, _, _ => inl parseFailure
  end.

(** The regular expression [^CHOSEN_ID:\s*(\d+)] tried at one line start,
    and [parseInt] of its group. *)
Definition chosenIdAt (s : string) : option nat :=
  if Js.startsWith s "CHOSEN_ID:" then
    let '(value, digits) := Js.leadingDigits 0 0 (Js.trimStart (Js.drop 10 s)) in
    if digits =? 0 then None else Some value
  else None.

(** [responseText.match(...)] with the flag [m]: the first line start, from
    the left, where the expression matches. *)
Fixpoint chosenIdFrom (atLineStart : bool) (s : string) : option nat :=
  match (if atLineStart then chosenIdAt s else None) with
  | Some n => Some n
  | None =>
      match s with
      | EmptyString => None
      | String c s' => chosenIdFrom (Js.isLineTerminator c) s'
      end
  end.

Definition chosenIdMatch (responseText : string) : option nat :=
  chosenIdFrom true responseText.

(** The message of the error the [catch] block throws. *)
Definition wrapError (error : Thrown) : Thrown :=
  ErrorObj
    match error with
    | ErrorObj message =>
        if Js.includes message "RESOURCE_EXHAUSTED"
        then "AI request failed due to rate limits (RESOURCE_EXHAUSTED). The application made too many requests in a short period. Please wait and try again."
        else "Failed to analyze the news article. " +:+ message
    | NotAnError => "Failed to analyze the news article."
    end.

Section Gemini.
(** The outside world the service calls change. *)
Variable W : Type.
(** [ai.models.generateContent] on the prompt built from the articles,
    then [response.text]: [None] when the response has no text. *)
Variable generateContent : list Article.NewsDataArticle → Exec W (option string).

Local Open Scope exec_scope.

Definition findAndAnalyzeBestArticleFromList (articles : list Article.NewsDataArticle)
    : Exec W (option (Analysis.NewsAnalysis * Article.NewsDataArticle)) :=
  Exec.tryCatch
    (text ← generateContent articles;
     let responseText := option_map Js.trim text in
     if Js.falsy responseText then
       Exec.throw (ErrorObj "Received an empty text response from the API.")
     else
       let responseText := default "" responseText in
       if String.eqb (Js.toUpperCase responseText) "IRRELEVANT" then Exec.ret None
       else
         match chosenIdMatch responseText with
         | None => Exec.throw (ErrorObj "AI response did not include a valid CHOSEN_ID.")
         | Some chosenId =>
             match (match chosenId with 0 => None | S i => articles !! i end) with
             | None =>
                 Exec.throw (ErrorObj ("AI chose an invalid ID: " +:+ pretty chosenId
                   +:+ " from a list of " +:+ pretty (length articles) +:+ " articles."))
             | Some chosenArticle =>
                 match parseAnalysisResponse responseText with
                 | inl e => Exec.throw e
                 | inr analysis => Exec.ret (Some (analysis, chosenArticle))
                 end
             end
         end)
    (λ error, Exec.throw (wrapError error)).

(** ** What a parsed analysis and a chosen article are *)

(** The invariant of an analysis: no field is empty, there is at least one
    highlight phrase, and none of them is empty. *)
Definition validAnalysis (a : Analysis.NewsAnalysis) : Prop :=
  Analysis.headline a ≠ ""
  ∧ Analysis.highlightPhrases a ≠ []
  ∧ Forall (λ phrase, phrase ≠ "") (Analysis.highlightPhrases a)
  ∧ Analysis.caption a ≠ ""
  ∧ Analysis.imagePrompt a ≠ ""
  ∧ Analysis.sourceName a ≠ "".

Lemma truthy_nonempty s : Js.truthy s = true → s ≠ "".
Proof. unfold Js.truthy. by destruct (String.eqb_spec s ""). Qed.

Lemma falsy_Some_false s : Js.falsy (Some s) = false → s ≠ "".
Proof. simpl. by destruct (String.eqb_spec s ""). Qed.

Lemma splitPhrases_nonempty value : Forall (λ phrase, phrase ≠ "") (splitPhrases value).
Proof.
  unfold splitPhrases. apply Forall_forall. intros phrase Hin.
  apply list_elem_of_In, filter_In in Hin as [_ Htruthy].
  by apply truthy_nonempty.
Qed.

Lemma parseLine_phrases st line :
  Forall (λ phrase, phrase ≠ "") (highlightPhrases st) →
  Forall (λ phrase, phrase ≠ "") (highlightPhrases (parseLine st line)).
Proof.
  intros Hst. unfold parseLine.
  repeat match goal with
         | |- context [if ?b then _ else _] => destruct b
         end; simpl; try done; apply splitPhrases_nonempty.
Qed.

Lemma parseLines_phrases lines st :
  Forall (λ phrase, phrase ≠ "") (highlightPhrases st) →
  Forall (λ phrase, phrase ≠ "") (highlightPhrases (fold_left parseLine lines st)).
Proof.
  revert st. induction lines as [| line lines IH]; intros st Hst; simpl; [done |].
  by apply IH, parseLine_phrases.
Qed.

(** [parseAnalysisResponse] returns a valid analysis or throws. *)
Lemma parseAnalysisResponse_valid text a :
  parseAnalysisResponse text = inr a → validAnalysis a.
Proof.
  unfold parseAnalysisResponse.
  pose proof (parseLines_phrases (Js.split "010" text) parseInit (Forall_nil_2 _)) as Hphrases.
  set (st := fold_left parseLine (Js.split "010" text) parseInit) in *.
  destruct (headline st) as [h |]; [| done].
  destruct (joinedField (captionLines st) _) as [c |]; [| done].
  destruct (sourceName st) as [n |]; [| done].
  destruct (joinedField (imagePromptLines st) _) as [p |]; [| done].
  destruct (Js.falsy (Some h)) eqn:Hh; [done |].
  destruct (Js.falsy (Some c)) eqn:Hc; [done |].
  destruct (Js.falsy (Some n)) eqn:Hn; [done |].
  destruct (length (highlightPhrases st) =? 0) eqn:Hlen; [done |].
  destruct (Js.falsy (Some p)) eqn:Hp; [done |].
  simpl. intros [= <-]. unfold validAnalysis. simpl.
  apply falsy_Some_false in Hh, Hc, Hn, Hp. apply Nat.eqb_neq in Hlen.
  repeat split; try done. intros E. by rewrite E in Hlen.
Qed.

(** What [findAndAnalyzeBestArticleFromList] returns, when it returns an
    article: one of the articles it was given, with a valid analysis. *)
Lemma findAndAnalyze_chosen articles w w' a chosen :
  findAndAnalyzeBestArticleFromList articles w = (w', inr (Some (a, chosen))) →
  chosen ∈ articles ∧ validAnalysis a.
Proof.
  unfold findAndAnalyzeBestArticleFromList, Exec.tryCatch, Exec.bind, Exec.throw, Exec.ret.
  destruct (generateContent articles w) as [w1 [e | text]]; [done |].
  destruct (Js.falsy (option_map Js.trim text)); [done |].
  destruct (String.eqb _ "IRRELEVANT"); [done |].
  destruct (chosenIdMatch _) as [[| i] |]; [done | | done].
  destruct (articles !! i) as [chosenArticle |] eqn:Hi; [| done].
  destruct (parseAnalysisResponse _) as [e | analysis] eqn:Hparse; [done |].
  intros [= <- <- <-]. split.
  - by eapply list_elem_of_lookup_2.
  - by eapply parseAnalysisResponse_valid.
Qed.

(** It throws nothing but errors. *)
Lemma findAndAnalyze_throws articles w w' e :
  findAndAnalyzeBestArticleFromList articles w = (w', inl e) →
  ∃ message, e = ErrorObj message.
Proof.
  unfold findAndAnalyzeBestArticleFromList, Exec.tryCatch, Exec.bind, Exec.throw, Exec.ret, wrapError.
  repeat match goal with
         | |- context [match ?x with _ => _ end] => destruct x
         end; intros [= <- <-]; eauto.
Qed.

End Gemini.

End Gemini.

(* ===================================================================== *)
(** * src/utils/canvas.ts *)
(* ===================================================================== *)

Module Canvas.

(** What [context.measureText(t).width] returns under the font the context
    currently has. *)
Definition Measure := string → Q.

(** The loop of [calculateLines]: [lines] and [currentLine] are the two
    mutable locals. *)
Fixpoint wrapWords (measureText : Measure) (maxWidth : Q)
    (words : list string) (currentLine : string) (lines : list string)
    : list string :=
  match words with
  | [] => lines ++ [currentLine]
  | word :: rest =>
      let testLine :=
        if 0 <? Js.len currentLine then currentLine +:+ " " +:+ word else word in
      if negb (Qle_bool (measureText testLine) maxWidth) && (0 <? Js.len currentLine)
      then wrapWords measureText maxWidth rest word (lines ++ [currentLine])
      else wrapWords measureText maxWidth rest testLine lines
  end.

Definition calculateLines (measureText : Measure) (text : string) (maxWidth : Q)
    : list string :=
  wrapWords measureText maxWidth (Js.split " " text) "" [].

(** ** The headline fitting loop of [composeImage] *)

(** [size], [imageTop = size * 0.3], the two text margins, and the box the
    headline has to fit.  [1080 * 0.3] and the two differences are exact in
    doubles. *)
Definition size : Q := 1080.
Definition imageTop : Q := size * (3 # 10).
Definition textTopMargin : Q := 60.
Definition textSideMargin : Q := 60.
Definition maxTextHeight : Q := imageTop - textTopMargin - 40.
Definition maxWidth : Q := size - textSideMargin * 2.

(** The locals the loop assigns: [fontSize], [lineHeight] and [lines]
    (both declared without a value), and the size in [ctx.font]. *)
Record FitState := {
  fontSize : Z;
  ctxFont : Z;
  lineHeight : option Q;
  lines : option (list string);
}.

(** Before the loop: [let fontSize = 72], [ctx.font = "bold 72px ..."]. *)
Definition fitInit : FitState :=
  {| fontSize := 72; ctxFont := 72; lineHeight := None; lines := None |}.

(** [measureAt f] is [measureText] under ["bold <f>px Poppins"]. *)
Definition lineHeightAt (f : Z) : Q := inject_Z f * (12 # 10).

Definition linesAt (measureAt : Z → Measure) (headline : string) (f : Z) : list string :=
  calculateLines (measureAt f) headline maxWidth.

(** [lines.length * lineHeight <= maxTextHeight].  For the sizes the loop
    tries the product is a multiple of 4.8 and the bound is 224: the two are
    never closer than 1.6, so the rounding of the double product does not
    change the comparison. *)
Definition fitsAt (measureAt : Z → Measure) (headline : string) (f : Z) : bool :=
  Qle_bool (inject_Z (Z.of_nat (length (linesAt measureAt headline f))) * lineHeightAt f)
           maxTextHeight.

(** The three assignments at the top of the loop body. *)
Definition tryFont (measureAt : Z → Measure) (headline : string) (st : FitState) : FitState :=
  {| fontSize := fontSize st;
     ctxFont := fontSize st;
     lineHeight := Some (lineHeightAt (fontSize st));
     lines := Some (linesAt measureAt headline (fontSize st)) |}.

(** [fontSize -= 4] *)
Definition shrink (st : FitState) : FitState :=
  {| fontSize := fontSize st - 4;
     ctxFont := ctxFont st;
     lineHeight := lineHeight st;
     lines := lines st |}.

(** [while (fontSize > 20) { ...; if (currentHeight <= maxTextHeight) break;
    fontSize -= 4; }] *)
Equations? fitLoop (measureAt : Z → Measure) (headline : string) (st : FitState)
    : FitState by wf (Z.to_nat (fontSize st - 20)) lt :=
  fitLoop measureAt headline st with Logic.inspect (20 <? fontSize st)%Z := {
    | exist _ false _ => st
    | exist _ true Hgt with Logic.inspect (fitsAt measureAt headline (fontSize st)) := {
        | exist _ true _ => tryFont measureAt headline st
        | exist _ false _ => fitLoop measureAt headline (shrink (tryFont measureAt headline st)) } }.
Proof. simpl. apply Z.ltb_lt in Hgt. lia. Qed.

(** The layout [drawHeadlineWithHighlights] is called with. *)
Definition fitHeadline (measureAt : Z → Measure) (headline : string) : FitState :=
  fitLoop measureAt headline fitInit.

(** ** [drawHeadlineWithHighlights] *)

(** The two calls that paint, with the [fillStyle] in force. *)
Inductive DrawOp :=
  | FillRect (fillStyle : string) (x y w h : Q)
  | FillText (fillStyle : string) (text : string) (x y : Q).

Definition isFillRect (op : DrawOp) : Prop :=
  match op with FillRect _ _ _ _ _ => True | FillText _ _ _ _ => False end.

(** [while ((startIndex = lineText.toLowerCase().indexOf(phrase.toLowerCase(),
    searchFromIndex)) !== -1) { ...; searchFromIndex = startIndex + 1; }]
    run for at most [fuel] rounds: the start offsets found, in the order
    found, and whether the loop was exited. *)
Fixpoint findMatches (fuel : nat) (lineText phrase : string) (searchFromIndex : nat)
    : list nat * bool :=
  match fuel with
  | 0 => ([], false)
  | S fuel' =>
      match Js.indexOf (Js.toLowerCase lineText) (Js.toLowerCase phrase) searchFromIndex with
      | None => ([], true)
      | Some startIndex =>
          let '(found, exited) := findMatches fuel' lineText phrase (startIndex + 1) in
          (startIndex :: found, exited)
      end
  end.

(** The body of that loop: the rectangle behind one match. *)
Definition highlightRect (measureText : Measure) (lineText phrase : string)
    (startX currentY lineHeight : Q) (startIndex : nat) : DrawOp :=
  let beforeText := Js.substring lineText 0 startIndex in
  let highlightText := Js.substring lineText startIndex (startIndex + Js.len phrase) in
  let offsetX := measureText beforeText in
  let phraseWidth := measureText highlightText in
  let highlightHeight := (lineHeight * (45 # 100))%Q in
  let highlightYOffset := (lineHeight * (4 # 10))%Q in
  FillRect "#ef4444" (startX + offsetX)%Q (currentY + highlightYOffset)%Q
           phraseWidth highlightHeight.

(** [for (const phrase of highlightPhrases) { while ... }]: what was painted
    and whether the loop over the phrases was exited. *)
Fixpoint drawHighlights (fuel : nat) (measureText : Measure) (lineText : string)
    (highlightPhrases : list string) (startX currentY lineHeight : Q)
    : list DrawOp * bool :=
  match highlightPhrases with
  | [] => ([], true)
  | phrase :: rest =>
      let '(found, exited) := findMatches fuel lineText phrase 0 in
      let rects := map (highlightRect measureText lineText phrase startX currentY lineHeight) found in
      if exited then
        let '(ops, done) := drawHighlights fuel measureText lineText rest startX currentY lineHeight in
        (rects ++ ops, done)
      else (rects, false)
  end.

(** One round of the loop over the lines: the highlights, then the text. *)
Definition drawLine (fuel : nat) (measureText : Measure) (lineText : string)
    (highlightPhrases : list string) (x currentY lineHeight : Q)
    : list DrawOp * bool :=
  let totalLineWidth := measureText lineText in
  let startX := (x - totalLineWidth / 2)%Q in
  let '(rects, exited) :=
    drawHighlights fuel measureText lineText highlightPhrases startX currentY lineHeight in
  if exited then (rects ++ [FillText "#111827" lineText startX currentY], true)
  else (rects, false).

Fixpoint drawHeadlineWithHighlights (fuel : nat) (measureText : Measure)
    (lines : list string) (highlightPhrases : list string) (x y lineHeight : Q)
    : list DrawOp * bool :=
  match lines with
  | [] => ([], true)
  | lineText :: rest =>
      let '(ops, done) := drawLine fuel measureText lineText highlightPhrases x y lineHeight in
      if done then
        let '(ops', done') :=
          drawHeadlineWithHighlights fuel measureText rest highlightPhrases x (y + lineHeight)%Q lineHeight in
        (ops ++ ops', done')
      else (ops, false)
  end.

(** ** [loadImage] and [composeImage] *)

(** What [skiaLoadImage] is given: the address, or the bytes decoded from
    the base64 part of a data URL. *)
Inductive ImageSource :=
  | FromUrl (src : string)
  | FromBuffer (base64Data : string).

Section Compose.
Variable W : Type.
Variable Image : Type.
Variable skiaLoadImage : ImageSource → Exec W Image.
Variable loadFont : string → string → string → Exec W unit.
(** [measureText] under ["bold <f>px Poppins"], once the fonts are in. *)
Variable measureAt : Z → Measure.
(** The rest of the painting (background, cropped picture, separator,
    overlay, logo, brand text) around the headline, and
    [canvas.toDataURL('png')]. *)
Variable toDataURL : Image → Image → Image → string → list DrawOp → Exec W string.
(** Which of several failed loads [Promise.all] reports. *)
Variable earliest : list Thrown → nat.

Local Open Scope exec_scope.

Definition loadImage (src : string) : Exec W Image :=
  if Js.startsWith src "data:" then
    match Js.split "," src !! 1 with
    | Some base64Data =>
        if Js.truthy base64Data then skiaLoadImage (FromBuffer base64Data)
        else Exec.throw (ErrorObj "Invalid data URL: missing base64 content.")
    | None => Exec.throw (ErrorObj "Invalid data URL: missing base64 content.")
    end
  else skiaLoadImage (FromUrl src).

(** The calls that paint the headline: the fitting loop, then
    [drawHeadlineWithHighlights(ctx, lines, highlightPhrases, size / 2,
    textTopMargin, lineHeight)].  The fuel is beyond the length of every
    line, so every scan for a phrase that is not empty runs to its end
    ([headlineOps_exits] below). *)
Definition headlineOps (headline : string) (highlightPhrases : list string)
    : list DrawOp * bool :=
  let fit := fitHeadline measureAt headline in
  drawHeadlineWithHighlights (Js.len headline + 2) (measureAt (ctxFont fit))
    (default [] (lines fit)) highlightPhrases (size / 2)%Q textTopMargin
    (default 0%Q (lineHeight fit)).

Definition poppins : string :=
  "https://fonts.gstatic.com/s/poppins/v20/pxiByp8kv8JHgFVrLCz7Z1xlFQ.woff2".
Definition inter : string :=
  "https://fonts.gstatic.com/s/inter/v12/UcC73FwrK3iLTeHuS_fvQtMwCp50KnMa1ZL7.woff2".

(** The three loads, the fonts, the painting (synchronous: if the scan of
    a phrase does not end, neither does the call), and the encoding. *)
Definition composeImage (mainImageSrc headline : string) (highlightPhrases : list string)
    (logoUrl brandText overlayUrl : string) : Run W string :=
  (images ← Run.lift
     (Exec.all earliest [loadImage mainImageSrc; loadImage overlayUrl; loadImage logoUrl]);
   match images with
   | [mainImage; overlayImage; logoImage] =>
       Run.lift (loadFont poppins "Poppins" "700");;
       Run.lift (loadFont inter "Inter" "400");;
       Run.lift (loadFont inter "Inter" "600");;
       match headlineOps headline highlightPhrases with
       | (ops, true) =>
           Run.lift (toDataURL mainImage overlayImage logoImage brandText ops)
       | (_, false) => Run.never
       end
   | _ => Run.throw NotAnError (* three promises give three results *)
   end)%run.

(** There is no composite without the main picture: when it does not
    load, [composeImage] throws. *)
Lemma composeImage_needs_main_image mainImageSrc headline highlightPhrases
    logoUrl brandText overlayUrl w w1 err :
  loadImage mainImageSrc w = (w1, inl err) →
  ∃ w' err',
    composeImage mainImageSrc headline highlightPhrases logoUrl brandText overlayUrl w =
      (w', inl err').
Proof.
  intros Hmain. unfold composeImage, Run.bind, Run.lift, Exec.all.
  cbn [Exec.settleAll]. rewrite Hmain.
  destruct (loadImage overlayUrl w1) as [w2 r2].
  destruct (loadImage logoUrl w2) as [w3 r3].
  cbn [Exec.rejections omap]. simpl. eauto.
Qed.

(** [composeImage] fails to return only in the painting of the headline. *)
Lemma composeImage_never mainImageSrc headline highlightPhrases
    logoUrl brandText overlayUrl w w' :
  composeImage mainImageSrc headline highlightPhrases logoUrl brandText overlayUrl w =
    (w', inr None) →
  (headlineOps headline highlightPhrases).2 = false.
Proof.
  unfold composeImage, Run.bind, Run.lift, Run.throw, Run.never, Exec.all.
  destruct (Exec.settleAll _ w) as [w1 rs].
  destruct (Exec.rejections rs); [| done].
  destruct (Exec.fulfilments rs) as [| mainImage [| overlayImage [| logoImage [|]]]];
    try done.
  destruct (loadFont poppins "Poppins" "700" w1) as [w2 [e | []]]; [done |].
  destruct (loadFont inter "Inter" "400" w2) as [w3 [e | []]]; [done |].
  destruct (loadFont inter "Inter" "600" w3) as [w4 [e | []]]; [done |].
  destruct (headlineOps headline highlightPhrases) as [ops [|]]; [| done].
  by destruct (toDataURL _ _ _ _ _ w4) as [w5 [e | url]].
Qed.

End Compose.

(** [phrase] occurs in [lineText] at offset [i], letter case apart. *)
Definition matchesAt (lineText phrase : string) (i : nat) : Prop :=
  Js.occursAt (Js.toLowerCase lineText) (Js.toLowerCase phrase) i.

(** ** The fitting loop: bounded decrements and the smallest size *)

(** The value of [fontSize] after [k] decrements from 72. *)
Definition sizeAfter (k : nat) : Z := 72 - 4 * Z.of_nat k.

Section FitLoop.
Variable measureAt : Z → Measure.
Variable headline : string.

(** [st] holds the layout computed under the size in [ctx.font]. *)
Definition laidOut (st : FitState) : Prop :=
  lineHeight st = Some (lineHeightAt (ctxFont st))
  ∧ lines st = Some (linesAt measureAt headline (ctxFont st)).

(** What the loop leaves behind after [k] decrements in all. *)
Definition fitResult (k : nat) (r : FitState) : Prop :=
  fontSize r = sizeAfter k
  ∧ laidOut r
  ∧ (∀ j, j < k → fitsAt measureAt headline (sizeAfter j) = false)
  ∧ ((k < 13 ∧ ctxFont r = sizeAfter k
      ∧ fitsAt measureAt headline (ctxFont r) = true)
     ∨ (k = 13 ∧ ctxFont r = 24%Z)).

Lemma fitLoop_from (st : FitState) :
  ∀ k, k ≤ 13 →
    fontSize st = sizeAfter k →
    (k = 0 ∨ (ctxFont st = sizeAfter (k - 1) ∧ laidOut st)) →
    (∀ j, j < k → fitsAt measureAt headline (sizeAfter j) = false) →
    ∃ k', k ≤ k' ≤ 13 ∧ fitResult k' (fitLoop measureAt headline st).
Proof.
  funelim (fitLoop measureAt headline st).
  all: intros k Hk Hsize Hprev Hnone.
  - (* the guard fails: thirteen decrements were made *)
    match goal with E : (20 <? _)%Z = false |- _ => pose proof (proj1 (Z.ltb_ge _ _) E) as Hle end.
    assert (k = 13) as -> by (unfold sizeAfter in Hsize; lia).
    exists 13. split; [lia |].
    destruct Hprev as [? | [Hctx Hlaid]]; [lia |].
    split; [exact Hsize |]. split; [exact Hlaid |]. split; [exact Hnone |].
    right. split; [done |]. rewrite Hctx. reflexivity.
  - (* the size fits: break *)
    match goal with E : (20 <? _)%Z = true |- _ => pose proof (proj1 (Z.ltb_lt _ _) E) as Hlt end.
    match goal with E : fitsAt _ _ _ = true |- _ => rename E into Hfit end.
    exists k. split; [lia |].
    split; [exact Hsize |]. split; [by split |]. split; [exact Hnone |].
    left. split; [unfold sizeAfter in Hsize; lia |]. split; [exact Hsize | exact Hfit].
  - (* the size does not fit: decrement and go round again *)
    match goal with E : (20 <? _)%Z = true |- _ => pose proof (proj1 (Z.ltb_lt _ _) E) as Hlt end.
    match goal with E : fitsAt _ _ _ = false |- _ => rename E into Hfit end.
    match goal with IH : ∀ k : nat, _ |- _ => destruct (IH (S k)) as (k' & Hk' & Hres) end.
    + unfold sizeAfter in Hsize. lia.
    + simpl. unfold sizeAfter in *. lia.
    + right. replace (S k - 1) with k by lia. split; [exact Hsize |].
      split; reflexivity.
    + intros j Hj. destruct (decide (j = k)) as [-> | Hne].
      * by rewrite <- Hsize.
      * apply Hnone. lia.
    + exists k'. split; [lia | done].
Qed.

(** The layout the loop hands on is the one of the size in [ctx.font]. *)
Lemma fitHeadline_laidOut : laidOut (fitHeadline measureAt headline).
Proof.
  destruct (fitLoop_from fitInit 0) as (k & _ & _ & Hlaid & _);
    [lia | done | by left | intros; lia |].
  exact Hlaid.
Qed.

(** C5. For every headline and every way of measuring text, the fitting
    loop of [composeImage] returns (it is a total function, by a measure
    that each round decreases), after at most 13 decrements of 4 from 72.
    The size the headline is rendered with, the one left in [ctx.font], is
    one of 72, 68, ..., 24: never below 24, the smallest size the loop body
    runs with (the bound 20 of the guard is exclusive).  The layout handed
    to the drawing step is the one computed under that size, and no larger
    size fits.  When not even 24 fits, rendering still goes ahead at 24,
    with the lines and the line height of 24. *)
Theorem fitHeadline_terminates_above_floor :
  let r := fitHeadline measureAt headline in
  ∃ k, k ≤ 13
    ∧ fontSize r = sizeAfter k
    ∧ (24 ≤ ctxFont r ≤ 72)%Z
    ∧ lines r = Some (calculateLines (measureAt (ctxFont r)) headline maxWidth)
    ∧ lineHeight r = Some (inject_Z (ctxFont r) * (12 # 10))%Q
    ∧ (∀ j, j < k → fitsAt measureAt headline (sizeAfter j) = false)
    ∧ ((k < 13 ∧ ctxFont r = sizeAfter k ∧ fitsAt measureAt headline (ctxFont r) = true)
       ∨ (k = 13 ∧ ctxFont r = 24%Z ∧ fitsAt measureAt headline 24 = false)).
Proof.
  intros r.
  destruct (fitLoop_from fitInit 0) as (k & Hk & Hsize & [Hlh Hlines] & Hnone & Hend);
    [lia | done | by left | intros; lia |].
  fold (fitHeadline measureAt headline) in *. fold r in Hsize, Hlh, Hlines, Hend.
  exists k. split; [lia |]. split; [done |].
  split.
  { destruct Hend as [(Hlt & -> & _) | (_ & ->)]; unfold sizeAfter; lia. }
  repeat split; try done.
  destruct Hend as [(Hlt & Hctx & Hfit) | (-> & Hctx)]; [by left |].
  right. repeat split; try done.
  apply (Hnone 12). lia.
Qed.

End FitLoop.

(** ** Word wrap: the width bound *)

Section WordWrap.
Variable measureText : Measure.
Variable maxWidth : Q.
Variable allWords : list string.

(** A line that may be pushed: it fits, or it is one word of the text
    that is too wide by itself. *)
Definition lineOk (line : string) : Prop :=
  (measureText line <= maxWidth)%Q
  ∨ (line ∈ allWords ∧ (maxWidth < measureText line)%Q).

Definition fitsOrWord (line : string) : Prop :=
  (measureText line <= maxWidth)%Q ∨ line ∈ allWords.

Lemma fitsOrWord_lineOk line : fitsOrWord line → lineOk line.
Proof.
  intros [Hfit | Hword]; [by left |].
  destruct (Qlt_le_dec maxWidth (measureText line)) as [Hwide | Hfit].
  - right. by split.
  - by left.
Qed.

Lemma wrapWords_lineOk words currentLine lines :
  (∀ w, w ∈ words → w ∈ allWords) →
  Forall lineOk lines →
  (Js.len currentLine = 0 ∧ words ≠ []) ∨ fitsOrWord currentLine →
  Forall lineOk (wrapWords measureText maxWidth words currentLine lines).
Proof.
  revert currentLine lines.
  induction words as [| word rest IH]; intros currentLine lines Hsub Hlines Hcur; simpl.
  - apply Forall_app. split; [done |].
    apply Forall_singleton, fitsOrWord_lineOk.
    by destruct Hcur as [[_ ?] | ?].
  - assert (Hrest : ∀ w, w ∈ rest → w ∈ allWords)
      by (intros w Hw; apply Hsub; by right).
    assert (Hword : word ∈ allWords) by (apply Hsub; by left).
    destruct (0 <? Js.len currentLine) eqn:Hlen.
    + apply Nat.ltb_lt in Hlen.
      assert (Hok : fitsOrWord currentLine)
        by (destruct Hcur as [[? _] | ?]; [lia | done]).
      destruct (Qle_bool (measureText (currentLine +:+ " " +:+ word)) maxWidth) eqn:Hfit; simpl.
      * apply IH; [done | done |].
        right. left. by apply Qle_bool_iff.
      * apply IH; [done | | right; by right].
        apply Forall_app. split; [done |].
        by apply Forall_singleton, fitsOrWord_lineOk.
    + rewrite andb_false_r. apply IH; [done | done |]. right. by right.
Qed.

End WordWrap.

(** C4. Whatever the text and the bounding width, every line that
    [calculateLines] returns measures at most the bounding width, unless the
    line is a single word of the text (a piece of [text.split(' ')]) that is
    wider than the bound by itself. *)
Theorem calculateLines_width_bound (measureText : Measure) (text : string) (maxWidth : Q) :
  ∀ line, line ∈ calculateLines measureText text maxWidth →
    (measureText line <= maxWidth)%Q
    ∨ (line ∈ Js.split " " text ∧ (maxWidth < measureText line)%Q).
Proof.
  intros line Hin.
  assert (H : Forall (lineOk measureText maxWidth (Js.split " " text))
                 (calculateLines measureText text maxWidth)).
  { apply wrapWords_lineOk; [done | constructor |].
    left. split; [done | apply Js.split_nonempty]. }
  rewrite Forall_forall in H. by apply H.
Qed.

Lemma calculateLines_width_bound_witness :
  let measureText : Measure := λ s, inject_Z (Z.of_nat (Js.len s)) in
  "brown fox" ∈ calculateLines measureText "the quick brown fox" 9 ∧
  ((measureText "brown fox" <= 9)%Q
   ∨ ("brown fox" ∈ Js.split " " "the quick brown fox" ∧ (9 < measureText "brown fox")%Q)).
Proof.
  intros measureText.
  assert (Hin : "brown fox" ∈ calculateLines measureText "the quick brown fox" 9).
  { vm_compute. apply list_elem_of_In. simpl. tauto. }
  split; [exact Hin |].
  exact (calculateLines_width_bound measureText "the quick brown fox" 9 "brown fox" Hin).
Defined.

(** ** The highlight scan *)

Section HighlightScan.
Variable lineText phrase : string.

Lemma findMatches_sound fuel from i :
  i ∈ (findMatches fuel lineText phrase from).1 → matchesAt lineText phrase i.
Proof.
  revert from. induction fuel as [| fuel IH]; intros from; simpl.
  - by intros ?%elem_of_nil.
  - destruct (Js.indexOf _ _ from) as [j |] eqn:Hidx; simpl.
    + destruct (findMatches fuel lineText phrase (j + 1)) as [found exited] eqn:Hrec.
      simpl. intros [-> | Hin]%elem_of_cons.
      * by apply Js.indexOf_Some in Hidx as (_ & ? & _).
      * apply (IH (j + 1)). by rewrite Hrec.
    + by intros ?%elem_of_nil.
Qed.

Lemma findMatches_eventually i :
  matchesAt lineText phrase i →
  ∀ fuel from, from ≤ i → i - from < fuel →
    i ∈ (findMatches fuel lineText phrase from).1.
Proof.
  intros Hocc. pose proof (Js.occursAt_bound _ _ _ Hocc) as Hb.
  rewrite !Js.len_toLowerCase in Hb.
  induction fuel as [| fuel IH]; intros from Hfrom Hfuel; [lia |]. simpl.
  destruct (Js.indexOf _ _ from) as [j |] eqn:Hidx.
  - apply Js.indexOf_Some in Hidx as (Hle & Hj & Hleast).
    rewrite Js.len_toLowerCase in Hle, Hleast.
    destruct (findMatches fuel lineText phrase (j + 1)) as [found exited] eqn:Hrec. simpl.
    destruct (decide (i = j)) as [-> | Hne]; [by left |].
    right.
    assert (j < i).
    { destruct (decide (i < j)) as [Hlt |]; [| lia].
      exfalso. apply (Hleast i); [lia | done]. }
    specialize (IH (j + 1)). rewrite Hrec in IH. apply IH; lia.
  - exfalso. apply (Js.indexOf_None _ _ _ Hidx i); [| done].
    rewrite Js.len_toLowerCase. lia.
Qed.

Lemma findMatches_complete :
  phrase ≠ "" →
  ∀ fuel from, Js.len lineText - from < fuel →
    ∃ offsets, findMatches fuel lineText phrase from = (offsets, true)
      ∧ StronglySorted lt offsets
      ∧ ∀ i, i ∈ offsets ↔ from ≤ i ∧ matchesAt lineText phrase i.
Proof.
  intros Hne.
  assert (Hp : 0 < Js.len phrase) by (destruct phrase; simpl; [done | lia]).
  induction fuel as [| fuel IH]; intros from Hfuel; [lia |]. simpl.
  destruct (Js.indexOf _ _ from) as [j |] eqn:Hidx.
  - apply Js.indexOf_Some in Hidx as (Hle & Hj & Hleast).
    pose proof (Js.occursAt_bound _ _ _ Hj) as Hb.
    rewrite Js.len_toLowerCase in Hle, Hleast. rewrite !Js.len_toLowerCase in Hb.
    destruct (IH (j + 1)) as (offsets & -> & Hsorted & Hmem); [lia |].
    exists (j :: offsets). split; [done |]. split.
    + constructor; [done |]. apply Forall_forall. intros i [? _]%Hmem. lia.
    + intros i. rewrite elem_of_cons, Hmem. split.
      * intros [-> | [? ?]]; split; try done; lia.
      * intros [Hfrom Hocc].
        destruct (decide (i = j)) as [-> | Hij]; [by left |].
        right. split; [| done].
        destruct (decide (i < j)) as [Hlt |]; [| lia].
        exfalso. apply (Hleast i); [lia | done].
  - exists []. split; [done |]. split; [constructor |].
    intros i. split; [by intros ?%elem_of_nil |].
    intros [Hfrom Hocc]. exfalso.
    apply (Js.indexOf_None _ _ _ Hidx i); [| done].
    rewrite Js.len_toLowerCase. lia.
Qed.

End HighlightScan.

(** Whatever the fuel, a line is painted rectangles first. *)
Lemma drawHighlights_rects fuel measureText lineText highlightPhrases startX currentY lineHeight :
  Forall isFillRect
    (drawHighlights fuel measureText lineText highlightPhrases startX currentY lineHeight).1.
Proof.
  induction highlightPhrases as [| phrase rest IH]; simpl; [constructor |].
  destruct (findMatches fuel lineText phrase 0) as [found exited].
  assert (Hrects : Forall isFillRect
    (map (highlightRect measureText lineText phrase startX currentY lineHeight) found)).
  { apply Forall_forall. intros op (i & -> & _)%list_elem_of_fmap. exact I. }
  destruct exited; [| done].
  destruct (drawHighlights fuel measureText lineText rest startX currentY lineHeight)
    as [ops finished]; simpl in *.
  by apply Forall_app.
Qed.

(** With fuel beyond the length of the line and no empty phrase, the loop
    over the phrases is left, having painted one rectangle per match. *)
Lemma drawHighlights_complete fuel measureText lineText highlightPhrases startX currentY lineHeight :
  Forall (λ phrase, phrase ≠ "") highlightPhrases →
  Js.len lineText < fuel →
  drawHighlights fuel measureText lineText highlightPhrases startX currentY lineHeight =
    (flat_map (λ phrase,
        map (highlightRect measureText lineText phrase startX currentY lineHeight)
            (findMatches fuel lineText phrase 0).1) highlightPhrases,
     true).
Proof.
  intros Hne Hfuel.
  induction Hne as [| phrase rest Hp _ IH]; simpl; [done |].
  destruct (findMatches_complete lineText phrase Hp fuel 0) as (offsets & -> & _); [lia |].
  by rewrite IH.
Qed.

(** C6. For every line and every highlight phrase: the scan compares the
    lower-cased line with the lower-cased phrase, so a match is an
    occurrence of the phrase letter case apart; every start offset it
    reports is one, and every start offset of a match is reported, an
    overlapping one included, since the search resumes one character after
    the match found (offset [i] is reported within [i + 1] rounds).  For a
    phrase that is not empty the scan ends within [length + 1] rounds with
    each matching offset reported once, left to right.  Whatever the
    phrases, what is painted for a line is rectangles only, followed by the
    text of the line if the scans end; when no phrase is empty they do end,
    and the rectangles are those of all the matches of all the phrases. *)
Theorem highlight_scan_finds_every_match
    (measureText : Measure) (lineText phrase : string) :
  (∀ fuel i, i ∈ (findMatches fuel lineText phrase 0).1 → matchesAt lineText phrase i)
  ∧ (∀ i, matchesAt lineText phrase i →
       ∀ fuel, i < fuel → i ∈ (findMatches fuel lineText phrase 0).1)
  ∧ (phrase ≠ "" → ∀ fuel, Js.len lineText < fuel →
       ∃ offsets, findMatches fuel lineText phrase 0 = (offsets, true)
         ∧ StronglySorted lt offsets
         ∧ ∀ i, i ∈ offsets ↔ matchesAt lineText phrase i)
  ∧ (∀ fuel highlightPhrases x currentY lineHeight,
       ∃ rects, Forall isFillRect rects
         ∧ (drawLine fuel measureText lineText highlightPhrases x currentY lineHeight =
              (rects ++ [FillText "#111827" lineText
                           (x - measureText lineText / 2)%Q currentY], true)
            ∨ drawLine fuel measureText lineText highlightPhrases x currentY lineHeight =
              (rects, false)))
  ∧ (∀ fuel highlightPhrases x currentY lineHeight,
       Forall (λ p, p ≠ "") highlightPhrases → Js.len lineText < fuel →
       drawLine fuel measureText lineText highlightPhrases x currentY lineHeight =
         (flat_map (λ p,
            map (highlightRect measureText lineText p
                   (x - measureText lineText / 2)%Q currentY lineHeight)
                (findMatches fuel lineText p 0).1) highlightPhrases
          ++ [FillText "#111827" lineText (x - measureText lineText / 2)%Q currentY],
          true)).
Proof.
  split; [intros fuel i; apply findMatches_sound |].
  split; [intros i Hocc fuel Hfuel; apply findMatches_eventually; [done | lia | lia] |].
  split.
  { intros Hne fuel Hfuel.
    destruct (findMatches_complete lineText phrase Hne fuel 0) as (offsets & E & Hs & Hmem); [lia |].
    exists offsets. split; [done |]. split; [done |].
    intros i. rewrite Hmem. split; [by intros [_ ?] | intros ?; split; [lia | done]]. }
  split.
  - intros fuel highlightPhrases x currentY lineHeight. unfold drawLine.
    pose proof (drawHighlights_rects fuel measureText lineText highlightPhrases
                  (x - measureText lineText / 2)%Q currentY lineHeight) as Hrects.
    destruct (drawHighlights _ _ _ _ _ _ _) as [rects exited]. simpl in Hrects.
    exists rects. split; [done |]. destruct exited; [by left | by right].
  - intros fuel highlightPhrases x currentY lineHeight Hne Hfuel. unfold drawLine.
    by rewrite drawHighlights_complete.
Qed.

Lemma highlight_scan_finds_every_match_witness :
  let measureText : Measure := λ s, inject_Z (Z.of_nat (Js.len s)) in
  matchesAt "Dhaka aaa" "AA" 7
  ∧ 7 ∈ (findMatches 8 "Dhaka aaa" "AA" 0).1
  ∧ findMatches 10 "Dhaka aaa" "AA" 0 = ([6; 7], true)
  ∧ drawLine 10 measureText "Dhaka aaa" ["AA"; "dhaka"] 540 60 30 =
      ([FillRect "#ef4444" (540 - 9 / 2 + 6) (60 + 30 * (4 # 10)) 2 (30 * (45 # 100));
        FillRect "#ef4444" (540 - 9 / 2 + 7) (60 + 30 * (4 # 10)) 2 (30 * (45 # 100));
        FillRect "#ef4444" (540 - 9 / 2 + 0) (60 + 30 * (4 # 10)) 5 (30 * (45 # 100));
        FillText "#111827" "Dhaka aaa" (540 - 9 / 2) 60], true)%Q.
Proof.
  intros measureText.
  destruct (highlight_scan_finds_every_match measureText "Dhaka aaa" "AA")
    as (Hsound & Hall & Hends & _ & Hdraw).
  assert (Hocc : matchesAt "Dhaka aaa" "AA" 7).
  { apply (Hsound 10). vm_compute. apply list_elem_of_In. simpl. tauto. }
  split; [exact Hocc |].
  split; [apply (Hall 7 Hocc 8); lia |].
  split.
  - destruct (Hends ltac:(done) 10 ltac:(simpl; lia)) as (offsets & E & _). reflexivity.
  - rewrite (Hdraw 10 ["AA"; "dhaka"] 540%Q 60%Q 30%Q);
      [reflexivity | repeat constructor; done | simpl; lia].
Defined.

(** ** The drawing loops end *)

Lemma wrapWords_length measureText maxWidth words currentLine lines bound :
  Forall (λ line, Js.len line ≤ bound) lines →
  Js.len currentLine + sum_list (map (λ w, S (Js.len w)) words) ≤ bound →
  Forall (λ line, Js.len line ≤ bound)
    (wrapWords measureText maxWidth words currentLine lines).
Proof.
  revert currentLine lines.
  induction words as [| word rest IH]; intros currentLine lines Hlines Hbound; simpl in *.
  - apply Forall_app. split; [done |]. apply Forall_singleton. lia.
  - destruct (0 <? Js.len currentLine).
    + destruct (negb _ && true).
      * apply IH; [| lia]. apply Forall_app. split; [done |]. apply Forall_singleton. lia.
      * apply IH; [done |]. rewrite !Js.len_app. simpl. lia.
    + rewrite andb_false_r. apply IH; [done | lia].
Qed.

(** No line is longer than the text, give or take one. *)
Lemma calculateLines_length measureText text maxWidth :
  Forall (λ line, Js.len line ≤ S (Js.len text)) (calculateLines measureText text maxWidth).
Proof.
  apply wrapWords_length; [constructor |].
  rewrite Js.split_total_length. simpl. lia.
Qed.

Lemma drawHeadlineWithHighlights_exits fuel measureText lines highlightPhrases x y lineHeight :
  Forall (λ line, Js.len line < fuel) lines →
  Forall (λ phrase, phrase ≠ "") highlightPhrases →
  (drawHeadlineWithHighlights fuel measureText lines highlightPhrases x y lineHeight).2 = true.
Proof.
  intros Hlines Hphrases. revert y.
  induction Hlines as [| lineText rest Hline _ IH]; intros y; simpl; [done |].
  unfold drawLine. rewrite drawHighlights_complete by done.
  specialize (IH (y + lineHeight)%Q).
  by destruct (drawHeadlineWithHighlights fuel measureText rest highlightPhrases x _ lineHeight).
Qed.

(** With no empty phrase, the painting of the headline ends, whatever
    the headline and the font metrics. *)
Lemma headlineOps_exits (measureAt : Z → Measure) headline highlightPhrases :
  Forall (λ phrase, phrase ≠ "") highlightPhrases →
  (headlineOps measureAt headline highlightPhrases).2 = true.
Proof.
  intros Hphrases. unfold headlineOps.
  destruct (fitHeadline_laidOut measureAt headline) as [_ Hlines].
  rewrite Hlines. simpl default.
  apply drawHeadlineWithHighlights_exits; [| done].
  eapply Forall_impl; [apply calculateLines_length |]. simpl. intros. lia.
Qed.

(** The scan for the empty phrase never ends: [indexOf] finds it at every
    position, the length included, again and again. *)
Lemma findMatches_empty_phrase fuel lineText from :
  (findMatches fuel lineText "" from).2 = false.
Proof.
  revert from. induction fuel as [| fuel IH]; intros from; simpl; [done |].
  unfold Js.indexOf. rewrite Js.indexOfAt_eq. simpl.
  rewrite Js.prefix_empty.
  specialize (IH (from `min` Js.len (Js.toLowerCase lineText) + 1)).
  by destruct (findMatches fuel lineText "" _).
Qed.

End Canvas.

(* ===================================================================== *)
(** * The App component that reads the stream *)
(* ===================================================================== *)

Module StreamClient.

Record AppState := {
  tasks : list Task.BatchTask;
  completedCount : nat;
}.

(** [prevTasks.map(t => { if (t.id === update.id) { if (t.status ===
    TaskStatus.DONE) alreadyDone = true; return update; } return t; })],
    with the flag the callback assigns threaded through. *)
Fixpoint replaceTask (update : Task.BatchTask) (prevTasks : list Task.BatchTask)
    (alreadyDone : bool) : list Task.BatchTask * bool :=
  match prevTasks with
  | [] => ([], alreadyDone)
  | t :: rest =>
      if String.eqb (Task.id t) (Task.id update) then
        let alreadyDone' :=
          if decide (Task.status t = DONE) then true else alreadyDone in
        let '(newRest, flag) := replaceTask update rest alreadyDone' in
        (update :: newRest, flag)
      else
        let '(newRest, flag) := replaceTask update rest alreadyDone in
        (t :: newRest, flag)
  end.

(** The updater given to [setTasks], together with the
    [setCompletedCount(prev => prev + 1)] it issues. *)
Definition applyUpdate (st : AppState) (update : Task.BatchTask) : AppState :=
  let '(newTasks, alreadyDone) := replaceTask update (tasks st) false in
  {| tasks := newTasks;
     completedCount :=
       if bool_decide (Task.status update = DONE) && negb alreadyDone
       then completedCount st + 1 else completedCount st |}.

(** ** The updater: what it writes and when it counts *)

Lemma replaceTask_tasks update prevTasks flag :
  (replaceTask update prevTasks flag).1 =
    map (λ t, if String.eqb (Task.id t) (Task.id update) then update else t) prevTasks.
Proof.
  revert flag. induction prevTasks as [| t rest IH]; intros flag; simpl; [done |].
  destruct (String.eqb (Task.id t) (Task.id update)).
  - specialize (IH (if decide (Task.status t = DONE) then true else flag)).
    destruct (replaceTask update rest _). simpl in *. by rewrite IH.
  - specialize (IH flag). destruct (replaceTask update rest _). simpl in *. by rewrite IH.
Qed.

Lemma replaceTask_flag_true update prevTasks flag :
  (replaceTask update prevTasks flag).2 = true ↔
    flag = true
    ∨ ∃ t, t ∈ prevTasks ∧ Task.id t = Task.id update ∧ Task.status t = DONE.
Proof.
  revert flag. induction prevTasks as [| t rest IH]; intros flag; simpl.
  - split; [by left |]. intros [? | (t & Hin & _)]; [done |]. by apply elem_of_nil in Hin.
  - destruct (String.eqb_spec (Task.id t) (Task.id update)) as [Hid | Hid].
    + specialize (IH (if decide (Task.status t = DONE) then true else flag)).
      destruct (replaceTask update rest _) as [newRest flag']. simpl in *.
      rewrite IH. split.
      * intros [Hflag | (t' & Hin & ? & ?)].
        -- destruct (decide (Task.status t = DONE)); [| by left].
           right. exists t. split; [by left | done].
        -- right. exists t'. split; [by right | done].
      * intros [-> | (t' & Hin & Hid' & Hdone)].
        -- left. by destruct (decide _).
        -- apply elem_of_cons in Hin as [-> | Hin].
           ++ left. by rewrite decide_True.
           ++ right. by exists t'.
    + specialize (IH flag).
      destruct (replaceTask update rest _) as [newRest flag']. simpl in *.
      rewrite IH. split.
      * intros [? | (t' & Hin & ? & ?)]; [by left |].
        right. exists t'. split; [by right | done].
      * intros [? | (t' & Hin & Hid' & Hdone)]; [by left |].
        apply elem_of_cons in Hin as [-> | Hin]; [done |].
        right. by exists t'.
Qed.

(** After the updater every task recorded under the id of the update is
    the update itself. *)
Lemma applyUpdate_recorded st update t :
  t ∈ tasks (applyUpdate st update) → Task.id t = Task.id update → t = update.
Proof.
  unfold applyUpdate.
  pose proof (replaceTask_tasks update (tasks st) false) as Htasks.
  destruct (replaceTask update (tasks st) false) as [newTasks flag].
  simpl in *. subst newTasks.
  intros (t0 & -> & Hin)%list_elem_of_fmap Hid.
  destruct (String.eqb_spec (Task.id t0) (Task.id update)); [done | done].
Qed.

Lemma applyUpdate_present st update :
  (∃ t, t ∈ tasks st ∧ Task.id t = Task.id update) →
  update ∈ tasks (applyUpdate st update).
Proof.
  intros (t & Hin & Hid). unfold applyUpdate.
  pose proof (replaceTask_tasks update (tasks st) false) as Htasks.
  destruct (replaceTask update (tasks st) false) as [newTasks flag].
  simpl in *. subst newTasks.
  apply list_elem_of_fmap. exists t. split; [| done].
  by rewrite Hid, String.eqb_refl.
Qed.

(** C3. For every update with status DONE that the updater applies: when
    no task recorded under the id of the update has status DONE, the
    completed count goes up by exactly one; when one has, the count is left
    as it is.  So the same DONE update delivered again for a task of the
    list does not count a second time. *)
Theorem applyUpdate_counts_done_once (st : AppState) (update : Task.BatchTask) :
  Task.status update = DONE →
  ((∀ t, t ∈ tasks st → Task.id t = Task.id update → Task.status t ≠ DONE) →
     completedCount (applyUpdate st update) = completedCount st + 1)
  ∧ ((∃ t, t ∈ tasks st ∧ Task.id t = Task.id update ∧ Task.status t = DONE) →
     completedCount (applyUpdate st update) = completedCount st)
  ∧ ((∃ t, t ∈ tasks st ∧ Task.id t = Task.id update) →
     completedCount (applyUpdate (applyUpdate st update) update) =
       completedCount (applyUpdate st update)).
Proof.
  intros Hdone.
  assert (Hcount : ∀ st',
    completedCount (applyUpdate st' update) =
      if (replaceTask update (tasks st') false).2
      then completedCount st' else completedCount st' + 1).
  { intros st'. unfold applyUpdate.
    destruct (replaceTask update (tasks st') false) as [newTasks flag]. simpl.
    rewrite bool_decide_eq_true_2 by done. by destruct flag. }
  assert (Hseen : ∀ st',
    (∃ t, t ∈ tasks st' ∧ Task.id t = Task.id update ∧ Task.status t = DONE) →
    completedCount (applyUpdate st' update) = completedCount st').
  { intros st' Hex. rewrite Hcount.
    destruct (replaceTask update (tasks st') false).2 eqn:Hflag; [done |].
    assert ((replaceTask update (tasks st') false).2 = true)
      by (apply replaceTask_flag_true; by right).
    congruence. }
  split; [| split].
  - intros Hnone. rewrite Hcount.
    destruct (replaceTask update (tasks st) false).2 eqn:Hflag; [| done].
    apply replaceTask_flag_true in Hflag as [? | (t & Hin & Hid & Hst)]; [done |].
    by destruct (Hnone t Hin Hid).
  - apply Hseen.
  - intros Hpresent. apply Hseen. exists update.
    split; [by apply applyUpdate_present | done].
Qed.

Lemma applyUpdate_counts_done_once_witness :
  let task (i : string) (s : TaskStatus) :=
    {| Task.id := i; Task.categoryName := i; Task.status := s;
       Task.error := None; Task.result := None |} in
  let st := {| tasks := [task "sports" UPLOADING; task "world" DONE]; completedCount := 1 |} in
  completedCount (applyUpdate st (task "sports" DONE)) = 2
  ∧ completedCount (applyUpdate st (task "world" DONE)) = 1
  ∧ completedCount (applyUpdate (applyUpdate st (task "sports" DONE)) (task "sports" DONE)) = 2.
Proof.
  intros task st.
  destruct (applyUpdate_counts_done_once st (task "sports" DONE) eq_refl) as (Hfirst & _ & Hagain).
  destruct (applyUpdate_counts_done_once st (task "world" DONE) eq_refl) as (_ & Hseen & _).
  split; [| split].
  - apply Hfirst. intros t Hin Hid.
    apply list_elem_of_In in Hin. simpl in Hin.
    destruct Hin as [<- | [<- | []]]; [done | discriminate Hid].
  - apply Hseen. exists (task "world" DONE).
    split; [apply list_elem_of_In; simpl; tauto | done].
  - rewrite Hagain; [reflexivity |]. exists (task "sports" UPLOADING).
    split; [apply list_elem_of_In; simpl; tauto | done].
Defined.

(** What [JSON.parse(line)] returns, as far as the updater can tell: [null];
    an object, read at the type the code gives it; or another value (a
    number, a string, a boolean, an array), whose [id] and [status] are
    undefined. *)
Inductive Parsed :=
  | ParsedNull
  | ParsedTask (update : Task.BatchTask)
  | ParsedOther.

(** The component on the screen, with its state.  The updater given to
    [setTasks] runs when React renders, outside the [try] that encloses the
    call: if it throws, nothing catches the error (the sources have no
    error boundary) and React takes the component off the screen for
    good. *)
Inductive Rendered (A : Type) :=
  | Mounted (st : A)
  | Unmounted.
Arguments Mounted {A} st.
Arguments Unmounted {A}.

(** The updater for a parsed value: reading [update.id] of [null] throws;
    a value without [id] and [status] replaces no task and counts
    nothing. *)
Definition applyParsed (page : Rendered AppState) (update : Parsed) : Rendered AppState :=
  match page, update with
  | Mounted st, ParsedTask update => Mounted (applyUpdate st update)
  | Mounted st, ParsedOther => Mounted st
  | Mounted st, ParsedNull => Unmounted
  | Unmounted, _ => Unmounted
  end.

Section Reader.
(** [JSON.parse(line)]: [None] when it throws. *)
Variable JSON_parse : string → option Parsed.

(** The body of [for (const line of lines)]. *)
Definition processLine (page : Rendered AppState) (line : string) : Rendered AppState :=
  if String.eqb (Js.trim line) "" then page
  else match JSON_parse line with
       | Some update => applyParsed page update
       | None => page
       end.

(** The reader's locals: [buffer] and the component. *)
Record ReaderState := {
  buffer : string;
  app : Rendered AppState;
}.

(** One round of [while (true)] with [done] false: [chunk] is what
    [decoder.decode(value, { stream: true })] returns. *)
Definition onChunk (rs : ReaderState) (chunk : string) : ReaderState :=
  let lines := Js.split "010" (buffer rs +:+ chunk) in
  {| buffer := default "" (last lines);
     app := fold_left processLine (removelast lines) (app rs) |}.

(** The whole loop: [buffer] starts empty, and what is left in it when
    the stream is done is dropped. *)
Definition readStream (chunks : list string) (st : AppState) : ReaderState :=
  fold_left onChunk chunks {| buffer := ""; app := Mounted st |}.

(** The values that a list of lines gives rise to, and the task updates
    among them. *)
Definition parsedValues (lines : list string) : list Parsed :=
  omap (λ line, if String.eqb (Js.trim line) "" then None else JSON_parse line) lines.

Definition taskUpdates (values : list Parsed) : list Task.BatchTask :=
  omap (λ v, match v with ParsedTask update => Some update | _ => None end) values.

Definition parsedUpdates (lines : list string) : list Task.BatchTask :=
  taskUpdates (parsedValues lines).

(** The two chunks of the reader test. *)
Definition chunk1 : string := Js.dq "{'id':'a'}" +:+ String "010" (Js.dq "{'i").
Definition chunk2 : string := Js.dq "d':'b'}" +:+ String "010" "".

(** ** The reader loop *)

Lemma processLine_parsedValues lines page :
  fold_left processLine lines page = fold_left applyParsed (parsedValues lines) page.
Proof.
  revert page. induction lines as [| line lines IH]; intros page; [done |].
  unfold parsedValues in *. simpl. rewrite IH. unfold processLine.
  destruct (String.eqb (Js.trim line) ""); [done |].
  by destruct (JSON_parse line).
Qed.

Lemma parsedValues_nil : parsedValues [] = [].
Proof. reflexivity. Qed.

Lemma parsedValues_cons line lines :
  parsedValues (line :: lines) =
    match (if String.eqb (Js.trim line) "" then None else JSON_parse line) with
    | Some update => update :: parsedValues lines
    | None => parsedValues lines
    end.
Proof. reflexivity. Qed.

Lemma parsedValues_app l1 l2 :
  parsedValues (l1 ++ l2) = parsedValues l1 ++ parsedValues l2.
Proof. apply omap_app. Qed.

Lemma parsedUpdates_app l1 l2 :
  parsedUpdates (l1 ++ l2) = parsedUpdates l1 ++ parsedUpdates l2.
Proof. unfold parsedUpdates, taskUpdates. by rewrite parsedValues_app, omap_app. Qed.

(** Once off the screen, always off the screen. *)
Lemma applyParsed_unmounted values : fold_left applyParsed values Unmounted = Unmounted.
Proof. induction values as [| v values IH]; [done | exact IH]. Qed.

(** The page is taken off the screen exactly by a [null]; while there is
    none, it shows the task updates applied in order. *)
Lemma applyParsed_mounted values st :
  ParsedNull ∉ values →
  fold_left applyParsed values (Mounted st) =
    Mounted (fold_left applyUpdate (taskUpdates values) st).
Proof.
  revert st. induction values as [| v values IH]; intros st Hnull; [done |].
  apply not_elem_of_cons in Hnull as [Hv Hnull].
  destruct v as [| update |]; [done | |]; simpl; by apply IH.
Qed.

Lemma applyParsed_null values st :
  fold_left applyParsed values (Mounted st) = Unmounted ↔ ParsedNull ∈ values.
Proof.
  split.
  - revert st. induction values as [| v values IH]; intros st Hrun; [done |].
    destruct v as [| update |]; [by left | |]; right; by eapply IH.
  - revert st. induction values as [| v values IH]; intros st Hin.
    + by apply elem_of_nil in Hin.
    + apply elem_of_cons in Hin as [<- | Hin]; [apply applyParsed_unmounted |].
      destruct v; simpl; [apply applyParsed_unmounted | by apply IH | by apply IH].
Qed.

(** The loop from any state whose buffer holds no newline. *)
Lemma fold_onChunk chunks rs :
  Js.split "010" (buffer rs) = [buffer rs] →
  let pieces := Js.split "010" (buffer rs +:+ Js.concat chunks) in
  fold_left onChunk chunks rs =
    {| buffer := default "" (last pieces);
       app := fold_left processLine (removelast pieces) (app rs) |}.
Proof.
  revert rs. induction chunks as [| chunk chunks IH]; intros rs Hbuf; simpl.
  - rewrite Js.app_nil_r, Hbuf. by destruct rs.
  - rewrite IH by apply Js.split_last. simpl.
    rewrite <- Js.app_assoc, (Js.split_app _ (buffer rs +:+ chunk)).
    set (closed := removelast (Js.split "010" (buffer rs +:+ chunk))).
    set (pieces := Js.split "010" (_ +:+ Js.concat chunks)).
    assert (Hne : pieces ≠ []) by apply Js.split_nonempty.
    rewrite removelast_app by done. rewrite fold_left_app.
    f_equal. rewrite last_app. destruct (last pieces) eqn:Hlast; [done |].
    by apply last_None in Hlast.
Qed.

Lemma readStream_eq chunks st :
  readStream chunks st =
    {| buffer := default "" (last (Js.split "010" (Js.concat chunks)));
       app := fold_left applyParsed
                (parsedValues (removelast (Js.split "010" (Js.concat chunks))))
                (Mounted st) |}.
Proof.
  unfold readStream. rewrite fold_onChunk by done. cbn [buffer app].
  rewrite Js.app_nil_l. by rewrite processLine_parsedValues.
Qed.

(** C2. However the text of the stream is cut into chunks, the reader
    handles exactly the lines of the whole text that a newline closes, in
    order, each parsed by itself, and its buffer is the unclosed fragment
    after the last newline, carried from one chunk to the next.  A line
    that is blank or does not parse is skipped and the lines after it are
    still handled.  What the page then shows is the state obtained by
    applying, in order, the updates parsed from the other lines; the one
    thing that ends this is a line that parses to [null], on which the
    updater throws and the page goes off the screen: the page is unmounted
    at the end exactly when such a line was closed.  On the two chunks of
    the reader test exactly two objects are parsed and applied, the one
    from the line of "a" and then the one from the line of "b", and nothing
    is left in the buffer. *)
Theorem readStream_complete_lines (chunks : list string) (st : AppState) :
  let pieces := Js.split "010" (Js.concat chunks) in
  let values := parsedValues (removelast pieces) in
  buffer (readStream chunks st) = default "" (last pieces)
  ∧ app (readStream chunks st) = fold_left applyParsed values (Mounted st)
  ∧ (app (readStream chunks st) = Unmounted ↔ ParsedNull ∈ values)
  ∧ (ParsedNull ∉ values →
       app (readStream chunks st) =
         Mounted (fold_left applyUpdate (parsedUpdates (removelast pieces)) st))
  ∧ (∀ before bad after, JSON_parse bad = None →
       parsedValues (before ++ bad :: after) = parsedValues before ++ parsedValues after)
  ∧ (∀ ua ub,
       JSON_parse (Js.dq "{'id':'a'}") = Some (ParsedTask ua) →
       JSON_parse (Js.dq "{'id':'b'}") = Some (ParsedTask ub) →
       removelast (Js.split "010" (chunk1 +:+ chunk2)) =
         [Js.dq "{'id':'a'}"; Js.dq "{'id':'b'}"]
       ∧ parsedValues (removelast (Js.split "010" (chunk1 +:+ chunk2))) =
           [ParsedTask ua; ParsedTask ub]
       ∧ readStream [chunk1; chunk2] st =
           {| buffer := ""; app := Mounted (applyUpdate (applyUpdate st ua) ub) |}).
Proof.
  intros pieces values.
  split; [by rewrite readStream_eq |].
  split; [by rewrite readStream_eq |].
  split; [rewrite readStream_eq; apply applyParsed_null |].
  split; [intros Hnull; rewrite readStream_eq; by apply applyParsed_mounted |].
  split.
  - intros before bad after Hbad.
    rewrite parsedValues_app. f_equal. unfold parsedValues. simpl.
    rewrite Hbad. by destruct (String.eqb (Js.trim bad) "").
  - intros ua ub Ha Hb.
    assert (Hlines : removelast (Js.split "010" (chunk1 +:+ chunk2)) =
                     [Js.dq "{'id':'a'}"; Js.dq "{'id':'b'}"]) by reflexivity.
    assert (Hupd : parsedValues [Js.dq "{'id':'a'}"; Js.dq "{'id':'b'}"] =
                   [ParsedTask ua; ParsedTask ub]).
    { rewrite !parsedValues_cons, parsedValues_nil.
      replace (String.eqb (Js.trim (Js.dq "{'id':'a'}")) "") with false by reflexivity.
      replace (String.eqb (Js.trim (Js.dq "{'id':'b'}")) "") with false by reflexivity.
      by rewrite Ha, Hb. }
    split; [done |]. split; [by rewrite Hlines |].
    rewrite readStream_eq.
    replace (Js.concat [chunk1; chunk2]) with (chunk1 +:+ chunk2) by reflexivity.
    rewrite Hlines, Hupd. reflexivity.
Qed.

End Reader.

(** A parser for the reader test: it reads [null], and an object with the
    one member [id], as [JSON.parse] does; the object is shown as a task
    with that id and the fields it lacks left at their defaults. *)
Definition parseIdOnly (line : string) : option Parsed :=
  let opening := Js.dq "{'id':'" in
  let closing := Js.dq "'}" in
  let n := Js.len line in
  if String.eqb line "null" then Some ParsedNull
  else if Js.startsWith line opening
     && String.eqb (Js.substring line (n - 2) n) closing
     && (9 <=? n)
  then Some (ParsedTask {| Task.id := Js.substring line 7 (n - 2);
                           Task.categoryName := "";
                           Task.status := PENDING;
                           Task.error := None;
                           Task.result := None |})
  else None.

(** The reader test on a page that shows the tasks "a" and "b" half way
    through a run: both are replaced by the objects read, in order; a line
    that does not parse between them changes nothing; a line [null]
    between them takes the page off the screen. *)
Lemma readStream_complete_lines_witness :
  let shown id name status :=
    {| Task.id := id; Task.categoryName := name; Task.status := status;
       Task.error := None; Task.result := None |} in
  let st := {| tasks := [shown "a" "Business" GATHERING; shown "b" "Sports" GATHERED];
               completedCount := 0 |} in
  let ua := shown "a" "" PENDING in
  let ub := shown "b" "" PENDING in
  parsedValues parseIdOnly (removelast (Js.split "010" (chunk1 +:+ chunk2))) =
    [ParsedTask ua; ParsedTask ub]
  ∧ readStream parseIdOnly [chunk1; chunk2] st =
      {| buffer := "";
         app := Mounted {| tasks := [ua; ub]; completedCount := 0 |} |}
  ∧ parsedValues parseIdOnly [Js.dq "{'id':'a'}"; "{oops"; Js.dq "{'id':'b'}"] =
      [ParsedTask ua; ParsedTask ub]
  ∧ app (readStream parseIdOnly
           [Js.dq "{'id':'a'}" +:+ String "010" "nu"; "ll" +:+ String "010" chunk2] st) =
      Unmounted.
Proof.
  intros shown st ua ub.
  destruct (readStream_complete_lines parseIdOnly [chunk1; chunk2] st)
    as (_ & _ & _ & _ & Hskip & Htest).
  destruct (Htest ua ub eq_refl eq_refl) as (_ & Hupd & Hrun).
  split; [exact Hupd |]. split; [exact Hrun |].
  split; [exact (Hskip [Js.dq "{'id':'a'}"] "{oops" [Js.dq "{'id':'b'}"] eq_refl) |].
  apply (readStream_complete_lines parseIdOnly
           [Js.dq "{'id':'a'}" +:+ String "010" "nu"; "ll" +:+ String "010" chunk2] st).
  vm_compute. apply list_elem_of_In. simpl. tauto.
Defined.

End StreamClient.

(* ===================================================================== *)
(** * The request handler that runs the batch *)
(* ===================================================================== *)

(** [Partial<BatchTask>]: a field is [Some] when the object literal has
    the key. *)
Record TaskUpdates := {
  u_id : option string;
  u_categoryName : option string;
  u_status : option TaskStatus;
  u_error : option string;
  u_result : option Task.Result;
}.

(** [{ status }] *)
Definition statusOnly (status : TaskStatus) : TaskUpdates :=
  {| u_id := None; u_categoryName := None; u_status := Some status;
     u_error := None; u_result := None |}.

(** [{ status: TaskStatus.ERROR, error: errorMessage }] *)
Definition errorUpdates (errorMessage : string) : TaskUpdates :=
  {| u_id := None; u_categoryName := None; u_status := Some ERROR;
     u_error := Some errorMessage; u_result := None |}.

(** [{ status: TaskStatus.DONE, result }] *)
Definition doneUpdates (result : Task.Result) : TaskUpdates :=
  {| u_id := None; u_categoryName := None; u_status := Some DONE;
     u_error := None; u_result := Some result |}.

(** [{ ...task, ...updates }] *)
Definition mergeTask (task : Task.BatchTask) (updates : TaskUpdates) : Task.BatchTask :=
  {| Task.id := default (Task.id task) (u_id updates);
     Task.categoryName := default (Task.categoryName task) (u_categoryName updates);
     Task.status := default (Task.status task) (u_status updates);
     Task.error := match u_error updates with Some e => Some e | None => Task.error task end;
     Task.result := match u_result updates with Some r => Some r | None => Task.result task end |}.

(** The task a category starts with. *)
Definition pendingTask (cat : Category) : Task.BatchTask :=
  {| Task.id := apiValue cat; Task.categoryName := name cat; Task.status := PENDING;
     Task.error := None; Task.result := None |}.

(** The payload and the result built from a collected item and the
    address of the uploaded picture. *)
Definition webhookPayload (data : CollectedData) (imageUrl : string) : WebhookPayload :=
  {| wp_headline := Analysis.headline (analysis data);
     wp_imageUrl := imageUrl;
     wp_summary := Analysis.caption (analysis data);
     wp_newsLink := Article.link (article data);
     wp_status := "Queue" |}.

Definition taskResult (data : CollectedData) (imageUrl : string) : Task.Result :=
  {| Task.headline := Analysis.headline (analysis data);
     Task.imageUrl := imageUrl;
     Task.caption := Analysis.caption (analysis data);
     Task.sourceUrl := Article.link (article data);
     Task.sourceName := Analysis.sourceName (analysis data) |}.

(** After the picture is acquired: compose, upload, deliver. *)
Inductive delivery : list TaskUpdates → Prop :=
  | composeFailed message :
      delivery [statusOnly COMPOSING; errorUpdates message]
  | uploadFailed message :
      delivery [statusOnly COMPOSING; statusOnly UPLOADING; errorUpdates message]
  | webhookFailed message :
      delivery [statusOnly COMPOSING; statusOnly UPLOADING; statusOnly SENDING_WEBHOOK;
                errorUpdates message]
  | delivered result :
      delivery [statusOnly COMPOSING; statusOnly UPLOADING; statusOnly SENDING_WEBHOOK;
                doneUpdates result].

(** The updates of a whole round; [generated] tells whether a substitute
    picture was asked for. *)
Inductive processScript (generated : bool) : list TaskUpdates → Prop :=
  | generationFailed message :
      generated = true →
      processScript generated
        [statusOnly PROCESSING; statusOnly GENERATING_IMAGE; errorUpdates message]
  | acquired tail :
      delivery tail →
      processScript generated
        (statusOnly PROCESSING
         :: (if generated then [statusOnly GENERATING_IMAGE] else []) ++ tail).

(** An update of a script: it does not rename the task and it sets a
    status. *)
Definition scripted (u : TaskUpdates) : Prop :=
  u_id u = None ∧ is_Some (u_status u).

Lemma delivery_scripted tail : delivery tail → Forall scripted tail.
Proof. destruct 1; repeat constructor; simpl; eauto. Qed.

Lemma processScript_scripted generated updates :
  processScript generated updates → Forall scripted updates.
Proof.
  destruct 1 as [message _ | tail Htail].
  - repeat constructor; simpl; eauto.
  - constructor; [split; simpl; eauto |].
    apply Forall_app. split; [| by apply delivery_scripted].
    destruct generated; repeat constructor; simpl; eauto.
Qed.

(** The statuses of a script: with a substitute picture asked for,
    GENERATING_IMAGE comes right after PROCESSING and before COMPOSING, and
    only once; without, it does not come at all. *)
Lemma processScript_statuses generated updates :
  processScript generated updates →
  let statuses := omap u_status updates in
  (generated = true →
     statuses = [PROCESSING; GENERATING_IMAGE; ERROR]
     ∨ ∃ rest, statuses = PROCESSING :: GENERATING_IMAGE :: COMPOSING :: rest
               ∧ GENERATING_IMAGE ∉ rest)
  ∧ (generated = false →
       ∃ rest, statuses = PROCESSING :: COMPOSING :: rest
               ∧ GENERATING_IMAGE ∉ statuses).
Proof.
  destruct 1 as [message Hgen | tail Htail]; simpl.
  - split; [by left | congruence].
  - destruct Htail, generated; simpl; (split; intros Hg; try discriminate Hg).
    all: try (right; eexists; split; [reflexivity |]).
    all: try (eexists; split; [reflexivity |]).
    all: rewrite ?not_elem_of_cons; repeat split; try done; apply not_elem_of_nil.
Qed.

(** [findIndex] after an assignment to one index. *)
Lemma list_find_insert_same {A} (P : A → Prop) `{!∀ x, Decision (P x)} l i x y :
  list_find P l = Some (i, x) → P y → list_find P (<[i := y]> l) = Some (i, y).
Proof.
  intros (Hi & _ & Hfirst)%list_find_Some Hy. apply list_find_Some.
  split; [apply list_lookup_insert_eq; by eapply lookup_lt_Some |].
  split; [done |].
  intros j z Hj Hlt. rewrite list_lookup_insert_ne in Hj by lia. eauto.
Qed.

Lemma list_find_insert_other {A} (Q : A → Prop) `{!∀ x, Decision (Q x)} l i x y :
  l !! i = Some x → ¬ Q x → ¬ Q y → list_find Q (<[i := y]> l) = list_find Q l.
Proof.
  intros Hi Hx Hy.
  destruct (list_find Q l) as [[j z] |] eqn:Hfind.
  - apply list_find_Some in Hfind as (Hj & Hz & Hfirst).
    assert (j ≠ i) by (intros ->; congruence).
    apply list_find_Some. split; [by rewrite list_lookup_insert_ne |].
    split; [done |]. intros k w Hk Hlt.
    destruct (decide (k = i)) as [-> | Hne].
    + rewrite list_lookup_insert_eq in Hk by (by eapply lookup_lt_Some). congruence.
    + rewrite list_lookup_insert_ne in Hk by done. eauto.
  - apply list_find_None in Hfind. apply list_find_None.
    by apply Forall_insert.
Qed.

(** An update of the scripts: a status alone, a failure, or the result. *)
Definition scriptUpdate (u : TaskUpdates) : Prop :=
  (∃ status, u = statusOnly status)
  ∨ (∃ message, u = errorUpdates message)
  ∨ (∃ result, u = doneUpdates result).

Lemma scriptUpdate_scripted u : scriptUpdate u → scripted u.
Proof. intros [[? ->] | [[? ->] | [? ->]]]; split; simpl; eauto. Qed.

Ltac script_update :=
  first [left; by eexists | right; left; by eexists | right; right; by eexists].

Ltac script_updates :=
  repeat first [apply Forall_nil_2 | apply Forall_cons_2; [script_update |]].

Lemma delivery_scriptUpdates tail : delivery tail → Forall scriptUpdate tail.
Proof. destruct 1; script_updates. Qed.

Lemma processScript_scriptUpdates generated updates :
  processScript generated updates → Forall scriptUpdate updates.
Proof.
  destruct 1 as [message _ | tail Htail]; [script_updates |].
  apply Forall_cons_2; [script_update |].
  apply Forall_app. split; [| by apply delivery_scriptUpdates].
  destruct generated; script_updates.
Qed.

Module Server.

Section Server.
Variable W : Type.
Variable Image : Type.

(** constants.ts *)
Variable NEWS_CATEGORIES : list Category.
Variable LOGO_URL BRAND_TEXT OVERLAY_IMAGE_URL : string.

(** The services the handler awaits. *)
Variable fetchLatestBangladeshiNews : string → Exec W (list Article.NewsDataArticle).
Variable generateContent : list Article.NewsDataArticle → Exec W (option string).
Variable generateImageFromPrompt : string → Exec W string.
Variable uploadToCloudinary : string → Exec W string.
Variable sendToMakeWebhook : WebhookPayload → Exec W unit.

(** What src/utils/canvas.ts calls. *)
Variable skiaLoadImage : Canvas.ImageSource → Exec W Image.
Variable loadFont : string → string → string → Exec W unit.
Variable measureAt : Z → Canvas.Measure.
Variable toDataURL : Image → Image → Image → string → list Canvas.DrawOp → Exec W string.
Variable earliest : list Thrown → nat.

(** The reader of the response.  It may cancel the stream at any moment
    (the page is closed, the connection is lost): [clientGone w] tells
    whether it has, by the time the world is [w].  On a cancelled stream
    [controller.enqueue] and [controller.close] throw a TypeError;
    [invalidState] is its message. *)
Variable clientGone : W → bool.
Variable invalidState : string.

(** What [start(controller)] works on: the array [tasks], the records
    enqueued on the stream so far (oldest first; a record is the line
    [JSON.stringify(task)]), the set of used links, the collected items,
    whether the stream was found cancelled (it then stays so), and the
    world outside. *)
Record State := {
  tasks : list Task.BatchTask;
  stream : list Task.BatchTask;
  usedArticleLinks : gset string;
  collectedData : list CollectedData;
  cancelled : bool;
  world : W;
}.

Local Open Scope run_scope.

Definition setWorld (w : W) (s : State) : State :=
  {| tasks := tasks s; stream := stream s;
     usedArticleLinks := usedArticleLinks s;
     collectedData := collectedData s; cancelled := cancelled s; world := w |}.

(** An awaited call to a service, and one to a function that may not
    return. *)
Definition awaitRun {A} (call : Run W A) : Run State A :=
  λ s, match call (world s) with
       | (w', r) => (setWorld w' s, r)
       end.

Definition await {A} (call : Exec W A) : Run State A := awaitRun (Run.lift call).

(** [tasks[taskIndex] = written], a record accepted by the stream, and a
    stream found cancelled. *)
Definition writeTask (taskIndex : nat) (written : Task.BatchTask) (s : State) : State :=
  {| tasks := <[taskIndex := written]> (tasks s); stream := stream s;
     usedArticleLinks := usedArticleLinks s;
     collectedData := collectedData s; cancelled := cancelled s; world := world s |}.

Definition enqueue (task : Task.BatchTask) (s : State) : State :=
  {| tasks := tasks s; stream := stream s ++ [task];
     usedArticleLinks := usedArticleLinks s;
     collectedData := collectedData s; cancelled := cancelled s; world := world s |}.

Definition cancel (s : State) : State :=
  {| tasks := tasks s; stream := stream s;
     usedArticleLinks := usedArticleLinks s;
     collectedData := collectedData s; cancelled := true; world := world s |}.

(** Whether the stream still takes records. *)
Definition streamOpen (s : State) : bool := negb (cancelled s || clientGone (world s)).

(** [pushUpdate(task)]: [controller.enqueue] puts one more record on the
    stream, or throws if the stream is cancelled. *)
Definition pushUpdate (task : Task.BatchTask) : Run State unit :=
  λ s, if streamOpen s then (enqueue task s, inr (Some tt))
       else (cancel s, inl (ErrorObj invalidState)).

(** [controller.close()] *)
Definition controllerClose : Run State unit :=
  λ s, if streamOpen s then (s, inr (Some tt))
       else (cancel s, inl (ErrorObj invalidState)).

(** [tasks.findIndex(t => t.id === taskId)], with the task found. *)
Definition findIndex (taskId : string) (tasks : list Task.BatchTask)
    : option (nat * Task.BatchTask) :=
  list_find (λ t, Task.id t = taskId) tasks.

(** [updateTask(taskId, updates)]: the task is written, then pushed. *)
Definition updateTask (taskId : string) (updates : TaskUpdates) : Run State unit :=
  s ← Run.get;
  match findIndex taskId (tasks s) with
  | Some (taskIndex, task) =>
      Run.modify (writeTask taskIndex (mergeTask task updates));;
      pushUpdate (mergeTask task updates)
  | None => Run.ret tt
  end.

(** The state after an [updateTask] whose record the stream took, and
    after one that found the stream cancelled. *)
Definition updateTaskState (taskId : string) (updates : TaskUpdates) (s : State) : State :=
  match findIndex taskId (tasks s) with
  | Some (taskIndex, task) =>
      enqueue (mergeTask task updates) (writeTask taskIndex (mergeTask task updates) s)
  | None => s
  end.

Definition rejectTaskState (taskId : string) (updates : TaskUpdates) (s : State) : State :=
  match findIndex taskId (tasks s) with
  | Some (taskIndex, task) => cancel (writeTask taskIndex (mergeTask task updates) s)
  | None => s
  end.

(** [usedArticleLinks.add(link)] and [collectedData.push(data)] *)
Definition addLink (link : string) (s : State) : State :=
  {| tasks := tasks s; stream := stream s;
     usedArticleLinks := {[link]} ∪ usedArticleLinks s;
     collectedData := collectedData s; cancelled := cancelled s; world := world s |}.

Definition pushData (data : CollectedData) (s : State) : State :=
  {| tasks := tasks s; stream := stream s;
     usedArticleLinks := usedArticleLinks s;
     collectedData := collectedData s ++ [data]; cancelled := cancelled s;
     world := world s |}.

Definition addUsedLink (link : string) : Run State unit := Run.modify (addLink link).

Definition pushCollected (data : CollectedData) : Run State unit :=
  Run.modify (pushData data).

(** The [try] block of phase 1.  (The pause that ends it changes nothing
    here.) *)
Definition gatherBody (category : Category) : Run State unit :=
  let taskId := apiValue category in
  updateTask taskId (statusOnly GATHERING);;
  allArticles ← await (fetchLatestBangladeshiNews (apiValue category));
  s ← Run.get;
  let unusedArticles :=
    filter (λ a, Article.link a ∉ usedArticleLinks s) allArticles in
  if length unusedArticles =? 0 then
    Run.throw (ErrorObj ("No new, unused articles found for " +:+ name category +:+ "."))
  else
    result ← await (Gemini.findAndAnalyzeBestArticleFromList W generateContent unusedArticles);
    match result with
    | None =>
        Run.throw (ErrorObj
          ("Could not find a relevant, unused Bangladesh-specific article for "
           +:+ name category +:+ "."))
    | Some (analysis, relevantArticle) =>
        addUsedLink (Article.link relevantArticle);;
        pushCollected {| taskId := taskId; analysis := analysis; article := relevantArticle |};;
        updateTask taskId (statusOnly GATHERED)
    end.

(** One round of the loop of phase 1: the [try] and its [catch]. *)
Definition gatherCategory (category : Category) : Run State unit :=
  Run.tryCatch (gatherBody category)
    (λ err, updateTask (apiValue category) (errorUpdates (errorMessage err))).

Definition phase1 : Run State unit := Run.forEach NEWS_CATEGORIES gatherCategory.

(** The inner [try] of phase 2: the picture to compose with. *)
Definition acquireImage (data : CollectedData) : Run State string :=
  Run.tryCatch
    (if Js.falsy (Article.image_url (article data))
     then Run.throw (ErrorObj "Article has no image_url.")
     else Run.ret (default "" (Article.image_url (article data))))
    (λ _,
      updateTask (taskId data) (statusOnly GENERATING_IMAGE);;
      await (generateImageFromPrompt (Analysis.imagePrompt (analysis data)))).

(** The composition as the handler calls it. *)
Definition compose (data : CollectedData) (imageSrcToCompose : string) : Run W string :=
  Canvas.composeImage W Image skiaLoadImage loadFont measureAt toDataURL earliest
    imageSrcToCompose (Analysis.headline (analysis data))
    (Analysis.highlightPhrases (analysis data)) LOGO_URL BRAND_TEXT OVERLAY_IMAGE_URL.

(** The outer [try] block of phase 2. *)
Definition processBody (data : CollectedData) : Run State unit :=
  updateTask (taskId data) (statusOnly PROCESSING);;
  imageSrcToCompose ← acquireImage data;
  updateTask (taskId data) (statusOnly COMPOSING);;
  compiledImage ← awaitRun (compose data imageSrcToCompose);
  updateTask (taskId data) (statusOnly UPLOADING);;
  imageUrl ← await (uploadToCloudinary compiledImage);
  updateTask (taskId data) (statusOnly SENDING_WEBHOOK);;
  await (sendToMakeWebhook (webhookPayload data imageUrl));;
  updateTask (taskId data) (doneUpdates (taskResult data imageUrl)).

Definition processItem (data : CollectedData) : Run State unit :=
  Run.tryCatch (processBody data)
    (λ err, updateTask (taskId data) (errorUpdates (errorMessage err))).

(** [for (const data of collectedData)]: the array is complete when the
    loop starts. *)
Definition phase2 : Run State unit :=
  s ← Run.get;
  Run.forEach (collectedData s) processItem.

(** The state [start] sets up: one pending task per category, each pushed
    at once to the stream, which was just made and takes them. *)
Definition initialState (w : W) : State :=
  {| tasks := map pendingTask NEWS_CATEGORIES;
     stream := map pendingTask NEWS_CATEGORIES;
     usedArticleLinks := ∅;
     collectedData := [];
     cancelled := false;
     world := w |}.

(** [start(controller)]: the two phases, then [controller.close()]. *)
Definition handler (w : W) : State * (Thrown + option unit) :=
  (phase1;; phase2;; controllerClose) (initialState w).

(** ** What the state shows *)

(** The ids of the task list, the (id, status) pairs of the records
    enqueued, and the task recorded under an id (the first with it). *)
Definition ids (s : State) : list string := map Task.id (tasks s).

Definition trace (s : State) : list (string * TaskStatus) :=
  map (λ t, (Task.id t, Task.status t)) (stream s).

Definition recorded (taskId : string) (s : State) : option Task.BatchTask :=
  snd <$> findIndex taskId (tasks s).

(** The updates a round makes to its task, one after the other: those the
    stream took, and those that found it cancelled. *)
Definition applyUpdates (taskId : string) (updates : list TaskUpdates) (s : State) : State :=
  fold_left (λ s u, updateTaskState taskId u s) updates s.

Definition rejectUpdates (taskId : string) (updates : list TaskUpdates) (s : State) : State :=
  fold_left (λ s u, rejectTaskState taskId u s) updates s.

(** The state after a round, however the round ended. *)
Definition gatherStep (s : State) (category : Category) : State :=
  (gatherCategory category s).1.

Definition processStep (s : State) (data : CollectedData) : State :=
  (processItem data s).1.

(** How a round ends that makes the updates of [script] in turn: with all
    of them taken by the stream; or at the first that finds the stream
    cancelled.  An update of the [try] block that throws is followed by the
    one of the [catch], which throws in turn; the update of the [catch] is
    the last anyway. *)
Definition afterRejected (u : TaskUpdates) : list TaskUpdates :=
  if decide (u_status u = Some ERROR) then [] else [errorUpdates invalidState].

Inductive roundEnd (script : list TaskUpdates)
    : list TaskUpdates → list TaskUpdates → Thrown + option unit → Prop :=
  | roundReturned : roundEnd script script [] (inr (Some tt))
  | roundCut taken u rest :
      script = taken ++ u :: rest →
      roundEnd script taken (u :: afterRejected u) (inl (ErrorObj invalidState)).

(** ** [updateTask]: what it writes and what it leaves *)

Lemma recorded_present taskId s : taskId ∈ ids s ↔ is_Some (recorded taskId s).
Proof.
  unfold recorded, ids, findIndex. rewrite fmap_is_Some. split.
  - intros (t & -> & Hin)%list_elem_of_fmap.
    apply (list_find_elem_of (λ t0, Task.id t0 = Task.id t) _ t); done.
  - intros [[i t] (Hi & <- & _)%list_find_Some].
    apply list_elem_of_fmap. exists t. split; [done | by eapply list_elem_of_lookup_2].
Qed.

(** With the stream open the record is taken; with the stream cancelled
    the task is written all the same, and the call throws. *)
Lemma updateTask_open taskId updates s :
  streamOpen s = true →
  updateTask taskId updates s = (updateTaskState taskId updates s, inr (Some tt)).
Proof.
  intros Hopen. unfold updateTask, updateTaskState, Run.bind, Run.get, Run.modify, Run.ret.
  destruct (findIndex taskId (tasks s)) as [[i t] |]; [| done].
  unfold pushUpdate.
  change (streamOpen (writeTask i (mergeTask t updates) s)) with (streamOpen s).
  by rewrite Hopen.
Qed.

Lemma updateTask_absent taskId updates s :
  taskId ∉ ids s → updateTask taskId updates s = (s, inr (Some tt)).
Proof.
  intros Habsent. unfold updateTask, Run.bind, Run.get, Run.ret.
  destruct (findIndex taskId (tasks s)) as [[i t] |] eqn:Hfind; [| done].
  destruct Habsent. apply recorded_present. unfold recorded. by rewrite Hfind.
Qed.

Lemma updateTask_shut taskId updates s :
  streamOpen s = false → taskId ∈ ids s →
  updateTask taskId updates s =
    (rejectTaskState taskId updates s, inl (ErrorObj invalidState)).
Proof.
  intros Hshut [t Ht]%recorded_present.
  unfold updateTask, rejectTaskState, Run.bind, Run.get, Run.modify, Run.ret.
  unfold recorded in Ht.
  destruct (findIndex taskId (tasks s)) as [[i t'] |]; [| done].
  unfold pushUpdate.
  change (streamOpen (writeTask i (mergeTask t' updates) s)) with (streamOpen s).
  by rewrite Hshut.
Qed.

Lemma updateTaskState_absent taskId updates s :
  (∀ t, t ∈ tasks s → Task.id t ≠ taskId) →
  updateTaskState taskId updates s = s.
Proof.
  intros Habsent. unfold updateTaskState, findIndex.
  destruct (list_find _ (tasks s)) as [[i t] |] eqn:Hfind; [| done].
  apply list_find_Some in Hfind as (Hi & Hid & _).
  destruct (Habsent t); [by eapply list_elem_of_lookup_2 | done].
Qed.

Lemma absent_not_in taskId s :
  taskId ∉ ids s ↔ ∀ t, t ∈ tasks s → Task.id t ≠ taskId.
Proof.
  unfold ids. split.
  - intros Habsent t Ht <-. apply Habsent. by apply list_elem_of_fmap_2.
  - intros Habsent (t & -> & Ht)%list_elem_of_fmap. by apply (Habsent t).
Qed.

(** The two ways an [updateTask] goes. *)
Lemma updateTask_cases taskId updates s :
  updateTask taskId updates s = (updateTaskState taskId updates s, inr (Some tt))
  ∨ (updateTask taskId updates s =
       (rejectTaskState taskId updates s, inl (ErrorObj invalidState))
     ∧ taskId ∈ ids s ∧ streamOpen s = false).
Proof.
  destruct (streamOpen s) eqn:Hopen; [left; by apply updateTask_open |].
  destruct (decide (taskId ∈ ids s)) as [Hin | Habsent].
  - right. split; [by apply updateTask_shut | done].
  - left. rewrite updateTask_absent by done.
    by rewrite updateTaskState_absent by (by apply absent_not_in).
Qed.

Lemma updateTaskState_frame taskId updates s :
  world (updateTaskState taskId updates s) = world s
  ∧ usedArticleLinks (updateTaskState taskId updates s) = usedArticleLinks s
  ∧ collectedData (updateTaskState taskId updates s) = collectedData s
  ∧ cancelled (updateTaskState taskId updates s) = cancelled s.
Proof. unfold updateTaskState. by destruct (findIndex _ _) as [[i t] |]. Qed.

Lemma rejectTaskState_frame taskId updates s :
  world (rejectTaskState taskId updates s) = world s
  ∧ usedArticleLinks (rejectTaskState taskId updates s) = usedArticleLinks s
  ∧ collectedData (rejectTaskState taskId updates s) = collectedData s
  ∧ stream (rejectTaskState taskId updates s) = stream s.
Proof. unfold rejectTaskState. by destruct (findIndex _ _) as [[i t] |]. Qed.

(** Taken or not, the update leaves the same array of tasks. *)
Lemma rejectTaskState_tasks taskId updates s :
  tasks (rejectTaskState taskId updates s) = tasks (updateTaskState taskId updates s).
Proof. unfold rejectTaskState, updateTaskState. by destruct (findIndex _ _) as [[i t] |]. Qed.

Lemma rejectTaskState_cancelled taskId updates s :
  taskId ∈ ids s → cancelled (rejectTaskState taskId updates s) = true.
Proof.
  intros [t Ht]%recorded_present. unfold recorded in Ht. unfold rejectTaskState.
  by destruct (findIndex _ _) as [[i t'] |].
Qed.

Lemma updateTaskState_ids taskId updates s :
  u_id updates = None → ids (updateTaskState taskId updates s) = ids s.
Proof.
  intros Hid. unfold updateTaskState, ids, findIndex.
  destruct (list_find _ _) as [[i t] |] eqn:Hfind; [| done]. simpl.
  apply list_find_Some in Hfind as (Hi & _ & _).
  rewrite list_fmap_insert. apply list_insert_id.
  rewrite list_lookup_fmap, Hi. simpl. by rewrite Hid.
Qed.

Lemma rejectTaskState_ids taskId updates s :
  u_id updates = None → ids (rejectTaskState taskId updates s) = ids s.
Proof.
  intros Hid. unfold ids. rewrite rejectTaskState_tasks. by apply updateTaskState_ids.
Qed.

Lemma updateTaskState_trace taskId updates st s :
  taskId ∈ ids s → u_id updates = None → u_status updates = Some st →
  trace (updateTaskState taskId updates s) = trace s ++ [(taskId, st)].
Proof.
  intros [t Ht]%recorded_present Hid Hst. unfold recorded in Ht.
  unfold updateTaskState, trace.
  destruct (findIndex _ _) as [[i t'] |] eqn:Hfind; [| done]. simpl.
  apply list_find_Some in Hfind as (_ & <- & _).
  rewrite map_app. simpl. by rewrite Hid, Hst.
Qed.

Lemma rejectTaskState_trace taskId updates s :
  trace (rejectTaskState taskId updates s) = trace s.
Proof.
  unfold trace. by destruct (rejectTaskState_frame taskId updates s) as (_ & _ & _ & ->).
Qed.

Lemma updateTaskState_recorded_same taskId updates s t :
  recorded taskId s = Some t → u_id updates = None →
  recorded taskId (updateTaskState taskId updates s) = Some (mergeTask t updates).
Proof.
  unfold recorded, updateTaskState, findIndex. intros Ht Hid.
  destruct (list_find _ (tasks s)) as [[i t'] |] eqn:Hfind; [| done].
  simpl in Ht. injection Ht as ->. simpl.
  erewrite list_find_insert_same; [done | done |].
  apply list_find_Some in Hfind as (_ & <- & _). simpl. by rewrite Hid.
Qed.

Lemma updateTaskState_recorded_other taskId taskId' updates s :
  taskId' ≠ taskId → u_id updates = None →
  recorded taskId' (updateTaskState taskId updates s) = recorded taskId' s.
Proof.
  unfold recorded, updateTaskState, findIndex. intros Hne Hid.
  destruct (list_find _ (tasks s)) as [[i t] |] eqn:Hfind; [| done]. simpl.
  apply list_find_Some in Hfind as (Hi & Ht & _).
  erewrite list_find_insert_other; [done | done | |]; simpl.
  - congruence.
  - rewrite Hid. simpl. congruence.
Qed.

Lemma rejectTaskState_recorded taskId taskId' updates s :
  recorded taskId' (rejectTaskState taskId updates s) =
    recorded taskId' (updateTaskState taskId updates s).
Proof. unfold recorded. by rewrite rejectTaskState_tasks. Qed.

Lemma updateTaskState_present taskId updates s i t :
  tasks s !! i = Some t →
  Task.id t = taskId →
  (∀ j t', tasks s !! j = Some t' → j < i → Task.id t' ≠ taskId) →
  updateTaskState taskId updates s =
    enqueue (mergeTask t updates) (writeTask i (mergeTask t updates) s)
  ∧ rejectTaskState taskId updates s = cancel (writeTask i (mergeTask t updates) s).
Proof.
  intros Hi Hid Hfirst. unfold updateTaskState, rejectTaskState, findIndex.
  assert (Hfind : list_find (λ t, Task.id t = taskId) (tasks s) = Some (i, t))
    by (apply list_find_Some; eauto).
  by rewrite Hfind.
Qed.

(** Once the stream was found cancelled, the next update of the task
    finds it so. *)
Lemma updateTask_rejected_again taskId u u' s :
  taskId ∈ ids s → u_id u = None →
  updateTask taskId u' (rejectTaskState taskId u s) =
    (rejectTaskState taskId u' (rejectTaskState taskId u s), inl (ErrorObj invalidState)).
Proof.
  intros Hin Hid. apply updateTask_shut.
  - unfold streamOpen. by rewrite rejectTaskState_cancelled.
  - by rewrite rejectTaskState_ids.
Qed.

Lemma setWorld_updateTaskState taskId updates w s :
  updateTaskState taskId updates (setWorld w s) = setWorld w (updateTaskState taskId updates s).
Proof.
  unfold updateTaskState. simpl. by destruct (findIndex taskId (tasks s)) as [[i t] |].
Qed.

Lemma updateTaskState_pushData taskId updates data s :
  updateTaskState taskId updates (pushData data s) =
    pushData data (updateTaskState taskId updates s).
Proof.
  unfold updateTaskState. simpl. by destruct (findIndex taskId (tasks s)) as [[i t] |].
Qed.

Lemma updateTaskState_addLink taskId updates link s :
  updateTaskState taskId updates (addLink link s) =
    addLink link (updateTaskState taskId updates s).
Proof.
  unfold updateTaskState. simpl. by destruct (findIndex taskId (tasks s)) as [[i t] |].
Qed.

(** C10. [updateTask] called with an id that no task of the list has
    changes nothing, enqueues nothing and returns.  Called with an id that
    is in the list, it overwrites the task at the first index with that id
    by the merge of that task and the given fields and leaves the task at
    every other index as it was.  It then pushes the task just written: if
    the stream is open the call returns and exactly one record was
    enqueued, that task; if the stream is cancelled nothing is enqueued and
    the call throws the TypeError of [controller.enqueue], the task staying
    written.  The links, the collected items and the world are untouched
    either way. *)
Theorem updateTask_frame (taskId : string) (updates : TaskUpdates) (s : State) :
  ((∀ t, t ∈ tasks s → Task.id t ≠ taskId) →
     updateTask taskId updates s = (s, inr (Some tt)))
  ∧ (∀ i t,
       tasks s !! i = Some t →
       Task.id t = taskId →
       (∀ j t', tasks s !! j = Some t' → j < i → Task.id t' ≠ taskId) →
       let s' := (updateTask taskId updates s).1 in
       tasks s' !! i = Some (mergeTask t updates)
       ∧ (∀ j, j ≠ i → tasks s' !! j = tasks s !! j)
       ∧ length (tasks s') = length (tasks s)
       ∧ usedArticleLinks s' = usedArticleLinks s
       ∧ collectedData s' = collectedData s
       ∧ world s' = world s
       ∧ (cancelled s = false → clientGone (world s) = false →
            (updateTask taskId updates s).2 = inr (Some tt)
            ∧ stream s' = stream s ++ [mergeTask t updates]
            ∧ cancelled s' = false)
       ∧ (cancelled s = true ∨ clientGone (world s) = true →
            (updateTask taskId updates s).2 = inl (ErrorObj invalidState)
            ∧ stream s' = stream s
            ∧ cancelled s' = true)).
Proof.
  split.
  { intros Habsent. apply updateTask_absent. by apply absent_not_in. }
  intros i t Hi Hid Hfirst s'. subst s'.
  destruct (updateTaskState_present taskId updates s i t Hi Hid Hfirst) as [Htaken Hrejected].
  assert (Hin : taskId ∈ ids s).
  { unfold ids. rewrite <- Hid. apply list_elem_of_fmap_2. by eapply list_elem_of_lookup_2. }
  assert (Hi' : i < length (tasks s)) by (by eapply lookup_lt_Some).
  destruct (streamOpen s) eqn:Hopen.
  - rewrite updateTask_open, Htaken by done. cbn [fst snd]. simpl.
    split; [by apply list_lookup_insert_eq |].
    split; [intros j Hj; by apply list_lookup_insert_ne |].
    split; [apply length_insert |].
    split; [done |]. split; [done |]. split; [done |].
    unfold streamOpen in Hopen. apply negb_true_iff, orb_false_iff in Hopen as [Hc Hg].
    split; [done |]. intros [Hc' | Hg']; congruence.
  - rewrite updateTask_shut, Hrejected by done. cbn [fst snd]. simpl.
    split; [by apply list_lookup_insert_eq |].
    split; [intros j Hj; by apply list_lookup_insert_ne |].
    split; [apply length_insert |].
    split; [done |]. split; [done |]. split; [done |].
    unfold streamOpen in Hopen. apply negb_false_iff, orb_true_iff in Hopen.
    split; [| done]. intros Hc Hg. destruct Hopen; congruence.
Qed.

(** ** What a script of updates does to the state *)

Lemma setWorld_world s : setWorld (world s) s = s.
Proof. by destruct s. Qed.

Lemma applyUpdates_app taskId us vs s :
  applyUpdates taskId (us ++ vs) s = applyUpdates taskId vs (applyUpdates taskId us s).
Proof. apply fold_left_app. Qed.

Lemma applyUpdates_frame taskId updates s :
  world (applyUpdates taskId updates s) = world s
  ∧ usedArticleLinks (applyUpdates taskId updates s) = usedArticleLinks s
  ∧ collectedData (applyUpdates taskId updates s) = collectedData s
  ∧ cancelled (applyUpdates taskId updates s) = cancelled s.
Proof.
  revert s. induction updates as [| u updates IH]; intros s; simpl; [done |].
  destruct (IH (updateTaskState taskId u s)) as (-> & -> & -> & ->).
  apply updateTaskState_frame.
Qed.

Lemma rejectUpdates_frame taskId updates s :
  world (rejectUpdates taskId updates s) = world s
  ∧ usedArticleLinks (rejectUpdates taskId updates s) = usedArticleLinks s
  ∧ collectedData (rejectUpdates taskId updates s) = collectedData s
  ∧ stream (rejectUpdates taskId updates s) = stream s.
Proof.
  revert s. induction updates as [| u updates IH]; intros s; simpl; [done |].
  destruct (IH (rejectTaskState taskId u s)) as (-> & -> & -> & ->).
  apply rejectTaskState_frame.
Qed.

Lemma rejectUpdates_tasks taskId updates s :
  tasks (rejectUpdates taskId updates s) = tasks (applyUpdates taskId updates s).
Proof.
  revert s. induction updates as [| u updates IH]; intros s; simpl; [done |].
  rewrite IH. clear IH.
  assert (Htasks : ∀ x y, tasks x = tasks y →
            tasks (applyUpdates taskId updates x) = tasks (applyUpdates taskId updates y)).
  { induction updates as [| v updates IH]; intros x y Hxy; simpl; [done |].
    apply IH. unfold updateTaskState. rewrite Hxy.
    destruct (findIndex taskId (tasks y)) as [[i t] |]; simpl; [by rewrite Hxy | done]. }
  apply Htasks, rejectTaskState_tasks.
Qed.

Lemma applyUpdates_ids taskId updates s :
  Forall scripted updates → ids (applyUpdates taskId updates s) = ids s.
Proof.
  intros Hus. revert s. induction Hus as [| u updates [Hid _] _ IH]; intros s; simpl; [done |].
  rewrite IH. by apply updateTaskState_ids.
Qed.

Lemma rejectUpdates_ids taskId updates s :
  Forall scripted updates → ids (rejectUpdates taskId updates s) = ids s.
Proof.
  intros Hus. unfold ids. rewrite rejectUpdates_tasks. by apply applyUpdates_ids.
Qed.

Lemma applyUpdates_trace taskId updates s :
  taskId ∈ ids s → Forall scripted updates →
  trace (applyUpdates taskId updates s) =
    trace s ++ map (pair taskId) (omap u_status updates).
Proof.
  intros Hin Hus. revert s Hin.
  induction Hus as [| u updates [Hid [st Hst]] _ IH]; intros s Hin; simpl.
  - by rewrite app_nil_r.
  - rewrite IH by (by rewrite updateTaskState_ids).
    rewrite (updateTaskState_trace _ _ st) by done.
    rewrite Hst. simpl. by rewrite <- app_assoc.
Qed.

Lemma rejectUpdates_trace taskId updates s :
  trace (rejectUpdates taskId updates s) = trace s.
Proof.
  unfold trace. by destruct (rejectUpdates_frame taskId updates s) as (_ & _ & _ & ->).
Qed.

Lemma applyUpdates_recorded_other taskId taskId' updates s :
  taskId' ≠ taskId → Forall scripted updates →
  recorded taskId' (applyUpdates taskId updates s) = recorded taskId' s.
Proof.
  intros Hne Hus. revert s.
  induction Hus as [| u updates [Hid _] _ IH]; intros s; simpl; [done |].
  rewrite IH. by apply updateTaskState_recorded_other.
Qed.

Lemma rejectUpdates_recorded taskId taskId' updates s :
  recorded taskId' (rejectUpdates taskId updates s) =
    recorded taskId' (applyUpdates taskId updates s).
Proof. unfold recorded. by rewrite rejectUpdates_tasks. Qed.

(** After a script the task holds the status of the last update, and the
    message of the last update if that is an error. *)
Lemma applyUpdates_recorded_last taskId updates u s :
  taskId ∈ ids s → Forall scripted (updates ++ [u]) →
  ∃ t, recorded taskId (applyUpdates taskId (updates ++ [u]) s) = Some t
       ∧ u_status u = Some (Task.status t)
       ∧ (∀ message, u_error u = Some message → Task.error t = Some message).
Proof.
  intros Hin [Hus [[Hid [st Hst]] _]%Forall_cons]%Forall_app.
  rewrite applyUpdates_app. simpl.
  assert (Hin' : taskId ∈ ids (applyUpdates taskId updates s))
    by (by rewrite applyUpdates_ids).
  apply recorded_present in Hin' as [t Ht].
  exists (mergeTask t u). split; [by apply updateTaskState_recorded_same |].
  simpl. rewrite Hst. split; [done |]. by intros message ->.
Qed.

Lemma setWorld_observations w s :
  ids (setWorld w s) = ids s
  ∧ trace (setWorld w s) = trace s
  ∧ (∀ taskId, recorded taskId (setWorld w s) = recorded taskId s).
Proof. done. Qed.

(** ** The rounds in canonical form *)

(** What a round of phase 1 may leave, and how it then ends.  Nothing was
    collected: the round made the updates GATHERING and ERROR, or was cut
    at one of them.  Or an article was collected whose link was not in the
    set: the round made the updates GATHERING and GATHERED, or was cut at
    GATHERED. *)
Definition gatherOutcome (category : Category) (s : State)
    (out : State * (Thrown + option unit)) : Prop :=
  let taskId := apiValue category in
  ∃ w' taken rejected,
    (∃ message,
       out.1 = rejectUpdates taskId rejected (setWorld w' (applyUpdates taskId taken s))
       ∧ roundEnd [statusOnly GATHERING; errorUpdates message] taken rejected out.2)
    ∨ (∃ a chosen,
         (Article.link chosen ∉ usedArticleLinks s)
         ∧ Gemini.validAnalysis a
         ∧ out.1 =
             rejectUpdates taskId rejected
               (pushData {| taskId := taskId; analysis := a; article := chosen |}
                  (addLink (Article.link chosen)
                     (setWorld w' (applyUpdates taskId taken s))))
         ∧ roundEnd [statusOnly GATHERING; statusOnly GATHERED] taken rejected out.2
         ∧ taken ≠ []).

(** What a round of phase 2 may leave: the updates of a script, or of a
    script cut where the stream was found cancelled; or, if the scan of a
    highlight phrase does not end, the updates up to COMPOSING and no
    return. *)
Definition processOutcome (data : CollectedData) (s : State)
    (out : State * (Thrown + option unit)) : Prop :=
  let generated := Js.falsy (Article.image_url (article data)) in
  ∃ w' taken rejected,
    out.1 = rejectUpdates (taskId data) rejected
              (setWorld w' (applyUpdates (taskId data) taken s))
    ∧ ((∃ script, processScript generated script ∧ roundEnd script taken rejected out.2)
       ∨ (out.2 = inr None
          ∧ rejected = []
          ∧ taken = statusOnly PROCESSING
                    :: (if generated then [statusOnly GENERATING_IMAGE] else [])
                    ++ [statusOnly COMPOSING]
          ∧ (Canvas.headlineOps measureAt (Analysis.headline (analysis data))
               (Analysis.highlightPhrases (analysis data))).2 = false)).

Ltac taken_of x :=
  lazymatch x with
  | rejectTaskState _ _ ?y => taken_of y
  | updateTaskState _ ?u ?y => let l := taken_of y in constr:(l ++ [u])
  | setWorld _ ?y => taken_of y
  | pushData _ ?y => taken_of y
  | addLink _ ?y => taken_of y
  | _ => constr:(@nil TaskUpdates)
  end.

Ltac rejected_of x :=
  lazymatch x with
  | rejectTaskState _ ?u ?y => let l := rejected_of y in constr:(l ++ [u])
  | _ => constr:(@nil TaskUpdates)
  end.

Ltac world_in x0 x :=
  lazymatch x with
  | updateTaskState _ _ ?y => world_in x0 y
  | setWorld ?w _ => constr:(w)
  | pushData _ ?y => world_in x0 y
  | addLink _ ?y => world_in x0 y
  | _ => constr:(world x0)
  end.

Ltac world_of x :=
  lazymatch x with
  | rejectTaskState _ _ ?y => world_of y
  | _ => world_in x x
  end.

(** The state reached is the canonical one. *)
Ltac canonical_state :=
  cbn [fst snd app]; unfold rejectUpdates, applyUpdates; cbn [fold_left];
  rewrite ?updateTaskState_pushData, ?updateTaskState_addLink,
    ?setWorld_updateTaskState, ?setWorld_world;
  reflexivity.

Ltac round_end :=
  cbn [fst snd app];
  first [ apply roundReturned
        | eapply roundCut; reflexivity ].

(** The next [updateTask] of the goal: taken, or not; after one that was
    not, the one of the [catch] is not either. *)
Ltac update_step :=
  lazymatch goal with
  | |- context [updateTask ?id ?u (rejectTaskState ?id ?u0 ?x)] =>
      rewrite (updateTask_rejected_again id u0 u x) by done
  | |- context [updateTask ?id ?u ?x] =>
      destruct (updateTask_cases id u x) as [-> | (-> & ? & ?)]; cbv beta iota
  end.

Ltac call f :=
  match goal with
  | |- context [f ?a ?w] =>
      let w' := fresh "w" in let e := fresh "err" in let r := fresh "r" in
      destruct (f a w) as [w' [e | r]]; cbv beta iota
  end.

Ltac gather_failed :=
  lazymatch goal with
  | |- gatherOutcome _ _ (?x, _) =>
      let w := world_of x in let t := taken_of x in let j := rejected_of x in
      exists w, t, j; left;
      eexists; split; [canonical_state | round_end]
  end.

Ltac gather_found a chosen :=
  lazymatch goal with
  | |- gatherOutcome _ _ (?x, _) =>
      let w := world_of x in let t := taken_of x in let j := rejected_of x in
      exists w, t, j; right; exists a, chosen;
      split; [done |]; split; [done |];
      split; [canonical_state |]; split; [round_end | done]
  end.

Lemma gatherCategory_canonical category s :
  gatherOutcome category s (gatherCategory category s).
Proof.
  unfold gatherCategory, gatherBody, Run.tryCatch, Run.bind, await, awaitRun, Run.lift,
    Run.get, Run.throw, addUsedLink, pushCollected, Run.modify.
  update_step; [| cbn [errorMessage]; update_step; gather_failed].
  destruct (updateTaskState_frame (apiValue category) (statusOnly GATHERING) s)
    as (Hworld & Hused & _).
  set (s1 := updateTaskState (apiValue category) (statusOnly GATHERING) s) in *.
  destruct (fetchLatestBangladeshiNews (apiValue category) (world s1))
    as [w1 [err | allArticles]] eqn:Hfetch; cbv beta iota.
  { subst s1. update_step; gather_failed. }
  change (usedArticleLinks (setWorld w1 s1)) with (usedArticleLinks s1). rewrite Hused.
  set (unusedArticles := filter (λ a, Article.link a ∉ usedArticleLinks s) allArticles).
  destruct (length unusedArticles =? 0); cbv beta iota.
  { subst s1. update_step; gather_failed. }
  change (world (setWorld w1 s1)) with w1.
  destruct (Gemini.findAndAnalyzeBestArticleFromList W generateContent unusedArticles w1)
    as [w2 [err | [[a chosen] |]]] eqn:Hanalyze; cbv beta iota.
  { subst s1. update_step; gather_failed. }
  2: { subst s1. update_step; gather_failed. }
  apply Gemini.findAndAnalyze_chosen in Hanalyze as [Hin Hvalid].
  apply list_elem_of_filter in Hin as [Hunused _].
  subst s1. update_step; [gather_found a chosen |].
  cbn [errorMessage]. update_step. gather_found a chosen.
  Unshelve. all: exact "".
Qed.

Lemma compose_never data src w w' :
  compose data src w = (w', inr None) →
  (Canvas.headlineOps measureAt (Analysis.headline (analysis data))
     (Analysis.highlightPhrases (analysis data))).2 = false.
Proof. apply Canvas.composeImage_never. Qed.

(** A script that goes on from the updates made so far. *)
Ltac script_rest k :=
  first [ k (@nil TaskUpdates)
        | k [errorUpdates ""]
        | k [statusOnly GENERATING_IMAGE; errorUpdates ""]
        | k [statusOnly COMPOSING; errorUpdates ""] ].

Ltac legal_script :=
  cbn [app];
  first [ exact (generationFailed _ _ eq_refl)
        | exact (acquired _ _ (composeFailed _))
        | exact (acquired _ _ (uploadFailed _))
        | exact (acquired _ _ (webhookFailed _))
        | exact (acquired _ _ (delivered _)) ].

Ltac process_end :=
  lazymatch goal with
  | |- processOutcome _ _ (?x, ?r) =>
      let w := world_of x in let t := taken_of x in let j := rejected_of x in
      let t' := eval cbn [app] in t in
      let j' := eval cbn [app] in j in
      exists w, t', j'; split; [canonical_state |];
      match goal with H : Js.falsy _ = _ |- _ => rewrite H end;
      cbn [fst snd];
      lazymatch r with
      | inr None => right; split; [reflexivity |]; split; [reflexivity |];
                    split; [reflexivity | by eapply compose_never]
      | inr (Some _) => left; exists t'; split; [legal_script | apply roundReturned]
      | inl _ =>
          left;
          lazymatch j' with
          | ?u :: _ =>
              script_rest ltac:(fun rest =>
                exists (t' ++ u :: rest);
                split; [legal_script | by apply (roundCut _ t' u rest)])
          end
      end
  end.

Ltac explore_process :=
  cbv beta iota; cbn [errorMessage];
  first [ process_end
        | update_step; explore_process
        | match goal with
          | |- context [compose ?d ?src ?w] =>
              let w' := fresh "w" in let e := fresh "err" in let r := fresh "r" in
              let H := fresh "Hcompose" in
              destruct (compose d src w) as [w' [e | [r |]]] eqn:H
          end; explore_process
        | first [ call generateImageFromPrompt | call uploadToCloudinary
                | call sendToMakeWebhook ]; explore_process ].

Lemma processItem_canonical data s :
  processOutcome data s (processItem data s).
Proof.
  unfold processItem, processBody, acquireImage, Run.tryCatch, Run.bind, await, awaitRun,
    Run.lift, Run.throw, Run.ret.
  destruct (Js.falsy (Article.image_url (article data))) eqn:Hurl; explore_process.
Qed.

(** ** How a round ends *)

Lemma afterRejected_scriptUpdates u : Forall scriptUpdate (afterRejected u).
Proof. unfold afterRejected. destruct (decide _); script_updates. Qed.

Lemma roundEnd_scriptUpdates script taken rejected r :
  Forall scriptUpdate script → roundEnd script taken rejected r →
  Forall scriptUpdate taken ∧ Forall scriptUpdate rejected.
Proof.
  intros Hscript [| before u rest ->]; [by split |].
  apply Forall_app in Hscript as [Hbefore [Hu _]%Forall_cons].
  split; [done |]. constructor; [done | apply afterRejected_scriptUpdates].
Qed.

(** A round returns with its whole script, throws the TypeError of the
    stream with part of it, and ends in no other way. *)
Lemma roundEnd_cases script taken rejected r :
  roundEnd script taken rejected r →
  (r = inr (Some tt) ∧ taken = script ∧ rejected = [])
  ∨ (r = inl (ErrorObj invalidState) ∧ rejected ≠ []
     ∧ ∃ u rest, script = taken ++ u :: rest).
Proof. intros [| before u rest ->]; [by left | right]. split; [done |]. eauto. Qed.

Lemma gatherCategory_ends category s : (gatherCategory category s).2 ≠ inr None.
Proof.
  destruct (gatherCategory_canonical category s)
    as (w' & taken & rejected &
        [(message & _ & Hend) | (a & chosen & _ & _ & _ & Hend & _)]);
    by apply roundEnd_cases in Hend as [(-> & _) | (-> & _)].
Qed.

(** The headline of a valid analysis is painted by loops that end. *)
Definition headlinePainted (d : CollectedData) : Prop :=
  (Canvas.headlineOps measureAt (Analysis.headline (analysis d))
     (Analysis.highlightPhrases (analysis d))).2 = true.

Lemma valid_headlinePainted d : Gemini.validAnalysis (analysis d) → headlinePainted d.
Proof. intros (_ & _ & Hphrases & _). by apply Canvas.headlineOps_exits. Qed.

Lemma processItem_ends data s :
  headlinePainted data → (processItem data s).2 ≠ inr None.
Proof.
  unfold headlinePainted. intros Hpainted.
  destruct (processItem_canonical data s)
    as (w' & taken & rejected & _ & [(script & _ & Hend) | (_ & _ & _ & Hnever)]).
  - by apply roundEnd_cases in Hend as [(-> & _) | (-> & _)].
  - congruence.
Qed.

(** ** Invariants of a run *)

(** What the steps of a run keep, the run keeps: every step is a service
    call, the addition of a link, the collection of an item, or an update
    of a task by a script, taken by the stream or not.  [R] is what may be
    assumed where the stream is found cancelled. *)
Section Invariant.
Variable P : State → Prop.
Variable R : Prop.
Hypothesis P_setWorld : ∀ w s, P s → P (setWorld w s).
Hypothesis P_addLink : ∀ link s, P s → P (addLink link s).
Hypothesis P_pushData : ∀ data s, P s → P (pushData data s).
Hypothesis P_updateTask :
  ∀ taskId u s, scriptUpdate u → P s → P (updateTaskState taskId u s).
Hypothesis P_rejectTask :
  ∀ taskId u s, R → scriptUpdate u → P s → P (rejectTaskState taskId u s).
Hypothesis P_cancel : ∀ s, R → P s → P (cancel s).

(** What is known of a result: [R], if it is the TypeError of the
    stream. *)
Definition whenCut (r : Thrown + option unit) : Prop :=
  r = inl (ErrorObj invalidState) → R.

Lemma applyUpdates_invariant taskId updates s :
  Forall scriptUpdate updates → P s → P (applyUpdates taskId updates s).
Proof.
  intros Hus. revert s. induction Hus as [| u updates Hu _ IH]; intros s Hs; [done |].
  simpl. apply IH. by apply P_updateTask.
Qed.

Lemma rejectUpdates_invariant taskId updates s :
  (updates ≠ [] → R) → Forall scriptUpdate updates → P s →
  P (rejectUpdates taskId updates s).
Proof.
  intros HR Hus. revert s. induction Hus as [| u updates Hu _ IH]; intros s Hs; [done |].
  simpl. apply IH; [intros _; by apply HR |]. apply P_rejectTask; [by apply HR | done..].
Qed.

Lemma roundEnd_invariant script taken rejected r taskId :
  Forall scriptUpdate script → roundEnd script taken rejected r → whenCut r →
  (∀ s, P s → P (applyUpdates taskId taken s))
  ∧ (∀ s, P s → P (rejectUpdates taskId rejected s)).
Proof.
  intros Hscript Hend Hcut.
  destruct (roundEnd_scriptUpdates _ _ _ _ Hscript Hend) as [Htaken Hrejected].
  split; [intros s; by apply applyUpdates_invariant |].
  intros s. apply rejectUpdates_invariant; [| done].
  intros Hne. apply roundEnd_cases in Hend as [(_ & _ & ->) | (-> & _)]; [done |].
  by apply Hcut.
Qed.

Lemma gatherCategory_invariant category s :
  P s → whenCut (gatherCategory category s).2 → P (gatherCategory category s).1.
Proof.
  intros Hs Hcut.
  destruct (gatherCategory_canonical category s)
    as (w' & taken & rejected &
        [(message & -> & Hend) | (a & chosen & _ & _ & -> & Hend & _)]).
  - assert (Hscript : Forall scriptUpdate
              [statusOnly GATHERING; errorUpdates message]) by script_updates.
    destruct (roundEnd_invariant _ _ _ _ (apiValue category) Hscript Hend Hcut)
      as [Htaken Hrejected].
    apply Hrejected, P_setWorld, Htaken, Hs.
  - assert (Hscript : Forall scriptUpdate
              [statusOnly GATHERING; statusOnly GATHERED]) by script_updates.
    destruct (roundEnd_invariant _ _ _ _ (apiValue category) Hscript Hend Hcut)
      as [Htaken Hrejected].
    apply Hrejected, P_pushData, P_addLink, P_setWorld, Htaken, Hs.
Qed.

Lemma processItem_invariant data s :
  P s → whenCut (processItem data s).2 → P (processItem data s).1.
Proof.
  intros Hs Hcut.
  destruct (processItem_canonical data s)
    as (w' & taken & rejected & -> &
        [(script & Hscript & Hend) | (_ & -> & -> & _)]).
  - apply processScript_scriptUpdates in Hscript.
    destruct (roundEnd_invariant _ _ _ _ (taskId data) Hscript Hend Hcut)
      as [Htaken Hrejected].
    apply Hrejected, P_setWorld, Htaken, Hs.
  - cbn [rejectUpdates fold_left]. apply P_setWorld. apply applyUpdates_invariant; [| done].
    destruct (Js.falsy _); script_updates.
Qed.

Lemma phase1_invariant s : P s → whenCut (phase1 s).2 → P (phase1 s).1.
Proof.
  apply (Run.forEach_invariant P whenCut); [done |].
  intros category s' _. apply gatherCategory_invariant.
Qed.

Lemma phase2_invariant s : P s → whenCut (phase2 s).2 → P (phase2 s).1.
Proof.
  unfold phase2, Run.bind, Run.get.
  apply (Run.forEach_invariant P whenCut); [done |].
  intros data s' _. apply processItem_invariant.
Qed.

Lemma controllerClose_invariant s :
  P s → whenCut (controllerClose s).2 → P (controllerClose s).1.
Proof.
  unfold controllerClose. destruct (streamOpen s); [done |].
  intros Hs Hcut. apply P_cancel; [by apply Hcut | done].
Qed.

Lemma handler_invariant w :
  P (initialState w) → whenCut (handler w).2 → P (handler w).1.
Proof.
  intros Hs. unfold handler, Run.bind.
  pose proof (phase1_invariant (initialState w) Hs) as H1.
  destruct (phase1 (initialState w)) as [s1 [e | [[] |]]]; try exact H1.
  pose proof (phase2_invariant s1 (H1 ltac:(done))) as H2.
  destruct (phase2 s1) as [s2 [e | [[] |]]]; try exact H2.
  apply controllerClose_invariant. by apply H2.
Qed.

End Invariant.

(** ** The run from one phase to the next *)

(** A run that returns went through every round, each of which
    returned, and closed the stream. *)
Lemma handler_returned w final :
  handler w = (final, inr (Some tt)) →
  ∃ s1,
    phase1 (initialState w) = (s1, inr (Some tt))
    ∧ phase2 s1 = (final, inr (Some tt))
    ∧ streamOpen final = true.
Proof.
  unfold handler, Run.bind.
  destruct (phase1 (initialState w)) as [s1 [e | [[] |]]] eqn:H1; try done.
  destruct (phase2 s1) as [s2 [e | [[] |]]] eqn:H2; try done.
  unfold controllerClose. destruct (streamOpen s2) eqn:Hopen; [| done].
  intros [= <-]. by exists s1.
Qed.

(** A run does not hang: phase 2 is handed valid analyses only, whose
    headlines are painted by loops that end. *)
Definition collectedValid (s : State) : Prop :=
  Forall (λ d, Gemini.validAnalysis (analysis d)) (collectedData s).

Lemma gatherCategory_valid category s :
  collectedValid s → collectedValid (gatherCategory category s).1.
Proof.
  unfold collectedValid. intros Hvalid.
  destruct (gatherCategory_canonical category s)
    as (w' & taken & rejected &
        [(message & -> & _) | (a & chosen & _ & Ha & -> & _)]).
  - destruct (rejectUpdates_frame (apiValue category) rejected
                (setWorld w' (applyUpdates (apiValue category) taken s))) as (_ & _ & -> & _).
    change (collectedData (setWorld w' ?x)) with (collectedData x).
    by destruct (applyUpdates_frame (apiValue category) taken s) as (_ & _ & -> & _).
  - match goal with
    | |- context [rejectUpdates ?i ?j ?x] =>
        destruct (rejectUpdates_frame i j x) as (_ & _ & -> & _)
    end.
    change (collectedData (pushData ?d (addLink ?l (setWorld ?w ?x))))
      with (collectedData x ++ [d]).
    destruct (applyUpdates_frame (apiValue category) taken s) as (_ & _ & -> & _).
    apply Forall_app. split; [done |]. by apply Forall_singleton.
Qed.

Lemma phase1_valid s : collectedValid s → collectedValid (phase1 s).1.
Proof.
  intros Hs. apply (Run.forEach_invariant collectedValid (λ _, True)); try done.
  intros category s' _ Hs' _. by apply gatherCategory_valid.
Qed.

Lemma forEach_ends {A} (body : A → Run State unit) xs s :
  (∀ x s', x ∈ xs → (body x s').2 ≠ inr None) →
  (Run.forEach xs body s).2 ≠ inr None.
Proof.
  revert s. induction xs as [| x xs IH]; intros s Hbody; simpl; [done |].
  unfold Run.bind. pose proof (Hbody x s (list_elem_of_here _ _)) as Hx.
  destruct (body x s) as [s1 [e | [[] |]]]; simpl in *; try done.
  apply IH. intros y s' Hy. apply Hbody. by right.
Qed.

Lemma handler_ends w : (handler w).2 ≠ inr None.
Proof.
  unfold handler, Run.bind.
  pose proof (forEach_ends gatherCategory NEWS_CATEGORIES (initialState w)
                (λ c s' _, gatherCategory_ends c s')) as H1.
  pose proof (phase1_valid (initialState w) ltac:(constructor)) as Hvalid.
  fold phase1 in H1.
  destruct (phase1 (initialState w)) as [s1 [e | [[] |]]]; try done.
  assert (H2 : (phase2 s1).2 ≠ inr None).
  { unfold phase2, Run.bind, Run.get. apply forEach_ends.
    intros d s' Hd. apply processItem_ends, valid_headlinePainted.
    unfold collectedValid in Hvalid. cbn [fst] in Hvalid.
    by apply (proj1 (Forall_forall _ _) Hvalid). }
  destruct (phase2 s1) as [s2 [e | [[] |]]]; try done.
  unfold controllerClose. by destruct (streamOpen s2).
Qed.

(** ** The links of the collected articles *)

Definition collectedLinks (s : State) : list string :=
  map (λ d, Article.link (article d)) (collectedData s).

(** The set of used links is the set of the links collected, and no link
    was collected twice. *)
Definition linksInvariant (s : State) : Prop :=
  NoDup (collectedLinks s) ∧ usedArticleLinks s = list_to_set (collectedLinks s).

Lemma gatherCategory_links category s :
  let s' := (gatherCategory category s).1 in
  usedArticleLinks s ⊆ usedArticleLinks s'
  ∧ ((collectedData s' = collectedData s ∧ usedArticleLinks s' = usedArticleLinks s)
     ∨ ∃ d, collectedData s' = collectedData s ++ [d]
            ∧ (Article.link (article d) ∉ usedArticleLinks s)
            ∧ usedArticleLinks s' = {[Article.link (article d)]} ∪ usedArticleLinks s).
Proof.
  intros s'. subst s'.
  destruct (gatherCategory_canonical category s)
    as (w' & taken & rejected &
        [(message & -> & _) | (a & chosen & Hnew & _ & -> & _)]).
  - destruct (rejectUpdates_frame (apiValue category) rejected
                (setWorld w' (applyUpdates (apiValue category) taken s)))
      as (_ & -> & -> & _).
    change (usedArticleLinks (setWorld w' ?x)) with (usedArticleLinks x).
    change (collectedData (setWorld w' ?x)) with (collectedData x).
    destruct (applyUpdates_frame (apiValue category) taken s) as (_ & -> & -> & _).
    split; [done | by left].
  - match goal with
    | |- context [rejectUpdates ?i ?j ?x] =>
        destruct (rejectUpdates_frame i j x) as (_ & -> & -> & _)
    end.
    change (usedArticleLinks (pushData ?d (addLink ?l (setWorld ?w ?x))))
      with ({[l]} ∪ usedArticleLinks x).
    change (collectedData (pushData ?d (addLink ?l (setWorld ?w ?x))))
      with (collectedData x ++ [d]).
    destruct (applyUpdates_frame (apiValue category) taken s) as (_ & -> & -> & _).
    split; [apply union_subseteq_r |].
    right. eexists. split; [reflexivity |]. by split.
Qed.

Lemma gatherCategory_linksInvariant category s :
  linksInvariant s → linksInvariant (gatherCategory category s).1.
Proof.
  intros [Hnodup Hused]. unfold linksInvariant, collectedLinks.
  destruct (gatherCategory_links category s)
    as (_ & [[-> ->] | (d & -> & Hnew & ->)]); [done |].
  rewrite map_app. simpl. split.
  - apply NoDup_app. split; [done |]. split; [| apply NoDup_singleton].
    intros l Hl ->%list_elem_of_singleton. apply Hnew. rewrite Hused.
    by apply elem_of_list_to_set.
  - rewrite list_to_set_app_L, Hused. simpl.
    rewrite (right_id_L ∅ (∪)). apply (comm_L (∪)).
Qed.

Lemma phase1_links s :
  linksInvariant s →
  linksInvariant (phase1 s).1 ∧ usedArticleLinks s ⊆ usedArticleLinks (phase1 s).1.
Proof.
  intros Hinv.
  apply (Run.forEach_invariant
           (λ s', linksInvariant s' ∧ usedArticleLinks s ⊆ usedArticleLinks s')
           (λ _, True)); try done.
  intros c s' _ [Hinv' Hsub] _. split; [by apply gatherCategory_linksInvariant |].
  destruct (gatherCategory_links c s') as [Hmono _].
  etrans; [exact Hsub | exact Hmono].
Qed.

Lemma ids_initialState w : ids (initialState w) = map apiValue NEWS_CATEGORIES.
Proof. unfold ids, initialState. simpl. by rewrite map_map. Qed.

(** How a run goes from phase to phase: it stops in phase 1; or phase 1
    returns and it stops in phase 2; or both return and the stream is
    closed, or found cancelled at that point. *)
Lemma handler_phases w :
  ∃ s1 r1,
    phase1 (initialState w) = (s1, r1)
    ∧ ((r1 ≠ inr (Some tt) ∧ handler w = (s1, r1))
       ∨ (r1 = inr (Some tt)
          ∧ ∃ s2 r2,
              phase2 s1 = (s2, r2)
              ∧ ((r2 ≠ inr (Some tt) ∧ handler w = (s2, r2))
                 ∨ (r2 = inr (Some tt)
                    ∧ (handler w = (s2, inr (Some tt))
                       ∨ handler w = (cancel s2, inl (ErrorObj invalidState))))))).
Proof.
  unfold handler, Run.bind.
  destruct (phase1 (initialState w)) as [s1 r1]. exists s1, r1. split; [done |].
  destruct r1 as [e | [[] |]]; [by left | | by left]. right. split; [done |].
  destruct (phase2 s1) as [s2 r2]. exists s2, r2. split; [done |].
  destruct r2 as [e | [[] |]]; [by left | | by left]. right. split; [done |].
  unfold controllerClose. destruct (streamOpen s2); [by left | by right].
Qed.

(** The rounds of a loop that returns have all returned. *)
Lemma forEach_returned {A} (body : A → Run State unit) x xs s final :
  Run.forEach (x :: xs) body s = (final, inr (Some tt)) →
  ∃ s1, body x s = (s1, inr (Some tt)) ∧ Run.forEach xs body s1 = (final, inr (Some tt)).
Proof.
  simpl. unfold Run.bind. destruct (body x s) as [s1 [e | [[] |]]]; try done.
  intros Hrest. by exists s1.
Qed.

(** A round that returns has made the updates of its whole script. *)
Lemma gatherCategory_returned category s s1 :
  gatherCategory category s = (s1, inr (Some tt)) →
  (∃ w' message,
     s1 = setWorld w' (applyUpdates (apiValue category)
            [statusOnly GATHERING; errorUpdates message] s))
  ∨ (∃ w' a chosen,
       (Article.link chosen ∉ usedArticleLinks s)
       ∧ Gemini.validAnalysis a
       ∧ s1 = pushData {| taskId := apiValue category; analysis := a; article := chosen |}
                (addLink (Article.link chosen)
                   (setWorld w' (applyUpdates (apiValue category)
                      [statusOnly GATHERING; statusOnly GATHERED] s)))).
Proof.
  intros Hround.
  destruct (gatherCategory_canonical category s)
    as (w' & taken & rejected &
        [(message & Hstate & Hend) | (a & chosen & Hnew & Hvalid & Hstate & Hend & _)]);
    rewrite Hround in Hstate, Hend; cbn [fst snd] in Hstate, Hend;
    apply roundEnd_cases in Hend as [(_ & -> & ->) | ([=] & _)].
  - left. by exists w', message.
  - right. by exists w', a, chosen.
Qed.

Lemma processItem_returned data s s1 :
  processItem data s = (s1, inr (Some tt)) →
  ∃ w' script,
    processScript (Js.falsy (Article.image_url (article data))) script
    ∧ s1 = setWorld w' (applyUpdates (taskId data) script s).
Proof.
  intros Hround.
  destruct (processItem_canonical data s)
    as (w' & taken & rejected & Hstate &
        [(script & Hscript & Hend) | (Hnever & _)]);
    rewrite Hround in *; cbn [fst snd] in *; [| done].
  apply roundEnd_cases in Hend as [(_ & -> & ->) | ([=] & _)].
  by exists w', script.
Qed.

End Server.

End Server.

(* ===================================================================== *)
(** * The App component that runs the batch in the browser *)
(* ===================================================================== *)

Module Client.

(** Each link once, in the order in which the links first occur.
    ([remove_dups] keeps of each element its last occurrence; on the
    reversed list that is the first.) *)
Definition inOrderOfFirstOccurrence (links : list string) : list string :=
  reverse (remove_dups (reverse links)).

Section Trending.
(** [new Date(s).getTime()]: [None] for NaN, the time of an invalid date. *)
Variable dateGetTime : string → option Z.
(** [Array.prototype.sort] *)
Variable arraySort :
  (Article.NewsDataArticle → Article.NewsDataArticle → Z) →
  list Article.NewsDataArticle → list Article.NewsDataArticle.

(** The comparator given to [uniqueArticles.sort]; a NaN difference counts
    as 0 for the sort. *)
Definition byPubDateDesc (a b : Article.NewsDataArticle) : Z :=
  if Js.falsy (Article.pubDate a) || Js.falsy (Article.pubDate b) then 0%Z
  else
    match dateGetTime (default "" (Article.pubDate b)),
          dateGetTime (default "" (Article.pubDate a)) with
    | Some tb, Some ta => (tb - ta)%Z
    | _, _ => 0%Z
    end.

(** [Array.from(new Map(articles.map(article => [article.link, article]))
    .values())] *)
Definition uniqueByLink (articles : list Article.NewsDataArticle)
    : list Article.NewsDataArticle :=
  Js.mapValues (Js.newMap (map (λ article, (Article.link article, article)) articles)).

(** From [articlesFromAllCategories] to [allArticles]: unique by link,
    sorted, [slice(0, 10)]. *)
Definition trendingArticles (articlesFromAllCategories : list Article.NewsDataArticle)
    : list Article.NewsDataArticle :=
  take 10 (arraySort byPubDateDesc (uniqueByLink articlesFromAllCategories)).

(** The time of an article, when it has a date that reads. *)
Definition timeOf (a : Article.NewsDataArticle) : option Z :=
  if Js.falsy (Article.pubDate a) then None
  else dateGetTime (default "" (Article.pubDate a)).

(** The three articles of the merge test. *)
Definition dated (link pubDate : string) : Article.NewsDataArticle :=
  {| Article.link := link; Article.title := ""; Article.content := None;
     Article.description := None; Article.source_id := "";
     Article.image_url := None; Article.pubDate := Some pubDate |}.

Definition mergeTest : list Article.NewsDataArticle :=
  [dated "a" "2024-01-02"; dated "a" "2024-01-01"; dated "b" "2024-01-03"].

(** ** The trending merge *)

Lemma byPubDateDesc_timeOf a b ta tb :
  timeOf a = Some ta → timeOf b = Some tb → byPubDateDesc a b = (tb - ta)%Z.
Proof.
  unfold timeOf, byPubDateDesc.
  destruct (Js.falsy (Article.pubDate a)); [done |].
  destruct (Js.falsy (Article.pubDate b)); [done |].
  simpl. by intros -> ->.
Qed.

Lemma filter_by_link k articles :
  filter (λ e : string * Article.NewsDataArticle, e.1 = k)
         (map (λ article, (Article.link article, article)) articles) =
    map (λ article, (Article.link article, article))
        (filter (λ b, Article.link b = k) articles).
Proof.
  induction articles as [| a articles IH]; [done |].
  cbn [map]. rewrite !filter_cons. cbn [fst].
  destruct (decide (Article.link a = k)); [cbn [map]; by f_equal | done].
Qed.

(** What the [Map] leaves: one article per link, the last of the input
    with that link, and no link of the input is lost. *)
Lemma uniqueByLink_spec articles :
  NoDup (map Article.link (uniqueByLink articles))
  ∧ (∀ a, a ∈ uniqueByLink articles →
       last (filter (λ b, Article.link b = Article.link a) articles) = Some a)
  ∧ (∀ a, a ∈ articles → Article.link a ∈ map Article.link (uniqueByLink articles)).
Proof.
  unfold uniqueByLink, Js.newMap, Js.mapValues.
  set (entries := map (λ article, (Article.link article, article)) articles).
  destruct (Js.fold_mapSet entries [] (NoDup_nil_2)) as (Hnd & Hmem & Hget).
  set (m := fold_left _ entries []) in *.
  assert (Hlast : ∀ k a, (k, a) ∈ m →
    last (filter (λ b, Article.link b = k) articles) = Some a ∧ k = Article.link a).
  { intros k a Hin. apply Js.mapGet_elem_of in Hin; [| done].
    rewrite Hget in Hin. unfold entries in Hin. rewrite filter_by_link, fmap_last in Hin.
    destruct (last (filter _ articles)) as [a' |] eqn:Hl; [| done].
    simpl in Hin. injection Hin as ->. split; [done |].
    apply last_Some_elem_of, list_elem_of_filter in Hl as [Hl _]. done. }
  assert (Hkeys : map Article.link (map snd m) = map fst m).
  { rewrite map_map. apply map_ext_in. intros [k a] Hin%list_elem_of_In.
    simpl. by destruct (Hlast k a Hin) as [_ ->]. }
  split; [by rewrite Hkeys |]. split.
  - intros a ([k a'] & -> & Hin)%list_elem_of_fmap. simpl.
    destruct (Hlast k a' Hin) as [Hl ->]. done.
  - intros a Ha. rewrite Hkeys, Hmem. left. unfold entries. rewrite map_map. simpl.
    by apply list_elem_of_fmap_2.
Qed.

(** The keys of a [Map] after [set]: a key already there keeps its place,
    a new key goes last. *)
Lemma mapSet_fst {V} k (v : V) m :
  map fst (Js.mapSet k v m) =
    if decide (k ∈ map fst m) then map fst m else map fst m ++ [k].
Proof.
  induction m as [| [k' v'] m IH]; simpl; [done |].
  destruct (String.eqb_spec k' k) as [-> | Hne]; simpl.
  - rewrite decide_True by (by left). done.
  - rewrite IH. destruct (decide (k ∈ map fst m)) as [Hin | Hnot].
    + rewrite decide_True by (by right). done.
    + rewrite decide_False; [done |]. intros [-> | ?]%elem_of_cons; done.
Qed.

Lemma inOrderOfFirstOccurrence_snoc links k :
  inOrderOfFirstOccurrence (links ++ [k]) =
    if decide (k ∈ links) then inOrderOfFirstOccurrence links
    else inOrderOfFirstOccurrence links ++ [k].
Proof.
  unfold inOrderOfFirstOccurrence. rewrite reverse_app. simpl.
  destruct (decide_rel elem_of k (reverse links)) as [Hin | Hnot].
  - rewrite decide_True; [done |]. by apply elem_of_reverse.
  - rewrite decide_False; [| by rewrite <- elem_of_reverse].
    by rewrite reverse_cons.
Qed.

Lemma elem_of_inOrderOfFirstOccurrence links k :
  k ∈ inOrderOfFirstOccurrence links ↔ k ∈ links.
Proof.
  unfold inOrderOfFirstOccurrence.
  by rewrite elem_of_reverse, elem_of_remove_dups, elem_of_reverse.
Qed.

(** The [Map] keeps the links in the order of their first occurrence. *)
Lemma uniqueByLink_order articles :
  map Article.link (uniqueByLink articles) =
    inOrderOfFirstOccurrence (map Article.link articles).
Proof.
  assert (Hkeys : ∀ l,
    map fst (Js.newMap (map (λ a, (Article.link a, a)) l)) =
      inOrderOfFirstOccurrence (map Article.link l)
    ∧ map Article.link (Js.mapValues (Js.newMap (map (λ a, (Article.link a, a)) l))) =
        map fst (Js.newMap (map (λ a, (Article.link a, a)) l))).
  { intros l. split.
    - induction l as [| a l IH] using rev_ind; [done |].
      unfold Js.newMap in *. rewrite !map_app, fold_left_app. simpl.
      rewrite mapSet_fst, IH, inOrderOfFirstOccurrence_snoc.
      destruct (decide (Article.link a ∈ map Article.link l)) as [Hin | Hnot].
      + rewrite decide_True; [done |]. by apply elem_of_inOrderOfFirstOccurrence.
      + rewrite decide_False; [done |]. by rewrite elem_of_inOrderOfFirstOccurrence.
    - destruct (uniqueByLink_spec l) as (_ & Hlast & _).
      unfold uniqueByLink, Js.mapValues in *. rewrite map_map.
      apply map_ext_in. intros [k a] Hin%list_elem_of_In. simpl.
      destruct (Js.fold_mapSet (map (λ a, (Article.link a, a)) l) [] (NoDup_nil_2))
        as (Hnd & _ & Hget).
      apply Js.mapGet_elem_of in Hin; [| exact Hnd].
      unfold Js.newMap in Hin. rewrite Hget, filter_by_link, fmap_last in Hin.
      destruct (last (filter _ l)) as [a' |] eqn:Hl; [| done].
      simpl in Hin. injection Hin as ->.
      by apply last_Some_elem_of, list_elem_of_filter in Hl as [Hl _]. }
  destruct (Hkeys articles) as [Hfst Hsnd]. unfold uniqueByLink. by rewrite Hsnd, Hfst.
Qed.

(** In a list sorted from left to right, what comes in a front part
    stands before what comes after it. *)
Lemma StronglySorted_app_cross {A} (R : A → A → Prop) l1 l2 a b :
  StronglySorted R (l1 ++ l2) → a ∈ l1 → b ∈ l2 → R a b.
Proof.
  induction l1 as [| x l1 IH]; simpl; [by intros _ ?%elem_of_nil |].
  intros Hsorted [-> | Ha]%elem_of_cons Hb.
  - apply StronglySorted_inv in Hsorted as [_ Hall].
    apply (proj1 (Forall_forall _ _) Hall). apply elem_of_app. by right.
  - apply StronglySorted_inv in Hsorted as [Hsorted _]. by apply IH.
Qed.

(** What the language fixes of the sort the merge calls. *)
Hypothesis arraySort_spec : Js.ArraySort arraySort.

(** When every article has a date that reads, the comparator is the
    difference of the times, and the sort is fixed by the language. *)
Lemma sorted_when_dated articles :
  (∀ a, a ∈ articles → is_Some (timeOf a)) →
  let key a := default 0%Z (timeOf a) in
  let unique := uniqueByLink articles in
  StronglySorted (λ a b, (key b <= key a)%Z) (arraySort byPubDateDesc unique)
  ∧ ∀ t, filter (λ a, key a = t) (arraySort byPubDateDesc unique) =
           filter (λ a, key a = t) unique.
Proof.
  intros Hdated key unique.
  destruct (uniqueByLink_spec articles) as (_ & Hlast & _).
  assert (Hcompare : ∀ a b, a ∈ unique → b ∈ unique →
            byPubDateDesc a b = (key b - key a)%Z).
  { assert (Hin : ∀ x, x ∈ unique → is_Some (timeOf x)).
    { intros x Hx. apply Hdated. apply Hlast in Hx.
      apply last_Some_elem_of, list_elem_of_filter in Hx as [_ Hx]. done. }
    intros a b Ha Hb. destruct (Hin a Ha) as [ta Hta], (Hin b Hb) as [tb Htb].
    unfold key. rewrite (byPubDateDesc_timeOf a b ta tb), Hta, Htb; done. }
  split.
  - by apply (Js.sort_ordered _ arraySort_spec).
  - intros t. by apply (Js.sort_stable _ arraySort_spec).
Qed.

(** C1, as the code has it.  The merge keeps one article per link, at the
    place where the link first occurs, and the article it keeps there is
    the LAST of the input with that link (a [Map] built from the pairs
    keeps the place of a key and takes its latest value).  The list is then
    sorted and cut: the result is the first 10 (all, if there are fewer) of
    a list that holds the kept articles, each once.  When every article has
    a date that reads, that list is in descending order of time, articles
    of the same time in the order the merge left them; so the result is in
    descending order and no article that was cut off is newer than one that
    was kept.  On the three articles of the test the result has exactly two
    entries, "b" then "a", newest first, and the "a" kept is the second
    one, dated 2024-01-01. *)
Theorem trending_merge_keeps_last_newest_first (articles : list Article.NewsDataArticle) :
  let key a := default 0%Z (timeOf a) in
  let unique := uniqueByLink articles in
  let result := trendingArticles articles in
  map Article.link unique = inOrderOfFirstOccurrence (map Article.link articles)
  ∧ (∀ a, a ∈ unique →
       last (filter (λ b, Article.link b = Article.link a) articles) = Some a)
  ∧ (∃ sorted,
       result = take 10 sorted
       ∧ sorted ≡ₚ unique
       ∧ ((∀ a, a ∈ articles → is_Some (timeOf a)) →
          StronglySorted (λ a b, (key b <= key a)%Z) sorted
          ∧ ∀ t, filter (λ a, key a = t) sorted = filter (λ a, key a = t) unique))
  ∧ length result = 10 `min` length unique
  ∧ NoDup (map Article.link result)
  ∧ ((∀ a, a ∈ articles → is_Some (timeOf a)) →
       StronglySorted (λ a b, (key b <= key a)%Z) result
       ∧ ∀ a b, a ∈ result → b ∈ unique → b ∉ result → (key b <= key a)%Z)
  ∧ (∀ t1 t2 t3,
       dateGetTime "2024-01-01" = Some t1 →
       dateGetTime "2024-01-02" = Some t2 →
       dateGetTime "2024-01-03" = Some t3 →
       (t1 < t2 < t3)%Z →
       trendingArticles mergeTest = [dated "b" "2024-01-03"; dated "a" "2024-01-01"]).
Proof.
  intros key unique result. subst result. unfold trendingArticles. fold unique.
  destruct (uniqueByLink_spec articles) as (Hnd & Hlast & _).
  pose proof (Js.sort_permutation _ arraySort_spec byPubDateDesc unique) as Hperm.
  split; [apply uniqueByLink_order |].
  split; [exact Hlast |].
  split.
  { exists (arraySort byPubDateDesc unique). split; [done |]. split; [done |].
    apply sorted_when_dated. }
  split; [by rewrite length_take, Hperm |].
  split.
  { assert (Hnd' : NoDup (map Article.link (arraySort byPubDateDesc unique))).
    { change (NoDup (Article.link <$> arraySort byPubDateDesc unique)).
      by rewrite Hperm. }
    rewrite <- (take_drop 10 (arraySort byPubDateDesc unique)), map_app in Hnd'.
    by apply NoDup_app in Hnd' as [? _]. }
  split.
  { intros Hdated. destruct (sorted_when_dated articles Hdated) as [Hsorted _].
    fold unique in Hsorted. cbv zeta in Hsorted. fold key in Hsorted.
    rewrite <- (take_drop 10 (arraySort byPubDateDesc unique)) in Hsorted.
    split; [by apply StronglySorted_app_1_l in Hsorted |].
    intros a b Ha Hb Hcut.
    apply (StronglySorted_app_cross _ _ _ a b Hsorted Ha).
    rewrite <- Hperm, <- (take_drop 10 (arraySort byPubDateDesc unique)) in Hb.
    apply elem_of_app in Hb as [Hb | Hb]; done. }
  intros t1 t2 t3 H1 H2 H3 Hlt.
  assert (Hunique : uniqueByLink mergeTest =
                    [dated "a" "2024-01-01"; dated "b" "2024-01-03"]) by reflexivity.
  assert (Hdated : ∀ a, a ∈ mergeTest → is_Some (timeOf a)).
  { intros a Ha. unfold mergeTest in Ha. apply list_elem_of_In in Ha. simpl in Ha.
    destruct Ha as [<- | [<- | [<- | []]]]; unfold timeOf; simpl; eauto. }
  destruct (sorted_when_dated mergeTest Hdated) as [Hsorted _].
  pose proof (Js.sort_permutation _ arraySort_spec byPubDateDesc (uniqueByLink mergeTest))
    as Hperm'.
  rewrite Hunique in Hsorted, Hperm' |- *.
  symmetry in Hperm'.
  apply Permutation_length_2_inv in Hperm' as [Heq | Heq]; rewrite Heq in *; [| done].
  exfalso. apply StronglySorted_inv in Hsorted as [_ Hall].
  apply Forall_cons in Hall as [Hle _]. cbv zeta in Hle. unfold timeOf in Hle.
  simpl in Hle. rewrite H1, H3 in Hle. simpl in Hle. lia.
Qed.

End Trending.

(** The time of a date written [YYYY-MM-DD], a form [Date] reads as
    midnight UTC of that day; anything else is not read here. *)
Definition daysFromCivil (y m d : Z) : Z :=
  let y' := (if m <=? 2 then y - 1 else y)%Z in
  let era := (y' / 400)%Z in
  let yoe := (y' - era * 400)%Z in
  let mp := ((m + 9) mod 12)%Z in
  let doy := ((153 * mp + 2) / 5 + d - 1)%Z in
  let doe := (yoe * 365 + yoe / 4 - yoe / 100 + doy)%Z in
  (era * 146097 + doe - 719468)%Z.

Definition digitsValue (s : string) : option Z :=
  let '(value, digits) := Js.leadingDigits 0 0 s in
  if digits =? Js.len s then Some (Z.of_nat value) else None.

Definition isoDateTime (s : string) : option Z :=
  if (Js.len s =? 10) && String.eqb (Js.substring s 4 5) "-"
     && String.eqb (Js.substring s 7 8) "-" then
    match digitsValue (Js.substring s 0 4), digitsValue (Js.substring s 5 7),
          digitsValue (Js.substring s 8 10) with
    | Some y, Some m, Some d =>
        if ((1 <=? m) && (m <=? 12) && (1 <=? d)
            && (daysFromCivil y m d <? daysFromCivil (if m =? 12 then y + 1 else y)
                                         (if m =? 12 then 1 else m + 1) 1))%Z
        then Some (daysFromCivil y m d * 86400000)%Z
        else None
    | _, _, _ => None
    end
  else None.

Section Client.
Variable W : Type.
Variable Image : Type.

(** constants.ts *)
Variable NEWS_CATEGORIES : list Category.
Variable LOGO_URL BRAND_TEXT OVERLAY_IMAGE_URL : string.

(** The services the component awaits. *)
Variable fetchLatestBangladeshiNews : string → Exec W (list Article.NewsDataArticle).
Variable generateContent : list Article.NewsDataArticle → Exec W (option string).
Variable generateImageFromPrompt : string → Exec W string.
Variable uploadToCloudinary : string → Exec W string.
Variable sendToMakeWebhook : WebhookPayload → Exec W unit.
Variable dateGetTime : string → option Z.
Variable arraySort :
  (Article.NewsDataArticle → Article.NewsDataArticle → Z) →
  list Article.NewsDataArticle → list Article.NewsDataArticle.
Variable earliest : list Thrown → nat.

(** The [loadImage] and [composeImage] this component imports take and
    return a browser image; that version of utils/canvas is not among the
    sources, so both are services here.  [loadImage] may be handed
    [undefined]. *)
Variable loadImage : option string → Exec W Image.
Variable composeImage :
  Image → string → list string → string → string → string → Exec W string.

(** The component state the run writes ([tasks], [completedCount],
    [isProcessing]), the locals of [handleStartAutomation], the world
    outside, and the calls to [updateTask] in the order made. *)
Record State := {
  tasks : list Task.BatchTask;
  completedCount : nat;
  isProcessing : bool;
  usedArticleLinks : gset string;
  collectedData : list CollectedData;
  world : W;
  updatesMade : list (string * TaskUpdates);
}.

Local Open Scope exec_scope.

Definition setWorld (w : W) (s : State) : State :=
  {| tasks := tasks s; completedCount := completedCount s;
     isProcessing := isProcessing s;
     usedArticleLinks := usedArticleLinks s;
     collectedData := collectedData s; world := w;
     updatesMade := updatesMade s |}.

Definition await {A} (call : Exec W A) : Exec State A :=
  λ s, match call (world s) with
       | (w', r) => (setWorld w' s, r)
       end.

(** [setTasks(prevTasks => prevTasks.map(task => task.id === taskId ?
    { ...task, ...updates } : task))] *)
Definition updateTaskState (taskId : string) (updates : TaskUpdates) (s : State) : State :=
  {| tasks := map (λ task, if String.eqb (Task.id task) taskId
                           then mergeTask task updates else task) (tasks s);
     completedCount := completedCount s; isProcessing := isProcessing s;
     usedArticleLinks := usedArticleLinks s;
     collectedData := collectedData s; world := world s;
     updatesMade := updatesMade s ++ [(taskId, updates)] |}.

Definition updateTask (taskId : string) (updates : TaskUpdates) : Exec State unit :=
  Exec.modify (updateTaskState taskId updates).

Definition addLink (link : string) (s : State) : State :=
  {| tasks := tasks s; completedCount := completedCount s;
     isProcessing := isProcessing s;
     usedArticleLinks := {[link]} ∪ usedArticleLinks s;
     collectedData := collectedData s; world := world s;
     updatesMade := updatesMade s |}.

Definition pushData (data : CollectedData) (s : State) : State :=
  {| tasks := tasks s; completedCount := completedCount s;
     isProcessing := isProcessing s;
     usedArticleLinks := usedArticleLinks s;
     collectedData := collectedData s ++ [data]; world := world s;
     updatesMade := updatesMade s |}.

Definition addUsedLink (link : string) : Exec State unit := Exec.modify (addLink link).

Definition pushCollected (data : CollectedData) : Exec State unit :=
  Exec.modify (pushData data).

(** [setCompletedCount(prev => prev + 1)] *)
Definition countCompleted : Exec State unit :=
  Exec.modify (λ s,
    {| tasks := tasks s; completedCount := completedCount s + 1;
       isProcessing := isProcessing s;
       usedArticleLinks := usedArticleLinks s;
       collectedData := collectedData s; world := world s;
       updatesMade := updatesMade s |}).

(** [setIsProcessing(b)] *)
Definition setIsProcessing (b : bool) : Exec State unit :=
  Exec.modify (λ s,
    {| tasks := tasks s; completedCount := completedCount s;
       isProcessing := b;
       usedArticleLinks := usedArticleLinks s;
       collectedData := collectedData s; world := world s;
       updatesMade := updatesMade s |}).

(** The articles a category is analysed from: the synthetic merge for
    ["top"], the fetch of the category otherwise. *)
Definition candidateArticles (category : Category) : Exec State (list Article.NewsDataArticle) :=
  if String.eqb (apiValue category) "top" then
    let otherCategoryValues :=
      map apiValue (filter (λ c, apiValue c ≠ "top") NEWS_CATEGORIES) in
    fetched ← await (Exec.all earliest (map fetchLatestBangladeshiNews otherCategoryValues));
    let articlesFromAllCategories := List.concat fetched in
    let allArticles := trendingArticles dateGetTime arraySort articlesFromAllCategories in
    if length allArticles =? 0 then
      Exec.throw (ErrorObj
        (Js.dq "Could not find any valid articles to construct a 'Trending' category."))
    else Exec.ret allArticles
  else await (fetchLatestBangladeshiNews (apiValue category)).

(** The [try] block of phase 1.  (The calls to [sendStatusUpdate], which
    are not awaited, and the pause are left out: they write nothing
    here.) *)
Definition gatherBody (category : Category) : Exec State unit :=
  let taskId := apiValue category in
  updateTask taskId (statusOnly GATHERING);;
  allArticles ← candidateArticles category;
  s ← Exec.get;
  let unusedArticles :=
    filter (λ a, Article.link a ∉ usedArticleLinks s) allArticles in
  if length unusedArticles =? 0 then
    Exec.throw (ErrorObj ("No new, unused articles found for " +:+ name category +:+ "."))
  else
    result ← await (Gemini.findAndAnalyzeBestArticleFromList W generateContent unusedArticles);
    match result with
    | None =>
        Exec.throw (ErrorObj
          ("AI deemed all articles irrelevant for " +:+ name category +:+ "."))
    | Some (analysis, relevantArticle) =>
        addUsedLink (Article.link relevantArticle);;
        pushCollected {| taskId := taskId; analysis := analysis; article := relevantArticle |};;
        updateTask taskId (statusOnly GATHERED)
    end.

Definition gatherCategory (category : Category) : Exec State unit :=
  Exec.tryCatch (gatherBody category)
    (λ err, updateTask (apiValue category) (errorUpdates (errorMessage err))).

Definition phase1 : Exec State unit := Exec.forEach NEWS_CATEGORIES gatherCategory.

(** Step 1 of phase 2: load the picture of the article, or generate one
    and load that. *)
Definition acquireImage (data : CollectedData) : Exec State Image :=
  Exec.tryCatch
    (await (loadImage (Article.image_url (article data))))
    (λ _,
      updateTask (taskId data) (statusOnly GENERATING_IMAGE);;
      generatedImageBase64 ← await (generateImageFromPrompt (Analysis.imagePrompt (analysis data)));
      await (loadImage (Some generatedImageBase64))).

Definition processBody (data : CollectedData) : Exec State unit :=
  updateTask (taskId data) (statusOnly PROCESSING);;
  imageToCompose ← acquireImage data;
  updateTask (taskId data) (statusOnly COMPOSING);;
  compiledImage ← await
    (composeImage imageToCompose (Analysis.headline (analysis data))
       (Analysis.highlightPhrases (analysis data)) LOGO_URL BRAND_TEXT OVERLAY_IMAGE_URL);
  updateTask (taskId data) (statusOnly UPLOADING);;
  imageUrl ← await (uploadToCloudinary compiledImage);
  updateTask (taskId data) (statusOnly SENDING_WEBHOOK);;
  await (sendToMakeWebhook (webhookPayload data imageUrl));;
  updateTask (taskId data) (doneUpdates (taskResult data imageUrl));;
  countCompleted.

Definition processItem (data : CollectedData) : Exec State unit :=
  Exec.tryCatch (processBody data)
    (λ err, updateTask (taskId data) (errorUpdates (errorMessage err))).

Definition phase2 : Exec State unit :=
  s ← Exec.get;
  Exec.forEach (collectedData s) processItem.

(** What [handleStartAutomation] sets before the first phase. *)
Definition initialState (w : W) : State :=
  {| tasks := map pendingTask NEWS_CATEGORIES;
     completedCount := 0;
     isProcessing := true;
     usedArticleLinks := ∅;
     collectedData := [];
     world := w;
     updatesMade := [] |}.

Definition handleStartAutomation (w : W) : State * (Thrown + unit) :=
  (phase1;; phase2;; setIsProcessing false) (initialState w).

(** ** One round of phase 1 *)

(** Getting the candidates changes nothing but the world. *)
Lemma candidateArticles_world category s :
  ∃ w' r, candidateArticles category s = (setWorld w' s, r).
Proof.
  unfold candidateArticles, await, Exec.bind, Exec.throw, Exec.ret.
  destruct (String.eqb (apiValue category) "top").
  - destruct (Exec.all _ _ (world s)) as [w1 [err | fetched]]; [by eexists _, _ |].
    destruct (length _ =? 0); by eexists _, _.
  - destruct (fetchLatestBangladeshiNews _ (world s)) as [w1 r]. by eexists _, _.
Qed.

(** A round returns, whatever the services answer; it collects no
    article, or one whose link was not in the set, and adds that link. *)
Lemma round_collects_unused_link category s :
  let s' := (gatherCategory category s).1 in
  (gatherCategory category s).2 = inr tt
  ∧ usedArticleLinks s ⊆ usedArticleLinks s'
  ∧ ((collectedData s' = collectedData s ∧ usedArticleLinks s' = usedArticleLinks s)
     ∨ ∃ d, collectedData s' = collectedData s ++ [d]
            ∧ (Article.link (article d) ∉ usedArticleLinks s)
            ∧ usedArticleLinks s' = {[Article.link (article d)]} ∪ usedArticleLinks s).
Proof.
  intros s'. subst s'.
  unfold gatherCategory, gatherBody, updateTask, addUsedLink, pushCollected,
    Exec.tryCatch, Exec.bind, Exec.modify, Exec.get, Exec.throw.
  set (s1 := updateTaskState (apiValue category) (statusOnly GATHERING) s).
  destruct (candidateArticles_world category s1) as (w1 & r & ->).
  destruct r as [err | allArticles]; [simpl; split; [done |]; split; [done | by left] |].
  change (usedArticleLinks (setWorld w1 s1)) with (usedArticleLinks s).
  set (unusedArticles := filter (λ a, Article.link a ∉ usedArticleLinks s) allArticles).
  destruct (length unusedArticles =? 0);
    [simpl; split; [done |]; split; [done | by left] |].
  unfold await. change (world (setWorld w1 s1)) with w1.
  destruct (Gemini.findAndAnalyzeBestArticleFromList W generateContent unusedArticles w1)
    as [w2 [err | [[a chosen] |]]] eqn:Hanalyze;
    [simpl; split; [done |]; split; [done | by left] | |
     simpl; split; [done |]; split; [done | by left]].
  apply Gemini.findAndAnalyze_chosen in Hanalyze as [Hin _].
  apply list_elem_of_filter in Hin as [Hunused _].
  simpl. split; [done |]. split; [apply union_subseteq_r |].
  right. eexists. split; [reflexivity |]. by split.
Qed.

(** ** The links of the collected articles *)

Definition collectedLinks (s : State) : list string :=
  map (λ d, Article.link (article d)) (collectedData s).

Definition linksInvariant (s : State) : Prop :=
  NoDup (collectedLinks s) ∧ usedArticleLinks s = list_to_set (collectedLinks s).

Lemma round_keeps_linksInvariant category s :
  linksInvariant s → linksInvariant (gatherCategory category s).1.
Proof.
  intros [Hnodup Hused]. unfold linksInvariant, collectedLinks.
  destruct (round_collects_unused_link category s)
    as (_ & _ & [[-> ->] | (d & -> & Hnew & ->)]); [done |].
  rewrite map_app. simpl. split.
  - apply NoDup_app. split; [done |]. split; [| apply NoDup_singleton].
    intros l Hl ->%list_elem_of_singleton. apply Hnew. rewrite Hused.
    by apply elem_of_list_to_set.
  - rewrite list_to_set_app_L, Hused. simpl.
    rewrite (right_id_L ∅ (∪)). apply (comm_L (∪)).
Qed.

Lemma gather_phase_links s :
  linksInvariant s →
  (phase1 s).2 = inr tt
  ∧ linksInvariant (phase1 s).1
  ∧ usedArticleLinks s ⊆ usedArticleLinks (phase1 s).1.
Proof.
  intros Hinv. unfold phase1.
  rewrite Exec.forEach_fold by (intros; apply round_collects_unused_link).
  cbn [fst snd]. split; [done |].
  apply (Exec.fold_invariant
           (λ s', linksInvariant s' ∧ usedArticleLinks s ⊆ usedArticleLinks s')); [| done].
  intros c s' _ [Hinv' Hsub]. split; [by apply round_keeps_linksInvariant |].
  destruct (round_collects_unused_link c s') as (_ & Hmono & _).
  etrans; [exact Hsub | exact Hmono].
Qed.

(** ** The picture of a round of phase 2 *)

(** A round of phase 2 returns, and the updates it makes to its task
    follow the script; a substitute picture is asked for exactly when the
    picture of the article does not load. *)
Lemma processItem_script data s :
  ∃ updates,
    (processItem data s).2 = inr tt
    ∧ updatesMade (processItem data s).1 =
        updatesMade s ++ map (pair (taskId data)) updates
    ∧ processScript
        (match (loadImage (Article.image_url (article data)) (world s)).2 with
         | inl _ => true
         | inr _ => false
         end) updates.
Proof.
  unfold processItem, processBody, acquireImage, updateTask, countCompleted, await,
    Exec.tryCatch, Exec.bind, Exec.modify, Exec.throw, Exec.ret.
  change (world (updateTaskState ?i ?u ?x)) with (world x).
  destruct (loadImage (Article.image_url (article data)) (world s))
    as [w1 [err1 | image]]; cbv beta iota; cbn [snd].
  - change (world (updateTaskState ?i ?u ?x)) with (world x).
    change (world (setWorld ?w ?x)) with w.
    destruct (generateImageFromPrompt _ w1) as [w2 [err | generated]]; cbv beta iota.
    { eexists [_; _; _]. split; [done |]. split; [simpl; rewrite <- !app_assoc; reflexivity |].
      by apply generationFailed. }
    change (world (setWorld ?w ?x)) with w.
    destruct (loadImage (Some generated) w2) as [w3 [err | image]]; cbv beta iota.
    { eexists [_; _; _]. split; [done |]. split; [simpl; rewrite <- !app_assoc; reflexivity |].
      by apply generationFailed. }
    change (world (updateTaskState ?i ?u ?x)) with (world x).
    change (world (setWorld ?w ?x)) with w.
    destruct (composeImage image _ _ _ _ _ w3) as [w4 [err | compiled]]; cbv beta iota.
    { eexists [_; _; _; _]. split; [done |].
      split; [simpl; rewrite <- !app_assoc; reflexivity |].
      exact (acquired true _ (composeFailed _)). }
    change (world (updateTaskState ?i ?u ?x)) with (world x).
    change (world (setWorld ?w ?x)) with w.
    destruct (uploadToCloudinary compiled w4) as [w5 [err | imageUrl]]; cbv beta iota.
    { eexists [_; _; _; _; _]. split; [done |].
      split; [simpl; rewrite <- !app_assoc; reflexivity |].
      exact (acquired true _ (uploadFailed _)). }
    change (world (updateTaskState ?i ?u ?x)) with (world x).
    change (world (setWorld ?w ?x)) with w.
    destruct (sendToMakeWebhook _ w5) as [w6 [err | []]]; cbv beta iota.
    { eexists [_; _; _; _; _; _]. split; [done |].
      split; [simpl; rewrite <- !app_assoc; reflexivity |].
      exact (acquired true _ (webhookFailed _)). }
    eexists [_; _; _; _; _; _]. split; [done |].
    split; [simpl; rewrite <- !app_assoc; reflexivity |].
    exact (acquired true _ (delivered _)).
  - change (world (updateTaskState ?i ?u ?x)) with (world x).
    change (world (setWorld ?w ?x)) with w.
    destruct (composeImage image _ _ _ _ _ w1) as [w4 [err | compiled]]; cbv beta iota.
    { eexists [_; _; _]. split; [done |].
      split; [simpl; rewrite <- !app_assoc; reflexivity |].
      exact (acquired false _ (composeFailed _)). }
    change (world (updateTaskState ?i ?u ?x)) with (world x).
    change (world (setWorld ?w ?x)) with w.
    destruct (uploadToCloudinary compiled w4) as [w5 [err | imageUrl]]; cbv beta iota.
    { eexists [_; _; _; _]. split; [done |].
      split; [simpl; rewrite <- !app_assoc; reflexivity |].
      exact (acquired false _ (uploadFailed _)). }
    change (world (updateTaskState ?i ?u ?x)) with (world x).
    change (world (setWorld ?w ?x)) with w.
    destruct (sendToMakeWebhook _ w5) as [w6 [err | []]]; cbv beta iota.
    { eexists [_; _; _; _; _]. split; [done |].
      split; [simpl; rewrite <- !app_assoc; reflexivity |].
      exact (acquired false _ (webhookFailed _)). }
    eexists [_; _; _; _; _]. split; [done |].
    split; [simpl; rewrite <- !app_assoc; reflexivity |].
    exact (acquired false _ (delivered _)).
Qed.

(** When the picture of the article does not load, only the substitute
    can fail the round before the composition: once it is generated and
    loaded, the round goes on to COMPOSING. *)
Lemma processItem_substitute data s w1 err w2 generated w3 image :
  loadImage (Article.image_url (article data)) (world s) = (w1, inl err) →
  generateImageFromPrompt (Analysis.imagePrompt (analysis data)) w1 = (w2, inr generated) →
  loadImage (Some generated) w2 = (w3, inr image) →
  ∃ tail, delivery tail
    ∧ updatesMade (processItem data s).1 =
        updatesMade s
        ++ map (pair (taskId data))
             (statusOnly PROCESSING :: statusOnly GENERATING_IMAGE :: tail).
Proof.
  intros Hfirst Hgenerate Hsecond.
  unfold processItem, processBody, acquireImage, updateTask, countCompleted, await,
    Exec.tryCatch, Exec.bind, Exec.modify, Exec.throw, Exec.ret.
  change (world (updateTaskState ?i ?u ?x)) with (world x).
  rewrite Hfirst. cbv beta iota.
  change (world (updateTaskState ?i ?u ?x)) with (world x).
  change (world (setWorld ?w ?x)) with w.
  rewrite Hgenerate. cbv beta iota.
  change (world (setWorld ?w ?x)) with w.
  rewrite Hsecond. cbv beta iota.
  change (world (updateTaskState ?i ?u ?x)) with (world x).
  change (world (setWorld ?w ?x)) with w.
  destruct (composeImage image _ _ _ _ _ w3) as [w4 [e | compiled]]; cbv beta iota.
  { eexists [_; _]. split; [| simpl; rewrite <- !app_assoc; reflexivity]. constructor. }
  change (world (updateTaskState ?i ?u ?x)) with (world x).
  change (world (setWorld ?w ?x)) with w.
  destruct (uploadToCloudinary compiled w4) as [w5 [e | imageUrl]]; cbv beta iota.
  { eexists [_; _; _]. split; [| simpl; rewrite <- !app_assoc; reflexivity]. constructor. }
  change (world (updateTaskState ?i ?u ?x)) with (world x).
  change (world (setWorld ?w ?x)) with w.
  destruct (sendToMakeWebhook _ w5) as [w6 [e | []]]; cbv beta iota.
  { eexists [_; _; _; _]. split; [| simpl; rewrite <- !app_assoc; reflexivity]. constructor. }
  eexists [_; _; _; _]. split; [| simpl; rewrite <- !app_assoc; reflexivity]. constructor.
Qed.

End Client.

End Client.

(* ===================================================================== *)
(** * The two orchestrators side by side *)
(* ===================================================================== *)

Section Orchestrators.
Variable W : Type.
Variable Image : Type.
Variable NEWS_CATEGORIES : list Category.
Variable LOGO_URL BRAND_TEXT OVERLAY_IMAGE_URL : string.
Variable fetchLatestBangladeshiNews : string → Exec W (list Article.NewsDataArticle).
Variable generateContent : list Article.NewsDataArticle → Exec W (option string).
Variable generateImageFromPrompt : string → Exec W string.
Variable uploadToCloudinary : string → Exec W string.
Variable sendToMakeWebhook : WebhookPayload → Exec W unit.
(** The request handler. *)
Variable skiaLoadImage : Canvas.ImageSource → Exec W Image.
Variable loadFont : string → string → string → Exec W unit.
Variable measureAt : Z → Canvas.Measure.
Variable toDataURL : Image → Image → Image → string → list Canvas.DrawOp → Exec W string.
Variable clientGone : W → bool.
Variable invalidState : string.
(** The browser component. *)
Variable dateGetTime : string → option Z.
Variable arraySort :
  (Article.NewsDataArticle → Article.NewsDataArticle → Z) →
  list Article.NewsDataArticle → list Article.NewsDataArticle.
Variable earliest : list Thrown → nat.
Variable loadImage : option string → Exec W Image.
Variable composeImage :
  Image → string → list string → string → string → string → Exec W string.

Local Abbreviation serverGather :=
  (Server.gatherCategory W fetchLatestBangladeshiNews generateContent clientGone
     invalidState).
Local Abbreviation serverPhase1 :=
  (Server.phase1 W NEWS_CATEGORIES fetchLatestBangladeshiNews generateContent clientGone
     invalidState).
Local Abbreviation clientGather :=
  (Client.gatherCategory W NEWS_CATEGORIES fetchLatestBangladeshiNews generateContent
     dateGetTime arraySort earliest).
Local Abbreviation clientPhase1 :=
  (Client.phase1 W NEWS_CATEGORIES fetchLatestBangladeshiNews generateContent dateGetTime
     arraySort earliest).

(** C7. In both orchestrators, a round of phase 1 never takes a link out
    of the set of used links, and the article it collects, if any, has a
    link that was not in the set when the round began (the candidates are
    filtered against the set before the analysis, which returns one of the
    articles it is given); that link is then added.  So at the end of
    phase 1 the links of the collected articles are pairwise distinct and
    the set holds exactly those links.  In the request handler this holds
    however a round and the phase end, also when the stream is found
    cancelled and the run stops there. *)
Theorem used_links_are_never_selected_again :
  (∀ category s,
     let s' := (serverGather category s).1 in
     Server.usedArticleLinks W s ⊆ Server.usedArticleLinks W s'
     ∧ ((Server.collectedData W s' = Server.collectedData W s
         ∧ Server.usedArticleLinks W s' = Server.usedArticleLinks W s)
        ∨ ∃ d, Server.collectedData W s' = Server.collectedData W s ++ [d]
               ∧ (Article.link (article d) ∉ Server.usedArticleLinks W s)
               ∧ Server.usedArticleLinks W s' =
                   {[Article.link (article d)]} ∪ Server.usedArticleLinks W s))
  ∧ (∀ w,
       let s := (serverPhase1 (Server.initialState W NEWS_CATEGORIES w)).1 in
       NoDup (map (λ d, Article.link (article d)) (Server.collectedData W s))
       ∧ Server.usedArticleLinks W s =
           list_to_set (map (λ d, Article.link (article d)) (Server.collectedData W s)))
  ∧ (∀ category s,
       let s' := (clientGather category s).1 in
       Client.usedArticleLinks W s ⊆ Client.usedArticleLinks W s'
       ∧ ((Client.collectedData W s' = Client.collectedData W s
           ∧ Client.usedArticleLinks W s' = Client.usedArticleLinks W s)
          ∨ ∃ d, Client.collectedData W s' = Client.collectedData W s ++ [d]
                 ∧ (Article.link (article d) ∉ Client.usedArticleLinks W s)
                 ∧ Client.usedArticleLinks W s' =
                     {[Article.link (article d)]} ∪ Client.usedArticleLinks W s))
  ∧ (∀ w,
       let s := (clientPhase1 (Client.initialState W NEWS_CATEGORIES w)).1 in
       NoDup (map (λ d, Article.link (article d)) (Client.collectedData W s))
       ∧ Client.usedArticleLinks W s =
           list_to_set (map (λ d, Article.link (article d)) (Client.collectedData W s))).
Proof.
  split; [intros category s; apply Server.gatherCategory_links |].
  split.
  { intros w s.
    destruct (Server.phase1_links W NEWS_CATEGORIES fetchLatestBangladeshiNews
                generateContent clientGone invalidState
                (Server.initialState W NEWS_CATEGORIES w)) as [Hinv _];
      [split; [constructor | done] | exact Hinv]. }
  split; [intros category s; apply Client.round_collects_unused_link |].
  intros w s.
  destruct (Client.gather_phase_links W NEWS_CATEGORIES fetchLatestBangladeshiNews
              generateContent dateGetTime arraySort earliest
              (Client.initialState W NEWS_CATEGORIES w))
    as (_ & Hinv & _); [split; [constructor | done] | exact Hinv].
Qed.

End Orchestrators.

(* ===================================================================== *)
(** * Worked examples *)
(* ===================================================================== *)

Module Examples.

(** Stand-ins for the services: a world with nothing in it, a news feed
    that is down for sports, an analysis that always picks its first
    article, and a picture address that does not load. *)
Definition newline : string := String "010" "".

Definition response : string :=
  "CHOSEN_ID: 1" +:+ newline
  +:+ "HEADLINE: Dhaka metro opens a new line" +:+ newline
  +:+ "HIGHLIGHT_WORDS: Dhaka metro, new line" +:+ newline
  +:+ "IMAGE_PROMPT: A train in a city" +:+ newline
  +:+ "CAPTION: A big day for commuters. Source: Daily" +:+ newline
  +:+ "SOURCE_NAME: Daily".

Definition broken : string := "https://news.example/broken.jpg".

Definition story (link : string) (image_url : option string) : Article.NewsDataArticle :=
  {| Article.link := link; Article.title := link; Article.content := None;
     Article.description := None; Article.source_id := "daily";
     Article.image_url := image_url; Article.pubDate := None |}.

Definition categories : list Category :=
  [ {| name := "Business"; apiValue := "business" |};
    {| name := "Sports"; apiValue := "sports" |};
    {| name := "World"; apiValue := "world" |} ].

Definition fetch (category : string) : Exec unit (list Article.NewsDataArticle) :=
  if String.eqb category "sports" then Exec.throw (ErrorObj "network down")
  else Exec.ret [story "https://news.example/1" (Some broken);
                 story "https://news.example/2" None].

Definition generate (_ : list Article.NewsDataArticle) : Exec unit (option string) :=
  Exec.ret (Some response).

Definition picture (_ : string) : Exec unit string :=
  Exec.ret "data:image/png;base64,AAAA".

Definition upload (_ : string) : Exec unit string := Exec.ret "https://cdn.example/post.png".

Definition deliver (_ : WebhookPayload) : Exec unit unit := Exec.ret tt.

Definition skia (source : Canvas.ImageSource) : Exec unit unit :=
  match source with
  | Canvas.FromUrl src =>
      if String.eqb src broken then Exec.throw (ErrorObj "404") else Exec.ret tt
  | Canvas.FromBuffer _ => Exec.ret tt
  end.

Definition font (_ _ _ : string) : Exec unit unit := Exec.ret tt.

Definition measure (f : Z) (text : string) : Q :=
  (inject_Z f * inject_Z (Z.of_nat (Js.len text)) * (6 # 10))%Q.

Definition encode (_ _ _ : unit) (_ : string) (_ : list Canvas.DrawOp) : Exec unit string :=
  Exec.ret "data:image/png;base64,BBBB".

(** For the browser component: [loadImage] fails on the broken address and
    on [undefined]. *)
Definition browserLoad (src : option string) : Exec unit unit :=
  match src with
  | Some address =>
      if String.eqb address broken then Exec.throw (ErrorObj "404") else Exec.ret tt
  | None => Exec.throw NotAnError
  end.

Definition browserCompose (_ : unit) (_ : string) (_ : list string) (_ _ _ : string)
    : Exec unit string :=
  Exec.ret "data:image/png;base64,BBBB".

Definition parsed : Analysis.NewsAnalysis :=
  {| Analysis.headline := "Dhaka metro opens a new line";
     Analysis.highlightPhrases := ["Dhaka metro"; "new line"];
     Analysis.caption := "A big day for commuters. Source: Daily";
     Analysis.imagePrompt := "A train in a city";
     Analysis.sourceName := "Daily" |}.

(** The item collected for business: its picture has an address, and the
    address does not load. *)
Definition businessItem : CollectedData :=
  {| taskId := "business"; analysis := parsed;
     article := story "https://news.example/1" (Some broken) |}.

(** The reader of the response stays to the end; the message of the
    TypeError of a cancelled stream; and, of the loads that fail together,
    the first is reported. *)
Definition stays (_ : unit) : bool := false.

Definition invalidState : string := "Invalid state: Controller is already closed".

Definition firstListed (_ : list Thrown) : nat := 0.

Definition serverStart : Server.State unit := Server.initialState unit categories tt.
Definition clientStart : Client.State unit := Client.initialState unit categories tt.

Definition serverRound (data : CollectedData) : Run (Server.State unit) unit :=
  Server.processItem unit unit "logo" "brand" "overlay" picture upload deliver
    skia font measure encode firstListed stays invalidState data.

Definition clientRound (data : CollectedData) : Exec (Client.State unit) unit :=
  Client.processItem unit unit "logo" "brand" "overlay" picture upload deliver
    browserLoad browserCompose data.

Definition serverRun : Server.State unit * (Thrown + option unit) :=
  Server.handler unit unit categories "logo" "brand" "overlay" fetch generate picture
    upload deliver skia font measure encode firstListed stays invalidState tt.

(** The same services on a world that counts the calls made, and a reader
    who goes away while the call number [n] is pending. *)
Definition timed {A} (call : Exec unit A) : Exec nat A :=
  λ calls, (S calls, (call tt).2).

Definition leavesDuring (n : nat) (calls : nat) : bool := n <=? calls.

Definition cutRun (n : nat) : Server.State nat * (Thrown + option unit) :=
  Server.handler nat unit categories "logo" "brand" "overlay"
    (λ category, timed (fetch category)) (λ articles, timed (generate articles))
    (λ prompt, timed (picture prompt)) (λ image, timed (upload image))
    (λ payload, timed (deliver payload)) (λ source, timed (skia source))
    (λ url family weight, timed (font url family weight)) measure
    (λ mainImage overlay logo brand ops, timed (encode mainImage overlay logo brand ops))
    firstListed (leavesDuring n) invalidState 0.

(** Thirteen dated articles under twelve links, the newest of them last. *)
Definition feed : list Article.NewsDataArticle :=
  [Client.dated "k" "2024-01-05"; Client.dated "a" "2024-01-12";
   Client.dated "b" "2024-01-01"; Client.dated "c" "2024-01-11";
   Client.dated "d" "2024-01-02"; Client.dated "e" "2024-01-10";
   Client.dated "f" "2024-01-03"; Client.dated "g" "2024-01-09";
   Client.dated "h" "2024-01-04"; Client.dated "i" "2024-01-08";
   Client.dated "j" "2024-01-07"; Client.dated "k" "2024-01-06";
   Client.dated "l" "2024-01-13"].

Definition merge : list Article.NewsDataArticle → list Article.NewsDataArticle :=
  Client.trendingArticles Client.isoDateTime Js.insertionSort.

Lemma parse_response : Gemini.parseAnalysisResponse response = inr parsed.
Proof. reflexivity. Qed.

(** The run of the request handler on these stand-ins: business fails in
    the composition (its picture does not load), sports fails in the
    gathering, world is done with a generated picture. *)
Lemma serverRun_trace :
  serverRun.2 = inr (Some tt)
  ∧ drop 3 (Server.trace unit serverRun.1) =
      [("business", GATHERING); ("business", GATHERED);
       ("sports", GATHERING); ("sports", ERROR);
       ("world", GATHERING); ("world", GATHERED);
       ("business", PROCESSING); ("business", COMPOSING); ("business", ERROR);
       ("world", PROCESSING); ("world", GENERATING_IMAGE); ("world", COMPOSING);
       ("world", UPLOADING); ("world", SENDING_WEBHOOK); ("world", DONE)].
Proof. split; vm_compute; reflexivity. Qed.

(** C1: the claim fails on its own test.  The article kept for "a" is the
    second one, dated 2024-01-01, not the first; and with an article that
    has no date the list is left with an older article ahead of a newer
    one. *)
Lemma trending_merge_first_occurrence_counterexample :
  merge Client.mergeTest =
    [Client.dated "b" "2024-01-03"; Client.dated "a" "2024-01-01"]
  ∧ head (filter (λ b, Article.link b = "a") Client.mergeTest) =
      Some (Client.dated "a" "2024-01-02")
  ∧ ¬ (∀ a, a ∈ merge Client.mergeTest →
            head (filter (λ b, Article.link b = Article.link a) Client.mergeTest) = Some a)
  ∧ merge [Client.dated "x" "2024-01-01"; story "y" None; Client.dated "z" "2024-01-03"] =
      [Client.dated "x" "2024-01-01"; story "y" None; Client.dated "z" "2024-01-03"].
Proof.
  assert (Hresult : merge Client.mergeTest =
    [Client.dated "b" "2024-01-03"; Client.dated "a" "2024-01-01"]) by (vm_compute; reflexivity).
  split; [exact Hresult |]. split; [reflexivity |]. split; [| vm_compute; reflexivity].
  intros Hfirst. specialize (Hfirst (Client.dated "a" "2024-01-01")).
  rewrite Hresult in Hfirst.
  assert (Hin : Client.dated "a" "2024-01-01"
                ∈ [Client.dated "b" "2024-01-03"; Client.dated "a" "2024-01-01"])
    by (right; left).
  specialize (Hfirst Hin). vm_compute in Hfirst. discriminate Hfirst.
Qed.

(** The merge of the thirteen articles: "k" stands once, where it first
    occurred, with its second article; the ten newest are kept, newest
    first, the newest of all being the last of the input; the two oldest
    are cut off. *)
Lemma trending_merge_keeps_last_newest_first_witness :
  let key a := default 0%Z (Client.timeOf Client.isoDateTime a) in
  map Article.link (Client.uniqueByLink feed) =
    ["k"; "a"; "b"; "c"; "d"; "e"; "f"; "g"; "h"; "i"; "j"; "l"]
  ∧ Client.dated "k" "2024-01-06" ∈ Client.uniqueByLink feed
  ∧ map Article.link (merge feed) = ["l"; "a"; "c"; "e"; "g"; "i"; "j"; "k"; "h"; "f"]
  ∧ StronglySorted (λ a b, (key b <= key a)%Z) (merge feed)
  ∧ (∀ a b, a ∈ merge feed → b ∈ Client.uniqueByLink feed → b ∉ merge feed →
       (key b <= key a)%Z)
  ∧ merge Client.mergeTest =
      [Client.dated "b" "2024-01-03"; Client.dated "a" "2024-01-01"].
Proof.
  intros key.
  destruct (Client.trending_merge_keeps_last_newest_first Client.isoDateTime
              Js.insertionSort Js.insertionSort_ArraySort feed)
    as (Horder & _ & _ & _ & _ & Hsorted & Htest).
  assert (Hdated : ∀ a, a ∈ feed → is_Some (Client.timeOf Client.isoDateTime a)).
  { intros a Ha. apply list_elem_of_In in Ha. simpl in Ha.
    repeat (destruct Ha as [<- | Ha]; [vm_compute; eauto |]). destruct Ha. }
  split; [rewrite Horder; vm_compute; reflexivity |].
  split; [vm_compute; apply list_elem_of_In; simpl; tauto |].
  split; [vm_compute; reflexivity |].
  split; [exact (proj1 (Hsorted Hdated)) |].
  split; [exact (proj2 (Hsorted Hdated)) |].
  apply (Htest 1704067200000 1704153600000 1704240000000)%Z; [reflexivity .. | lia].
Defined.

(** C8: on the request handler an article whose picture has an address
    that does not load gets no substitute.  The task never goes through
    GENERATING_IMAGE: it goes to COMPOSING and fails there, on the first
    failure, with the message of the load.  The browser component, handed
    the same item and the same services, loads the picture first, and on
    that failure goes through GENERATING_IMAGE and ends DONE. *)
Lemma unloadable_picture_gets_no_substitute :
  Article.image_url (article businessItem) = Some broken
  ∧ (Canvas.loadImage unit unit skia broken tt).2 = inl (ErrorObj "404")
  ∧ Server.trace unit (serverRound businessItem serverStart).1 =
      Server.trace unit serverStart
      ++ [("business", PROCESSING); ("business", COMPOSING); ("business", ERROR)]
  ∧ (∃ t, Server.recorded unit "business" (serverRound businessItem serverStart).1 = Some t
          ∧ Task.status t = ERROR ∧ Task.error t = Some "404")
  ∧ omap (λ u, u_status u.2) (Client.updatesMade unit (clientRound businessItem clientStart).1) =
      [PROCESSING; GENERATING_IMAGE; COMPOSING; UPLOADING; SENDING_WEBHOOK; DONE].
Proof.
  split; [reflexivity |]. split; [reflexivity |]. split; [vm_compute; reflexivity |].
  split; [| vm_compute; reflexivity].
  eexists. split; [vm_compute; reflexivity | done].
Qed.

(** C9: a failure that stops the run.  The reader of the response goes
    away while the analysis of the first category is pending.  The article
    of business is collected, but the GATHERED record is refused by the
    cancelled stream; the [catch] of the round writes that error on the
    task and pushes it, which throws again, out of the loop: the run ends
    there with the TypeError.  The task of business is left ERROR with the
    message of the stream although nothing failed for its category, sports
    and world are never attempted and stay PENDING, and phase 2 never
    starts.  With a reader who stays, the same services give a run that
    returns, with every category attempted. *)
Lemma client_gone_stops_the_run :
  (cutRun 2).2 = inl (ErrorObj invalidState)
  ∧ Server.trace nat (cutRun 2).1 =
      [("business", PENDING); ("sports", PENDING); ("world", PENDING);
       ("business", GATHERING)]
  ∧ map (λ t, (Task.id t, Task.status t, Task.error t)) (Server.tasks nat (cutRun 2).1) =
      [("business", ERROR, Some invalidState); ("sports", PENDING, None);
       ("world", PENDING, None)]
  ∧ map taskId (Server.collectedData nat (cutRun 2).1) = ["business"]
  ∧ serverRun.2 = inr (Some tt)
  ∧ map (λ t, (Task.id t, Task.status t)) (Server.tasks unit serverRun.1) =
      [("business", ERROR); ("sports", ERROR); ("world", DONE)].
Proof. repeat split; vm_compute; reflexivity. Qed.

(** [updateTask] on the start state: an unknown id, one of the list with
    the stream open, and the same with the stream cancelled. *)
Lemma updateTask_frame_witness :
  let sportsGathering :=
    {| Task.id := "sports"; Task.categoryName := "Sports"; Task.status := GATHERING;
       Task.error := None; Task.result := None |} in
  let update := Server.updateTask unit stays invalidState "sports" (statusOnly GATHERING) in
  Server.updateTask unit stays invalidState "weather" (statusOnly GATHERING) serverStart =
    (serverStart, inr (Some tt))
  ∧ Server.tasks unit (update serverStart).1 !! 1 = Some sportsGathering
  ∧ (update serverStart).2 = inr (Some tt)
  ∧ Server.stream unit (update serverStart).1 =
      Server.stream unit serverStart ++ [sportsGathering]
  ∧ Server.tasks unit (update (Server.cancel unit serverStart)).1 !! 1 = Some sportsGathering
  ∧ (update (Server.cancel unit serverStart)).2 = inl (ErrorObj invalidState)
  ∧ Server.stream unit (update (Server.cancel unit serverStart)).1 =
      Server.stream unit serverStart.
Proof.
  intros sportsGathering update.
  destruct (Server.updateTask_frame unit stays invalidState "weather"
              (statusOnly GATHERING) serverStart) as [Habsent _].
  destruct (Server.updateTask_frame unit stays invalidState "sports"
              (statusOnly GATHERING) serverStart) as [_ Hopen].
  destruct (Server.updateTask_frame unit stays invalidState "sports"
              (statusOnly GATHERING) (Server.cancel unit serverStart)) as [_ Hshut].
  assert (Hfirst : ∀ j t', map pendingTask categories !! j = Some t' → j < 1 →
                     Task.id t' ≠ "sports").
  { intros [| j] t' Hj Hlt; [| lia]. injection Hj as <-. discriminate. }
  split.
  { apply Habsent. intros t Hin. apply list_elem_of_In in Hin. simpl in Hin.
    destruct Hin as [<- | [<- | [<- | []]]]; discriminate. }
  destruct (Hopen 1 (pendingTask {| name := "Sports"; apiValue := "sports" |})
              eq_refl eq_refl Hfirst) as (Hwritten & _ & _ & _ & _ & _ & Htaken & _).
  destruct (Htaken eq_refl eq_refl) as (Hreturns & Hstream & _).
  destruct (Hshut 1 (pendingTask {| name := "Sports"; apiValue := "sports" |})
              eq_refl eq_refl Hfirst) as (Hwritten' & _ & _ & _ & _ & _ & _ & Hrefused).
  destruct (Hrefused (or_introl eq_refl)) as (Hthrows & Hstream' & _).
  done.
Defined.

End Examples.
(* ===================================================================== *)
(** * More on the platform primitives *)
(* ===================================================================== *)

Module JsFacts.

Definition newline : string := String "010" "".

(** *** [split] and [join] *)

(** A separator cuts the text in two: the pieces before it, then the
    pieces after it. *)
Lemma split_sep sep a b :
  Js.split sep (a +:+ String sep b) = Js.split sep a ++ Js.split sep b.
Proof.
  induction a as [| c a IH].
  - rewrite Js.app_nil_l, Js.split_eq. by rewrite Ascii.eqb_refl.
  - rewrite Js.app_cons, !Js.split_eq, IH.
    pose proof (Js.split_nonempty sep a) as Hne.
    destruct (Ascii.eqb c sep); [done |].
    by destruct (Js.split sep a) as [| w ws].
Qed.

(** A text that holds no separator is one piece. *)
Definition lacks (sep : ascii) (s : string) : Prop := Js.split sep s = [s].

Lemma lacks_cons sep c s : lacks sep (String c s) ↔ c ≠ sep ∧ lacks sep s.
Proof.
  unfold lacks. rewrite Js.split_eq.
  pose proof (Js.split_nonempty sep s) as Hne.
  destruct (Ascii.eqb_spec c sep) as [-> | Hc].
  - split; [intros [= ? ?] | by intros [? _]].
  - destruct (Js.split sep s) as [| w ws]; [done |]. split.
    + intros [= -> ->]. done.
    + intros [_ [= -> ->]]. done.
Qed.

Lemma lacks_app sep a b : lacks sep a → lacks sep b → lacks sep (a +:+ b).
Proof.
  intros Ha Hb. induction a as [| c a IH]; [done |].
  apply lacks_cons in Ha as [Hc Ha]. rewrite Js.app_cons. apply lacks_cons. auto.
Qed.

(** Text put before the first piece stays in the first piece. *)
Lemma split_prefix sep pre s :
  lacks sep pre →
  Js.split sep (pre +:+ s) =
    (pre +:+ default "" (head (Js.split sep s))) :: tail (Js.split sep s).
Proof.
  intros Hpre. induction pre as [| c pre IH].
  - rewrite !Js.app_nil_l. pose proof (Js.split_nonempty sep s).
    by destruct (Js.split sep s).
  - apply lacks_cons in Hpre as [Hc Hpre].
    rewrite !Js.app_cons, Js.split_eq, (IH Hpre).
    by destruct (Ascii.eqb_spec c sep).
Qed.

(** The pieces of a split hold no separator. *)
Lemma split_pieces sep s : Forall (lacks sep) (Js.split sep s).
Proof.
  induction s as [| c s IH]; [by repeat constructor |].
  rewrite Js.split_eq. pose proof (Js.split_nonempty sep s) as Hne.
  destruct (Ascii.eqb_spec c sep) as [-> | Hc].
  - by constructor.
  - destruct (Js.split sep s) as [| w ws]; [done |].
    apply Forall_cons in IH as [Hw Hws]. constructor; [| done].
    by apply lacks_cons.
Qed.

(** Joining the pieces with the separator gives the text back. *)
Lemma join_split sep s : Js.join (String sep "") (Js.split sep s) = s.
Proof.
  induction s as [| c s IH]; [done |].
  rewrite Js.split_eq. pose proof (Js.split_nonempty sep s) as Hne.
  destruct (Ascii.eqb_spec c sep) as [-> | Hc].
  - destruct (Js.split sep s) as [| w ws] eqn:E; [done |].
    cbn [Js.join]. cbn [Js.join] in IH. by rewrite Js.app_nil_l, Js.app_cons, Js.app_nil_l, IH.
  - destruct (Js.split sep s) as [| w [| w' ws]] eqn:E; [done | |].
    + cbn [Js.join] in *. by rewrite IH.
    + cbn [Js.join] in *. by rewrite Js.app_cons, IH.
Qed.

Lemma join_cons sep p ps :
  ps ≠ [] → Js.join sep (p :: ps) = p +:+ sep +:+ Js.join sep ps.
Proof. by destruct ps. Qed.

Lemma join_snoc sep l x :
  l ≠ [] → Js.join sep (l ++ [x]) = Js.join sep l +:+ sep +:+ x.
Proof.
  induction l as [| p l IH]; [done |]. intros _.
  destruct l as [| q l]; [done |].
  change ((p :: q :: l) ++ [x]) with (p :: ((q :: l) ++ [x])).
  rewrite join_cons by (by destruct l). rewrite IH by done.
  rewrite (join_cons _ p (q :: l)) by done.
  by rewrite !Js.app_assoc.
Qed.

Lemma join_snoc_app sep l x y :
  Js.join sep (l ++ [x +:+ y]) = Js.join sep (l ++ [x]) +:+ y.
Proof.
  induction l as [| p l IH]; [done |].
  change ((p :: l) ++ [?z]) with (p :: (l ++ [z])).
  rewrite !join_cons by (by destruct l). by rewrite IH, !Js.app_assoc.
Qed.

(** *** Reversal, and white space at the ends *)

Lemma rev_app s t : Js.rev (s +:+ t) = Js.rev t +:+ Js.rev s.
Proof.
  induction s as [| c s IH].
  - by rewrite Js.app_nil_l, Js.app_nil_r.
  - rewrite Js.app_cons. simpl. by rewrite IH, Js.app_assoc.
Qed.

Lemma rev_involutive s : Js.rev (Js.rev s) = s.
Proof.
  induction s as [| c s IH]; [done |]. simpl.
  by rewrite rev_app, IH.
Qed.

Lemma rev_nonempty s : s ≠ "" → Js.rev s ≠ "".
Proof.
  destruct s as [| c s]; [done |]. intros _. simpl.
  by destruct (Js.rev s).
Qed.

(** The text does not start with white space. *)
Definition headOk (s : string) : Prop :=
  match s with
  | EmptyString => True
  | String c _ => Js.isWhiteSpace c = false
  end.

(** No white space at either end: [trim] leaves the text as it is. *)
Definition trimmed (s : string) : Prop := headOk s ∧ headOk (Js.rev s).

Lemma trimStart_headOk s : headOk s → Js.trimStart s = s.
Proof. destruct s as [| c s]; [done |]. simpl. by intros ->. Qed.

Lemma trim_trimmed s : trimmed s → Js.trim s = s.
Proof.
  intros [Hhead Hlast]. unfold Js.trim.
  by rewrite (trimStart_headOk s), (trimStart_headOk (Js.rev s)), rev_involutive.
Qed.

Lemma trim_space s : Js.trim (String " " s) = Js.trim s.
Proof. reflexivity. Qed.

Lemma headOk_app a b : a ≠ "" → headOk a → headOk (a +:+ b).
Proof. by destruct a. Qed.

Lemma trimmed_app a b :
  a ≠ "" → b ≠ "" → headOk a → headOk (Js.rev b) → trimmed (a +:+ b).
Proof.
  intros Ha Hb Hhead Hlast. split; [by apply headOk_app |].
  rewrite rev_app. apply headOk_app; [by apply rev_nonempty | done].
Qed.

Lemma app_nonempty a b : a ≠ "" → a +:+ b ≠ "".
Proof. by destruct a. Qed.

Lemma toLowerCase_app a b :
  Js.toLowerCase (a +:+ b) = Js.toLowerCase a +:+ Js.toLowerCase b.
Proof.
  induction a as [| c a IH]; [done |].
  rewrite Js.app_cons. simpl. by rewrite IH, Js.app_cons.
Qed.

End JsFacts.
(* ===================================================================== *)
(** * src/services/gemini.ts: the answer of the model, read back *)
(* ===================================================================== *)

Module GeminiFacts.

Import JsFacts.

(** ** What [parseAnalysisResponse] returns and what it rejects *)

(** X1. [parseAnalysisResponse] returns complete analyses only: a
    headline, a caption, a source name and an image prompt that are not
    empty, and at least one highlight phrase, none of them empty.  The one
    thing it throws is the error that says the fields could not all be
    parsed. *)
Theorem parse_returns_complete_analysis (text : string) :
  match Gemini.parseAnalysisResponse text with
  | inr a => Gemini.validAnalysis a
  | inl e => e = Gemini.parseFailure
  end.
Proof.
  destruct (Gemini.parseAnalysisResponse text) as [e | a] eqn:Hparse.
  - unfold Gemini.parseAnalysisResponse in Hparse.
    repeat match type of Hparse with
           | context [match ?x with _ => _ end] => destruct x
           end; congruence.
  - by apply Gemini.parseAnalysisResponse_valid in Hparse.
Qed.

(** A field stays unset while no line names it. *)
Definition unset (name : string) (st : Gemini.ParseState) : Prop :=
  if String.eqb name "HEADLINE:" then Gemini.headline st = None
  else if String.eqb name "HIGHLIGHT_WORDS:" then Gemini.highlightPhrases st = []
  else if String.eqb name "SOURCE_NAME:" then Gemini.sourceName st = None
  else if String.eqb name "CAPTION:" then
    Gemini.isParsingCaption st = false ∧ Gemini.captionLines st = []
  else Gemini.isParsingImagePrompt st = false ∧ Gemini.imagePromptLines st = [].

Lemma parseLine_unset name st line :
  name ∈ Gemini.fieldNames →
  Js.startsWith line name = false →
  unset name st → unset name (Gemini.parseLine st line).
Proof.
  intros Hname Hline. apply list_elem_of_In in Hname. simpl in Hname.
  destruct Hname as [<- | [<- | [<- | [<- | [<- | []]]]]]; unfold unset; simpl;
    unfold Gemini.parseLine, Gemini.fieldNames; cbn [existsb];
    rewrite Hline; try intros [-> ->]; intros;
    repeat match goal with
           | |- context [Js.startsWith ?l ?n] => destruct (Js.startsWith l n)
           end; simpl; try done;
    destruct (Gemini.isParsingCaption st); try done;
    destruct (Gemini.isParsingImagePrompt st); done.
Qed.

Lemma unset_fails name text :
  unset name (fold_left Gemini.parseLine (Js.split "010" text) Gemini.parseInit) →
  name ∈ Gemini.fieldNames →
  Gemini.parseAnalysisResponse text = inl Gemini.parseFailure.
Proof.
  unfold Gemini.parseAnalysisResponse.
  set (st := fold_left Gemini.parseLine (Js.split "010" text) Gemini.parseInit).
  intros Hunset Hname. apply list_elem_of_In in Hname. simpl in Hname.
  destruct Hname as [<- | [<- | [<- | [<- | [<- | []]]]]]; unfold unset in Hunset;
    simpl in Hunset.
  - by rewrite Hunset.
  - rewrite Hunset.
    destruct (Gemini.headline st); [| done].
    destruct (Gemini.joinedField (Gemini.captionLines st) _); [| done].
    destruct (Gemini.sourceName st); [| done].
    destruct (Gemini.joinedField (Gemini.imagePromptLines st) _); [| done].
    simpl. by rewrite !orb_true_r.
  - rewrite Hunset.
    destruct (Gemini.headline st); [| done].
    by destruct (Gemini.joinedField (Gemini.captionLines st) _).
  - destruct Hunset as [_ ->]. simpl. by destruct (Gemini.headline st).
  - destruct Hunset as [_ ->]. simpl.
    destruct (Gemini.headline st); [| done].
    destruct (Gemini.joinedField (Gemini.captionLines st) _); [| done].
    by destruct (Gemini.sourceName st).
Qed.

(** X2. Each of the five fields is required: a text in which no line
    starts with the name of one of them (HEADLINE:, HIGHLIGHT_WORDS:,
    SOURCE_NAME:, CAPTION: or IMAGE_PROMPT:) is rejected with the parse
    error.  The empty text is such a text. *)
Theorem parse_requires_every_field (text name : string) :
  name ∈ Gemini.fieldNames →
  Forall (λ line, Js.startsWith line name = false) (Js.split "010" text) →
  Gemini.parseAnalysisResponse text = inl Gemini.parseFailure.
Proof.
  intros Hname Hlines. apply (unset_fails name); [| done].
  apply (Exec.fold_invariant (unset name)).
  - intros line st Hin. apply parseLine_unset; [done |].
    rewrite Forall_forall in Hlines. by apply Hlines.
  - apply list_elem_of_In in Hname. simpl in Hname.
    by destruct Hname as [<- | [<- | [<- | [<- | [<- | []]]]]].
Qed.

Lemma parse_requires_every_field_witness :
  let text := "HEADLINE: Dhaka metro opens" +:+ newline +:+ "CAPTION: A big day" in
  "SOURCE_NAME:" ∈ Gemini.fieldNames
  ∧ Forall (λ line, Js.startsWith line "SOURCE_NAME:" = false) (Js.split "010" text)
  ∧ Gemini.parseAnalysisResponse text = inl Gemini.parseFailure.
Proof.
  intros text.
  assert (Hname : "SOURCE_NAME:" ∈ Gemini.fieldNames)
    by (apply list_elem_of_In; simpl; tauto).
  assert (Hlines : Forall (λ line, Js.startsWith line "SOURCE_NAME:" = false)
                     (Js.split "010" text)).
  { change (Js.split "010" text)
      with ["HEADLINE: Dhaka metro opens"; "CAPTION: A big day"].
    constructor; [reflexivity |]. constructor; [reflexivity |]. constructor. }
  split; [exact Hname |]. split; [exact Hlines |].
  exact (parse_requires_every_field text "SOURCE_NAME:" Hname Hlines).
Defined.

(** ** The format the prompt asks for, read back *)

(** The answer in the form the prompt lays down ("Output Format
    (Strict)"): the six lines, the phrases separated by a comma and a
    space. *)
Definition formatResponse (chosenId : string) (a : Analysis.NewsAnalysis) : string :=
  Js.join newline
    ["CHOSEN_ID: " +:+ chosenId;
     "HEADLINE: " +:+ Analysis.headline a;
     "HIGHLIGHT_WORDS: " +:+ Js.join ", " (Analysis.highlightPhrases a);
     "IMAGE_PROMPT: " +:+ Analysis.imagePrompt a;
     "CAPTION: " +:+ Analysis.caption a;
     "SOURCE_NAME: " +:+ Analysis.sourceName a].

(** A value that fits on the line of its field: no line break, no white
    space at either end, not empty. *)
Definition plainField (s : string) : Prop :=
  lacks "010" s ∧ trimmed s ∧ s ≠ "".

Definition plainPhrase (p : string) : Prop := plainField p ∧ lacks "," p.

(** A line that does not start with the name of a field. *)
Definition continuation (line : string) : Prop :=
  existsb (Js.startsWith line) Gemini.fieldNames = false.

(** An analysis that the format can carry: plain fields and phrases, and a
    caption of one or more lines, none blank, none with white space at
    either end, none but the first starting with the name of a field. *)
Definition plainAnalysis (a : Analysis.NewsAnalysis) : Prop :=
  plainField (Analysis.headline a)
  ∧ Analysis.highlightPhrases a ≠ []
  ∧ Forall plainPhrase (Analysis.highlightPhrases a)
  ∧ plainField (Analysis.imagePrompt a)
  ∧ plainField (Analysis.sourceName a)
  ∧ Forall (λ line, trimmed line ∧ line ≠ "") (Js.split "010" (Analysis.caption a))
  ∧ Forall continuation (tail (Js.split "010" (Analysis.caption a))).

Lemma split_join sep lines :
  lines ≠ [] →
  Js.split sep (Js.join (String sep "") lines) = flat_map (Js.split sep) lines.
Proof.
  induction lines as [| p lines IH]; [done |]. intros _.
  destruct lines as [| q lines]; [simpl; by rewrite app_nil_r |].
  rewrite join_cons by done.
  rewrite Js.app_cons, Js.app_nil_l, split_sep, IH by done. done.
Qed.

(** The phrases, joined as the format says, split back into themselves. *)
Lemma split_phrases_spaced phrases :
  phrases ≠ [] → Forall plainPhrase phrases →
  map Js.trim (Js.split "," (String " " (Js.join ", " phrases))) = phrases.
Proof.
  induction phrases as [| p phrases IH]; [done |]. intros _ [Hp Hrest]%Forall_cons.
  destruct Hp as [(_ & Htrimmed & _) Hcomma].
  assert (Hspaced : lacks "," (String " " p)) by (by apply lacks_cons).
  destruct phrases as [| q phrases].
  - cbn [Js.join]. rewrite Hspaced. simpl map. by rewrite trim_space, trim_trimmed.
  - rewrite join_cons by done.
    change (String " " (p +:+ ", " +:+ ?j)) with (String " " p +:+ String "," (String " " j)).
    rewrite split_sep, Hspaced, map_app, IH by done.
    simpl map. by rewrite trim_space, trim_trimmed.
Qed.

Lemma split_phrases phrases :
  phrases ≠ [] → Forall plainPhrase phrases →
  map Js.trim (Js.split "," (Js.join ", " phrases)) = phrases.
Proof.
  destruct phrases as [| p phrases]; [done |]. intros _ [Hp Hrest]%Forall_cons.
  destruct Hp as [(_ & Htrimmed & _) Hcomma].
  destruct phrases as [| q phrases].
  - cbn [Js.join]. rewrite Hcomma. simpl. by rewrite trim_trimmed.
  - rewrite join_cons by done.
    change (p +:+ ", " +:+ ?j) with (p +:+ String "," (String " " j)).
    rewrite split_sep, Hcomma, map_app, split_phrases_spaced by done.
    simpl. by rewrite trim_trimmed.
Qed.

Lemma join_nonempty sep phrases :
  phrases ≠ [] → Forall (λ p, p ≠ "") phrases → Js.join sep phrases ≠ "".
Proof.
  destruct phrases as [| p phrases]; [done |]. intros _ [Hp _]%Forall_cons.
  destruct phrases as [| q phrases]; [done |].
  rewrite join_cons by done. by apply app_nonempty.
Qed.

Lemma join_phrases_trimmed phrases :
  phrases ≠ [] → Forall plainPhrase phrases → trimmed (Js.join ", " phrases).
Proof.
  induction phrases as [| p phrases IH]; [done |]. intros _ [Hp Hrest]%Forall_cons.
  destruct Hp as [(_ & [Hhead Hlast] & Hne) _].
  destruct phrases as [| q phrases]; [done |].
  rewrite join_cons by done.
  assert (Hj : Js.join ", " (q :: phrases) ≠ "").
  { apply join_nonempty; [done |]. eapply Forall_impl; [exact Hrest |].
    by intros ? [(_ & _ & ?) _]. }
  destruct (IH ltac:(done) Hrest) as [_ Hjlast].
  apply trimmed_app; [done | by apply app_nonempty | done |].
  rewrite rev_app. apply headOk_app; [by apply rev_nonempty | done].
Qed.

Lemma filter_truthy lines :
  Forall (λ line, line ≠ "") lines → List.filter Js.truthy lines = lines.
Proof.
  induction 1 as [| line lines Hline _ IH]; [done |]. simpl.
  unfold Js.truthy at 1. destruct (String.eqb_spec line ""); [done |]. simpl. by rewrite IH.
Qed.

Lemma falsy_nonempty s : s ≠ "" → Js.falsy (Some s) = false.
Proof. simpl. by destruct (String.eqb_spec s ""). Qed.

Lemma truthy_true s : s ≠ "" → Js.truthy s = true.
Proof. unfold Js.truthy. by destruct (String.eqb_spec s ""). Qed.

(** The callback on the line of each field, and on a line that continues
    a caption. *)
Lemma parseLine_other hd ph sn cl pl line :
  continuation line →
  Gemini.parseLine (Gemini.Build_ParseState hd ph sn false cl false pl) line =
    Gemini.Build_ParseState hd ph sn false cl false pl.
Proof.
  unfold continuation, Gemini.parseLine, Gemini.fieldNames. cbn [existsb].
  intros Hline. rewrite Hline.
  repeat apply orb_false_elim in Hline as [? Hline].
  repeat match goal with H : Js.startsWith _ _ = false |- _ => rewrite H; clear H end.
  done.
Qed.

Lemma parseLine_continuation hd ph sn cl pp pl line :
  continuation line →
  Gemini.parseLine (Gemini.Build_ParseState hd ph sn true cl pp pl) line =
    Gemini.Build_ParseState hd ph sn true (cl ++ [Js.trim line]) pp pl.
Proof.
  unfold continuation, Gemini.parseLine, Gemini.fieldNames. cbn [existsb].
  intros Hline. rewrite Hline.
  repeat apply orb_false_elim in Hline as [? Hline].
  repeat match goal with H : Js.startsWith _ _ = false |- _ => rewrite H; clear H end.
  done.
Qed.

Lemma fold_continuation lines hd ph sn cl pp pl :
  Forall continuation lines →
  fold_left Gemini.parseLine lines (Gemini.Build_ParseState hd ph sn true cl pp pl) =
    Gemini.Build_ParseState hd ph sn true (cl ++ map Js.trim lines) pp pl.
Proof.
  intros Hlines. revert cl.
  induction Hlines as [| line lines Hline _ IH]; intros cl; simpl.
  - by rewrite app_nil_r.
  - rewrite parseLine_continuation by done. rewrite IH. by rewrite <- app_assoc.
Qed.

Lemma parseLine_headline hd ph sn pc cl pp pl v :
  Gemini.parseLine (Gemini.Build_ParseState hd ph sn pc cl pp pl) ("HEADLINE: " +:+ v) =
    Gemini.Build_ParseState (Some (Js.trim v)) ph sn false cl false pl.
Proof. reflexivity. Qed.

Lemma parseLine_highlightWords hd ph sn pc cl pp pl v :
  Gemini.parseLine (Gemini.Build_ParseState hd ph sn pc cl pp pl) ("HIGHLIGHT_WORDS: " +:+ v) =
    Gemini.Build_ParseState hd (Gemini.splitPhrases (Js.trim v)) sn false cl false pl.
Proof. reflexivity. Qed.

Lemma parseLine_sourceName hd ph sn pc cl pp pl v :
  Gemini.parseLine (Gemini.Build_ParseState hd ph sn pc cl pp pl) ("SOURCE_NAME: " +:+ v) =
    Gemini.Build_ParseState hd ph (Some (Js.trim v)) false cl false pl.
Proof. reflexivity. Qed.

Lemma parseLine_caption hd ph sn pc cl pp pl v :
  Gemini.parseLine (Gemini.Build_ParseState hd ph sn pc cl pp pl) ("CAPTION: " +:+ v) =
    Gemini.Build_ParseState hd ph sn true
      (if Js.truthy (Js.trim v) then cl ++ [Js.trim v] else cl) false pl.
Proof. reflexivity. Qed.

Lemma parseLine_imagePrompt hd ph sn pc cl pp pl v :
  Gemini.parseLine (Gemini.Build_ParseState hd ph sn pc cl pp pl) ("IMAGE_PROMPT: " +:+ v) =
    Gemini.Build_ParseState hd ph sn false cl true
      (if Js.truthy (Js.trim v) then pl ++ [Js.trim v] else pl).
Proof. reflexivity. Qed.

(** X3. An analysis written in the format the prompt asks for is read
    back as it was: whatever stands on the CHOSEN_ID line, the headline,
    the phrases (in order), the image prompt, the caption (all its lines)
    and the source name come out of [parseAnalysisResponse] unchanged. *)
Theorem parse_reads_back_the_format (chosenId : string) (a : Analysis.NewsAnalysis) :
  lacks "010" chosenId →
  plainAnalysis a →
  Gemini.parseAnalysisResponse (formatResponse chosenId a) = inr a.
Proof.
  destruct a as [h phrases c p n].
  intros Hid ((Hh1 & Hh2 & Hh3) & Hne & Hphrases & (Hp1 & Hp2 & Hp3) & (Hn1 & Hn2 & Hn3)
              & Hcaption & Hrest).
  simpl in *.
  pose proof (Js.split_nonempty "010" c) as Hsplit.
  destruct (Js.split "010" c) as [| c1 cs] eqn:Hc; [done |]. simpl in Hrest.
  pose proof (proj1 (Forall_cons _ _ _) Hcaption) as [[Hc1 Hc1'] Hcs].
  assert (Hjoined : Js.join newline (c1 :: cs) = c)
    by (rewrite <- Hc; apply join_split).
  assert (Hnonblank : Forall (λ line, line ≠ "") (c1 :: cs))
    by (eapply Forall_impl; [exact Hcaption |]; by intros ? [_ ?]).
  assert (Htrim : map Js.trim (c1 :: cs) = c1 :: cs).
  { clear -Hcaption. induction Hcaption as [| line lines [Hline _] _ IH]; [done |].
    simpl. by rewrite trim_trimmed, IH. }
  assert (Hlines : Js.split "010" (formatResponse chosenId
             {| Analysis.headline := h; Analysis.highlightPhrases := phrases;
                Analysis.caption := c; Analysis.imagePrompt := p;
                Analysis.sourceName := n |}) =
    ["CHOSEN_ID: " +:+ chosenId; "HEADLINE: " +:+ h;
     "HIGHLIGHT_WORDS: " +:+ Js.join ", " phrases; "IMAGE_PROMPT: " +:+ p;
     "CAPTION: " +:+ c1] ++ cs ++ ["SOURCE_NAME: " +:+ n]).
  { unfold formatResponse. rewrite split_join by done. cbn [flat_map Analysis.headline
      Analysis.highlightPhrases Analysis.caption Analysis.imagePrompt Analysis.sourceName].
    assert (Hphr : lacks "010" (Js.join ", " phrases)).
    { clear -Hne Hphrases. induction Hphrases as [| q phrases [(Hq & _) _] _ IH]; [done |].
      destruct phrases as [| q' phrases]; [done |].
      rewrite join_cons by done. apply lacks_app; [done |].
      apply lacks_app; [done | by apply IH]. }
    rewrite !split_prefix by done.
    rewrite Hid, Hh1, Hphr, Hp1, Hc, Hn1. simpl. done. }
  unfold Gemini.parseAnalysisResponse. rewrite Hlines.
  rewrite !fold_left_app. cbn [fold_left]. unfold Gemini.parseInit.
  rewrite parseLine_other by done.
  rewrite parseLine_headline, parseLine_highlightWords, parseLine_imagePrompt, parseLine_caption.
  rewrite !trim_trimmed; [| done | done | by apply join_phrases_trimmed | done].
  rewrite !truthy_true by done.
  rewrite fold_continuation by done. rewrite parseLine_sourceName.
  rewrite trim_trimmed by done. cbn [Gemini.headline Gemini.captionLines Gemini.sourceName
    Gemini.imagePromptLines Gemini.highlightPhrases app].
  assert (Hcs' : map Js.trim cs = cs) by (simpl in Htrim; congruence).
  rewrite Hcs'. unfold Gemini.joinedField.
  rewrite (filter_truthy (c1 :: cs)) by done.
  rewrite (filter_truthy [p]) by (by constructor).
  change (String "010" "") with newline. rewrite Hjoined. cbn [Js.join].
  assert (Hcne : c ≠ "") by (rewrite <- Hjoined; by apply join_nonempty).
  rewrite !falsy_nonempty by done.
  unfold Gemini.splitPhrases. rewrite split_phrases by done.
  rewrite filter_truthy by (eapply Forall_impl; [exact Hphrases |]; by intros ? [(_ & _ & ?) _]).
  by destruct phrases.
Qed.

Definition sample : Analysis.NewsAnalysis :=
  {| Analysis.headline := "Dhaka metro opens a new line";
     Analysis.highlightPhrases := ["Dhaka metro"; "new line"];
     Analysis.caption :=
       "A big day for commuters." +:+ newline +:+ "#Dhaka #Metro Source: Daily";
     Analysis.imagePrompt := "A train in a city";
     Analysis.sourceName := "Daily" |}.

Ltac plain_field :=
  split; [vm_compute; reflexivity
         | split; [split; vm_compute; reflexivity | discriminate]].

Lemma parse_reads_back_the_format_witness :
  lacks "010" "2" ∧ plainAnalysis sample
  ∧ Gemini.parseAnalysisResponse (formatResponse "2" sample) = inr sample.
Proof.
  assert (Hid : lacks "010" "2") by reflexivity.
  assert (Hplain : plainAnalysis sample).
  { unfold plainAnalysis.
    change (Js.split "010" (Analysis.caption sample))
      with ["A big day for commuters."; "#Dhaka #Metro Source: Daily"].
    split; [plain_field |]. split; [discriminate |].
    split; [repeat (constructor; [split; [plain_field | vm_compute; reflexivity] |]);
            constructor |].
    split; [plain_field |]. split; [plain_field |].
    split.
    - repeat (constructor; [split; [split; vm_compute; reflexivity | discriminate] |]).
      constructor.
    - constructor; [vm_compute; reflexivity | constructor]. }
  split; [exact Hid |]. split; [exact Hplain |].
  exact (parse_reads_back_the_format "2" sample Hid Hplain).
Defined.

(** ** [findAndAnalyzeBestArticleFromList] *)

Definition rateLimitMessage : string :=
  "AI request failed due to rate limits (RESOURCE_EXHAUSTED). The application made too many requests in a short period. Please wait and try again.".

Section Analyze.
Variable W : Type.
Variable generateContent : list Article.NewsDataArticle → Exec W (option string).

Local Abbreviation findAndAnalyze :=
  (Gemini.findAndAnalyzeBestArticleFromList W generateContent).

Lemma wrapError_message error :
  ∃ message, Gemini.wrapError error = ErrorObj message
    ∧ (message = rateLimitMessage
       ∨ message = "Failed to analyze the news article."
       ∨ ∃ cause, error = ErrorObj cause
                  ∧ message = "Failed to analyze the news article. " +:+ cause).
Proof.
  destruct error as [cause |]; unfold Gemini.wrapError.
  - destruct (Js.includes cause "RESOURCE_EXHAUSTED").
    + eexists. split; [reflexivity |]. left. reflexivity.
    + eexists. split; [reflexivity |]. right. right. by exists cause.
  - eexists. split; [reflexivity |]. right. left. reflexivity.
Qed.

(** What the function does is one call to the model and the reading of
    its answer: in every case the world is left as the call left it. *)
Lemma findAndAnalyze_world articles w :
  (findAndAnalyze articles w).1 = (generateContent articles w).1.
Proof.
  unfold Gemini.findAndAnalyzeBestArticleFromList, Exec.tryCatch, Exec.bind, Exec.throw,
    Exec.ret.
  destruct (generateContent articles w) as [w1 [e | text]]; [done |].
  destruct (Js.falsy (option_map Js.trim text)); [done |].
  destruct (String.eqb _ "IRRELEVANT"); [done |].
  destruct (Gemini.chosenIdMatch _) as [[| i] |]; [done | | done].
  destruct (articles !! i); [| done].
  by destruct (Gemini.parseAnalysisResponse _).
Qed.

(** X4. Whatever goes wrong in [findAndAnalyzeBestArticleFromList], what
    it throws is an [Error] whose message is the rate limit notice or
    starts with "Failed to analyze the news article."; nothing else gets
    out.  A failure of the model whose message holds RESOURCE_EXHAUSTED
    gives the rate limit notice; any other error message is kept, after
    that prefix.  An answer with no text, or with white space only, is
    an error; so are an answer without a CHOSEN_ID line and one whose
    fields do not parse.  In every case the model was called once and
    nothing else was touched. *)
Theorem findAndAnalyze_errors (articles : list Article.NewsDataArticle) (w : W) :
  (findAndAnalyze articles w).1 = (generateContent articles w).1
  ∧ (∀ w' e, findAndAnalyze articles w = (w', inl e) →
       ∃ message, e = ErrorObj message
         ∧ (message = rateLimitMessage
            ∨ String.prefix "Failed to analyze the news article." message = true))
  ∧ (∀ w' cause, generateContent articles w = (w', inl (ErrorObj cause)) →
       findAndAnalyze articles w =
         (w', inl (ErrorObj
            (if Js.includes cause "RESOURCE_EXHAUSTED" then rateLimitMessage
             else "Failed to analyze the news article. " +:+ cause))))
  ∧ (∀ w' text, generateContent articles w = (w', inr text) →
       Js.trim (default "" text) = "" →
       findAndAnalyze articles w =
         (w', inl (ErrorObj
            "Failed to analyze the news article. Received an empty text response from the API.")))
  ∧ (∀ w' text, generateContent articles w = (w', inr (Some text)) →
       Js.trim text ≠ "" →
       Js.toUpperCase (Js.trim text) ≠ "IRRELEVANT" →
       Gemini.chosenIdMatch (Js.trim text) = None →
       findAndAnalyze articles w =
         (w', inl (ErrorObj
            "Failed to analyze the news article. AI response did not include a valid CHOSEN_ID.")))
  ∧ (∀ w' text i chosen, generateContent articles w = (w', inr (Some text)) →
       Js.trim text ≠ "" →
       Js.toUpperCase (Js.trim text) ≠ "IRRELEVANT" →
       Gemini.chosenIdMatch (Js.trim text) = Some (S i) →
       articles !! i = Some chosen →
       Gemini.parseAnalysisResponse (Js.trim text) = inl Gemini.parseFailure →
       findAndAnalyze articles w =
         (w', inl (ErrorObj
            "Failed to analyze the news article. Could not parse all required fields from the AI response. The format might be incorrect."))).
Proof.
  split; [apply findAndAnalyze_world |].
  split.
  { intros w' e.
    unfold Gemini.findAndAnalyzeBestArticleFromList, Exec.tryCatch, Exec.bind, Exec.throw,
      Exec.ret.
    assert (Hwrap : ∀ error,
      ∃ message, Gemini.wrapError error = ErrorObj message
        ∧ (message = rateLimitMessage
           ∨ String.prefix "Failed to analyze the news article." message = true)).
    { intros error.
      destruct (wrapError_message error) as (message & -> & Hcases).
      exists message. split; [done |].
      destruct Hcases as [? | [-> | (cause & _ & ->)]]; [by left | by right |].
      right. apply Js.prefix_spec. exists (String " " cause). reflexivity. }
    destruct (generateContent articles w) as [w1 [err | text]];
      [intros [= _ <-]; apply Hwrap |].
    destruct (Js.falsy (option_map Js.trim text)); [intros [= _ <-]; apply Hwrap |].
    destruct (String.eqb _ "IRRELEVANT"); [done |].
    destruct (Gemini.chosenIdMatch _) as [[| i] |];
      [intros [= _ <-]; apply Hwrap | | intros [= _ <-]; apply Hwrap].
    destruct (articles !! i); [| intros [= _ <-]; apply Hwrap].
    destruct (Gemini.parseAnalysisResponse _); [intros [= _ <-]; apply Hwrap | done]. }
  split.
  { intros w' cause Hcall.
    unfold Gemini.findAndAnalyzeBestArticleFromList, Exec.tryCatch, Exec.bind, Exec.throw.
    by rewrite Hcall. }
  split.
  { intros w' text Hcall Hempty.
    unfold Gemini.findAndAnalyzeBestArticleFromList, Exec.tryCatch, Exec.bind, Exec.throw.
    rewrite Hcall. cbv beta iota.
    assert (Hfalsy : Js.falsy (option_map Js.trim text) = true).
    { destruct text as [text |]; [| done]. simpl in *. by rewrite Hempty. }
    by rewrite Hfalsy. }
  split.
  { intros w' text Hcall Hne Hrel Hid.
    unfold Gemini.findAndAnalyzeBestArticleFromList, Exec.tryCatch, Exec.bind, Exec.throw.
    rewrite Hcall. cbv beta iota.
    change (option_map Js.trim (Some text)) with (Some (Js.trim text)).
    rewrite falsy_nonempty by done. change (default "" (Some (Js.trim text))) with (Js.trim text). destruct (String.eqb_spec (Js.toUpperCase (Js.trim text)) "IRRELEVANT");
      [done |].
    by rewrite Hid. }
  intros w' text i chosen Hcall Hne Hrel Hid Hchosen Hparse.
  unfold Gemini.findAndAnalyzeBestArticleFromList, Exec.tryCatch, Exec.bind, Exec.throw.
  rewrite Hcall. cbv beta iota.
  change (option_map Js.trim (Some text)) with (Some (Js.trim text)).
  rewrite falsy_nonempty by done. change (default "" (Some (Js.trim text))) with (Js.trim text). destruct (String.eqb_spec (Js.toUpperCase (Js.trim text)) "IRRELEVANT");
    [done |].
  by rewrite Hid, Hchosen, Hparse.
Qed.

(** X5. [findAndAnalyzeBestArticleFromList] answers null exactly when the
    answer of the model, trimmed, is the word IRRELEVANT in any letter
    case.  When it returns an article, that article is the one at the
    position the answer names on its CHOSEN_ID line, counted from 1, in the
    list it was given, and the analysis is the one parsed from the same
    answer; an id of 0 or beyond the list never yields an article. *)
Theorem findAndAnalyze_answers (articles : list Article.NewsDataArticle) (w w' : W) :
  (findAndAnalyze articles w = (w', inr None) ↔
     ∃ text, generateContent articles w = (w', inr (Some text))
       ∧ Js.toUpperCase (Js.trim text) = "IRRELEVANT")
  ∧ (∀ a chosen,
       findAndAnalyze articles w = (w', inr (Some (a, chosen))) ↔
         ∃ text chosenId,
           generateContent articles w = (w', inr (Some text))
           ∧ Js.toUpperCase (Js.trim text) ≠ "IRRELEVANT"
           ∧ Gemini.chosenIdMatch (Js.trim text) = Some chosenId
           ∧ 1 ≤ chosenId ≤ length articles
           ∧ articles !! (chosenId - 1) = Some chosen
           ∧ Gemini.parseAnalysisResponse (Js.trim text) = inr a).
Proof.
  unfold Gemini.findAndAnalyzeBestArticleFromList, Exec.tryCatch, Exec.bind, Exec.throw,
    Exec.ret.
  destruct (generateContent articles w) as [w1 [err | [text |]]].
  { split; [| intros a chosen]; (split; [done |]);
      [intros (? & [=] & _) | intros (? & ? & [=] & _)]. }
  2: { split; [| intros a chosen]; (split; [done |]);
         [intros (? & [=] & _) | intros (? & ? & [=] & _)]. }
  change (option_map Js.trim (Some text)) with (Some (Js.trim text)).
  destruct (Js.falsy (Some (Js.trim text))) eqn:Hfalsy.
  { assert (Hempty : Js.trim text = "")
      by (simpl in Hfalsy; by destruct (String.eqb_spec (Js.trim text) "")).
    split; [| intros a chosen]; (split; [done |]).
    - intros (text' & [= <- <-] & Hrel). by rewrite Hempty in Hrel.
    - intros (text' & chosenId & [= <- <-] & _ & _ & _ & _ & Hparse).
      rewrite Hempty in Hparse. discriminate Hparse. }
  change (default "" (Some (Js.trim text))) with (Js.trim text).
  destruct (String.eqb_spec (Js.toUpperCase (Js.trim text)) "IRRELEVANT") as [Hrel | Hrel].
  { split; [| intros a chosen]; split.
    - intros [= <-]. by exists text.
    - by intros (text' & [= <- <-] & _).
    - done.
    - intros (text' & chosenId & [= <- <-] & Hnot & _). done. }
  split.
  { split.
    - destruct (Gemini.chosenIdMatch _) as [[| i] |]; [done | | done].
      destruct (articles !! i); [| done].
      by destruct (Gemini.parseAnalysisResponse _).
    - intros (text' & [= <- <-] & Hrel'). done. }
  intros a chosen.
  destruct (Gemini.chosenIdMatch (Js.trim text)) as [[| i] |] eqn:Hid.
  - split; [done |].
    intros (text' & chosenId & [= <- <-] & _ & Hid' & Hrange & _).
    rewrite Hid in Hid'. injection Hid' as <-. lia.
  - destruct (articles !! i) as [chosenArticle |] eqn:Hi.
    + destruct (Gemini.parseAnalysisResponse (Js.trim text)) as [e | analysis] eqn:Hparse.
      * split; [done |].
        intros (text' & chosenId & [= <- <-] & _ & _ & _ & _ & Hparse').
        rewrite Hparse in Hparse'. discriminate Hparse'.
      * split.
        -- intros [= <- <- <-]. exists text, (S i).
           apply lookup_lt_Some in Hi as Hlt.
           replace (S i - 1) with i by lia. repeat split; try done; lia.
        -- intros (text' & chosenId & [= <- <-] & _ & Hid' & _ & Hchosen & Hparse').
           rewrite Hid in Hid'. injection Hid' as <-.
           replace (S i - 1) with i in Hchosen by lia.
           rewrite Hparse in Hparse'. congruence.
    + split; [done |].
      intros (text' & chosenId & [= <- <-] & _ & Hid' & _ & Hchosen & _).
      rewrite Hid in Hid'. injection Hid' as <-.
      replace (S i - 1) with i in Hchosen by lia. congruence.
  - split; [done |]. intros (text' & chosenId & [= <- <-] & _ & Hid' & _).
    rewrite Hid in Hid'. discriminate Hid'.
Qed.

End Analyze.

End GeminiFacts.
(* ===================================================================== *)
(** * src/utils/canvas.ts: sources, lines and paint *)
(* ===================================================================== *)

Module CanvasFacts.

Import JsFacts.

(** ** [loadImage] *)

Definition invalidDataUrl : Thrown :=
  ErrorObj "Invalid data URL: missing base64 content.".

Section LoadImage.
Variable W : Type.
Variable Image : Type.
Variable skiaLoadImage : Canvas.ImageSource → Exec W Image.

Local Abbreviation loadImage := (Canvas.loadImage W Image skiaLoadImage).

(** X6. [loadImage] hands an address that does not start with "data:" to
    skia as it is.  Of a data URL it hands over what stands between the
    first comma and the second (or the end), and nothing else: not the
    header, and nothing after a second comma.  A data URL with no comma, or
    with nothing after its first comma, is rejected with "Invalid data URL:
    missing base64 content." before skia is called. *)
Theorem loadImage_sources :
  (∀ src, Js.startsWith src "data:" = false →
     loadImage src = skiaLoadImage (Canvas.FromUrl src))
  ∧ (∀ header w,
       Js.startsWith header "data:" = true → lacks "," header →
       loadImage header w = (w, inl invalidDataUrl))
  ∧ (∀ header payload rest,
       Js.startsWith header "data:" = true → lacks "," header → lacks "," payload →
       rest = "" ∨ Js.startsWith rest "," = true →
       loadImage (header +:+ "," +:+ payload +:+ rest) =
         if Js.truthy payload then skiaLoadImage (Canvas.FromBuffer payload)
         else Exec.throw invalidDataUrl).
Proof.
  split; [| split].
  - intros src Hsrc. unfold Canvas.loadImage. by rewrite Hsrc.
  - intros header w Hdata Hcomma. unfold Canvas.loadImage. by rewrite Hdata, Hcomma.
  - intros header payload rest Hdata Hheader Hpayload Hrest.
    unfold Canvas.loadImage.
    assert (Hstarts : Js.startsWith (header +:+ "," +:+ payload +:+ rest) "data:" = true).
    { unfold Js.startsWith in *. apply Js.prefix_spec in Hdata as [post ->].
      apply Js.prefix_spec. eexists. by rewrite Js.app_assoc. }
    rewrite Hstarts.
    change (header +:+ "," +:+ payload +:+ rest)
      with (header +:+ String "," (payload +:+ rest)).
    rewrite split_sep, Hheader.
    assert (Hsecond : ∃ pieces, Js.split "," (payload +:+ rest) = payload :: pieces).
    { destruct Hrest as [-> | Hrest].
      - exists []. by rewrite Js.app_nil_r.
      - unfold Js.startsWith in Hrest. apply Js.prefix_spec in Hrest as [post ->].
        change ("," +:+ post) with (String "," post).
        rewrite split_sep, Hpayload. by eexists. }
    destruct Hsecond as [pieces ->]. simpl.
    by destruct (Js.truthy payload).
Qed.

End LoadImage.

Lemma loadImage_sources_witness :
  let skia : Canvas.ImageSource → Exec unit unit := λ _, Exec.ret tt in
  Canvas.loadImage unit unit skia "data:image/png;base64" tt = (tt, inl invalidDataUrl)
  ∧ Canvas.loadImage unit unit skia "data:image/png;base64,AAAA,BBBB" =
      skia (Canvas.FromBuffer "AAAA").
Proof.
  intros skia.
  destruct (loadImage_sources unit unit skia) as (_ & Hbare & Hpayload).
  split.
  - apply Hbare; reflexivity.
  - apply (Hpayload "data:image/png;base64" "AAAA" ",BBBB");
      [reflexivity | reflexivity | reflexivity | by right].
Defined.

(** ** [calculateLines]: the text is kept *)

(** The characters of a text other than the space. *)
Fixpoint letters (s : string) : string :=
  match s with
  | EmptyString => EmptyString
  | String c s' => if Ascii.eqb c " " then letters s' else String c (letters s')
  end.

Lemma letters_app a b : letters (a +:+ b) = letters a +:+ letters b.
Proof.
  induction a as [| c a IH]; [done |]. rewrite Js.app_cons. simpl.
  destruct (Ascii.eqb c " "); [done |]. by rewrite IH, Js.app_cons.
Qed.

Lemma concat_app l1 l2 : Js.concat (l1 ++ l2) = Js.concat l1 +:+ Js.concat l2.
Proof.
  induction l1 as [| x l1 IH]; [done |]. simpl. by rewrite IH, Js.app_assoc.
Qed.

Lemma letters_split s : letters (Js.concat (Js.split " " s)) = letters s.
Proof.
  induction s as [| c s IH]; [done |].
  rewrite Js.split_eq. pose proof (Js.split_nonempty " " s) as Hne.
  destruct (Ascii.eqb c " ") eqn:Hc.
  - simpl. by rewrite Hc.
  - destruct (Js.split " " s) as [| w ws]; [done |].
    simpl in *. rewrite Hc. by rewrite <- IH.
Qed.

Lemma len_0_ltb s : (0 <? Js.len s) = false → s = "".
Proof. destruct s; [done |]. simpl. discriminate. Qed.

Lemma wrapWords_letters measureText maxWidth words currentLine lines :
  letters (Js.concat (Canvas.wrapWords measureText maxWidth words currentLine lines)) =
    letters (Js.concat lines) +:+ letters currentLine +:+ letters (Js.concat words).
Proof.
  revert currentLine lines.
  induction words as [| word rest IH]; intros currentLine lines; simpl.
  - rewrite concat_app, letters_app. simpl. by rewrite !Js.app_nil_r.
  - rewrite letters_app.
    destruct (0 <? Js.len currentLine) eqn:Hlen.
    + destruct (negb _ && true); rewrite IH.
      * rewrite concat_app, letters_app. simpl. by rewrite Js.app_nil_r, !Js.app_assoc.
      * rewrite !letters_app. simpl. by rewrite !Js.app_assoc.
    + rewrite andb_false_r, IH. by rewrite (len_0_ltb _ Hlen).
Qed.

Lemma wrapWords_nonempty measureText maxWidth words currentLine lines :
  Canvas.wrapWords measureText maxWidth words currentLine lines ≠ [].
Proof.
  revert currentLine lines.
  induction words as [| word rest IH]; intros currentLine lines; simpl.
  - by destruct lines.
  - destruct (_ && _); apply IH.
Qed.

(** With a current line that is not empty, and no empty word to come, the
    lines joined by a space are the lines so far, the current line and the
    words to come, joined by a space. *)
Lemma wrapWords_join measureText maxWidth words currentLine lines :
  currentLine ≠ "" → Forall (λ word, word ≠ "") words →
  Js.join " " (Canvas.wrapWords measureText maxWidth words currentLine lines) =
    Js.join " " (lines ++ currentLine :: words).
Proof.
  intros Hcur Hwords. revert currentLine lines Hcur.
  induction Hwords as [| word rest Hword _ IH]; intros currentLine lines Hcur; [done |].
  simpl.
  assert (Hlen : (0 <? Js.len currentLine) = true)
    by (destruct currentLine; [done | reflexivity]).
  rewrite Hlen.
  destruct (negb _ && true).
  - rewrite IH by done. by rewrite <- app_assoc.
  - rewrite IH by (by apply app_nonempty).
    change (lines ++ (currentLine +:+ " " +:+ word) :: rest)
      with (lines ++ [currentLine +:+ " " +:+ word] ++ rest).
    change (lines ++ currentLine :: word :: rest)
      with (lines ++ [currentLine] ++ [word] ++ rest).
    rewrite !app_assoc.
    destruct rest as [| next rest].
    + rewrite !app_nil_r. rewrite join_snoc_app.
      rewrite (join_snoc _ (lines ++ [currentLine])) by (by destruct lines).
      done.
    + assert (Hjoin : ∀ l : list string, l ≠ [] →
        Js.join " " (l ++ next :: rest) = Js.join " " l +:+ " " +:+ Js.join " " (next :: rest)).
      { clear. intros l Hl. induction l as [| p l IHl]; [done |].
        destruct l as [| q l]; [done |].
        change ((p :: q :: l) ++ next :: rest) with (p :: ((q :: l) ++ next :: rest)).
        rewrite join_cons by done. rewrite IHl by done.
        rewrite (join_cons _ p (q :: l)) by done. by rewrite !Js.app_assoc. }
      rewrite !Hjoin by (by destruct lines).
      rewrite join_snoc_app.
      rewrite (join_snoc _ (lines ++ [currentLine])) by (by destruct lines).
      done.
Qed.

Lemma wrapWords_lines_nonempty measureText maxWidth words currentLine lines :
  currentLine ≠ "" → Forall (λ word, word ≠ "") words →
  Forall (λ line, line ≠ "") lines →
  Forall (λ line, line ≠ "")
    (Canvas.wrapWords measureText maxWidth words currentLine lines).
Proof.
  intros Hcur Hwords. revert currentLine lines Hcur.
  induction Hwords as [| word rest Hword _ IH]; intros currentLine lines Hcur Hlines; simpl.
  - apply Forall_app. split; [done | by constructor].
  - destruct (_ && _).
    + apply IH; [done |]. apply Forall_app. split; [done | by constructor].
    + apply IH; [| done]. destruct (0 <? Js.len currentLine); [by apply app_nonempty | done].
Qed.

(** X7. [calculateLines] loses nothing of the text but spaces: it always
    returns at least one line, and the characters of the lines other than
    the space are those of the text, in order.  For a text with no empty
    word (no space at either end, no two spaces in a row) it loses nothing
    at all: no line is empty, and the lines joined by a space are the
    text. *)
Theorem calculateLines_keeps_the_text (measureText : Canvas.Measure) (text : string)
    (maxWidth : Q) :
  let lines := Canvas.calculateLines measureText text maxWidth in
  lines ≠ []
  ∧ letters (Js.concat lines) = letters text
  ∧ (Forall (λ word, word ≠ "") (Js.split " " text) →
     Js.join " " lines = text ∧ Forall (λ line, line ≠ "") lines).
Proof.
  intros lines. subst lines. unfold Canvas.calculateLines.
  split; [apply wrapWords_nonempty |].
  split; [rewrite wrapWords_letters; simpl; apply letters_split |].
  intros Hwords.
  pose proof (join_split " " text) as Hjoin.
  pose proof (Js.split_nonempty " " text) as Hne.
  destruct (Js.split " " text) as [| first rest]; [done |].
  apply Forall_cons in Hwords as [Hfirst Hrest].
  cbn [Canvas.wrapWords]. cbn [Js.len String.length Nat.ltb Nat.leb andb].
  rewrite andb_false_r. split.
  - by rewrite wrapWords_join.
  - by apply wrapWords_lines_nonempty.
Qed.

Lemma calculateLines_keeps_the_text_witness :
  let measureText : Canvas.Measure := λ s, inject_Z (Z.of_nat (Js.len s)) in
  Forall (λ word, word ≠ "") (Js.split " " "the quick brown fox")
  ∧ Js.join " " (Canvas.calculateLines measureText "the quick brown fox" 9) =
      "the quick brown fox".
Proof.
  intros measureText.
  assert (Hwords : Forall (λ word, word ≠ "") (Js.split " " "the quick brown fox")).
  { change (Js.split " " "the quick brown fox") with ["the"; "quick"; "brown"; "fox"].
    repeat (constructor; [discriminate |]). constructor. }
  split; [exact Hwords |].
  destruct (calculateLines_keeps_the_text measureText "the quick brown fox" 9)
    as (_ & _ & Hkept).
  exact (proj1 (Hkept Hwords)).
Defined.

(** ** [drawHeadlineWithHighlights]: what is painted where *)

Definition isFillText (op : Canvas.DrawOp) : bool :=
  match op with
  | Canvas.FillText _ _ _ _ => true
  | Canvas.FillRect _ _ _ _ _ => false
  end.

(** The [fillText] calls among the paint operations, in order. *)
Definition texts (ops : list Canvas.DrawOp) : list Canvas.DrawOp :=
  List.filter isFillText ops.

Lemma texts_app ops1 ops2 : texts (ops1 ++ ops2) = texts ops1 ++ texts ops2.
Proof. apply List.filter_app. Qed.

Lemma texts_rects rects : Forall Canvas.isFillRect rects → texts rects = [].
Proof.
  induction 1 as [| op rects Hop _ IH]; [done |].
  unfold texts in *. simpl. by destruct op.
Qed.

Lemma drawLine_texts fuel measureText lineText highlightPhrases x currentY lineHeight :
  Forall (λ phrase, phrase ≠ "") highlightPhrases → Js.len lineText < fuel →
  ∃ rects,
    Canvas.drawLine fuel measureText lineText highlightPhrases x currentY lineHeight =
      (rects ++ [Canvas.FillText "#111827" lineText
                   (x - measureText lineText / 2)%Q currentY], true)
    ∧ Forall Canvas.isFillRect rects.
Proof.
  intros Hphrases Hfuel.
  pose proof (Canvas.drawHighlights_rects fuel measureText lineText highlightPhrases
                (x - measureText lineText / 2)%Q currentY lineHeight) as Hrects.
  unfold Canvas.drawLine.
  rewrite Canvas.drawHighlights_complete in * by done.
  eexists. split; [reflexivity | exact Hrects].
Qed.

(** X8. When no highlight phrase is empty, [drawHeadlineWithHighlights]
    paints every line once, in order: the [fillText] calls are as many as
    the lines, and the one of line [i] (from 0) paints that line in the
    text colour, centred on [x] (its left edge at [x] minus half the width
    of the line) and at height [y + i * lineHeight]. *)
Theorem headline_lines_are_painted_in_order
    (fuel : nat) (measureText : Canvas.Measure) (lines highlightPhrases : list string)
    (x y lineHeight : Q) :
  Forall (λ phrase, phrase ≠ "") highlightPhrases →
  Forall (λ line, Js.len line < fuel) lines →
  let painted :=
    texts (Canvas.drawHeadlineWithHighlights fuel measureText lines highlightPhrases
             x y lineHeight).1 in
  length painted = length lines
  ∧ ∀ i line, lines !! i = Some line →
      ∃ lineY, painted !! i =
                 Some (Canvas.FillText "#111827" line (x - measureText line / 2)%Q lineY)
               ∧ (lineY == y + inject_Z (Z.of_nat i) * lineHeight)%Q.
Proof.
  intros Hphrases Hlines. revert y.
  induction Hlines as [| lineText rest Hline _ IH]; intros y painted; subst painted.
  - split; [done |]. intros i line Hi. by rewrite lookup_nil in Hi.
  - cbn [Canvas.drawHeadlineWithHighlights].
    destruct (drawLine_texts fuel measureText lineText highlightPhrases x y lineHeight
                Hphrases Hline) as (rects & -> & Hrects).
    specialize (IH (y + lineHeight)%Q). cbv zeta in IH.
    destruct (Canvas.drawHeadlineWithHighlights fuel measureText rest highlightPhrases x
                (y + lineHeight)%Q lineHeight) as [ops done].
    cbn [fst] in *. destruct IH as [Hlen Hpos].
    rewrite !texts_app, (texts_rects rects Hrects). cbn [texts List.filter isFillText app].
    split; [simpl; by rewrite Hlen |].
    intros [| i] line Hi.
    + injection Hi as <-. exists y. split; [done |]. simpl. ring.
    + destruct (Hpos i line Hi) as (lineY & Hpainted & HlineY).
      exists lineY. split; [exact Hpainted |].
      rewrite HlineY, Nat2Z.inj_succ. unfold Z.succ. rewrite inject_Z_plus. ring.
Qed.

Lemma headline_lines_are_painted_in_order_witness :
  let measureText : Canvas.Measure := λ s, inject_Z (Z.of_nat (Js.len s)) in
  ∃ lineY,
    texts (Canvas.drawHeadlineWithHighlights 20 measureText
             ["Dhaka metro"; "opens"] ["metro"] 540 60 30).1 !! 1 =
      Some (Canvas.FillText "#111827" "opens" (540 - measureText "opens" / 2)%Q lineY)
    ∧ (lineY == 60 + inject_Z (Z.of_nat 1) * 30)%Q.
Proof.
  intros measureText.
  destruct (headline_lines_are_painted_in_order 20 measureText
              ["Dhaka metro"; "opens"] ["metro"] 540 60 30)%Q as [_ Hpos].
  - constructor; [discriminate | constructor].
  - constructor; [simpl; lia |]. constructor; [simpl; lia | constructor].
  - exact (Hpos 1 "opens" eq_refl).
Defined.

(** *** The rectangle of a match *)

Lemma substring_prefix p s : String.substring 0 (Js.len p) (p +:+ s) = p.
Proof.
  induction p as [| c p IH]; [by destruct s |].
  rewrite Js.app_cons. simpl. by rewrite IH.
Qed.

Lemma substring_skip p s n :
  String.substring (Js.len p) n (p +:+ s) = String.substring 0 n s.
Proof. induction p as [| c p IH]; [done |]. rewrite Js.app_cons. simpl. exact IH. Qed.

Lemma substring_toLowerCase a n s :
  Js.toLowerCase (String.substring a n s) = String.substring a n (Js.toLowerCase s).
Proof.
  revert a n. induction s as [| c s IH]; intros [| a] [| n]; simpl; try done.
  by rewrite IH.
Qed.

(** A text cut at two offsets. *)
Lemma substring_cut s i n :
  i + n ≤ Js.len s →
  s = String.substring 0 i s +:+ String.substring i n s +:+ Js.drop (i + n) s
  ∧ Js.len (String.substring 0 i s) = i
  ∧ Js.len (String.substring i n s) = n.
Proof.
  revert i n. induction s as [| c s IH]; intros i n Hlen; simpl in Hlen.
  - assert (i = 0) as -> by lia. assert (n = 0) as -> by lia. done.
  - destruct i as [| i].
    + destruct n as [| n]; [done |].
      destruct (IH 0 n) as (Hcut & _ & Hn); [lia |].
      simpl. simpl in Hcut. rewrite Js.app_cons.
      assert (Hzero : String.substring 0 0 s = "") by (by destruct s).
      rewrite Hzero, Js.app_nil_l in Hcut.
      split; [by rewrite <- Hcut |]. split; [done | by rewrite Hn].
    + destruct (IH i n) as (Hcut & Hi & Hn); [lia |].
      simpl. rewrite Js.app_cons. split; [by rewrite <- Hcut |].
      split; [by rewrite Hi | done].
Qed.

(** X9. The rectangle painted for a match lies behind the text that
    matched: when the phrase occurs in the line at an offset, letter case
    apart, the line is some text before, then a text as long as the phrase
    that equals it letter case apart, then the rest; the rectangle starts
    at the left edge of the line plus the width of the text before, is as
    wide as the matched text as written in the line, starts four tenths of
    a line height below the top of the line and is 0.45 line heights
    high. *)
Theorem highlight_lies_behind_the_match
    (measureText : Canvas.Measure) (lineText phrase : string)
    (startX currentY lineHeight : Q) (startIndex : nat) :
  Canvas.matchesAt lineText phrase startIndex →
  ∃ beforeText highlightText rest,
    lineText = beforeText +:+ highlightText +:+ rest
    ∧ Js.len beforeText = startIndex
    ∧ Js.len highlightText = Js.len phrase
    ∧ Js.toLowerCase highlightText = Js.toLowerCase phrase
    ∧ Canvas.highlightRect measureText lineText phrase startX currentY lineHeight
        startIndex =
        Canvas.FillRect "#ef4444" (startX + measureText beforeText)%Q
          (currentY + lineHeight * (4 # 10))%Q (measureText highlightText)
          (lineHeight * (45 # 100))%Q.
Proof.
  intros Hmatch.
  pose proof (Js.occursAt_bound _ _ _ Hmatch) as Hbound.
  rewrite !Js.len_toLowerCase in Hbound.
  destruct (substring_cut lineText startIndex (Js.len phrase) Hbound) as (Hcut & Hi & Hn).
  exists (String.substring 0 startIndex lineText),
         (String.substring startIndex (Js.len phrase) lineText),
         (Js.drop (startIndex + Js.len phrase) lineText).
  split; [exact Hcut |]. split; [exact Hi |]. split; [exact Hn |]. split.
  - destruct Hmatch as (pre & post & Hline & Hpre).
    rewrite substring_toLowerCase, Hline, <- Hpre, substring_skip.
    rewrite <- (Js.len_toLowerCase phrase). apply substring_prefix.
  - unfold Canvas.highlightRect, Js.substring.
    replace (0 `min` startIndex) with 0 by lia.
    replace (0 `max` startIndex - 0) with startIndex by lia.
    replace (startIndex `min` (startIndex + Js.len phrase)) with startIndex by lia.
    replace (startIndex `max` (startIndex + Js.len phrase) - startIndex)
      with (Js.len phrase) by lia.
    done.
Qed.

Lemma highlight_lies_behind_the_match_witness :
  let measureText : Canvas.Measure := λ s, inject_Z (Z.of_nat (Js.len s)) in
  Canvas.matchesAt "Dhaka Metro" "metro" 6
  ∧ ∃ beforeText highlightText rest,
      "Dhaka Metro" = beforeText +:+ highlightText +:+ rest
      ∧ Js.len beforeText = 6
      ∧ Js.toLowerCase highlightText = "metro".
Proof.
  intros measureText.
  assert (Hmatch : Canvas.matchesAt "Dhaka Metro" "metro" 6)
    by (by exists "dhaka ", "").
  split; [exact Hmatch |].
  destruct (highlight_lies_behind_the_match measureText "Dhaka Metro" "metro" 0 0 1 6 Hmatch)
    as (beforeText & highlightText & rest & Hcut & Hbefore & _ & Hlower & _).
  by exists beforeText, highlightText, rest.
Defined.

(** *** The empty phrase *)

Lemma drawHighlights_empty_phrase fuel measureText lineText highlightPhrases
    startX currentY lineHeight :
  "" ∈ highlightPhrases →
  (Canvas.drawHighlights fuel measureText lineText highlightPhrases
     startX currentY lineHeight).2 = false.
Proof.
  induction highlightPhrases as [| phrase rest IH]; [by intros ?%elem_of_nil |].
  intros Hin. simpl.
  destruct (Canvas.findMatches fuel lineText phrase 0) as [found exited] eqn:Hscan.
  destruct exited; [| done].
  apply elem_of_cons in Hin as [<- | Hin].
  - pose proof (Canvas.findMatches_empty_phrase fuel lineText 0) as Hnever.
    rewrite Hscan in Hnever. discriminate Hnever.
  - specialize (IH Hin).
    by destruct (Canvas.drawHighlights fuel measureText lineText rest _ _ _).
Qed.

(** X10. With an empty phrase among the highlight phrases and at least
    one line to paint, [drawHeadlineWithHighlights] never gets to the end:
    however many rounds the scans are given, the painting is not finished,
    and not one line of text has been painted (only rectangles, if
    anything). *)
Theorem empty_phrase_never_finishes
    (fuel : nat) (measureText : Canvas.Measure) (lines highlightPhrases : list string)
    (x y lineHeight : Q) :
  "" ∈ highlightPhrases → lines ≠ [] →
  let painting :=
    Canvas.drawHeadlineWithHighlights fuel measureText lines highlightPhrases
      x y lineHeight in
  painting.2 = false ∧ Forall Canvas.isFillRect painting.1.
Proof.
  intros Hempty Hlines painting. subst painting.
  destruct lines as [| lineText rest]; [done |].
  cbn [Canvas.drawHeadlineWithHighlights]. unfold Canvas.drawLine.
  pose proof (drawHighlights_empty_phrase fuel measureText lineText highlightPhrases
                (x - measureText lineText / 2)%Q y lineHeight Hempty) as Hnever.
  pose proof (Canvas.drawHighlights_rects fuel measureText lineText highlightPhrases
                (x - measureText lineText / 2)%Q y lineHeight) as Hrects.
  destruct (Canvas.drawHighlights _ _ _ _ _ _ _) as [rects exited].
  simpl in Hnever. subst exited. done.
Qed.

Lemma empty_phrase_never_finishes_witness :
  let measureText : Canvas.Measure := λ s, inject_Z (Z.of_nat (Js.len s)) in
  (Canvas.drawHeadlineWithHighlights 1000 measureText ["Dhaka"] ["dhaka"; ""]
     540 60 30).2 = false.
Proof.
  intros measureText.
  apply (empty_phrase_never_finishes 1000 measureText ["Dhaka"] ["dhaka"; ""] 540 60 30)%Q.
  - right. left.
  - discriminate.
Defined.

(** ** [composeImage] *)

(** The text of a [fillText] call. *)
Definition paintedText (op : Canvas.DrawOp) : option string :=
  match op with
  | Canvas.FillText _ text _ _ => Some text
  | Canvas.FillRect _ _ _ _ _ => None
  end.

Lemma paintedText_rects rects : Forall Canvas.isFillRect rects → omap paintedText rects = [].
Proof. induction 1 as [| op rects Hop _ IH]; [done |]. by destruct op. Qed.

Lemma drawHeadline_paintedTexts fuel measureText lines highlightPhrases x y lineHeight :
  Forall (λ phrase, phrase ≠ "") highlightPhrases →
  Forall (λ line, Js.len line < fuel) lines →
  omap paintedText
    (Canvas.drawHeadlineWithHighlights fuel measureText lines highlightPhrases
       x y lineHeight).1 = lines.
Proof.
  intros Hphrases Hlines. revert y.
  induction Hlines as [| lineText rest Hline _ IH]; intros y; [done |].
  cbn [Canvas.drawHeadlineWithHighlights].
  destruct (drawLine_texts fuel measureText lineText highlightPhrases x y lineHeight
              Hphrases Hline) as (rects & -> & Hrects).
  specialize (IH (y + lineHeight)%Q).
  destruct (Canvas.drawHeadlineWithHighlights fuel measureText rest highlightPhrases x
              (y + lineHeight)%Q lineHeight) as [ops done].
  cbn [fst] in *. rewrite !omap_app, (paintedText_rects rects Hrects), IH. done.
Qed.

(** X11. Whatever the headline and the font metrics, with no empty
    highlight phrase the headline step of [composeImage] ends and paints
    the headline whole: the lines painted are exactly the lines laid out
    under the size the fitting loop settled on, in order, none dropped even
    when the text does not fit the box at the smallest size; for a headline
    with no empty word, the painted lines joined by a space are the
    headline. *)
Theorem headline_is_painted_whole
    (measureAt : Z → Canvas.Measure) (headline : string) (highlightPhrases : list string) :
  Forall (λ phrase, phrase ≠ "") highlightPhrases →
  let fit := Canvas.fitHeadline measureAt headline in
  let painting := Canvas.headlineOps measureAt headline highlightPhrases in
  painting.2 = true
  ∧ omap paintedText painting.1 =
      Canvas.calculateLines (measureAt (Canvas.ctxFont fit)) headline Canvas.maxWidth
  ∧ (Forall (λ word, word ≠ "") (Js.split " " headline) →
     Js.join " " (omap paintedText painting.1) = headline).
Proof.
  intros Hphrases fit painting. subst fit painting.
  split; [by apply Canvas.headlineOps_exits |].
  assert (Hpainted : omap paintedText
            (Canvas.headlineOps measureAt headline highlightPhrases).1 =
          Canvas.calculateLines (measureAt (Canvas.ctxFont (Canvas.fitHeadline measureAt headline)))
            headline Canvas.maxWidth).
  { unfold Canvas.headlineOps.
    destruct (Canvas.fitHeadline_laidOut measureAt headline) as [_ Hlines].
    rewrite Hlines. cbn [default from_option id]. unfold Canvas.linesAt.
    apply drawHeadline_paintedTexts; [done |].
    eapply Forall_impl; [apply Canvas.calculateLines_length |]. simpl. intros. lia. }
  split; [exact Hpainted |].
  intros Hwords. rewrite Hpainted. unfold Canvas.calculateLines.
  pose proof (join_split " " headline) as Hjoin.
  pose proof (Js.split_nonempty " " headline) as Hne.
  destruct (Js.split " " headline) as [| first rest]; [done |].
  apply Forall_cons in Hwords as [Hfirst Hrest].
  cbn [Canvas.wrapWords]. cbn [Js.len String.length Nat.ltb Nat.leb andb].
  rewrite andb_false_r. by rewrite wrapWords_join.
Qed.

Lemma headline_is_painted_whole_witness :
  let measureAt : Z → Canvas.Measure :=
    λ f s, (inject_Z f * inject_Z (Z.of_nat (Js.len s)) * (6 # 10))%Q in
  Forall (λ phrase, phrase ≠ "") ["metro"]
  ∧ Js.join " " (omap paintedText
       (Canvas.headlineOps measureAt "Dhaka metro opens a new line to the airport"
          ["metro"]).1) =
      "Dhaka metro opens a new line to the airport".
Proof.
  intros measureAt.
  assert (Hphrases : Forall (λ phrase, phrase ≠ "") ["metro"])
    by (constructor; [discriminate | constructor]).
  split; [exact Hphrases |].
  destruct (headline_is_painted_whole measureAt
              "Dhaka metro opens a new line to the airport" ["metro"] Hphrases)
    as (_ & _ & Hwhole).
  apply Hwhole.
  change (Js.split " " "Dhaka metro opens a new line to the airport")
    with ["Dhaka"; "metro"; "opens"; "a"; "new"; "line"; "to"; "the"; "airport"].
  repeat (constructor; [discriminate |]). constructor.
Defined.

Section Compose.
Variable W : Type.
Variable Image : Type.
Variable skiaLoadImage : Canvas.ImageSource → Exec W Image.
Variable loadFont : string → string → string → Exec W unit.
Variable measureAt : Z → Canvas.Measure.
Variable toDataURL : Image → Image → Image → string → list Canvas.DrawOp → Exec W string.
Variable earliest : list Thrown → nat.

Local Abbreviation loadImage := (Canvas.loadImage W Image skiaLoadImage).
Local Abbreviation composeImage :=
  (Canvas.composeImage W Image skiaLoadImage loadFont measureAt toDataURL earliest).

Local Open Scope exec_scope.

(** What [Promise.all] throws is what one of the promises was rejected
    with. *)
Lemma rejection_reported (e : Thrown) (es : list Thrown) :
  default e ((e :: es) !! earliest (e :: es)) ∈ e :: es.
Proof.
  destruct ((e :: es) !! earliest (e :: es)) as [e' |] eqn:Hat; simpl.
  - by eapply list_elem_of_lookup_2.
  - by left.
Qed.

(** X12. [composeImage] starts the load of the main picture, of the
    overlay and of the logo, in that order, whatever becomes of each.  When
    one of the three fails, it throws what one of the failed loads threw,
    with no font loaded and nothing encoded: the world is left as the three
    loads left it.  When the three load, it loads the three fonts, and
    throws if one of them fails.  It then paints the headline.  If the scan
    of a highlight phrase does not end, which takes an empty phrase, the
    call never returns and nothing is encoded.  Otherwise, and so whenever
    no phrase is empty, it encodes the canvas, handing the encoder the
    three pictures, the brand text and the paint operations of the
    headline, and returns or throws what the encoder does. *)
Theorem composeImage_needs_every_picture
    (mainImageSrc headline : string) (highlightPhrases : list string)
    (logoUrl brandText overlayUrl : string) (w w1 w2 w3 : W)
    (main overlay logo : Thrown + Image) :
  loadImage mainImageSrc w = (w1, main) →
  loadImage overlayUrl w1 = (w2, overlay) →
  loadImage logoUrl w2 = (w3, logo) →
  let fonts :=
    (loadFont Canvas.poppins "Poppins" "700";;
     loadFont Canvas.inter "Inter" "400";;
     loadFont Canvas.inter "Inter" "600") in
  let painting := Canvas.headlineOps measureAt headline highlightPhrases in
  let composed :=
    composeImage mainImageSrc headline highlightPhrases logoUrl brandText overlayUrl w in
  match main, overlay, logo with
  | inr mainImage, inr overlayImage, inr logoImage =>
      match fonts w3 with
      | (w4, inl e) => composed = (w4, inl e)
      | (w4, inr _) =>
          (painting.2 = false → composed = (w4, inr None))
          ∧ (painting.2 = true →
               composed =
                 Run.lift (toDataURL mainImage overlayImage logoImage brandText painting.1) w4)
          ∧ (Forall (λ phrase, phrase ≠ "") highlightPhrases → painting.2 = true)
      end
  | _, _, _ =>
      ∃ e, inl e ∈ [main; overlay; logo] ∧ composed = (w3, inl e)
  end.
Proof.
  intros Hmain Hoverlay Hlogo fonts painting composed. subst fonts painting composed.
  unfold Canvas.composeImage, Run.bind, Run.lift, Run.never, Exec.all, Exec.bind.
  cbn [Exec.settleAll]. rewrite Hmain, Hoverlay, Hlogo.
  destruct main as [e1 | mainImage], overlay as [e2 | overlayImage],
    logo as [e3 | logoImage]; cbn -[Canvas.headlineOps lookup].
  all: try (eexists; split; [| reflexivity];
            match goal with
            | |- inl (default ?e ((?e :: ?es) !! _)) ∈ _ =>
                pose proof (rejection_reported e es) as Hin;
                apply list_elem_of_In in Hin; apply list_elem_of_In; simpl in *;
                intuition congruence
            end).
  destruct (loadFont Canvas.poppins "Poppins" "700" w3) as [w4 [e | []]]; [done |].
  destruct (loadFont Canvas.inter "Inter" "400" w4) as [w5 [e | []]]; [done |].
  destruct (loadFont Canvas.inter "Inter" "600" w5) as [w6 [e | []]]; [done |].
  split; [| split].
  - intros Hnever.
    destruct (Canvas.headlineOps measureAt headline highlightPhrases) as [ops [|]];
      [discriminate Hnever | done].
  - intros Hpainted.
    destruct (Canvas.headlineOps measureAt headline highlightPhrases) as [ops [|]];
      [done | discriminate Hpainted].
  - apply Canvas.headlineOps_exits.
Qed.

End Compose.

(** On stand-ins: a logo that does not load; three pictures that load and
    phrases that are found; and an empty phrase among them. *)
Lemma composeImage_needs_every_picture_witness :
  let skia : Canvas.ImageSource → Exec unit unit :=
    λ source, match source with
              | Canvas.FromUrl _ => Exec.throw (ErrorObj "404")
              | Canvas.FromBuffer _ => Exec.ret tt
              end in
  let font : string → string → string → Exec unit unit := λ _ _ _, Exec.ret tt in
  let encode : unit → unit → unit → string → list Canvas.DrawOp → Exec unit string :=
    λ _ _ _ _ _, Exec.ret "data:image/png;base64,BBBB" in
  let compose phrases logoUrl :=
    Canvas.composeImage unit unit skia font (λ _ _, 0%Q) encode (λ _, 0)
      "data:image/png;base64,AAAA" "Dhaka" phrases logoUrl "brand"
      "data:image/png;base64,CCCC" tt in
  (∃ e, inl e ∈ [inr tt; inr tt; inl (ErrorObj "404")]
        ∧ compose [] "https://x.example/logo.png" = (tt, inl e))
  ∧ compose ["dhaka"] "data:image/png;base64,DDDD" =
      (tt, inr (Some "data:image/png;base64,BBBB"))
  ∧ compose ["dhaka"; ""] "data:image/png;base64,DDDD" = (tt, inr None).
Proof.
  intros skia font encode compose.
  split; [| split].
  - exact (composeImage_needs_every_picture unit unit skia font (λ _ _, 0%Q) encode (λ _, 0)
             "data:image/png;base64,AAAA" "Dhaka" [] "https://x.example/logo.png" "brand"
             "data:image/png;base64,CCCC" tt tt tt tt (inr tt) (inr tt)
             (inl (ErrorObj "404")) eq_refl eq_refl eq_refl).
  - apply (composeImage_needs_every_picture unit unit skia font (λ _ _, 0%Q) encode (λ _, 0)
             "data:image/png;base64,AAAA" "Dhaka" ["dhaka"] "data:image/png;base64,DDDD"
             "brand" "data:image/png;base64,CCCC" tt tt tt tt (inr tt) (inr tt) (inr tt)
             eq_refl eq_refl eq_refl).
    vm_compute. reflexivity.
  - apply (composeImage_needs_every_picture unit unit skia font (λ _ _, 0%Q) encode (λ _, 0)
             "data:image/png;base64,AAAA" "Dhaka" ["dhaka"; ""] "data:image/png;base64,DDDD"
             "brand" "data:image/png;base64,CCCC" tt tt tt tt (inr tt) (inr tt) (inr tt)
             eq_refl eq_refl eq_refl).
    vm_compute. reflexivity.
Defined.

(** *** The part of the main picture that is drawn *)

(** Drawing step 2 of [composeImage]: [imageHeight], [canvasAspectRatio]
    and the source rectangle [sx, sy, sWidth, sHeight] given to
    [drawImage], from the width and the height of the main picture.
    ([1080 * 0.7] is exact in doubles.) *)
Definition imageHeight : Q := Canvas.size * (7 # 10).
Definition canvasAspectRatio : Q := Canvas.size / imageHeight.

Record SourceRect := { sx : Q; sy : Q; sWidth : Q; sHeight : Q }.

Definition sourceRect (width height : Q) : SourceRect :=
  let imgAspectRatio := (width / height)%Q in
  if negb (Qle_bool imgAspectRatio canvasAspectRatio) then
    let sHeight := height in
    let sWidth := (sHeight * canvasAspectRatio)%Q in
    {| sx := (width - sWidth) / 2; sy := 0; sWidth := sWidth; sHeight := sHeight |}
  else
    let sWidth := width in
    let sHeight := (sWidth / canvasAspectRatio)%Q in
    {| sx := 0; sy := (height - sHeight) / 2; sWidth := sWidth; sHeight := sHeight |}.

Lemma canvasAspectRatio_value : (canvasAspectRatio == 10 # 7)%Q.
Proof. reflexivity. Qed.

Lemma ratio_lt w h r : (0 < h → r < w / h → r * h < w)%Q.
Proof.
  intros Hh Hr.
  assert (E : (w == (w / h) * h)%Q) by (field; lra).
  apply Qlt_le_trans with ((w / h) * h)%Q; [by apply Qmult_lt_compat_r |].
  rewrite <- E. apply Qle_refl.
Qed.

Lemma ratio_le w h r : (0 < h → w / h <= r → w <= r * h)%Q.
Proof.
  intros Hh Hr.
  assert (E : (w == (w / h) * h)%Q) by (field; lra).
  apply Qle_trans with ((w / h) * h)%Q; [rewrite <- E; apply Qle_refl |].
  apply Qmult_le_compat_r; [done | lra].
Qed.

Lemma half x : (x / 2 == x * (1 # 2))%Q.
Proof. field. Qed.

(** X13. For a main picture of positive width and height, the rectangle
    of it that [composeImage] draws (computed in exact arithmetic) lies
    within the picture, has the shape of the picture area of the canvas
    (10 wide for 7 high), is centred in the picture, and spans the whole
    width or the whole height of it: the picture is cropped to cover the
    area, never stretched. *)
Theorem sourceRect_is_a_centred_cover (width height : Q) :
  (0 < width)%Q → (0 < height)%Q →
  let rect := sourceRect width height in
  (0 <= sx rect ∧ 0 <= sy rect
   ∧ sx rect + sWidth rect <= width ∧ sy rect + sHeight rect <= height
   ∧ sWidth rect == sHeight rect * (10 # 7)
   ∧ sx rect + sWidth rect / 2 == width / 2
   ∧ sy rect + sHeight rect / 2 == height / 2
   ∧ (sWidth rect == width ∨ sHeight rect == height))%Q.
Proof.
  intros Hw Hh rect. subst rect. unfold sourceRect.
  destruct (Qle_bool (width / height) canvasAspectRatio) eqn:Hwide; simpl.
  - apply Qle_bool_iff in Hwide. apply ratio_le in Hwide; [| done].
    rewrite !canvasAspectRatio_value in *.
    assert (E : (width / (10 # 7) == width * (7 # 10))%Q) by field.
    rewrite !E, !half. repeat split; lra.
  - assert (Hlt : (canvasAspectRatio < width / height)%Q).
    { apply Qnot_le_lt. intros Hle. apply Qle_bool_iff in Hle. congruence. }
    apply ratio_lt in Hlt; [| done]. rewrite !canvasAspectRatio_value in *.
    rewrite !half. repeat split; lra.
Qed.

Lemma sourceRect_is_a_centred_cover_witness :
  let rect := sourceRect 1600 900 in
  (sx rect + sWidth rect <= 1600 ∧ sWidth rect == sHeight rect * (10 # 7)
   ∧ sHeight rect == 900)%Q.
Proof.
  intros rect.
  destruct (sourceRect_is_a_centred_cover 1600 900) as (_ & _ & Hright & _ & Hshape & _);
    [reflexivity | reflexivity |].
  split; [exact Hright |]. split; [exact Hshape | reflexivity].
Defined.

End CanvasFacts.

(** * The page that reads the stream: more of the updater and the reader *)

Module StreamFacts.
Import StreamClient.

(** The number of tasks shown as done. *)
Definition doneCount (ts : list Task.BatchTask) : nat :=
  length (filter (λ t, Task.status t = DONE) ts).

Lemma tasks_applyUpdate st update :
  tasks (applyUpdate st update) =
    map (λ t, if String.eqb (Task.id t) (Task.id update) then update else t) (tasks st).
Proof.
  unfold applyUpdate.
  pose proof (replaceTask_tasks update (tasks st) false) as Htasks.
  by destruct (replaceTask update (tasks st) false).
Qed.

Lemma count_applyUpdate st update :
  completedCount (applyUpdate st update) =
    if bool_decide (Task.status update = DONE)
       && negb (replaceTask update (tasks st) false).2
    then completedCount st + 1 else completedCount st.
Proof. unfold applyUpdate. by destruct (replaceTask update (tasks st) false). Qed.

Lemma ids_applyUpdate st update :
  map Task.id (tasks (applyUpdate st update)) = map Task.id (tasks st).
Proof.
  rewrite tasks_applyUpdate, map_map. apply map_ext. intros t.
  by destruct (String.eqb_spec (Task.id t) (Task.id update)).
Qed.

Lemma count_grows st update :
  completedCount st ≤ completedCount (applyUpdate st update).
Proof. rewrite count_applyUpdate. destruct (_ && _); lia. Qed.

Lemma ids_fold updates st :
  map Task.id (tasks (fold_left applyUpdate updates st)) = map Task.id (tasks st).
Proof.
  revert st. induction updates as [| u updates IH]; intros st; simpl; [done |].
  by rewrite IH, ids_applyUpdate.
Qed.

Lemma count_fold updates st :
  completedCount st ≤ completedCount (fold_left applyUpdate updates st).
Proof.
  revert st. induction updates as [| u updates IH]; intros st; simpl; [done |].
  etrans; [apply (count_grows st u) | apply IH].
Qed.

(** Two places of a list of distinct ids that hold the same id are one
    place. *)
Lemma same_id_same_place (ts : list Task.BatchTask) i j t t' :
  NoDup (map Task.id ts) → ts !! i = Some t → ts !! j = Some t' →
  Task.id t = Task.id t' → i = j.
Proof.
  intros Hnodup Hi Hj Hid.
  apply (NoDup_lookup (map Task.id ts) i j (Task.id t)); [done | |].
  - change (map Task.id ts) with (Task.id <$> ts). by rewrite list_lookup_fmap, Hi.
  - change (map Task.id ts) with (Task.id <$> ts). rewrite list_lookup_fmap, Hj. simpl.
    by rewrite Hid.
Qed.

(** With distinct ids the updater writes one place of the list. *)
Lemma applyUpdate_insert ts n i t update :
  NoDup (map Task.id ts) → ts !! i = Some t → Task.id update = Task.id t →
  applyUpdate {| tasks := ts; completedCount := n |} update =
    {| tasks := <[i := update]> ts;
       completedCount :=
         if bool_decide (Task.status update = DONE) && negb (bool_decide (Task.status t = DONE))
         then n + 1 else n |}.
Proof.
  intros Hnodup Hi Hid.
  assert (Htasks : tasks (applyUpdate {| tasks := ts; completedCount := n |} update) =
                   <[i := update]> ts).
  { rewrite tasks_applyUpdate. cbn [tasks]. apply list_eq. intros j.
    change (map ?f ts) with (f <$> ts). rewrite list_lookup_fmap.
    destruct (decide (i = j)) as [<- | Hne].
    - rewrite Hi, list_lookup_insert_eq by (by eapply lookup_lt_Some). simpl.
      by rewrite <- Hid, String.eqb_refl.
    - rewrite list_lookup_insert_ne by done.
      destruct (ts !! j) as [t' |] eqn:Hj; [| done]. simpl.
      destruct (String.eqb_spec (Task.id t') (Task.id update)) as [E | E]; [| done].
      destruct Hne. eapply same_id_same_place; [done.. |]. congruence. }
  assert (Hflag : (replaceTask update ts false).2 = bool_decide (Task.status t = DONE)).
  { destruct (bool_decide (Task.status t = DONE)) eqn:Hdone.
    - apply bool_decide_eq_true in Hdone. apply replaceTask_flag_true. right.
      exists t. split; [by eapply list_elem_of_lookup_2 | done].
    - apply bool_decide_eq_false in Hdone.
      destruct (replaceTask update ts false).2 eqn:Hflag; [| done].
      apply replaceTask_flag_true in Hflag as [? | (t' & Hin & Hid' & Hdone')]; [done |].
      apply list_elem_of_lookup in Hin as [j Hj].
      assert (i = j) by (eapply same_id_same_place; [done.. |]; congruence).
      subst j. congruence. }
  pose proof (count_applyUpdate {| tasks := ts; completedCount := n |} update) as Hcount.
  cbn [tasks completedCount] in Hcount. rewrite Hflag in Hcount.
  destruct (applyUpdate _ update) as [ts' n']. cbn [tasks completedCount] in *.
  by subst.
Qed.

Lemma doneCount_app ts1 ts2 : doneCount (ts1 ++ ts2) = doneCount ts1 + doneCount ts2.
Proof. unfold doneCount. by rewrite filter_app, length_app. Qed.

Lemma doneCount_cons t ts :
  doneCount (t :: ts) = (if bool_decide (Task.status t = DONE) then 1 else 0) + doneCount ts.
Proof.
  unfold doneCount. rewrite filter_cons.
  destruct (decide (Task.status t = DONE)).
  - by rewrite bool_decide_eq_true_2.
  - by rewrite bool_decide_eq_false_2.
Qed.

Lemma doneCount_insert ts i t update :
  ts !! i = Some t →
  doneCount (<[i := update]> ts) + (if bool_decide (Task.status t = DONE) then 1 else 0) =
    doneCount ts + (if bool_decide (Task.status update = DONE) then 1 else 0).
Proof.
  intros Hi.
  rewrite <- (take_drop_middle ts i t Hi) at 2.
  rewrite insert_take_drop by (by eapply lookup_lt_Some).
  rewrite !doneCount_app, !doneCount_cons. lia.
Qed.

(** When the count is the number of tasks shown as done, it stays so
    under an update of a task that is not done yet. *)
Lemma applyUpdate_counts_the_done ts i t update :
  NoDup (map Task.id ts) → ts !! i = Some t → Task.id update = Task.id t →
  Task.status t ≠ DONE →
  applyUpdate {| tasks := ts; completedCount := doneCount ts |} update =
    {| tasks := <[i := update]> ts; completedCount := doneCount (<[i := update]> ts) |}.
Proof.
  intros Hnodup Hi Hid Hnot.
  rewrite (applyUpdate_insert ts _ i t update) by done. f_equal.
  pose proof (doneCount_insert ts i t update Hi) as Hcount.
  rewrite (bool_decide_eq_false_2 (Task.status t = DONE)) in * by done.
  destruct (bool_decide (Task.status update = DONE)); simpl; lia.
Qed.

Lemma tasks_unknown st update :
  Task.id update ∉ map Task.id (tasks st) → tasks (applyUpdate st update) = tasks st.
Proof.
  intros Hnot. rewrite tasks_applyUpdate. rewrite <- (map_id (tasks st)) at 2.
  apply map_ext_in. intros t Hin.
  destruct (String.eqb_spec (Task.id t) (Task.id update)) as [E | E]; [| done].
  destruct Hnot. rewrite <- E. apply list_elem_of_fmap_2. by apply list_elem_of_In.
Qed.

(** X14. An update whose id no task of the list has changes no task; if
    its status is DONE the completed count still goes up by one. *)
Theorem update_of_unknown_id (st : AppState) (update : Task.BatchTask) :
  Task.id update ∉ map Task.id (tasks st) →
  tasks (applyUpdate st update) = tasks st
  ∧ completedCount (applyUpdate st update) =
      completedCount st + (if bool_decide (Task.status update = DONE) then 1 else 0).
Proof.
  intros Hnot. split; [by apply tasks_unknown |].
  rewrite count_applyUpdate.
  destruct (replaceTask update (tasks st) false).2 eqn:Hflag.
  - apply replaceTask_flag_true in Hflag as [? | (t & Hin & Hid & _)]; [done |].
    destruct Hnot. rewrite <- Hid. by apply list_elem_of_fmap_2.
  - destruct (bool_decide _); simpl; lia.
Qed.

Lemma update_of_unknown_id_witness :
  let task (i : string) (s : TaskStatus) :=
    {| Task.id := i; Task.categoryName := i; Task.status := s;
       Task.error := None; Task.result := None |} in
  let st := {| tasks := [task "sports" UPLOADING]; completedCount := 0 |} in
  tasks (applyUpdate st (task "world" DONE)) = tasks st
  ∧ completedCount (applyUpdate st (task "world" DONE)) = 1.
Proof.
  intros task st. apply (update_of_unknown_id st (task "world" DONE)).
  simpl. intros Hin. apply list_elem_of_In in Hin. simpl in Hin.
  by destruct Hin as [[=] | []].
Defined.

Section Reader.
Variable JSON_parse : string → option Parsed.

Lemma updates_keep_the_task_list (updates : list Task.BatchTask) (st : AppState) :
  let st' := fold_left applyUpdate updates st in
  map Task.id (tasks st') = map Task.id (tasks st)
  ∧ completedCount st ≤ completedCount st'
  ∧ (NoDup (map Task.id (tasks st)) →
     doneCount (tasks st) ≤ completedCount st →
     doneCount (tasks st') ≤ completedCount st').
Proof.
  intros st'. subst st'.
  split; [apply ids_fold |]. split; [apply count_fold |].
  revert st. induction updates as [| u updates IH]; intros st Hnodup Hle; [done |].
  simpl. apply IH; [by rewrite ids_applyUpdate |].
  destruct (decide (Task.id u ∈ map Task.id (tasks st))) as [Hin | Hnot].
  - apply list_elem_of_fmap in Hin as (t & Hid & Hin).
    apply list_elem_of_lookup in Hin as [i Hi].
    destruct st as [ts n]. cbn [tasks completedCount] in *.
    rewrite (applyUpdate_insert ts n i t u) by done. cbn [tasks completedCount].
    pose proof (doneCount_insert ts i t u Hi) as Hcount.
    destruct (bool_decide (Task.status u = DONE)), (bool_decide (Task.status t = DONE));
      simpl in *; lia.
  - rewrite (tasks_unknown st u Hnot). pose proof (count_grows st u). lia.
Qed.

(** The two ways the reader leaves the page. *)
Lemma readStream_cases (chunks : list string) (st : AppState) :
  let values :=
    parsedValues JSON_parse (removelast (Js.split "010" (Js.concat chunks))) in
  (ParsedNull ∈ values ∧ app (readStream JSON_parse chunks st) = Unmounted)
  ∨ ((ParsedNull ∉ values)
     ∧ app (readStream JSON_parse chunks st) =
         Mounted (fold_left applyUpdate (taskUpdates values) st)).
Proof.
  intros values. subst values. rewrite readStream_eq. cbn [app].
  set (values := parsedValues _ _).
  destruct (fold_left applyParsed values (Mounted st)) as [st' |] eqn:Hrun.
  - assert (Hnull : ParsedNull ∉ values).
    { intros Hin. apply (applyParsed_null values st) in Hin. congruence. }
    right. split; [done |]. by rewrite <- Hrun, applyParsed_mounted.
  - left. split; [by apply applyParsed_null in Hrun | done].
Qed.

(** X15. Whatever the chunks hold, one of two things happens.  A line
    that a newline closes parses to [null]: the updater throws on it and
    the page goes off the screen.  Or there is no such line, and the reader
    neither adds, removes nor reorders tasks: the ids of the list stay as
    they were; the completed count does not go down; and, with distinct
    ids, a count that is at least the number of tasks shown as done stays
    so. *)
Theorem reader_keeps_the_task_list (chunks : list string) (st : AppState) :
  let values :=
    parsedValues JSON_parse (removelast (Js.split "010" (Js.concat chunks))) in
  match app (readStream JSON_parse chunks st) with
  | Unmounted => ParsedNull ∈ values
  | Mounted st' =>
      (ParsedNull ∉ values)
      ∧ map Task.id (tasks st') = map Task.id (tasks st)
      ∧ completedCount st ≤ completedCount st'
      ∧ (NoDup (map Task.id (tasks st)) →
         doneCount (tasks st) ≤ completedCount st →
         doneCount (tasks st') ≤ completedCount st')
  end.
Proof.
  intros values. subst values.
  destruct (readStream_cases chunks st) as [[Hnull ->] | [Hnull ->]]; [done |].
  split; [done |]. apply updates_keep_the_task_list.
Qed.

End Reader.

(** ** The records on the wire *)

Section Wire.
Variable JSON_parse : string → option Parsed.
Variable JSON_stringify : Task.BatchTask → string.

(** What the handler enqueues for a list of records:
    [JSON.stringify(task) + '\n'] for each. *)
Definition wire (records : list Task.BatchTask) : string :=
  Js.concat (map (λ t, JSON_stringify t +:+ JsFacts.newline) records).

(** A record that survives the wire: its line holds no newline of its
    own, is not blank, and parses back to the record. *)
Definition readable (t : Task.BatchTask) : Prop :=
  JsFacts.lacks "010" (JSON_stringify t)
  ∧ Js.trim (JSON_stringify t) ≠ ""
  ∧ JSON_parse (JSON_stringify t) = Some (ParsedTask t).

Lemma split_wire records :
  Forall readable records →
  Js.split "010" (wire records) = map JSON_stringify records ++ [""].
Proof.
  induction 1 as [| t records (Hline & _ & _) _ IH]; [done |].
  unfold wire in *. cbn [map]. unfold Js.concat in *. cbn [foldr].
  change (JSON_stringify t +:+ JsFacts.newline) with (JSON_stringify t +:+ String "010" "").
  rewrite Js.app_assoc, Js.app_cons, Js.app_nil_l.
  by rewrite JsFacts.split_sep, Hline, IH.
Qed.

Lemma parsedValues_wire records :
  Forall readable records →
  parsedValues JSON_parse (map JSON_stringify records) = map ParsedTask records.
Proof.
  induction 1 as [| t records (_ & Hblank & Hparse) _ IH]; [done |].
  cbn [map]. rewrite parsedValues_cons.
  apply String.eqb_neq in Hblank. by rewrite Hblank, Hparse, IH.
Qed.

Lemma applyParsed_tasks records st :
  fold_left applyParsed (map ParsedTask records) (Mounted st) =
    Mounted (fold_left applyUpdate records st).
Proof.
  revert st. induction records as [| t records IH]; intros st; [done | apply IH].
Qed.

(** However the wire is cut into chunks, the reader applies the records
    in order and is left with an empty buffer. *)
Lemma readStream_wire chunks records st :
  Js.concat chunks = wire records → Forall readable records →
  readStream JSON_parse chunks st =
    {| buffer := ""; app := Mounted (fold_left applyUpdate records st) |}.
Proof.
  intros Hchunks Hrecords.
  rewrite readStream_eq, Hchunks, split_wire by done.
  rewrite last_snoc, removelast_last. by rewrite parsedValues_wire, applyParsed_tasks.
Qed.

End Wire.

(** ** The run of the page *)

(** What the page looks at of the response to [fetch('/api/automate')]:
    [ok], [statusText] and [body]; of a body, the chunks its reader
    delivers, decoded, and how reading ends: with [done] ([None]) or with a
    rejection. *)
Record Response := {
  ok : bool;
  statusText : string;
  body : option (list string * option Thrown);
}.

(** The component state the run writes.  [isProcessing] is the value the
    callback closed over. *)
Record Page := {
  shown : AppState;
  isProcessing : bool;
}.

(** [prev.map(t => ({ ...t, status: TaskStatus.ERROR, error: 'Automation
    failed to start.'}))] *)
Definition failAll (st : AppState) : AppState :=
  {| tasks := map (λ t, mergeTask t (errorUpdates "Automation failed to start.")) (tasks st);
     completedCount := completedCount st |}.

Section Page.
Variable W : Type.
Variable NEWS_CATEGORIES : list Category.
Variable JSON_parse : string → option Parsed.
Variable fetch : Exec W Response.

(** [initializeTasks()] *)
Definition initializeTasks : AppState :=
  {| tasks := map pendingTask NEWS_CATEGORIES; completedCount := 0 |}.

(** The [try] block after the request: what the component is left with,
    and whether the block is left by a throw. *)
Definition readResponse (response : Response) (st : AppState)
    : Rendered AppState * (Thrown + unit) :=
  if negb (ok response) then
    (Mounted st, inl (ErrorObj ("Automation request failed: " +:+ statusText response)))
  else
    match body response with
    | None => (Mounted st, inl (ErrorObj "Automation response is empty."))
    | Some (chunks, ending) =>
        let page := app (readStream JSON_parse chunks st) in
        match ending with
        | Some error => (page, inl error)
        | None => (page, inr tt)
        end
    end.

(** [handleStartAutomation()], from the state of the page and the world to
    what is left of the page.  On a component that is off the screen the
    setters of the [catch] and the [finally] do nothing. *)
Definition handleStartAutomation (page : Page) (w : W) : Rendered Page * W :=
  if isProcessing page then (Mounted page, w)
  else
    match fetch w with
    | (w', inl _) =>
        (Mounted {| shown := failAll initializeTasks; isProcessing := false |}, w')
    | (w', inr response) =>
        match readResponse response initializeTasks with
        | (Mounted st, inl _) =>
            (Mounted {| shown := failAll st; isProcessing := false |}, w')
        | (Mounted st, inr _) => (Mounted {| shown := st; isProcessing := false |}, w')
        | (Unmounted, _) => (Unmounted, w')
        end
    end.

(** The request is answered, the answer is ok, and it has a body: these
    are the chunks read, and this is how reading ends. *)
Definition bodyRead (w : W) (chunks : list string) (ending : option Thrown) : Prop :=
  ∃ w' response,
    fetch w = (w', inr response)
    ∧ ok response = true ∧ body response = Some (chunks, ending).

Lemma ids_failAll st : map Task.id (tasks (failAll st)) = map Task.id (tasks st).
Proof. unfold failAll. cbn [tasks]. by rewrite map_map. Qed.

Lemma failAll_failed st :
  Forall (λ t, Task.status t = ERROR ∧ Task.error t = Some "Automation failed to start.")
    (tasks (failAll st)).
Proof. unfold failAll. cbn [tasks]. apply Forall_map. by apply Forall_true. Qed.

Lemma ids_initializeTasks : map Task.id (tasks initializeTasks) = map apiValue NEWS_CATEGORIES.
Proof. unfold initializeTasks. cbn [tasks]. by rewrite map_map. Qed.

Lemma ids_readStream chunks st st' :
  app (readStream JSON_parse chunks st) = Mounted st' →
  map Task.id (tasks st') = map Task.id (tasks st).
Proof.
  intros Hread.
  destruct (readStream_cases JSON_parse chunks st) as [[_ Hrun] | [_ Hrun]];
    rewrite Hrun in Hread; [done |].
  injection Hread as <-. apply ids_fold.
Qed.

(** X16. A run started while another is going on does nothing.  Any
    other run ends in one of three ways.  The request is answered ok with a
    body one of whose lines parses to [null]: the page is off the screen.
    The request is answered ok with a body that holds no such line and is
    read to the end: the page shows what the reader made of the chunks.  In
    every other case (the request throws, the answer is not ok, it has no
    body, a read rejects) every task, whatever it showed, ends as ERROR with
    the message 'Automation failed to start.'; the completed count is not
    reset: it is what the reader had counted when a read rejected, and 0
    when nothing was read.  A page still on the screen ends with
    [isProcessing] false and with one task per category, under the ids of
    the categories in their order. *)
Theorem page_run_ends (page : Page) (w : W) :
  (isProcessing page = true → handleStartAutomation page w = (Mounted page, w))
  ∧ (isProcessing page = false →
     let read chunks := app (readStream JSON_parse chunks initializeTasks) in
     match (handleStartAutomation page w).1 with
     | Unmounted => ∃ chunks ending, bodyRead w chunks ending ∧ read chunks = Unmounted
     | Mounted page' =>
         isProcessing page' = false
         ∧ map Task.id (tasks (shown page')) = map apiValue NEWS_CATEGORIES
         ∧ (∀ chunks ending, bodyRead w chunks ending → read chunks ≠ Unmounted)
         ∧ ((∃ chunks, bodyRead w chunks None ∧ read chunks = Mounted (shown page'))
            ∨ ((∀ chunks, ¬ bodyRead w chunks None)
               ∧ Forall (λ t, Task.status t = ERROR
                              ∧ Task.error t = Some "Automation failed to start.")
                   (tasks (shown page'))
               ∧ (∀ chunks error, bodyRead w chunks (Some error) →
                    ∃ st, read chunks = Mounted st
                          ∧ completedCount (shown page') = completedCount st)
               ∧ ((∀ chunks ending, ¬ bodyRead w chunks ending) →
                    completedCount (shown page') = 0)))
     end).
Proof.
  unfold handleStartAutomation. split; [by intros -> |]. intros ->. cbv zeta.
  destruct (fetch w) as [w' [error | response]] eqn:Hfetch; cbn [fst shown isProcessing].
  { assert (Hnone : ∀ chunks ending, ¬ bodyRead w chunks ending).
    { intros chunks ending (? & ? & Hf & _). rewrite Hfetch in Hf. discriminate Hf. }
    split; [done |]. split; [by rewrite ids_failAll, ids_initializeTasks |].
    split; [intros chunks ending Hb; by destruct (Hnone chunks ending) |]. right.
    split; [intros chunks; apply Hnone |]. split; [apply failAll_failed |].
    split; [intros chunks error' Hb; by destruct (Hnone chunks (Some error')) | done]. }
  assert (Hresponse : ∀ chunks ending, bodyRead w chunks ending →
            ok response = true ∧ body response = Some (chunks, ending)).
  { intros chunks ending (? & ? & Hf & ? & ?). rewrite Hfetch in Hf.
    by injection Hf as <- <-. }
  unfold readResponse.
  destruct (ok response) eqn:Hok; cbn [negb].
  2: { assert (Hnone : ∀ chunks ending, ¬ bodyRead w chunks ending).
       { intros chunks ending [? _]%Hresponse. congruence. }
       cbn [fst shown isProcessing].
       split; [done |]. split; [by rewrite ids_failAll, ids_initializeTasks |].
       split; [intros chunks ending Hb; by destruct (Hnone chunks ending) |]. right.
       split; [intros chunks; apply Hnone |]. split; [apply failAll_failed |].
       split; [intros chunks error' Hb; by destruct (Hnone chunks (Some error')) | done]. }
  destruct (body response) as [[chunks ending] |] eqn:Hbody.
  2: { assert (Hnone : ∀ chunks ending, ¬ bodyRead w chunks ending).
       { intros chunks ending [_ ?]%Hresponse. congruence. }
       cbn [fst shown isProcessing].
       split; [done |]. split; [by rewrite ids_failAll, ids_initializeTasks |].
       split; [intros chunks ending Hb; by destruct (Hnone chunks ending) |]. right.
       split; [intros chunks; apply Hnone |]. split; [apply failAll_failed |].
       split; [intros chunks error' Hb; by destruct (Hnone chunks (Some error')) | done]. }
  assert (Hread : ∀ chunks' ending', bodyRead w chunks' ending' →
            chunks' = chunks ∧ ending' = ending).
  { intros chunks' ending' [_ Hb]%Hresponse. by injection Hb as <- <-. }
  assert (Hbody' : bodyRead w chunks ending) by (by exists w', response).
  destruct (app (readStream JSON_parse chunks initializeTasks)) as [st |] eqn:Hrun.
  2: { destruct ending; cbn [fst]; (eexists chunks, _; split; [exact Hbody' | done]). }
  pose proof (ids_readStream chunks initializeTasks st Hrun) as Hids.
  assert (Hmounted : ∀ chunks' ending', bodyRead w chunks' ending' →
            app (readStream JSON_parse chunks' initializeTasks) ≠ Unmounted).
  { intros chunks' ending' [-> _]%Hread. by rewrite Hrun. }
  destruct ending as [error |]; cbn [fst shown isProcessing].
  - split; [done |].
    split; [by rewrite ids_failAll, Hids, ids_initializeTasks |].
    split; [exact Hmounted |]. right.
    split; [intros chunks' [_ [=]]%Hread |].
    split; [apply failAll_failed |].
    split.
    { intros chunks' error' [-> _]%Hread. by exists st. }
    intros Hnone. by destruct (Hnone chunks (Some error)).
  - split; [done |]. split; [by rewrite Hids, ids_initializeTasks |].
    split; [exact Hmounted |]. left.
    by exists chunks.
Qed.

End Page.

End StreamFacts.
(* ===================================================================== *)
(** * The request handler: the run as a whole *)
(* ===================================================================== *)

Module ServerFacts.

Section Run.
Variable W : Type.
Variable Image : Type.
Variable NEWS_CATEGORIES : list Category.
Variable LOGO_URL BRAND_TEXT OVERLAY_IMAGE_URL : string.
Variable fetchLatestBangladeshiNews : string → Exec W (list Article.NewsDataArticle).
Variable generateContent : list Article.NewsDataArticle → Exec W (option string).
Variable generateImageFromPrompt : string → Exec W string.
Variable uploadToCloudinary : string → Exec W string.
Variable sendToMakeWebhook : WebhookPayload → Exec W unit.
Variable skiaLoadImage : Canvas.ImageSource → Exec W Image.
Variable loadFont : string → string → string → Exec W unit.
Variable measureAt : Z → Canvas.Measure.
Variable toDataURL : Image → Image → Image → string → list Canvas.DrawOp → Exec W string.
Variable earliest : list Thrown → nat.
Variable clientGone : W → bool.
Variable invalidState : string.

Local Abbreviation State := (Server.State W).
Local Abbreviation tasks := (Server.tasks W).
Local Abbreviation stream := (Server.stream W).
Local Abbreviation world := (Server.world W).
Local Abbreviation cancelled := (Server.cancelled W).
Local Abbreviation ids := (Server.ids W).
Local Abbreviation trace := (Server.trace W).
Local Abbreviation recorded := (Server.recorded W).
Local Abbreviation collectedData := (Server.collectedData W).
Local Abbreviation usedArticleLinks := (Server.usedArticleLinks W).
Local Abbreviation setWorld := (Server.setWorld W).
Local Abbreviation addLink := (Server.addLink W).
Local Abbreviation pushData := (Server.pushData W).
Local Abbreviation cancel := (Server.cancel W).
Local Abbreviation streamOpen := (Server.streamOpen W clientGone).
Local Abbreviation updateTaskState := (Server.updateTaskState W).
Local Abbreviation rejectTaskState := (Server.rejectTaskState W).
Local Abbreviation applyUpdates := (Server.applyUpdates W).
Local Abbreviation rejectUpdates := (Server.rejectUpdates W).
Local Abbreviation roundEnd := (Server.roundEnd invalidState).
Local Abbreviation initialState := (Server.initialState W NEWS_CATEGORIES).
Local Abbreviation gatherCategory :=
  (Server.gatherCategory W fetchLatestBangladeshiNews generateContent clientGone
     invalidState).
Local Abbreviation processItem :=
  (Server.processItem W Image LOGO_URL BRAND_TEXT OVERLAY_IMAGE_URL
     generateImageFromPrompt uploadToCloudinary sendToMakeWebhook
     skiaLoadImage loadFont measureAt toDataURL earliest clientGone invalidState).
Local Abbreviation phase1 :=
  (Server.phase1 W NEWS_CATEGORIES fetchLatestBangladeshiNews generateContent clientGone
     invalidState).
Local Abbreviation phase2 :=
  (Server.phase2 W Image LOGO_URL BRAND_TEXT OVERLAY_IMAGE_URL
     generateImageFromPrompt uploadToCloudinary sendToMakeWebhook
     skiaLoadImage loadFont measureAt toDataURL earliest clientGone invalidState).
Local Abbreviation handler :=
  (Server.handler W Image NEWS_CATEGORIES LOGO_URL BRAND_TEXT OVERLAY_IMAGE_URL
     fetchLatestBangladeshiNews generateContent generateImageFromPrompt
     uploadToCloudinary sendToMakeWebhook skiaLoadImage loadFont measureAt toDataURL
     earliest clientGone invalidState).
Local Abbreviation compose :=
  (Server.compose W Image LOGO_URL BRAND_TEXT OVERLAY_IMAGE_URL
     skiaLoadImage loadFont measureAt toDataURL earliest).
Local Abbreviation gatherCategory_canonical :=
  (Server.gatherCategory_canonical W fetchLatestBangladeshiNews generateContent clientGone
     invalidState).
Local Abbreviation processItem_canonical :=
  (Server.processItem_canonical W Image LOGO_URL BRAND_TEXT OVERLAY_IMAGE_URL
     generateImageFromPrompt uploadToCloudinary sendToMakeWebhook
     skiaLoadImage loadFont measureAt toDataURL earliest clientGone invalidState).

(** ** The task list through a run *)

(** The list of tasks as the categories give it: the id and the name of
    each, in order. *)
Definition labels (ts : list Task.BatchTask) : list (string * string) :=
  map (λ t, (Task.id t, Task.categoryName t)) ts.

Definition categoryLabels : list (string * string) :=
  map (λ c, (apiValue c, name c)) NEWS_CATEGORIES.

Definition wellFormed (s : State) : Prop :=
  labels (tasks s) = categoryLabels
  ∧ ∃ later, stream s = map pendingTask NEWS_CATEGORIES ++ later
             ∧ Forall (λ t, (Task.id t, Task.categoryName t) ∈ categoryLabels) later.

Lemma mergeTask_label t u :
  scriptUpdate u →
  (Task.id (mergeTask t u), Task.categoryName (mergeTask t u)) =
    (Task.id t, Task.categoryName t).
Proof. by intros [[? ->] | [[? ->] | [? ->]]]. Qed.

Lemma updateTaskState_wellFormed taskId u s :
  scriptUpdate u → wellFormed s → wellFormed (updateTaskState taskId u s).
Proof.
  intros Hu (Hlabels & later & Hstream & Hlater).
  unfold Server.updateTaskState, Server.findIndex.
  destruct (list_find _ (tasks s)) as [[i t] |] eqn:Hfind; [| by split; eauto].
  apply list_find_Some in Hfind as (Hi & _ & _).
  split; simpl.
  - unfold labels in *. rewrite list_fmap_insert, list_insert_id; [done |].
    rewrite list_lookup_fmap, Hi. cbn [fmap option_fmap option_map].
    by rewrite (mergeTask_label t u Hu).
  - exists (later ++ [mergeTask t u]). split; [by rewrite Hstream, app_assoc |].
    apply Forall_app. split; [done |]. apply Forall_singleton.
    rewrite (mergeTask_label t u Hu), <- Hlabels.
    unfold labels. apply list_elem_of_fmap. exists t. split; [done |].
    by eapply list_elem_of_lookup_2.
Qed.

(** An update that the stream does not take writes the same task and
    leaves the stream as it is. *)
Lemma rejectTaskState_wellFormed taskId u s :
  scriptUpdate u → wellFormed s → wellFormed (rejectTaskState taskId u s).
Proof.
  intros Hu Hs.
  destruct (updateTaskState_wellFormed taskId u s Hu Hs) as [Hlabels _].
  destruct Hs as (_ & later & Hstream & Hlater).
  split; [by rewrite Server.rejectTaskState_tasks |].
  exists later.
  by destruct (Server.rejectTaskState_frame W taskId u s) as (_ & _ & _ & ->).
Qed.

(** X17. Through a whole run, however it ends, the list of tasks keeps
    one task per category, in the order of the categories, each with the id
    and the name of its category: no task is added, removed, moved or
    renamed.  The stream starts with the PENDING record of every category,
    in order, and every record after those carries the id and the name of a
    category. *)
Theorem run_keeps_the_task_list (w : W) :
  let s := (handler w).1 in
  map Task.id (tasks s) = map apiValue NEWS_CATEGORIES
  ∧ map Task.categoryName (tasks s) = map name NEWS_CATEGORIES
  ∧ ∃ later,
      stream s = map pendingTask NEWS_CATEGORIES ++ later
      ∧ Forall (λ t, ∃ c, c ∈ NEWS_CATEGORIES ∧ Task.id t = apiValue c
                          ∧ Task.categoryName t = name c) later.
Proof.
  intros s. subst s.
  assert (Hrun : wellFormed (handler w).1).
  { apply Server.handler_invariant with (P := wellFormed) (R := True); try done.
    - intros. by apply updateTaskState_wellFormed.
    - intros. by apply rejectTaskState_wellFormed.
    - split.
      + unfold labels, categoryLabels. simpl. by rewrite map_map.
      + exists []. split; [by rewrite app_nil_r | constructor]. }
  destruct Hrun as (Hlabels & later & Hstream & Hlater).
  unfold labels, categoryLabels in Hlabels.
  split.
  { apply (f_equal (map fst)) in Hlabels. by rewrite !map_map in Hlabels. }
  split.
  { apply (f_equal (map snd)) in Hlabels. by rewrite !map_map in Hlabels. }
  exists later. split; [done |].
  eapply Forall_impl; [exact Hlater |]. simpl.
  intros t (c & [= -> ->] & Hc)%list_elem_of_fmap. by exists c.
Qed.

(** ** One round of phase 1, with nothing to analyse *)

Lemma filter_all_used (used : gset string) (articles : list Article.NewsDataArticle) :
  (∀ a, a ∈ articles → Article.link a ∈ used) →
  filter (λ a, Article.link a ∉ used) articles = [].
Proof.
  induction articles as [| a articles IH]; [done |]. intros Hused.
  rewrite filter_cons. destruct (decide (Article.link a ∉ used)) as [Hnew | _].
  - destruct Hnew. apply Hused. by left.
  - apply IH. intros b Hb. apply Hused. by right.
Qed.

(** The news service has failed, or has nothing that is not used. *)
Definition nothingNew (s : State) (r : Thrown + list Article.NewsDataArticle) : Prop :=
  match r with
  | inl _ => True
  | inr allArticles => ∀ a, a ∈ allArticles → Article.link a ∈ usedArticleLinks s
  end.

Definition nothingNewMessage (category : Category)
    (r : Thrown + list Article.NewsDataArticle) : string :=
  match r with
  | inl err => errorMessage err
  | inr _ => "No new, unused articles found for " +:+ name category +:+ "."
  end.

Lemma streamOpen_after taskId u w s :
  streamOpen (setWorld w (updateTaskState taskId u s)) = negb (cancelled s || clientGone w).
Proof.
  unfold Server.streamOpen. cbn [Server.world Server.setWorld Server.cancelled].
  by destruct (Server.updateTaskState_frame W taskId u s) as (_ & _ & _ & ->).
Qed.

(** The round with nothing to analyse, for each way the stream may be. *)
Lemma gather_nothing_new category s w1 r :
  apiValue category ∈ ids s →
  fetchLatestBangladeshiNews (apiValue category) (world s) = (w1, r) →
  nothingNew s r →
  let taskId := apiValue category in
  let failed := errorUpdates (nothingNewMessage category r) in
  gatherCategory category s =
    if streamOpen s then
      if clientGone w1 then
        (rejectTaskState taskId failed
           (setWorld w1 (updateTaskState taskId (statusOnly GATHERING) s)),
         inl (ErrorObj invalidState))
      else
        (setWorld w1 (applyUpdates taskId [statusOnly GATHERING; failed] s),
         inr (Some tt))
    else
      (rejectTaskState taskId (errorUpdates invalidState)
         (rejectTaskState taskId (statusOnly GATHERING) s),
       inl (ErrorObj invalidState)).
Proof.
  intros Hin Hfetch Hnothing taskId failed. subst taskId failed.
  destruct (Server.updateTaskState_frame W (apiValue category) (statusOnly GATHERING) s)
    as (Hworld & Hused & _ & Hcancelled).
  unfold Server.gatherCategory, Server.gatherBody, Run.tryCatch, Run.bind, Server.await,
    Server.awaitRun, Run.lift, Run.get, Run.throw.
  destruct (streamOpen s) eqn:Hopen.
  2: { rewrite Server.updateTask_shut by done. cbv beta iota. cbn [errorMessage].
       by rewrite Server.updateTask_rejected_again. }
  rewrite Server.updateTask_open by done. cbv beta iota.
  rewrite Hworld, Hfetch.
  assert (Hcaught : ∀ message,
    Server.updateTask W clientGone invalidState (apiValue category) (errorUpdates message)
      (setWorld w1 (updateTaskState (apiValue category) (statusOnly GATHERING) s)) =
    if clientGone w1 then
      (rejectTaskState (apiValue category) (errorUpdates message)
         (setWorld w1 (updateTaskState (apiValue category) (statusOnly GATHERING) s)),
       inl (ErrorObj invalidState))
    else
      (setWorld w1 (applyUpdates (apiValue category)
         [statusOnly GATHERING; errorUpdates message] s), inr (Some tt))).
  { intros message.
    assert (Hc : cancelled s = false).
    { unfold Server.streamOpen in Hopen.
      by apply negb_true_iff, orb_false_iff in Hopen as [? _]. }
    pose proof (streamOpen_after (apiValue category) (statusOnly GATHERING) w1 s) as Hafter.
    rewrite Hc in Hafter. cbn [orb] in Hafter.
    destruct (clientGone w1); cbn [negb] in Hafter.
    - apply Server.updateTask_shut; [done |].
      change (Server.ids W (Server.setWorld W w1 ?x)) with (Server.ids W x).
      by rewrite Server.updateTaskState_ids.
    - rewrite Server.updateTask_open by done.
      unfold Server.applyUpdates. cbn [fold_left].
      by rewrite Server.setWorld_updateTaskState. }
  destruct r as [err | allArticles]; cbv beta iota; cbn [nothingNewMessage].
  { apply Hcaught. }
  change (Server.usedArticleLinks W (Server.setWorld W w1 ?x))
    with (Server.usedArticleLinks W x).
  rewrite Hused, filter_all_used by done. cbn [length Nat.eqb]. cbn [errorMessage].
  apply Hcaught.
Qed.

Lemma failed_round_recorded taskId message s :
  taskId ∈ ids s →
  ∃ t, recorded taskId
         (applyUpdates taskId [statusOnly GATHERING; errorUpdates message] s) = Some t
       ∧ Task.status t = ERROR ∧ Task.error t = Some message.
Proof.
  intros Hin.
  destruct (Server.applyUpdates_recorded_last W taskId [statusOnly GATHERING]
              (errorUpdates message) s Hin) as (t & Ht & Hstatus & Herror).
  { repeat constructor; simpl; eauto. }
  exists t. split; [exact Ht |]. split; [simpl in Hstatus; congruence | by apply Herror].
Qed.

(** X18. A round of phase 1 does not call the analysis when there is
    nothing to analyse: when the news service fails, or when every article
    it returns (none at all included) has a link already in the set of used
    links.  With the stream open, the round marks its task GATHERING and
    then ERROR, with the message of the failure or "No new, unused articles
    found for <name>.", and returns; and that is all: the world is left as
    the news service left it.  Whatever the stream does, nothing is
    collected, no link is added, the world is as the news service left it
    (or untouched, if the stream was cancelled before the call), and the
    task ends ERROR. *)
Theorem nothing_new_skips_the_analysis (category : Category) (s : State) (w1 : W) :
  apiValue category ∈ ids s →
  (∀ err,
     fetchLatestBangladeshiNews (apiValue category) (world s) = (w1, inl err) →
     streamOpen s = true → clientGone w1 = false →
     gatherCategory category s =
       (setWorld w1 (applyUpdates (apiValue category)
          [statusOnly GATHERING; errorUpdates (errorMessage err)] s), inr (Some tt))
     ∧ ∃ t, recorded (apiValue category) (gatherCategory category s).1 = Some t
            ∧ Task.status t = ERROR ∧ Task.error t = Some (errorMessage err))
  ∧ (∀ allArticles,
       fetchLatestBangladeshiNews (apiValue category) (world s) = (w1, inr allArticles) →
       (∀ a, a ∈ allArticles → Article.link a ∈ usedArticleLinks s) →
       streamOpen s = true → clientGone w1 = false →
       let message := "No new, unused articles found for " +:+ name category +:+ "." in
       gatherCategory category s =
         (setWorld w1 (applyUpdates (apiValue category)
            [statusOnly GATHERING; errorUpdates message] s), inr (Some tt))
       ∧ ∃ t, recorded (apiValue category) (gatherCategory category s).1 = Some t
              ∧ Task.status t = ERROR ∧ Task.error t = Some message)
  ∧ (∀ r, fetchLatestBangladeshiNews (apiValue category) (world s) = (w1, r) →
       match r with
       | inl _ => True
       | inr allArticles => ∀ a, a ∈ allArticles → Article.link a ∈ usedArticleLinks s
       end →
       (world (gatherCategory category s).1 = w1
        ∨ (streamOpen s = false ∧ world (gatherCategory category s).1 = world s))
       ∧ collectedData (gatherCategory category s).1 = collectedData s
       ∧ usedArticleLinks (gatherCategory category s).1 = usedArticleLinks s
       ∧ ∃ t, recorded (apiValue category) (gatherCategory category s).1 = Some t
              ∧ Task.status t = ERROR).
Proof.
  intros Hin.
  split; [| split].
  - intros err Hfetch Hopen Hstays.
    pose proof (gather_nothing_new category s w1 (inl err) Hin Hfetch I) as Hround.
    cbv zeta in Hround. rewrite Hopen, Hstays in Hround. cbn [nothingNewMessage] in Hround.
    split; [exact Hround |]. rewrite Hround. cbn [fst].
    change (Server.recorded W ?i (Server.setWorld W w1 ?x)) with (Server.recorded W i x).
    by apply failed_round_recorded.
  - intros allArticles Hfetch Hall Hopen Hstays message.
    pose proof (gather_nothing_new category s w1 (inr allArticles) Hin Hfetch Hall) as Hround.
    cbv zeta in Hround. rewrite Hopen, Hstays in Hround. cbn [nothingNewMessage] in Hround.
    split; [exact Hround |]. rewrite Hround. cbn [fst].
    change (Server.recorded W ?i (Server.setWorld W w1 ?x)) with (Server.recorded W i x).
    by apply failed_round_recorded.
  - intros r Hfetch Hall.
    pose proof (gather_nothing_new category s w1 r Hin Hfetch Hall) as Hround.
    cbv zeta in Hround. rewrite Hround. clear Hround.
    set (message := nothingNewMessage category r).
    assert (Hids : apiValue category
                   ∈ ids (updateTaskState (apiValue category) (statusOnly GATHERING) s))
      by (by rewrite Server.updateTaskState_ids).
    destruct (streamOpen s) eqn:Hopen; [destruct (clientGone w1) |]; cbn [fst].
    + destruct (Server.rejectTaskState_frame W (apiValue category) (errorUpdates message)
                  (setWorld w1 (updateTaskState (apiValue category)
                                  (statusOnly GATHERING) s))) as (-> & -> & -> & _).
      destruct (Server.updateTaskState_frame W (apiValue category) (statusOnly GATHERING) s)
        as (_ & Hused & Hcoll & _).
      split; [by left |]. split; [exact Hcoll |]. split; [exact Hused |].
      rewrite Server.rejectTaskState_recorded.
      change (Server.updateTaskState W ?i ?u (Server.setWorld W w1 ?x))
        with (Server.applyUpdates W i [u] (Server.setWorld W w1 x)).
      destruct (Server.applyUpdates_recorded_last W (apiValue category) []
                  (errorUpdates message)
                  (setWorld w1 (updateTaskState (apiValue category)
                                  (statusOnly GATHERING) s)) Hids)
        as (t & Ht & Hstatus & _); [repeat constructor; simpl; eauto |].
      exists t. split; [exact Ht |]. simpl in Hstatus. congruence.
    + destruct (Server.applyUpdates_frame W (apiValue category)
                  [statusOnly GATHERING; errorUpdates message] s)
        as (_ & Hused & Hcoll & _).
      split; [by left |]. split; [exact Hcoll |]. split; [exact Hused |].
      change (Server.recorded W ?i (Server.setWorld W w1 ?x)) with (Server.recorded W i x).
      destruct (failed_round_recorded (apiValue category) message s Hin)
        as (t & Ht & Hstatus & _).
      by exists t.
    + destruct (Server.rejectUpdates_frame W (apiValue category)
                  [statusOnly GATHERING; errorUpdates invalidState] s)
        as (Hworld & Hused & Hcoll & _).
      unfold Server.rejectUpdates in Hworld, Hused, Hcoll. cbn [fold_left] in *.
      split; [right; by split |]. split; [exact Hcoll |]. split; [exact Hused |].
      pose proof (Server.rejectUpdates_recorded W (apiValue category) (apiValue category)
                    [statusOnly GATHERING; errorUpdates invalidState] s) as Hrec.
      unfold Server.rejectUpdates in Hrec. cbn [fold_left] in Hrec. rewrite Hrec.
      destruct (failed_round_recorded (apiValue category) invalidState s Hin)
        as (t & Ht & Hstatus & _).
      by exists t.
Qed.

(** ** One round of phase 2: what DONE stands for *)

(** The calls of a round of phase 2 in which nothing fails, from the world
    [w] to the world [w']: the picture is the one of the article, or one
    generated when the article has none; the composite is uploaded; the
    payload with the address of the upload is delivered. *)
Definition delivered (data : CollectedData) (w w' : W) (imageUrl : string) : Prop :=
  ∃ w1 src w2 compiledImage w3,
    ((Article.image_url (article data) = Some src ∧ src ≠ "" ∧ w1 = w)
     ∨ (Js.falsy (Article.image_url (article data)) = true
        ∧ generateImageFromPrompt (Analysis.imagePrompt (analysis data)) w = (w1, inr src)))
    ∧ compose data src w1 = (w2, inr (Some compiledImage))
    ∧ uploadToCloudinary compiledImage w2 = (w3, inr imageUrl)
    ∧ sendToMakeWebhook (webhookPayload data imageUrl) w3 = (w', inr tt).

(** What the updates written in a round come to: the last is the failure
    of the task; or it is DONE, all were taken, the round returns, and the
    calls were those of a delivery; or it is COMPOSING, and the composition
    does not return. *)
Definition roundResult (data : CollectedData) (s : State)
    (out : State * (Thrown + option unit)) : Prop :=
  ∃ w' taken rejected,
    out.1 = rejectUpdates (taskId data) rejected
              (setWorld w' (applyUpdates (taskId data) taken s))
    ∧ Forall scripted (taken ++ rejected)
    ∧ ((∃ message,
          last (taken ++ rejected) = Some (errorUpdates message) ∧ out.2 ≠ inr None)
       ∨ (∃ imageUrl,
            last taken = Some (doneUpdates (taskResult data imageUrl))
            ∧ rejected = [] ∧ out.2 = inr (Some tt)
            ∧ delivered data (world s) w' imageUrl)
       ∨ (last taken = Some (statusOnly COMPOSING)
          ∧ rejected = [] ∧ out.2 = inr None
          ∧ (Canvas.headlineOps measureAt (Analysis.headline (analysis data))
               (Analysis.highlightPhrases (analysis data))).2 = false)).

Lemma world_updateTaskState taskId u s :
  world (updateTaskState taskId u s) = world s.
Proof. apply Server.updateTaskState_frame. Qed.

Ltac taken_of x :=
  lazymatch x with
  | Server.rejectTaskState _ _ _ ?y => taken_of y
  | Server.updateTaskState _ _ ?u ?y => let l := taken_of y in constr:(l ++ [u])
  | Server.setWorld _ _ ?y => taken_of y
  | _ => constr:(@nil TaskUpdates)
  end.

Ltac rejected_of x :=
  lazymatch x with
  | Server.rejectTaskState _ _ ?u ?y => let l := rejected_of y in constr:(l ++ [u])
  | _ => constr:(@nil TaskUpdates)
  end.

Ltac world_in x0 x :=
  lazymatch x with
  | Server.updateTaskState _ _ _ ?y => world_in x0 y
  | Server.setWorld _ ?w _ => constr:(w)
  | _ => constr:(Server.world W x0)
  end.

Ltac world_of x :=
  lazymatch x with
  | Server.rejectTaskState _ _ _ ?y => world_of y
  | _ => world_in x x
  end.

Ltac canonical_state :=
  cbn [fst snd app]; unfold Server.rejectUpdates, Server.applyUpdates; cbn [fold_left];
  rewrite ?Server.setWorld_updateTaskState, ?Server.setWorld_world;
  reflexivity.

Ltac update_step :=
  lazymatch goal with
  | |- context [Server.updateTask _ _ _ ?id ?u (Server.rejectTaskState _ ?id ?u0 ?x)] =>
      rewrite (Server.updateTask_rejected_again W clientGone invalidState id u0 u x) by done
  | |- context [Server.updateTask _ _ _ ?id ?u ?x] =>
      destruct (Server.updateTask_cases W clientGone invalidState id u x)
        as [-> | (-> & ? & ?)]; cbv beta iota
  end.

Ltac simplify_world :=
  rewrite ?world_updateTaskState;
  repeat (progress change (Server.world W (Server.setWorld W ?w ?x)) with w;
          rewrite ?world_updateTaskState).

Ltac service_step :=
  simplify_world;
  match goal with
  | |- context [Server.compose _ _ _ _ _ _ _ _ _ _ ?d ?src ?w] =>
      let w' := fresh "w" in let e := fresh "err" in let r := fresh "r" in
      let H := fresh "Hcompose" in
      destruct (compose d src w) as [w' [e | [r |]]] eqn:H
  | |- context [generateImageFromPrompt ?a ?w] =>
      let w' := fresh "w" in let e := fresh "err" in let r := fresh "r" in
      let H := fresh "Hgenerate" in
      destruct (generateImageFromPrompt a w) as [w' [e | r]] eqn:H
  | |- context [uploadToCloudinary ?a ?w] =>
      let w' := fresh "w" in let e := fresh "err" in let r := fresh "r" in
      let H := fresh "Hupload" in
      destruct (uploadToCloudinary a w) as [w' [e | r]] eqn:H
  | |- context [sendToMakeWebhook ?a ?w] =>
      let w' := fresh "w" in let e := fresh "err" in
      let H := fresh "Hsend" in
      destruct (sendToMakeWebhook a w) as [w' [e | []]] eqn:H
  end.

Ltac delivery :=
  eexists _, _, _, _, _;
  split; [first [ left; split; [eassumption |]; split; [eassumption | reflexivity]
                | right; split; [eassumption | eassumption] ] |];
  split; [eassumption |]; split; eassumption.

Ltac result_leaf :=
  lazymatch goal with
  | |- roundResult _ _ (?x, ?r) =>
      let w := world_of x in let t := taken_of x in let j := rejected_of x in
      let t' := eval cbn [app] in t in
      let j' := eval cbn [app] in j in
      exists w, t', j'; split; [canonical_state |];
      split; [repeat constructor; simpl; eauto |];
      cbn [fst snd app last];
      first [ left; eexists; split; [reflexivity | done]
            | right; left; eexists; split; [reflexivity |];
              split; [reflexivity |]; split; [reflexivity |]; delivery
            | right; right; split; [reflexivity |]; split; [reflexivity |];
              split; [reflexivity |];
              eapply Server.compose_never; eassumption ]
  end.


Lemma processItem_result data s : roundResult data s (processItem data s).
Proof.
  unfold Server.processItem, Server.processBody, Server.acquireImage, Run.tryCatch,
    Run.bind, Server.await, Server.awaitRun, Run.lift, Run.throw, Run.ret.
  destruct (Js.falsy (Article.image_url (article data))) eqn:Hurl; cbv beta iota.
  - repeat (cbv beta iota; cbn [errorMessage];
            first [result_leaf | update_step | service_step]).
  - destruct (Article.image_url (article data)) as [src |] eqn:Hsrc; [| by simpl in Hurl].
    cbn [default from_option id].
    assert (Hne : src ≠ "").
    { simpl in Hurl. by destruct (String.eqb_spec src ""). }
    repeat (cbv beta iota; cbn [errorMessage];
            first [result_leaf | update_step | service_step]).
Qed.

Lemma written_tasks taskId taken rejected w' s :
  tasks (rejectUpdates taskId rejected (setWorld w' (applyUpdates taskId taken s))) =
    tasks (applyUpdates taskId (taken ++ rejected) s).
Proof.
  rewrite Server.rejectUpdates_tasks, Server.applyUpdates_app.
  generalize (applyUpdates taskId taken s). intros x.
  revert x. induction rejected as [| v rejected IH]; intros x; [done |].
  cbn [Server.applyUpdates fold_left]. rewrite Server.setWorld_updateTaskState.
  apply IH.
Qed.

(** The task after the updates written in a round. *)
Lemma written_recorded_last taskId taken rejected w' u s :
  taskId ∈ ids s → Forall scripted (taken ++ rejected) →
  last (taken ++ rejected) = Some u →
  ∃ t0, recorded taskId
          (rejectUpdates taskId rejected (setWorld w' (applyUpdates taskId taken s))) =
        Some (mergeTask t0 u).
Proof.
  intros Hin Hscripted Hlast.
  pose proof (written_tasks taskId taken rejected w' s) as Htasks.
  unfold Server.recorded. rewrite Htasks.
  destruct (taken ++ rejected) as [| v l] eqn:Hl using rev_ind; [done |].
  rewrite last_snoc in Hlast. injection Hlast as ->. clear IHl.
  apply Forall_app in Hscripted as [Hbefore [[Hid _] _]%Forall_cons].
  rewrite Server.applyUpdates_app. cbn [Server.applyUpdates fold_left].
  assert (Hin' : taskId ∈ ids (applyUpdates taskId l s))
    by (by rewrite Server.applyUpdates_ids).
  apply Server.recorded_present in Hin' as [t0 Ht0].
  exists t0. by apply Server.updateTaskState_recorded_same.
Qed.

Lemma never_painted_empty_phrase headline highlightPhrases :
  (Canvas.headlineOps measureAt headline highlightPhrases).2 = false →
  "" ∈ highlightPhrases.
Proof.
  intros Hnever.
  destruct (decide ("" ∈ highlightPhrases)) as [| Hnone]; [done |].
  rewrite Canvas.headlineOps_exits in Hnever; [done |].
  apply Forall_forall. by intros phrase Hin ->.
Qed.

(** X19. What a round of phase 2 leaves on its task, however the round
    ends.  The task is DONE only when the whole delivery went through: a
    picture was at hand (the address on the article, or a generated one
    when the article has none), the composition returned, the upload
    returned an address, the webhook call with the headline, that address,
    the caption and the link of the article returned, and the stream took
    every record; the round then returns, and the result on the task is
    built from the same analysis, article and address.  If an empty phrase
    is among the highlight phrases the composition may never return, and
    the task stays COMPOSING.  In every other case the task ends ERROR with
    a message: that of the step that failed, or that of the stream if the
    stream was found cancelled. *)
Theorem done_means_delivered (data : CollectedData) (s : State) :
  taskId data ∈ ids s →
  ∃ t, recorded (taskId data) (processItem data s).1 = Some t
    ∧ ((Task.status t = ERROR ∧ is_Some (Task.error t)
        ∧ (processItem data s).2 ≠ inr None)
       ∨ (Task.status t = DONE
          ∧ (processItem data s).2 = inr (Some tt)
          ∧ ∃ imageUrl,
              delivered data (world s) (world (processItem data s).1) imageUrl
              ∧ Task.result t = Some (taskResult data imageUrl))
       ∨ (Task.status t = COMPOSING
          ∧ (processItem data s).2 = inr None
          ∧ "" ∈ Analysis.highlightPhrases (analysis data))).
Proof.
  intros Hin.
  destruct (processItem_result data s)
    as (w' & taken & rejected & -> & Hscripted &
        [(message & Hlast & Hends)
        | [(imageUrl & Hlast & -> & Hreturns & Hdelivered)
          | (Hlast & -> & Hnever & Hpainting)]]).
  - destruct (written_recorded_last _ taken rejected w' _ s Hin Hscripted Hlast)
      as [t0 Ht0].
    exists (mergeTask t0 (errorUpdates message)). split; [exact Ht0 |].
    left. split; [done |]. split; [by eexists | done].
  - rewrite app_nil_r in Hscripted.
    destruct (written_recorded_last _ taken [] w' _ s Hin
                ltac:(by rewrite app_nil_r) ltac:(by rewrite app_nil_r)) as [t0 Ht0].
    exists (mergeTask t0 (doneUpdates (taskResult data imageUrl))). split; [exact Ht0 |].
    right. left. split; [done |]. split; [done |]. exists imageUrl. split; [| done].
    cbn [Server.rejectUpdates fold_left].
    by change (Server.world W (Server.setWorld W w' ?x)) with w'.
  - rewrite app_nil_r in Hscripted.
    destruct (written_recorded_last _ taken [] w' _ s Hin
                ltac:(by rewrite app_nil_r) ltac:(by rewrite app_nil_r)) as [t0 Ht0].
    exists (mergeTask t0 (statusOnly COMPOSING)). split; [exact Ht0 |].
    right. right. split; [done |]. split; [done |].
    by eapply never_painted_empty_phrase.
Qed.

(** ** The statuses streamed for a task *)

(** The statuses of the records of a stretch of the stream that are for
    the task [taskId], and those of all the records enqueued for it,
    oldest first. *)
Definition statusesIn (taskId : string) (tr : list (string * TaskStatus))
    : list TaskStatus :=
  map snd (filter (λ p, p.1 = taskId) tr).

Definition statuses (taskId : string) (s : State) : list TaskStatus :=
  statusesIn taskId (trace s).

Lemma statusesIn_app taskId tr1 tr2 :
  statusesIn taskId (tr1 ++ tr2) = statusesIn taskId tr1 ++ statusesIn taskId tr2.
Proof. unfold statusesIn. by rewrite filter_app, map_app. Qed.

Lemma statusesIn_pair (taskId taskId' : string) (l : list TaskStatus) :
  statusesIn taskId (map (pair taskId') l) = if decide (taskId' = taskId) then l else [].
Proof.
  unfold statusesIn.
  destruct (decide (taskId' = taskId)) as [E | E];
    induction l as [| st l IH]; try done;
    change (map (pair taskId') (st :: l)) with ((taskId', st) :: map (pair taskId') l);
    rewrite filter_cons; cbn [fst].
  - rewrite decide_True by done.
    change (map snd ((taskId', st) :: ?r)) with (st :: map snd r). by rewrite IH.
  - by rewrite decide_False.
Qed.

(** The statuses of the updates a round has had taken are the first of
    those of its script, and all of them if the round returns. *)
Lemma roundEnd_statuses script taken rejected r :
  roundEnd script taken rejected r →
  omap u_status taken `prefix_of` omap u_status script
  ∧ (r = inr (Some tt) → taken = script)
  ∧ (r = inr (Some tt) ∨ r = inl (ErrorObj invalidState)).
Proof.
  intros [| before u rest ->].
  - split; [done |]. split; [done | by left].
  - split; [rewrite omap_app; by apply prefix_app_r |]. split; [done | by right].
Qed.

(** The state a round leaves, in canonical form: what it shows. *)
Lemma canonical_observations taskId taken rejected w' s (wrap : State → State) :
  taskId ∈ ids s → Forall scripted taken → Forall scripted rejected →
  (∀ x, ids (wrap x) = ids x ∧ trace (wrap x) = trace x) →
  let s' := rejectUpdates taskId rejected (wrap (setWorld w' (applyUpdates taskId taken s))) in
  ids s' = ids s
  ∧ trace s' = trace s ++ map (pair taskId) (omap u_status taken).
Proof.
  intros Hin Htaken Hrejected Hwrap s'. subst s'.
  rewrite Server.rejectUpdates_ids, Server.rejectUpdates_trace by done.
  destruct (Hwrap (setWorld w' (applyUpdates taskId taken s))) as [-> ->].
  change (Server.ids W (Server.setWorld W w' ?x)) with (Server.ids W x).
  change (Server.trace W (Server.setWorld W w' ?x)) with (Server.trace W x).
  split; [by apply Server.applyUpdates_ids | by apply Server.applyUpdates_trace].
Qed.

(** What a round of phase 1 does, however it ends. *)
Lemma gatherRound category s :
  apiValue category ∈ ids s →
  ids (gatherCategory category s).1 = ids s
  ∧ (gatherCategory category s).2 ≠ inr None
  ∧ ∃ sts,
      trace (gatherCategory category s).1 = trace s ++ map (pair (apiValue category)) sts
      ∧ ((collectedData (gatherCategory category s).1 = collectedData s
          ∧ sts `prefix_of` [GATHERING; ERROR]
          ∧ ((gatherCategory category s).2 = inr (Some tt) → sts = [GATHERING; ERROR]))
         ∨ (∃ d, taskId d = apiValue category
              ∧ collectedData (gatherCategory category s).1 = collectedData s ++ [d]
              ∧ sts `prefix_of` [GATHERING; GATHERED]
              ∧ ((gatherCategory category s).2 = inr (Some tt) →
                   sts = [GATHERING; GATHERED]))).
Proof.
  intros Hin.
  split; [| split; [apply Server.gatherCategory_ends |]].
  all: destruct (gatherCategory_canonical category s)
    as (w' & taken & rejected &
        [(message & Hstate & Hend) | (a & chosen & _ & _ & Hstate & Hend & _)]);
    rewrite Hstate; clear Hstate.
  all: match type of Hend with
       | Server.roundEnd _ ?script _ _ _ =>
           assert (Hscript : Forall scriptUpdate script) by script_updates
       end.
  all: destruct (Server.roundEnd_scriptUpdates _ _ _ _ _ Hscript Hend) as [Htaken Hrejected].
  all: pose proof (Forall_impl _ _ _ Htaken scriptUpdate_scripted) as Htaken'.
  all: pose proof (Forall_impl _ _ _ Hrejected scriptUpdate_scripted) as Hrejected'.
  all: destruct (roundEnd_statuses _ _ _ _ Hend) as (Hprefix & Hfull & _).
  - by apply (canonical_observations _ _ _ _ _ (λ x, x)).
  - by apply (canonical_observations _ _ _ _ _
                (λ x, pushData _ (addLink _ x))).
  - exists (omap u_status taken).
    split; [by apply (canonical_observations _ _ _ _ _ (λ x, x)) |].
    left.
    destruct (Server.rejectUpdates_frame W (apiValue category) rejected
                (setWorld w' (applyUpdates (apiValue category) taken s)))
      as (_ & _ & -> & _).
    change (Server.collectedData W (Server.setWorld W w' ?x))
      with (Server.collectedData W x).
    destruct (Server.applyUpdates_frame W (apiValue category) taken s) as (_ & _ & -> & _).
    split; [done |]. split; [done |]. intros Hr. by rewrite (Hfull Hr).
  - exists (omap u_status taken).
    split; [by apply (canonical_observations _ _ _ _ _
                        (λ x, pushData _ (addLink _ x))) |].
    right. exists {| taskId := apiValue category; analysis := a; article := chosen |}.
    split; [reflexivity |].
    match goal with
    | |- context [Server.rejectUpdates W ?i ?j ?x] =>
        destruct (Server.rejectUpdates_frame W i j x) as (_ & _ & -> & _)
    end.
    change (Server.collectedData W
              (Server.pushData W ?d (Server.addLink W ?l (Server.setWorld W ?w ?x))))
      with (Server.collectedData W x ++ [d]).
    destruct (Server.applyUpdates_frame W (apiValue category) taken s) as (_ & _ & -> & _).
    split; [done |]. split; [done |]. intros Hr. by rewrite (Hfull Hr).
Qed.

(** What a round of phase 2 does, however it ends. *)
Lemma processRound data s :
  taskId data ∈ ids s →
  ids (processItem data s).1 = ids s
  ∧ collectedData (processItem data s).1 = collectedData s
  ∧ ∃ sts script,
      processScript (Js.falsy (Article.image_url (article data))) script
      ∧ trace (processItem data s).1 = trace s ++ map (pair (taskId data)) sts
      ∧ sts `prefix_of` omap u_status script
      ∧ ((processItem data s).2 = inr (Some tt) → sts = omap u_status script).
Proof.
  intros Hin.
  destruct (processItem_canonical data s)
    as (w' & taken & rejected & Hstate & Hend).
  assert (Hforms : ∃ script,
            processScript (Js.falsy (Article.image_url (article data))) script
            ∧ Forall scripted taken ∧ Forall scripted rejected
            ∧ omap u_status taken `prefix_of` omap u_status script
            ∧ ((processItem data s).2 = inr (Some tt) → taken = script)).
  { destruct Hend as [(script & Hscript & Hend) | (Hnever & -> & -> & _)].
    - exists script. split; [done |].
      pose proof (processScript_scriptUpdates _ _ Hscript) as Hupdates.
      destruct (Server.roundEnd_scriptUpdates _ _ _ _ _ Hupdates Hend)
        as [Htaken Hrejected].
      pose proof (Forall_impl _ _ _ Htaken scriptUpdate_scripted) as Htaken'.
      pose proof (Forall_impl _ _ _ Hrejected scriptUpdate_scripted) as Hrejected'.
      destruct (roundEnd_statuses _ _ _ _ Hend) as (Hprefix & Hfull & _).
      done.
    - exists (statusOnly PROCESSING
              :: (if Js.falsy (Article.image_url (article data))
                  then [statusOnly GENERATING_IMAGE] else [])
              ++ [statusOnly COMPOSING; errorUpdates ""]).
      split; [exact (acquired _ _ (composeFailed "")) |].
      split; [destruct (Js.falsy _); repeat constructor; simpl; eauto |].
      split; [constructor |].
      split; [destruct (Js.falsy _); by eexists [_] |].
      rewrite Hnever. discriminate. }
  destruct Hforms as (script & Hscript & Htaken & Hrejected & Hprefix & Hfull).
  rewrite Hstate.
  destruct (canonical_observations (taskId data) taken rejected w' s (λ x, x)
              Hin Htaken Hrejected ltac:(done)) as [Hids Htrace].
  split; [exact Hids |].
  split.
  { destruct (Server.rejectUpdates_frame W (taskId data) rejected
                (setWorld w' (applyUpdates (taskId data) taken s)))
      as (_ & _ & -> & _).
    change (Server.collectedData W (Server.setWorld W w' ?x))
      with (Server.collectedData W x).
    apply Server.applyUpdates_frame. }
  exists (omap u_status taken), script.
  split; [done |]. split; [exact Htrace |]. split; [done |].
  intros Hr. by rewrite (Hfull Hr).
Qed.

Lemma forEach_cons {A} (body : A → Run State unit) x xs s :
  Run.forEach (x :: xs) body s =
    match body x s with
    | (s1, inr (Some _)) => Run.forEach xs body s1
    | (s1, inr None) => (s1, inr None)
    | (s1, inl e) => (s1, inl e)
    end.
Proof. reflexivity. Qed.

Lemma statuses_round taskId i sts s s' :
  trace s' = trace s ++ map (pair taskId) sts →
  statuses i s' = statuses i s ++ (if decide (taskId = i) then sts else []).
Proof.
  intros Htrace. unfold statuses. by rewrite Htrace, statusesIn_app, statusesIn_pair.
Qed.

(** *** Phase 1 *)

(** What phase 1 streams for each category, however it ends: GATHERING
    and then GATHERED for a category whose article is collected, GATHERING
    and then ERROR for another; all of it if the phase returns, and the
    first of it otherwise. *)
Lemma gather_loop_statuses categories s :
  NoDup (map apiValue categories) →
  (∀ c, c ∈ categories → apiValue c ∈ ids s) →
  ids (Run.forEach categories gatherCategory s).1 = ids s
  ∧ (Run.forEach categories gatherCategory s).2 ≠ inr None
  ∧ ∃ gathered,
      collectedData (Run.forEach categories gatherCategory s).1 =
        collectedData s ++ gathered
      ∧ map taskId gathered `sublist_of` map apiValue categories
      ∧ (∀ i, i ∉ map apiValue categories →
           statuses i (Run.forEach categories gatherCategory s).1 = statuses i s)
      ∧ (∀ c, c ∈ categories →
           ∃ sts,
             statuses (apiValue c) (Run.forEach categories gatherCategory s).1 =
               statuses (apiValue c) s ++ sts
             ∧ ((apiValue c ∈ map taskId gathered
                 ∧ sts `prefix_of` [GATHERING; GATHERED]
                 ∧ ((Run.forEach categories gatherCategory s).2 = inr (Some tt) →
                      sts = [GATHERING; GATHERED]))
                ∨ ((apiValue c ∉ map taskId gathered)
                   ∧ sts `prefix_of` [GATHERING; ERROR]
                   ∧ ((Run.forEach categories gatherCategory s).2 = inr (Some tt) →
                        sts = [GATHERING; ERROR])))).
Proof.
  revert s. induction categories as [| c categories IH]; intros s Hnodup Hpresent.
  { cbn [Run.forEach Run.ret fst snd]. split; [done |]. split; [done |].
    exists []. rewrite app_nil_r. repeat split; try done.
    by intros ? ?%elem_of_nil. }
  apply NoDup_cons in Hnodup as [Hfresh Hnodup].
  destruct (gatherRound c s) as (Hids & Hends & sts & Htrace & Hround);
    [apply Hpresent; by left |].
  pose proof (λ i, statuses_round (apiValue c) i sts s _ Htrace) as Hst.
  assert (Hdistinct : ∀ c', c' ∈ categories → apiValue c ≠ apiValue c').
  { intros c' Hc' E. apply Hfresh. rewrite E. by apply list_elem_of_fmap_2. }
  rewrite forEach_cons.
  destruct (gatherCategory c s) as [s1 r1] eqn:Hrun. cbn [fst snd] in *.
  destruct r1 as [e | [[] |]]; [| | done].
  - (* the run stops in this round *)
    cbn [fst snd]. split; [done |]. split; [done |].
    destruct Hround as [(Hsame & Hprefix & _) | (d & Hd & Hmore & Hprefix & _)].
    + exists []. rewrite app_nil_r. split; [done |].
      split; [apply sublist_nil_l |].
      split.
      { intros i [Hne Hi]%not_elem_of_cons. rewrite Hst, decide_False by done.
        by rewrite app_nil_r. }
      intros c' [-> | Hc']%elem_of_cons.
      * exists sts. rewrite Hst, decide_True by done. split; [done |].
        right. split; [apply not_elem_of_nil | done].
      * exists []. rewrite Hst, decide_False by (by apply Hdistinct).
        split; [done |]. right.
        split; [apply not_elem_of_nil |]. split; [apply prefix_nil | done].
    + exists [d]. split; [done |].
      split; [simpl; rewrite Hd; apply sublist_skip, sublist_nil_l |].
      split.
      { intros i [Hne Hi]%not_elem_of_cons. rewrite Hst, decide_False by done.
        by rewrite app_nil_r. }
      intros c' [-> | Hc']%elem_of_cons.
      * exists sts. rewrite Hst, decide_True by done. split; [done |].
        left. split; [simpl; rewrite Hd; by left | done].
      * exists []. rewrite Hst, decide_False by (by apply Hdistinct).
        split; [done |]. right.
        split; [| split; [apply prefix_nil | done]].
        simpl. rewrite Hd. intros [E | ?%elem_of_nil]%elem_of_cons; [| done].
        by apply (Hdistinct c' Hc').
  - (* the round returns and the loop goes on *)
    destruct (IH s1 Hnodup) as (Hids' & Hends' & gathered & Hcoll & Hsub & Hother & Hall).
    { intros c' Hc'. rewrite Hids. apply Hpresent. by right. }
    split; [congruence |]. split; [done |].
    assert (Hown : ∀ i, i ∈ map taskId gathered → i ∈ map apiValue categories).
    { intros i Hi. by eapply elem_of_sublist. }
    destruct Hround as [(Hsame & _ & Hfull) | (d & Hd & Hmore & _ & Hfull)];
      specialize (Hfull eq_refl); subst sts.
    + exists gathered. split; [by rewrite Hcoll, Hsame |].
      split; [by apply sublist_cons |].
      split.
      { intros i [Hne Hi]%not_elem_of_cons. rewrite Hother, Hst by done.
        rewrite decide_False by done. by rewrite app_nil_r. }
      intros c' [-> | Hc']%elem_of_cons.
      * exists [GATHERING; ERROR]. rewrite Hother, Hst by done.
        rewrite decide_True by done. split; [done |].
        right. split; [intros Hin; by apply Hfresh, Hown | done].
      * destruct (Hall c' Hc') as (sts' & Hst' & Hcase). exists sts'.
        rewrite Hst', Hst, decide_False by (by apply Hdistinct).
        by rewrite app_nil_r.
    + exists (d :: gathered). split; [by rewrite Hcoll, Hmore, <- app_assoc |].
      split; [simpl; rewrite Hd; by apply sublist_skip |].
      split.
      { intros i [Hne Hi]%not_elem_of_cons. rewrite Hother, Hst by done.
        rewrite decide_False by done. by rewrite app_nil_r. }
      intros c' [-> | Hc']%elem_of_cons.
      * exists [GATHERING; GATHERED]. rewrite Hother, Hst by done.
        rewrite decide_True by done. split; [done |].
        left. split; [simpl; rewrite Hd; by left | done].
      * destruct (Hall c' Hc') as (sts' & Hst' & Hcase). exists sts'.
        rewrite Hst', Hst, decide_False by (by apply Hdistinct).
        rewrite app_nil_r. split; [done |].
        destruct Hcase as [(Hin & Hrest) | (Hin & Hrest)]; [left | right].
        -- split; [simpl; by right | done].
        -- split; [| done]. simpl. rewrite not_elem_of_cons, Hd. split; [| done].
           intros E. by apply (Hdistinct c' Hc').
Qed.

(** *** Phase 2 *)

Lemma processScript_exists generated :
  processScript generated
    (statusOnly PROCESSING
     :: (if generated then [statusOnly GENERATING_IMAGE] else [])
     ++ [statusOnly COMPOSING; errorUpdates ""]).
Proof. exact (acquired _ _ (composeFailed "")). Qed.

(** What phase 2 streams for each item, however it ends: the statuses of
    a script; all of them if the phase returns, and the first of them
    otherwise. *)
Lemma process_loop_statuses items s :
  NoDup (map taskId items) →
  (∀ d, d ∈ items → taskId d ∈ ids s) →
  ids (Run.forEach items processItem s).1 = ids s
  ∧ collectedData (Run.forEach items processItem s).1 = collectedData s
  ∧ (∀ i, i ∉ map taskId items →
       statuses i (Run.forEach items processItem s).1 = statuses i s)
  ∧ (∀ d, d ∈ items →
       ∃ sts script,
         processScript (Js.falsy (Article.image_url (article d))) script
         ∧ statuses (taskId d) (Run.forEach items processItem s).1 =
             statuses (taskId d) s ++ sts
         ∧ sts `prefix_of` omap u_status script
         ∧ ((Run.forEach items processItem s).2 = inr (Some tt) →
              sts = omap u_status script)).
Proof.
  revert s. induction items as [| d items IH]; intros s Hnodup Hpresent.
  { cbn [Run.forEach Run.ret fst snd]. repeat split; try done.
    by intros ? ?%elem_of_nil. }
  apply NoDup_cons in Hnodup as [Hfresh Hnodup].
  destruct (processRound d s) as (Hids & Hcoll & sts & script & Hscript & Htrace
                                  & Hprefix & Hfull); [apply Hpresent; by left |].
  pose proof (λ i, statuses_round (taskId d) i sts s _ Htrace) as Hst.
  assert (Hdistinct : ∀ d', d' ∈ items → taskId d ≠ taskId d').
  { intros d' Hd' E. apply Hfresh. rewrite E. by apply list_elem_of_fmap_2. }
  rewrite forEach_cons.
  destruct (processItem d s) as [s1 r1] eqn:Hrun. cbn [fst snd] in *.
  assert (Hstopped : r1 ≠ inr (Some tt) →
    ids s1 = ids s
    ∧ collectedData s1 = collectedData s
    ∧ (∀ i, i ∉ map taskId (d :: items) → statuses i s1 = statuses i s)
    ∧ (∀ d', d' ∈ d :: items →
         ∃ sts' script',
           processScript (Js.falsy (Article.image_url (article d'))) script'
           ∧ statuses (taskId d') s1 = statuses (taskId d') s ++ sts'
           ∧ sts' `prefix_of` omap u_status script'
           ∧ (r1 = inr (Some tt) → sts' = omap u_status script'))).
  { intros Hr1. split; [done |]. split; [done |]. split.
    { intros i [Hne Hi]%not_elem_of_cons. rewrite Hst, decide_False by done.
      by rewrite app_nil_r. }
    intros d' [-> | Hd']%elem_of_cons.
    - exists sts, script. rewrite Hst, decide_True by done. done.
    - eexists [], _. split; [apply processScript_exists |].
      rewrite Hst, decide_False by (by apply Hdistinct).
      split; [done |]. split; [apply prefix_nil | done]. }
  destruct r1 as [e | [[] |]]; [by apply Hstopped | | by apply Hstopped].
  clear Hstopped. specialize (Hfull eq_refl). subst sts.
  destruct (IH s1 Hnodup) as (Hids' & Hcoll' & Hother & Hall).
  { intros d' Hd'. rewrite Hids. apply Hpresent. by right. }
  split; [congruence |]. split; [congruence |]. split.
  { intros i [Hne Hi]%not_elem_of_cons. rewrite Hother, Hst by done.
    rewrite decide_False by done. by rewrite app_nil_r. }
  intros d' [-> | Hd']%elem_of_cons.
  - exists (omap u_status script), script. split; [done |].
    rewrite Hother, Hst by done. by rewrite decide_True.
  - destruct (Hall d' Hd') as (sts' & script' & Hscript' & Hst' & Hrest).
    exists sts', script'. split; [done |].
    rewrite Hst', Hst, decide_False by (by apply Hdistinct). by rewrite app_nil_r.
Qed.

Lemma statuses_initialState w c :
  NoDup (map apiValue NEWS_CATEGORIES) → c ∈ NEWS_CATEGORIES →
  statuses (apiValue c) (initialState w) = [PENDING].
Proof.
  unfold statuses, statusesIn, Server.trace, Server.initialState. cbn [Server.stream].
  rewrite map_map. cbn [pendingTask Task.id Task.status].
  induction NEWS_CATEGORIES as [| c' cs IH]; [by intros _ ?%elem_of_nil |].
  intros [Hfresh Hnodup]%NoDup_cons Hc. rewrite fmap_cons, filter_cons. cbn [fst].
  destruct (decide (apiValue c' = apiValue c)) as [E | Hne].
  - simpl. f_equal.
    assert (Hnone : ∀ l : list Category, apiValue c ∉ map apiValue l →
      map snd (filter (λ p : string * TaskStatus, p.1 = apiValue c)
                 (map (λ x, (apiValue x, PENDING)) l)) = []).
    { clear. induction l as [| x l IHl]; [done |].
      intros [Hx Hl]%not_elem_of_cons. rewrite fmap_cons, filter_cons. cbn [fst].
      rewrite decide_False by done. by apply IHl. }
    apply Hnone. by rewrite <- E.
  - apply elem_of_cons in Hc as [-> | Hc]; [done |]. by apply IH.
Qed.

(** The statuses of a task that goes all the way, with or without a
    generated picture. *)
Definition happyPath (generated : bool) : list TaskStatus :=
  [PENDING; GATHERING; GATHERED; PROCESSING]
  ++ (if generated then [GENERATING_IMAGE] else [])
  ++ [COMPOSING; UPLOADING; SENDING_WEBHOOK; DONE].

(** A walk through the life of a task: the whole of it, or the first of
    it and then ERROR, right after GATHERING or from the fifth status
    on. *)
Definition lifecycle (generated : bool) (walk : list TaskStatus) : Prop :=
  walk = happyPath generated
  ∨ ∃ k, (k = 2 ∨ 5 ≤ k < length (happyPath generated))
         ∧ walk = take k (happyPath generated) ++ [ERROR].

Lemma processScript_lifecycle generated updates :
  processScript generated updates →
  lifecycle generated ([PENDING; GATHERING; GATHERED] ++ omap u_status updates).
Proof.
  unfold lifecycle.
  destruct 1 as [message -> | tail Htail].
  - right. exists 5. split; [right; simpl; lia | done].
  - destruct Htail, generated; simpl;
      first [ by left
            | right; exists 5; split; [right; simpl; lia | done]
            | right; exists 6; split; [right; simpl; lia | done]
            | right; exists 7; split; [right; simpl; lia | done]
            | right; exists 8; split; [right; simpl; lia | done] ].
Qed.

(** The statuses of a task over the two phases, as far as the run gets. *)
Lemma handler_statuses w category :
  NoDup (map apiValue NEWS_CATEGORIES) →
  category ∈ NEWS_CATEGORIES →
  ∃ generated walk,
    lifecycle generated walk
    ∧ statuses (apiValue category) (handler w).1 `prefix_of` walk
    ∧ [PENDING] `prefix_of` statuses (apiValue category) (handler w).1
    ∧ ((handler w).2 = inr (Some tt) →
         statuses (apiValue category) (handler w).1 = walk).
Proof.
  intros Hnodup Hc.
  destruct (gather_loop_statuses NEWS_CATEGORIES (initialState w) Hnodup)
    as (Hids & Hends & gathered & Hcoll & Hsub & _ & Hall).
  { intros c Hin. rewrite Server.ids_initialState. by apply list_elem_of_fmap_2. }
  destruct (Hall category Hc) as (sts & Hst & Hcase). clear Hall.
  rewrite (statuses_initialState w category Hnodup Hc) in Hst.
  cbn [Server.initialState Server.collectedData app] in Hcoll.
  destruct (Server.handler_phases W Image NEWS_CATEGORIES LOGO_URL BRAND_TEXT
              OVERLAY_IMAGE_URL fetchLatestBangladeshiNews generateContent
              generateImageFromPrompt uploadToCloudinary sendToMakeWebhook
              skiaLoadImage loadFont measureAt toDataURL earliest clientGone
              invalidState w) as (s1 & r1 & Hphase1 & Hrest).
  unfold Server.phase1 in Hphase1. rewrite Hphase1 in *. cbn [fst snd] in *.
  destruct Hrest as [[Hr1 Hrun] | (-> & s2 & r2 & Hphase2 & Hrest)].
  - (* the run ends in phase 1 *)
    rewrite Hrun. cbn [fst snd]. rewrite Hst.
    destruct Hcase as [(_ & Hprefix & _) | (_ & Hprefix & _)].
    + exists false, (happyPath false). split; [by left |].
      split; [| split; [by exists sts | done]].
      etrans; [apply prefix_app, Hprefix |]. by exists [PROCESSING; COMPOSING; UPLOADING; SENDING_WEBHOOK; DONE].
    + exists false, ([PENDING] ++ [GATHERING; ERROR]).
      split; [right; exists 2; by split; [left |] |].
      split; [by apply prefix_app |].
      split; [by exists sts | done].
  - (* phase 1 returns *)
    assert (Hfinal : statuses (apiValue category) (handler w).1 =
                     statuses (apiValue category) s2).
    { destruct Hrest as [[_ ->] | (_ & [-> | ->])]; done. }
    assert (Hresult : (handler w).2 = inr (Some tt) → r2 = inr (Some tt)).
    { destruct Hrest as [[Hne ->] | (-> & _)]; done. }
    rewrite Hfinal. clear Hfinal Hrest.
    unfold Server.phase2, Run.bind, Run.get in Hphase2. cbn [fst snd] in Hphase2.
    destruct (process_loop_statuses (collectedData s1) s1)
      as (_ & _ & Hother & Hdone).
    { rewrite Hcoll. by eapply sublist_NoDup. }
    { intros d Hd. rewrite Hids, Server.ids_initialState.
      eapply elem_of_sublist; [| exact Hsub]. rewrite <- Hcoll.
      by apply list_elem_of_fmap_2. }
    rewrite Hphase2 in Hother, Hdone. cbn [fst snd] in Hother, Hdone.
    destruct Hcase as [(Hin & _ & Hfull) | (Hnot & _ & Hfull)];
      specialize (Hfull eq_refl); subst sts.
    + apply list_elem_of_fmap in Hin as (d & Hd & Hin). rewrite <- Hcoll in Hin.
      destruct (Hdone d Hin) as (sts & script & Hscript & Hst' & Hprefix & Hfull).
      rewrite <- Hd in Hst'. rewrite Hst', Hst.
      exists (Js.falsy (Article.image_url (article d))),
             ([PENDING; GATHERING; GATHERED] ++ omap u_status script).
      split; [by apply processScript_lifecycle |].
      split; [by apply prefix_app |].
      split; [by exists ([GATHERING; GATHERED] ++ sts) |].
      intros Hret. by rewrite (Hfull (Hresult Hret)).
    + rewrite Hother, Hst by (by rewrite Hcoll).
      exists false, ([PENDING] ++ [GATHERING; ERROR]).
      split; [right; exists 2; by split; [left |] |].
      split; [done |]. split; [by exists [GATHERING; ERROR] | done].
Qed.

(** X20. With categories of distinct ids, the statuses streamed for the
    task of a category, read in order, follow one walk through the life of
    a task: PENDING, GATHERING, GATHERED, PROCESSING, GENERATING_IMAGE if a
    picture is generated, COMPOSING, UPLOADING, SENDING_WEBHOOK, DONE; or
    that walk cut short by ERROR, right after GATHERING or at any point
    from the fifth status on.  A run that returns has streamed the whole
    walk; a run that is stopped (the stream no longer takes records) or
    that never returns (the picture is never composed) has streamed the
    first of it, PENDING at least.  No status comes twice, none is
    skipped, and nothing follows DONE or ERROR. *)
Theorem task_statuses_follow_the_lifecycle (w : W) (category : Category) :
  NoDup (map apiValue NEWS_CATEGORIES) →
  category ∈ NEWS_CATEGORIES →
  let streamed := statuses (apiValue category) (handler w).1 in
  ∃ generated walk,
    (walk = happyPath generated
     ∨ ∃ k, (k = 2 ∨ 5 ≤ k < length (happyPath generated))
            ∧ walk = take k (happyPath generated) ++ [ERROR])
    ∧ streamed `prefix_of` walk
    ∧ [PENDING] `prefix_of` streamed
    ∧ ((handler w).2 = inr (Some tt) → streamed = walk).
Proof. intros Hnodup Hc. exact (handler_statuses w category Hnodup Hc). Qed.

(** ** The page that replays the stream *)

(** What the page holds once its updater has applied the records
    enqueued so far, starting from the list [initializeTasks] sets. *)
Definition replayed (s : State) : StreamClient.AppState :=
  fold_left StreamClient.applyUpdate (stream s)
    (StreamFacts.initializeTasks NEWS_CATEGORIES).

(** The page holds the tasks of the handler, and its count is the number
    of them that are done. *)
Definition mirrored (s : State) : Prop :=
  replayed s =
    {| StreamClient.tasks := tasks s;
       StreamClient.completedCount := StreamFacts.doneCount (tasks s) |}.

(** The task of an id is not done (or there is none). *)
Definition notDone (taskId : string) (s : State) : Prop :=
  ∀ t, recorded taskId s = Some t → Task.status t ≠ DONE.

(** An update the stream takes keeps the page in step. *)
Lemma updateTaskState_mirrored taskId u s :
  NoDup (ids s) → u_id u = None → notDone taskId s →
  mirrored s → mirrored (updateTaskState taskId u s).
Proof.
  intros Hnodup Hid Hnot Hmirror.
  unfold notDone, Server.recorded in Hnot.
  unfold Server.updateTaskState.
  destruct (Server.findIndex taskId (tasks s)) as [[i t] |] eqn:Hfind; [| done].
  apply list_find_Some in Hfind as (Hi & _ & _).
  unfold mirrored, replayed in *.
  cbn [Server.enqueue Server.writeTask Server.stream Server.tasks].
  rewrite fold_left_app, Hmirror. cbn [fold_left].
  apply StreamFacts.applyUpdate_counts_the_done with t; [done | done | | by apply Hnot].
  simpl. by rewrite Hid.
Qed.

Lemma notDone_updated taskId u s :
  scripted u → u_status u ≠ Some DONE → notDone taskId s →
  notDone taskId (updateTaskState taskId u s).
Proof.
  intros [Hid [st Hst]] Hdone Hnot t'.
  destruct (recorded taskId s) as [t |] eqn:Ht.
  - rewrite (Server.updateTaskState_recorded_same W taskId u s t Ht Hid).
    intros [= <-]. simpl. rewrite Hst. simpl. congruence.
  - assert (Hsame : updateTaskState taskId u s = s).
    { unfold Server.updateTaskState. unfold Server.recorded in Ht.
      by destruct (Server.findIndex taskId (tasks s)). }
    rewrite Hsame, Ht. by intros [=].
Qed.

(** A script whose updates before the last do not set DONE. *)
Definition doneOnlyLast (updates : list TaskUpdates) : Prop :=
  Forall (λ u, u_status u ≠ Some DONE) (removelast updates).

Lemma applyUpdates_mirrored taskId updates s :
  NoDup (ids s) → Forall scripted updates → doneOnlyLast updates →
  notDone taskId s → mirrored s → mirrored (applyUpdates taskId updates s).
Proof.
  intros Hnodup Hus. revert s Hnodup.
  induction Hus as [| u updates Hu Hus IH]; intros s Hnodup Hlast Hnot Hmirror; [done |].
  change (applyUpdates taskId (u :: updates) s)
    with (applyUpdates taskId updates (updateTaskState taskId u s)).
  pose proof Hu as [Hid _].
  assert (Hstep : mirrored (updateTaskState taskId u s))
    by (by apply updateTaskState_mirrored).
  destruct updates as [| u' updates]; [done |].
  unfold doneOnlyLast in Hlast.
  change (removelast (u :: u' :: updates)) with (u :: removelast (u' :: updates)) in Hlast.
  apply Forall_cons in Hlast as [Hdone Hlast].
  apply IH; [by rewrite Server.updateTaskState_ids | done | by apply notDone_updated | done].
Qed.

Lemma notDone_script taskId taskId' updates s :
  Forall scripted updates → Forall (λ u, u_status u ≠ Some DONE) updates →
  notDone taskId' s → notDone taskId' (applyUpdates taskId updates s).
Proof.
  intros Hus. revert s.
  induction Hus as [| u updates Hu Hus IH]; intros s Hdone Hnot; [done |].
  apply Forall_cons in Hdone as [Hdone Hrest].
  change (applyUpdates taskId (u :: updates) s)
    with (applyUpdates taskId updates (updateTaskState taskId u s)).
  apply IH; [done |].
  destruct (decide (taskId' = taskId)) as [-> | Hne]; [by apply notDone_updated |].
  intros t. rewrite Server.updateTaskState_recorded_other by (done || apply Hu). apply Hnot.
Qed.

Lemma processScript_doneOnlyLast generated updates :
  processScript generated updates → doneOnlyLast updates.
Proof.
  unfold doneOnlyLast.
  destruct 1 as [message _ | tail Htail]; [by repeat constructor |].
  destruct Htail, generated; by repeat constructor.
Qed.

(** A phase 1 that returns leaves the page in step and no task done. *)
Lemma gather_loop_mirrored categories s final :
  NoDup (ids s) →
  (∀ i, notDone i s) → mirrored s →
  Run.forEach categories gatherCategory s = (final, inr (Some tt)) →
  ids final = ids s ∧ (∀ i, notDone i final) ∧ mirrored final.
Proof.
  revert s. induction categories as [| c categories IH]; intros s Hnodup Hnone Hmirror Hrun.
  { by injection Hrun as <-. }
  apply Server.forEach_returned in Hrun as (s1 & Hround & Hrest).
  assert (Hshape : ∃ updates,
    Forall scripted updates ∧ Forall (λ u, u_status u ≠ Some DONE) updates
    ∧ tasks s1 = tasks (applyUpdates (apiValue c) updates s)
    ∧ stream s1 = stream (applyUpdates (apiValue c) updates s)).
  { apply Server.gatherCategory_returned in Hround
      as [(w' & message & ->) | (w' & a & chosen & _ & _ & ->)].
    - exists [statusOnly GATHERING; errorUpdates message].
      split; [repeat constructor; simpl; eauto |]. split; [by repeat constructor | done].
    - exists [statusOnly GATHERING; statusOnly GATHERED].
      split; [repeat constructor; simpl; eauto |]. split; [by repeat constructor | done]. }
  destruct Hshape as (us & Hus & Hdone & Htasks & Hstream).
  assert (Hids : ids s1 = ids s).
  { unfold Server.ids. rewrite Htasks. by apply (Server.applyUpdates_ids W). }
  destruct (IH s1) as (Hids' & Hnone' & Hmirror'); [| | | done |].
  - by rewrite Hids.
  - intros i t. unfold Server.recorded. rewrite Htasks.
    by apply (notDone_script (apiValue c) i us s).
  - unfold mirrored, replayed. rewrite Htasks, Hstream.
    apply applyUpdates_mirrored; try done.
    unfold doneOnlyLast. clear -Hdone. induction Hdone as [| u [| u' us] ? ? IH]; try done.
    change (removelast (u :: u' :: us)) with (u :: removelast (u' :: us)). by constructor.
  - split; [congruence | done].
Qed.

(** A phase 2 that returns finishes each task once, the page in step. *)
Lemma process_loop_mirrored items s final :
  NoDup (ids s) → NoDup (map taskId items) →
  (∀ d, d ∈ items → notDone (taskId d) s) → mirrored s →
  Run.forEach items processItem s = (final, inr (Some tt)) →
  mirrored final.
Proof.
  revert s. induction items as [| d items IH]; intros s Hnodup Hitems Hnone Hmirror Hrun.
  { by injection Hrun as <-. }
  apply NoDup_cons in Hitems as [Hfresh Hitems].
  apply Server.forEach_returned in Hrun as (s1 & Hround & Hrest).
  apply Server.processItem_returned in Hround as (w' & us & Hscript & ->).
  pose proof (processScript_scripted _ _ Hscript) as Hus.
  apply (IH (setWorld w' (applyUpdates (taskId d) us s))); [| done | | | done].
  - change (ids (setWorld w' (applyUpdates (taskId d) us s)))
      with (ids (applyUpdates (taskId d) us s)).
    by rewrite Server.applyUpdates_ids.
  - intros d' Hd' t.
    change (recorded (taskId d') (setWorld w' (applyUpdates (taskId d) us s)))
      with (recorded (taskId d') (applyUpdates (taskId d) us s)).
    rewrite Server.applyUpdates_recorded_other; [by apply Hnone; right | | done].
    intros E. apply Hfresh. rewrite <- E. by apply list_elem_of_fmap_2.
  - change (mirrored (applyUpdates (taskId d) us s)).
    apply applyUpdates_mirrored; try done.
    + by eapply processScript_doneOnlyLast.
    + apply Hnone. by left.
Qed.

Lemma doneCount_pending categories :
  StreamFacts.doneCount (map pendingTask categories) = 0.
Proof.
  induction categories as [| c categories IH]; [done |].
  cbn [map]. by rewrite StreamFacts.doneCount_cons, IH.
Qed.

Lemma initialState_mirrored w :
  NoDup (map apiValue NEWS_CATEGORIES) → mirrored (initialState w).
Proof.
  intros Hnodup. unfold mirrored, replayed, StreamFacts.initializeTasks.
  cbn [Server.initialState Server.stream Server.tasks].
  rewrite doneCount_pending.
  set (ts := map pendingTask NEWS_CATEGORIES).
  assert (Hids : NoDup (map Task.id ts)) by (subst ts; by rewrite map_map).
  assert (Hkeep : ∀ records, Forall (λ r, r ∈ ts ∧ Task.status r ≠ DONE) records →
    fold_left StreamClient.applyUpdate records
      {| StreamClient.tasks := ts; StreamClient.completedCount := 0 |} =
      {| StreamClient.tasks := ts; StreamClient.completedCount := 0 |}).
  { induction 1 as [| r records [Hin Hst] _ IH]; [done |].
    cbn [fold_left]. apply list_elem_of_lookup in Hin as [i Hi].
    rewrite (StreamFacts.applyUpdate_insert ts 0 i r r) by done.
    rewrite list_insert_id by done.
    by rewrite (bool_decide_eq_false_2 (Task.status r = DONE)). }
  apply Hkeep. apply Forall_forall. intros r Hr. split; [done |].
  subst ts. apply list_elem_of_fmap in Hr as (c & -> & _). done.
Qed.

(** A run that returns leaves the page in step with its task list. *)
Lemma handler_mirrored w :
  NoDup (map apiValue NEWS_CATEGORIES) →
  (handler w).2 = inr (Some tt) →
  mirrored (handler w).1.
Proof.
  intros Hnodup Hret.
  destruct (handler w) as [final r] eqn:Hrun. cbn [fst snd] in *. subst r.
  apply Server.handler_returned in Hrun as (s1 & Hphase1 & Hphase2 & _).
  unfold Server.phase1 in Hphase1.
  unfold Server.phase2, Run.bind, Run.get in Hphase2. cbn [fst snd] in Hphase2.
  set (s0 := initialState w) in *.
  assert (Hids0 : NoDup (ids s0)) by (subst s0; by rewrite Server.ids_initialState).
  destruct (gather_loop_mirrored NEWS_CATEGORIES s0 s1 Hids0) as (Hids1 & Hnone & Hmirror);
    [| by apply initialState_mirrored | done |].
  { intros i t. subst s0. unfold Server.recorded, Server.findIndex.
    cbn [Server.initialState Server.tasks].
    destruct (list_find _ _) as [[j t'] |] eqn:Hfind; [| done].
    apply list_find_Some in Hfind as (Hj & _ & _). intros [= <-].
    apply list_elem_of_lookup_2, list_elem_of_fmap in Hj as (c & -> & _). done. }
  destruct (gather_loop_statuses NEWS_CATEGORIES s0 Hnodup)
    as (_ & _ & gathered & Hcoll & Hsub & _).
  { intros c Hin. subst s0. rewrite Server.ids_initialState.
    by apply list_elem_of_fmap_2. }
  rewrite Hphase1 in Hcoll. cbn [fst] in Hcoll.
  subst s0. cbn [Server.initialState Server.collectedData app] in Hcoll.
  apply (process_loop_mirrored (collectedData s1) s1 final); try done.
  - by rewrite Hids1.
  - rewrite Hcoll. eapply sublist_NoDup; [exact Hnodup | exact Hsub].
Qed.

(** ** From the handler to the page *)

Section Streamed.
(** The page: its own world, its parser, and what the handler's
    [JSON.stringify] writes. *)
Variable V : Type.
Variable JSON_parse : string → option StreamClient.Parsed.
Variable JSON_stringify : Task.BatchTask → string.
Variable pageFetch : Exec V StreamFacts.Response.

(** X21. Take categories of distinct ids, a run of the handler that
    returns (so that the stream took every record and was closed), whose
    records all survive the wire, and a run of the page whose request is
    answered ok with a body that carries the handler's records and is read
    to the end.  Then, however the body is cut into chunks, the page stays
    on the screen and ends showing exactly the task list the handler ends
    with, its completed count the number of tasks that are DONE, and it
    is no longer processing. *)
Theorem page_shows_the_final_tasks (w : W) (v : V) (page : StreamFacts.Page)
    (chunks : list string) :
  NoDup (map apiValue NEWS_CATEGORIES) →
  (handler w).2 = inr (Some tt) →
  Forall (StreamFacts.readable JSON_parse JSON_stringify) (stream (handler w).1) →
  StreamFacts.isProcessing page = false →
  StreamFacts.bodyRead V pageFetch v chunks None →
  Js.concat chunks = StreamFacts.wire JSON_stringify (stream (handler w).1) →
  (StreamFacts.handleStartAutomation V NEWS_CATEGORIES JSON_parse pageFetch page v).1 =
    StreamClient.Mounted
      {| StreamFacts.shown :=
           {| StreamClient.tasks := tasks (handler w).1;
              StreamClient.completedCount := StreamFacts.doneCount (tasks (handler w).1) |};
         StreamFacts.isProcessing := false |}.
Proof.
  intros Hnodup Hret Hreadable Hidle (v' & response & Hfetch & Hok & Hbody) Hwire.
  unfold StreamFacts.handleStartAutomation, StreamFacts.readResponse.
  rewrite Hidle, Hfetch, Hok, Hbody. cbn [negb].
  rewrite (StreamFacts.readStream_wire JSON_parse JSON_stringify chunks
             (stream (handler w).1)) by done.
  cbn [StreamClient.app fst]. do 2 f_equal. apply (handler_mirrored w Hnodup Hret).
Qed.

End Streamed.

(** ** The two phases on the stream *)

(** The statuses a record of phase 1 can carry, and those a record of
    phase 2 can. *)
Definition gatherStatus (status : TaskStatus) : Prop :=
  status = GATHERING ∨ status = GATHERED ∨ status = ERROR.

Definition processStatus (status : TaskStatus) : Prop :=
  status ≠ PENDING ∧ status ≠ GATHERING ∧ status ≠ GATHERED.

(** The ids under which a [PROCESSING] record was enqueued, in order. *)
Definition processingIds (tr : list (string * TaskStatus)) : list string :=
  map fst (filter (λ p, p.2 = PROCESSING) tr).

Lemma processingIds_app tr1 tr2 :
  processingIds (tr1 ++ tr2) = processingIds tr1 ++ processingIds tr2.
Proof. unfold processingIds. by rewrite filter_app, map_app. Qed.

Lemma Forall_prefix {A} (P : A → Prop) (l k : list A) :
  l `prefix_of` k → Forall P k → Forall P l.
Proof. intros [rest ->] Hall. by apply Forall_app in Hall as [Hl _]. Qed.

Lemma gather_loop_trace categories s :
  (∀ c, c ∈ categories → apiValue c ∈ ids s) →
  ids (Run.forEach categories gatherCategory s).1 = ids s
  ∧ ∃ tr gathered,
      trace (Run.forEach categories gatherCategory s).1 = trace s ++ tr
      ∧ Forall (λ p, gatherStatus p.2) tr
      ∧ collectedData (Run.forEach categories gatherCategory s).1 =
          collectedData s ++ gathered
      ∧ map taskId gathered `sublist_of` map apiValue categories.
Proof.
  revert s. induction categories as [| c categories IH]; intros s Hpresent.
  { cbn [Run.forEach Run.ret fst]. split; [done |]. exists [], [].
    by rewrite !app_nil_r. }
  destruct (gatherRound c s) as (Hids & Hends & sts & Htrace & Hround);
    [apply Hpresent; by left |].
  assert (Hsts : Forall (λ p : string * TaskStatus, gatherStatus p.2)
                   (map (pair (apiValue c)) sts)).
  { apply Forall_map. cbn [snd].
    destruct Hround as [(_ & Hprefix & _) | (d & _ & _ & Hprefix & _)];
      (eapply Forall_prefix; [exact Hprefix |]);
      unfold gatherStatus; apply Forall_forall; intros x Hx;
      repeat (apply elem_of_cons in Hx as [-> | Hx]; [auto |]);
      by apply elem_of_nil in Hx. }
  assert (Hcoll : ∃ one,
    collectedData (gatherCategory c s).1 = collectedData s ++ one
    ∧ ∀ rest, rest `sublist_of` map apiValue categories →
        map taskId one ++ rest `sublist_of` map apiValue (c :: categories)).
  { destruct Hround as [(Hsame & _) | (d & Hd & Hmore & _)].
    - exists []. rewrite app_nil_r. split; [done |]. intros rest Hrest.
      by apply sublist_cons.
    - exists [d]. split; [done |]. intros rest Hrest. simpl. rewrite Hd.
      by apply sublist_skip. }
  destruct Hcoll as (one & Hone & Hsub).
  rewrite forEach_cons.
  destruct (gatherCategory c s) as [s1 r1] eqn:Hrun. cbn [fst snd] in *.
  assert (Hstopped :
    ids s1 = ids s
    ∧ ∃ tr gathered,
        trace s1 = trace s ++ tr
        ∧ Forall (λ p, gatherStatus p.2) tr
        ∧ collectedData s1 = collectedData s ++ gathered
        ∧ map taskId gathered `sublist_of` map apiValue (c :: categories)).
  { split; [done |]. exists (map (pair (apiValue c)) sts), one.
    split; [done |]. split; [done |]. split; [done |].
    rewrite <- (app_nil_r (map taskId one)). apply Hsub, sublist_nil_l. }
  destruct r1 as [e | [[] |]]; [done | | done]. clear Hstopped.
  destruct (IH s1) as (Hids' & tr & gathered & Htrace' & Htr & Hcoll & Hsub').
  { intros c' Hc'. rewrite Hids. apply Hpresent. by right. }
  split; [congruence |].
  exists (map (pair (apiValue c)) sts ++ tr), (one ++ gathered).
  split; [by rewrite Htrace', Htrace, <- app_assoc |].
  split; [by apply Forall_app |].
  split; [by rewrite Hcoll, Hone, <- app_assoc |].
  rewrite map_app. by apply Hsub.
Qed.

Lemma processScript_processStatus generated updates :
  processScript generated updates →
  Forall processStatus (omap u_status updates)
  ∧ filter (λ status, status = PROCESSING) (omap u_status updates) = [PROCESSING].
Proof.
  destruct 1 as [message _ | tail Htail].
  - split; [by repeat constructor | done].
  - destruct Htail, generated; (split; [by repeat constructor | done]).
Qed.

Lemma processingIds_script taskId statuses :
  processingIds (map (pair taskId) statuses) =
    map (λ _, taskId) (filter (λ status, status = PROCESSING) statuses).
Proof.
  unfold processingIds. induction statuses as [| status statuses IH]; [done |].
  cbn [map]. rewrite !filter_cons. cbn [snd].
  destruct (decide (status = PROCESSING)); cbn [map fst]; by rewrite IH.
Qed.

Lemma process_loop_trace items s :
  (∀ d, d ∈ items → taskId d ∈ ids s) →
  collectedData (Run.forEach items processItem s).1 = collectedData s
  ∧ ∃ tr, trace (Run.forEach items processItem s).1 = trace s ++ tr
          ∧ Forall (λ p, processStatus p.2) tr
          ∧ processingIds tr `prefix_of` map taskId items
          ∧ ((Run.forEach items processItem s).2 = inr (Some tt) →
               processingIds tr = map taskId items).
Proof.
  revert s. induction items as [| d items IH]; intros s Hpresent.
  { cbn [Run.forEach Run.ret fst snd]. split; [done |]. exists [].
    by rewrite app_nil_r. }
  destruct (processRound d s) as (Hids & Hcoll & sts & script & Hscript & Htrace
                                  & Hprefix & Hfull); [apply Hpresent; by left |].
  destruct (processScript_processStatus _ _ Hscript) as [Hstatuses Hone].
  assert (Hsts : Forall (λ p : string * TaskStatus, processStatus p.2)
                   (map (pair (taskId d)) sts)).
  { apply Forall_map. cbn [snd]. by eapply Forall_prefix. }
  assert (Hfirst : processingIds (map (pair (taskId d)) sts) `prefix_of` [taskId d]).
  { rewrite processingIds_script. destruct Hprefix as [rest Hrest].
    rewrite Hrest, filter_app in Hone.
    destruct (filter _ sts) as [| status [| ? ?]]; [apply prefix_nil | | done].
    injection Hone as -> _. done. }
  rewrite forEach_cons.
  destruct (processItem d s) as [s1 r1] eqn:Hrun. cbn [fst snd] in *.
  assert (Hstopped : r1 ≠ inr (Some tt) →
    collectedData s1 = collectedData s
    ∧ ∃ tr, trace s1 = trace s ++ tr
            ∧ Forall (λ p, processStatus p.2) tr
            ∧ processingIds tr `prefix_of` map taskId (d :: items)
            ∧ (r1 = inr (Some tt) → processingIds tr = map taskId (d :: items))).
  { intros Hr1. split; [done |]. exists (map (pair (taskId d)) sts).
    split; [done |]. split; [done |]. split; [| done].
    etrans; [exact Hfirst |]. by exists (map taskId items). }
  destruct r1 as [e | [[] |]]; [by apply Hstopped | | by apply Hstopped].
  clear Hstopped. specialize (Hfull eq_refl). subst sts.
  destruct (IH s1) as (Hcoll' & tr & Htrace' & Htr & Horder & Hall).
  { intros d' Hd'. rewrite Hids. apply Hpresent. by right. }
  split; [congruence |].
  exists (map (pair (taskId d)) (omap u_status script) ++ tr).
  split; [by rewrite Htrace', Htrace, <- app_assoc |].
  split; [by apply Forall_app |].
  rewrite processingIds_app, processingIds_script, Hone. cbn [map app].
  split; [by apply prefix_cons |].
  intros Hret. by rewrite (Hall Hret).
Qed.

(** X22. The stream of a run, as far as the run gets, is made of three
    stretches: the PENDING record of every category; then the records of
    phase 1, which carry GATHERING, GATHERED or ERROR only; then the
    records of phase 2, none of which carries PENDING, GATHERING or
    GATHERED.  So no item is processed before every category has been
    gathered.  Phase 2 takes up the collected items in the order they were
    collected, each once, and that order follows the order of the
    categories; a run that returns has taken up every one of them, and a
    run that is stopped or that never returns the first of them. *)
Theorem gathering_precedes_processing (w : W) :
  let s := (handler w).1 in
  ∃ gathering processing,
    trace s = map (λ c, (apiValue c, PENDING)) NEWS_CATEGORIES ++ gathering ++ processing
    ∧ Forall (λ p, gatherStatus p.2) gathering
    ∧ Forall (λ p, processStatus p.2) processing
    ∧ processingIds processing `prefix_of` map taskId (collectedData s)
    ∧ ((handler w).2 = inr (Some tt) →
         processingIds processing = map taskId (collectedData s))
    ∧ map taskId (collectedData s) `sublist_of` map apiValue NEWS_CATEGORIES.
Proof.
  intros s. subst s.
  set (s0 := initialState w).
  assert (Hpresent : ∀ c, c ∈ NEWS_CATEGORIES → apiValue c ∈ ids s0).
  { intros c Hc. subst s0. rewrite Server.ids_initialState. by apply list_elem_of_fmap_2. }
  assert (Hstart : trace s0 = map (λ c, (apiValue c, PENDING)) NEWS_CATEGORIES).
  { subst s0. unfold Server.trace, Server.initialState. cbn [Server.stream].
    by rewrite map_map. }
  destruct (gather_loop_trace NEWS_CATEGORIES s0 Hpresent)
    as (Hids1 & tr1 & gathered & Htrace1 & Htr1 & Hgathered & Hsub).
  destruct (Server.handler_phases W Image NEWS_CATEGORIES LOGO_URL BRAND_TEXT
              OVERLAY_IMAGE_URL fetchLatestBangladeshiNews generateContent
              generateImageFromPrompt uploadToCloudinary sendToMakeWebhook
              skiaLoadImage loadFont measureAt toDataURL earliest clientGone
              invalidState w) as (s1 & r1 & Hphase1 & Hrest).
  unfold Server.phase1 in Hphase1. fold s0 in Hphase1.
  rewrite Hphase1 in *. cbn [fst snd] in *.
  assert (Hcollected : collectedData s1 = gathered) by (by rewrite Hgathered).
  destruct Hrest as [[Hr1 Hrun] | (-> & s2 & r2 & Hphase2 & Hrest)].
  - (* the run ends in phase 1 *)
    rewrite Hrun. cbn [fst snd]. exists tr1, [].
    rewrite app_nil_r. split; [by rewrite Htrace1, Hstart |].
    split; [done |]. split; [done |]. split; [apply prefix_nil |].
    split; [done |]. by rewrite Hcollected.
  - (* phase 1 returns *)
    unfold Server.phase2, Run.bind, Run.get in Hphase2. cbn [fst snd] in Hphase2.
    assert (Hpresent1 : ∀ d, d ∈ collectedData s1 → taskId d ∈ ids s1).
    { intros d Hd. rewrite Hids1. subst s0. rewrite Server.ids_initialState.
      eapply elem_of_sublist; [| exact Hsub]. rewrite <- Hcollected.
      by apply list_elem_of_fmap_2. }
    destruct (process_loop_trace (collectedData s1) s1 Hpresent1)
      as (Hcoll & tr2 & Htrace2 & Htr2 & Horder & Hall).
    rewrite Hphase2 in *. cbn [fst snd] in *.
    assert (Hfinal : trace (handler w).1 = trace s2
                     ∧ collectedData (handler w).1 = collectedData s2).
    { destruct Hrest as [[_ ->] | (_ & [-> | ->])]; done. }
    assert (Hresult : (handler w).2 = inr (Some tt) → r2 = inr (Some tt)).
    { destruct Hrest as [[Hne ->] | (-> & _)]; done. }
    destruct Hfinal as [-> ->]. rewrite Hcoll.
    exists tr1, tr2. split; [by rewrite Htrace2, Htrace1, Hstart, <- app_assoc |].
    split; [done |]. split; [done |]. split; [done |].
    split; [by intros Hret; apply Hall, Hresult |]. by rewrite Hcollected.
Qed.

End Run.

End ServerFacts.

(* ===================================================================== *)
(** * The browser component: the run as a whole *)
(* ===================================================================== *)
Module ClientFacts.

(** The ids and statuses of a list of tasks, and the list after the
    status of an id is set. *)
Definition shape (ts : list Task.BatchTask) : list (string * TaskStatus) :=
  map (λ t, (Task.id t, Task.status t)) ts.

Definition setStatus (taskId : string) (status : TaskStatus)
    (sh : list (string * TaskStatus)) : list (string * TaskStatus) :=
  map (λ p : string * TaskStatus, if String.eqb p.1 taskId then (p.1, status) else p) sh.

Definition doneIn (sh : list (string * TaskStatus)) : nat :=
  length (filter (λ p : string * TaskStatus, p.2 = DONE) sh).

Lemma keys_shape ts : map fst (shape ts) = map Task.id ts.
Proof. unfold shape. by rewrite map_map. Qed.

Lemma keys_setStatus taskId status sh : map fst (setStatus taskId status sh) = map fst sh.
Proof.
  unfold setStatus. rewrite map_map. apply map_ext. intros p.
  by destruct (String.eqb p.1 taskId).
Qed.

Lemma setStatus_absent taskId status sh :
  taskId ∉ map fst sh → setStatus taskId status sh = sh.
Proof.
  induction sh as [| p sh IH]; [done |].
  cbn [map]. intros [Hp Hsh]%not_elem_of_cons. unfold setStatus in *. cbn [map].
  rewrite IH by done.
  destruct (String.eqb_spec p.1 taskId) as [E | E]; [by destruct Hp | done].
Qed.

Lemma setStatus_twice taskId status status' sh :
  setStatus taskId status' (setStatus taskId status sh) = setStatus taskId status' sh.
Proof.
  unfold setStatus. rewrite map_map. apply map_ext. intros p.
  destruct (String.eqb p.1 taskId) eqn:E; cbn [fst]; by rewrite E.
Qed.

Lemma setStatus_elem taskId status sh j x :
  (j, x) ∈ setStatus taskId status sh →
  (j = taskId ∧ x = status) ∨ (j ≠ taskId ∧ (j, x) ∈ sh).
Proof.
  unfold setStatus. intros (p & Hp & Hin)%list_elem_of_fmap.
  destruct (String.eqb_spec p.1 taskId) as [E | E].
  - left. by injection Hp as -> ->.
  - right. subst p. by split.
Qed.

Lemma setStatus_other taskId status sh j x :
  j ≠ taskId → (j, x) ∈ sh → (j, x) ∈ setStatus taskId status sh.
Proof.
  intros Hne Hin. unfold setStatus. apply list_elem_of_fmap. exists (j, x).
  split; [| done]. cbn [fst]. by destruct (String.eqb_spec j taskId).
Qed.

Lemma doneIn_cons p sh :
  doneIn (p :: sh) = (if bool_decide (p.2 = DONE) then 1 else 0) + doneIn sh.
Proof.
  unfold doneIn. rewrite filter_cons.
  destruct (decide (p.2 = DONE)).
  - by rewrite bool_decide_eq_true_2.
  - by rewrite bool_decide_eq_false_2.
Qed.

Lemma doneIn_none sh : Forall (λ p, p.2 ≠ DONE) sh → doneIn sh = 0.
Proof.
  induction 1 as [| p sh Hp _ IH]; [done |].
  by rewrite doneIn_cons, IH, bool_decide_eq_false_2.
Qed.

(** With distinct ids, setting the status of a task that is not done
    changes the number of done tasks by one at most. *)
Lemma doneIn_setStatus taskId status sh :
  NoDup (map fst sh) → taskId ∈ map fst sh →
  (∀ x, (taskId, x) ∈ sh → x ≠ DONE) →
  doneIn (setStatus taskId status sh) =
    doneIn sh + (if bool_decide (status = DONE) then 1 else 0).
Proof.
  induction sh as [| p sh IH]; [by intros _ ?%elem_of_nil |].
  cbn [map]. intros [Hfresh Hnodup]%NoDup_cons Hin Hnot.
  unfold setStatus in *. cbn [map]. rewrite !doneIn_cons.
  destruct (String.eqb_spec p.1 taskId) as [E | E].
  - fold (setStatus taskId status sh).
    rewrite setStatus_absent by (by rewrite <- E). cbn [snd].
    rewrite (bool_decide_eq_false_2 (p.2 = DONE)); [lia |].
    apply Hnot. destruct p as [j x]. simpl in *. subst j. by left.
  - apply elem_of_cons in Hin as [? | Hin]; [congruence |].
    rewrite IH; [lia | done | done |]. intros x Hx. apply Hnot. by right.
Qed.

Lemma doneCount_shape ts : StreamFacts.doneCount ts = doneIn (shape ts).
Proof.
  induction ts as [| t ts IH]; [done |].
  unfold shape in *. cbn [map]. by rewrite StreamFacts.doneCount_cons, doneIn_cons, IH.
Qed.

Lemma shape_update taskId u status ts :
  u_id u = None → u_status u = Some status →
  shape (map (λ task, if String.eqb (Task.id task) taskId
                      then mergeTask task u else task) ts) =
    setStatus taskId status (shape ts).
Proof.
  intros Hid Hst. unfold shape, setStatus. rewrite !map_map. apply map_ext. intros t.
  cbn [fst]. destruct (String.eqb (Task.id t) taskId); [| done].
  simpl. by rewrite Hid, Hst.
Qed.

(** On a list of distinct ids the map writes one place. *)
Lemma map_one_place (f : Task.BatchTask → Task.BatchTask) taskId ts i t :
  NoDup (map Task.id ts) → ts !! i = Some t → Task.id t = taskId →
  map (λ task, if String.eqb (Task.id task) taskId then f task else task) ts =
    <[i := f t]> ts.
Proof.
  intros Hnodup Hi Hid. apply list_eq. intros j.
  change (map ?g ts) with (g <$> ts). rewrite list_lookup_fmap.
  destruct (decide (i = j)) as [<- | Hne].
  - rewrite Hi, list_lookup_insert_eq by (by eapply lookup_lt_Some). simpl.
    by rewrite Hid, String.eqb_refl.
  - rewrite list_lookup_insert_ne by done.
    destruct (ts !! j) as [t' |] eqn:Hj; [| done]. simpl.
    destruct (String.eqb_spec (Task.id t') taskId) as [E | E]; [| done].
    destruct Hne. eapply StreamFacts.same_id_same_place; [done.. |]. congruence.
Qed.

(** X23. On a list of tasks of distinct ids, the [updateTask] of the
    browser component (a map over the list) and the one of the request
    handler (an assignment at the index found) write the same list; the
    handler writes it before it enqueues the record, so also when the
    stream does not take the record and the call throws. *)
Theorem updateTask_agrees_on_distinct_ids {W V : Type} (taskId : string) (u : TaskUpdates)
    (c : Client.State W) (s : Server.State V)
    (clientGone : V → bool) (invalidState : string) :
  NoDup (map Task.id (Client.tasks W c)) →
  Server.tasks V s = Client.tasks W c →
  Client.tasks W (Client.updateTaskState W taskId u c) =
    Server.tasks V (Server.updateTaskState V taskId u s)
  ∧ Client.tasks W (Client.updateTaskState W taskId u c) =
      Server.tasks V (Server.updateTask V clientGone invalidState taskId u s).1.
Proof.
  intros Hnodup Hsame.
  assert (Htaken : Client.tasks W (Client.updateTaskState W taskId u c) =
                   Server.tasks V (Server.updateTaskState V taskId u s)).
  { unfold Client.updateTaskState, Server.updateTaskState.
    cbn [Client.tasks]. rewrite Hsame. unfold Server.findIndex.
    destruct (list_find _ _) as [[i t] |] eqn:Hfind.
    - apply list_find_Some in Hfind as (Hi & Hid & _).
      cbn [Server.enqueue Server.writeTask Server.tasks]. rewrite Hsame.
      by apply (map_one_place (λ task, mergeTask task u)).
    - rewrite Hsame. rewrite <- (map_id (Client.tasks W c)) at 2.
      apply map_ext_in. intros t Hin%list_elem_of_In.
      destruct (String.eqb_spec (Task.id t) taskId) as [E | E]; [| done].
      apply list_find_None in Hfind. rewrite Forall_forall in Hfind.
      by destruct (Hfind t Hin). }
  split; [done |]. rewrite Htaken.
  destruct (Server.updateTask_cases V clientGone invalidState taskId u s)
    as [-> | (-> & _)]; cbn [fst]; [done |].
  by rewrite Server.rejectTaskState_tasks.
Qed.

Section Run.
Variable W : Type.
Variable Image : Type.
Variable NEWS_CATEGORIES : list Category.
Variable LOGO_URL BRAND_TEXT OVERLAY_IMAGE_URL : string.
Variable fetchLatestBangladeshiNews : string → Exec W (list Article.NewsDataArticle).
Variable generateContent : list Article.NewsDataArticle → Exec W (option string).
Variable generateImageFromPrompt : string → Exec W string.
Variable uploadToCloudinary : string → Exec W string.
Variable sendToMakeWebhook : WebhookPayload → Exec W unit.
Variable dateGetTime : string → option Z.
Variable arraySort :
  (Article.NewsDataArticle → Article.NewsDataArticle → Z) →
  list Article.NewsDataArticle → list Article.NewsDataArticle.
Variable earliest : list Thrown → nat.
Variable loadImage : option string → Exec W Image.
Variable composeImage :
  Image → string → list string → string → string → string → Exec W string.

Local Abbreviation State := (Client.State W).
Local Abbreviation tasks := (Client.tasks W).
Local Abbreviation completedCount := (Client.completedCount W).
Local Abbreviation isProcessing := (Client.isProcessing W).
Local Abbreviation collectedData := (Client.collectedData W).
Local Abbreviation world := (Client.world W).
Local Abbreviation setWorld := (Client.setWorld W).
Local Abbreviation updateTaskState := (Client.updateTaskState W).
Local Abbreviation initialState := (Client.initialState W NEWS_CATEGORIES).
Local Abbreviation gatherCategory :=
  (Client.gatherCategory W NEWS_CATEGORIES fetchLatestBangladeshiNews generateContent
     dateGetTime arraySort earliest).
Local Abbreviation processItem :=
  (Client.processItem W Image LOGO_URL BRAND_TEXT OVERLAY_IMAGE_URL
     generateImageFromPrompt uploadToCloudinary sendToMakeWebhook loadImage composeImage).
Local Abbreviation handleStartAutomation :=
  (Client.handleStartAutomation W Image NEWS_CATEGORIES LOGO_URL BRAND_TEXT OVERLAY_IMAGE_URL
     fetchLatestBangladeshiNews generateContent generateImageFromPrompt uploadToCloudinary
     sendToMakeWebhook dateGetTime arraySort earliest loadImage composeImage).

(** The ids and statuses the page shows. *)
Definition shown (s : State) : list (string * TaskStatus) := shape (tasks s).

Lemma shown_statusOnly taskId status s :
  shown (updateTaskState taskId (statusOnly status) s) = setStatus taskId status (shown s).
Proof. by apply shape_update. Qed.

Lemma shown_errorUpdates taskId message s :
  shown (updateTaskState taskId (errorUpdates message) s) = setStatus taskId ERROR (shown s).
Proof. by apply shape_update. Qed.

Lemma shown_doneUpdates taskId result s :
  shown (updateTaskState taskId (doneUpdates result) s) = setStatus taskId DONE (shown s).
Proof. by apply shape_update. Qed.

Lemma shown_frame (x : State) n b l c w m :
  shown (Client.Build_State W (tasks x) n b l c w m) = shown x.
Proof. reflexivity. Qed.

Ltac shown_steps :=
  repeat match goal with
  | |- context [shown (Client.updateTaskState W ?i (statusOnly ?st) ?x)] =>
      rewrite (shown_statusOnly i st x)
  | |- context [shown (Client.updateTaskState W ?i (errorUpdates ?m) ?x)] =>
      rewrite (shown_errorUpdates i m x)
  | |- context [shown (Client.updateTaskState W ?i (doneUpdates ?r) ?x)] =>
      rewrite (shown_doneUpdates i r x)
  | |- context [shown (Client.setWorld W ?w ?x)] =>
      change (shown (Client.setWorld W w x)) with (shown x)
  | |- context [shown (Client.addLink W ?l ?x)] =>
      change (shown (Client.addLink W l x)) with (shown x)
  | |- context [shown (Client.pushData W ?d ?x)] =>
      change (shown (Client.pushData W d x)) with (shown x)
  | |- context [shown (Client.Build_State W (Client.tasks W ?x) ?n ?b ?l ?c ?w ?m)] =>
      rewrite (shown_frame x n b l c w m)
  end;
  rewrite ?setStatus_twice.

(** A round of phase 1 returns; it leaves its task as failed and collects
    nothing, or leaves it as gathered and collects one item under its id.
    It does not touch the count or the flag. *)
Lemma gatherCategory_shown category s :
  let s' := (gatherCategory category s).1 in
  (gatherCategory category s).2 = inr tt
  ∧ completedCount s' = completedCount s
  ∧ isProcessing s' = isProcessing s
  ∧ ((shown s' = setStatus (apiValue category) ERROR (shown s)
      ∧ collectedData s' = collectedData s)
     ∨ (shown s' = setStatus (apiValue category) GATHERED (shown s)
        ∧ ∃ d, taskId d = apiValue category
               ∧ collectedData s' = collectedData s ++ [d])).
Proof.
  intros s'. subst s'.
  unfold Client.gatherCategory, Client.gatherBody, Client.updateTask, Client.addUsedLink,
    Client.pushCollected, Exec.tryCatch, Exec.bind, Exec.modify, Exec.get, Exec.throw.
  set (s1 := updateTaskState (apiValue category) (statusOnly GATHERING) s).
  assert (Hfail : ∀ w message,
    let s' := updateTaskState (apiValue category) (errorUpdates message) (setWorld w s1) in
    completedCount s' = completedCount s
    ∧ isProcessing s' = isProcessing s
    ∧ ((shown s' = setStatus (apiValue category) ERROR (shown s)
        ∧ collectedData s' = collectedData s)
       ∨ (shown s' = setStatus (apiValue category) GATHERED (shown s)
          ∧ ∃ d, taskId d = apiValue category
                 ∧ collectedData s' = collectedData s ++ [d]))).
  { intros w message. cbv zeta. split; [done |]. split; [done |]. left.
    split; [| done]. subst s1. by shown_steps. }
  destruct (Client.candidateArticles_world W NEWS_CATEGORIES fetchLatestBangladeshiNews
              dateGetTime arraySort earliest category s1) as (w1 & r & ->).
  destruct r as [err | allArticles]; [cbn [fst snd]; split; [done | apply Hfail] |].
  destruct (length _ =? 0); [cbn [fst snd]; split; [done | apply Hfail] |].
  unfold Client.await. change (Client.world W (Client.setWorld W w1 s1)) with w1.
  destruct (Gemini.findAndAnalyzeBestArticleFromList W generateContent _ w1)
    as [w2 [err | [[a chosen] |]]];
    [cbn [fst snd]; split; [done | apply Hfail] | |
     cbn [fst snd]; split; [done | apply Hfail]].
  cbn [fst snd]. split; [done |]. split; [done |]. split; [done |]. right.
  split; [subst s1; by shown_steps |].
  by exists {| taskId := apiValue category; analysis := a; article := chosen |}.
Qed.

(** What holds of the state in the middle of a round of phase 2. *)
Definition midRound (taskId : string) (s x : State) : Prop :=
  isProcessing x = isProcessing s
  ∧ collectedData x = collectedData s
  ∧ completedCount x = completedCount s
  ∧ ∃ status, shown x = setStatus taskId status (shown s).

(** What a round of phase 2 leaves. *)
Definition roundDone (taskId : string) (s s' : State) : Prop :=
  isProcessing s' = isProcessing s
  ∧ collectedData s' = collectedData s
  ∧ ((shown s' = setStatus taskId ERROR (shown s)
      ∧ completedCount s' = completedCount s)
     ∨ (shown s' = setStatus taskId DONE (shown s)
        ∧ completedCount s' = completedCount s + 1)).

Lemma midRound_start taskId status s :
  midRound taskId s (updateTaskState taskId (statusOnly status) s).
Proof. repeat (split; [done |]). exists status. apply shown_statusOnly. Qed.

Lemma midRound_setWorld taskId s x w :
  midRound taskId s x → midRound taskId s (setWorld w x).
Proof. done. Qed.

Lemma midRound_status taskId status s x :
  midRound taskId s x → midRound taskId s (updateTaskState taskId (statusOnly status) x).
Proof.
  intros (? & ? & ? & st & Hshown). repeat (split; [done |]). exists status.
  by rewrite shown_statusOnly, Hshown, setStatus_twice.
Qed.

Lemma midRound_fails taskId message s x :
  midRound taskId s x →
  roundDone taskId s (updateTaskState taskId (errorUpdates message) x).
Proof.
  intros (? & ? & ? & st & Hshown). repeat (split; [done |]). left. split; [| done].
  by rewrite shown_errorUpdates, Hshown, setStatus_twice.
Qed.

Lemma midRound_done taskId result s x :
  midRound taskId s x →
  roundDone taskId s
    (Client.Build_State W
       (tasks (updateTaskState taskId (doneUpdates result) x))
       (completedCount (updateTaskState taskId (doneUpdates result) x) + 1)
       (isProcessing (updateTaskState taskId (doneUpdates result) x))
       (Client.usedArticleLinks W (updateTaskState taskId (doneUpdates result) x))
       (collectedData (updateTaskState taskId (doneUpdates result) x))
       (world (updateTaskState taskId (doneUpdates result) x))
       (Client.updatesMade W (updateTaskState taskId (doneUpdates result) x))).
Proof.
  intros (? & ? & Hcount & st & Hshown). repeat (split; [done |]). right. split.
  - by rewrite shown_frame, shown_doneUpdates, Hshown, setStatus_twice.
  - cbn [Client.completedCount].
    change (completedCount (updateTaskState taskId (doneUpdates result) x))
      with (completedCount x). by rewrite Hcount.
Qed.

Ltac mid_round :=
  repeat match goal with
  | |- midRound _ ?s (Client.updateTaskState _ _ (statusOnly _) ?s) => apply midRound_start
  | |- midRound _ _ (Client.setWorld _ _ _) => apply midRound_setWorld
  | |- midRound _ _ (Client.updateTaskState _ _ (statusOnly _) _) => apply midRound_status
  end.

(** A round of phase 2 returns; it leaves its task as failed, or as done
    with the count one higher.  It collects nothing and does not touch
    the flag. *)
Lemma processItem_shown data s :
  (processItem data s).2 = inr tt
  ∧ roundDone (taskId data) s (processItem data s).1.
Proof.
  unfold Client.processItem, Client.processBody, Client.acquireImage, Client.updateTask,
    Client.countCompleted, Client.await, Exec.tryCatch, Exec.bind, Exec.modify, Exec.throw,
    Exec.ret.
  change (Client.world W (Client.updateTaskState W ?i ?u ?x)) with (Client.world W x).
  destruct (loadImage (Article.image_url (article data)) (world s))
    as [w1 [err1 | image]]; cbv beta iota.
  - change (Client.world W (Client.updateTaskState W ?i ?u ?x)) with (Client.world W x).
    change (Client.world W (Client.setWorld W ?w ?x)) with w.
    destruct (generateImageFromPrompt _ w1) as [w2 [err | generated]]; cbv beta iota.
    { cbn [fst snd]. split; [done |]. apply midRound_fails. mid_round. }
    change (Client.world W (Client.setWorld W ?w ?x)) with w.
    destruct (loadImage (Some generated) w2) as [w3 [err | image]]; cbv beta iota.
    { cbn [fst snd]. split; [done |]. apply midRound_fails. mid_round. }
    change (Client.world W (Client.updateTaskState W ?i ?u ?x)) with (Client.world W x).
    change (Client.world W (Client.setWorld W ?w ?x)) with w.
    destruct (composeImage image _ _ _ _ _ w3) as [w4 [err | compiled]]; cbv beta iota.
    { cbn [fst snd]. split; [done |]. apply midRound_fails. mid_round. }
    change (Client.world W (Client.updateTaskState W ?i ?u ?x)) with (Client.world W x).
    change (Client.world W (Client.setWorld W ?w ?x)) with w.
    destruct (uploadToCloudinary compiled w4) as [w5 [err | imageUrl]]; cbv beta iota.
    { cbn [fst snd]. split; [done |]. apply midRound_fails. mid_round. }
    change (Client.world W (Client.updateTaskState W ?i ?u ?x)) with (Client.world W x).
    change (Client.world W (Client.setWorld W ?w ?x)) with w.
    destruct (sendToMakeWebhook _ w5) as [w6 [err | []]]; cbv beta iota.
    { cbn [fst snd]. split; [done |]. apply midRound_fails. mid_round. }
    cbn [fst snd]. split; [done |]. apply midRound_done. mid_round.
  - change (Client.world W (Client.updateTaskState W ?i ?u ?x)) with (Client.world W x).
    change (Client.world W (Client.setWorld W ?w ?x)) with w.
    destruct (composeImage image _ _ _ _ _ w1) as [w4 [err | compiled]]; cbv beta iota.
    { cbn [fst snd]. split; [done |]. apply midRound_fails. mid_round. }
    change (Client.world W (Client.updateTaskState W ?i ?u ?x)) with (Client.world W x).
    change (Client.world W (Client.setWorld W ?w ?x)) with w.
    destruct (uploadToCloudinary compiled w4) as [w5 [err | imageUrl]]; cbv beta iota.
    { cbn [fst snd]. split; [done |]. apply midRound_fails. mid_round. }
    change (Client.world W (Client.updateTaskState W ?i ?u ?x)) with (Client.world W x).
    change (Client.world W (Client.setWorld W ?w ?x)) with w.
    destruct (sendToMakeWebhook _ w5) as [w6 [err | []]]; cbv beta iota.
    { cbn [fst snd]. split; [done |]. apply midRound_fails. mid_round. }
    cbn [fst snd]. split; [done |]. apply midRound_done. mid_round.
Qed.

(** ** The two loops *)

Definition gatherStep (s : State) (category : Category) : State :=
  (gatherCategory category s).1.

Definition processStep (s : State) (data : CollectedData) : State :=
  (processItem data s).1.

Lemma run_fold w :
  let s1 := fold_left gatherStep NEWS_CATEGORIES (initialState w) in
  let s2 := fold_left processStep (collectedData s1) s1 in
  (handleStartAutomation w).2 = inr tt
  ∧ tasks (handleStartAutomation w).1 = tasks s2
  ∧ completedCount (handleStartAutomation w).1 = completedCount s2
  ∧ isProcessing (handleStartAutomation w).1 = false.
Proof.
  intros s1 s2.
  assert (H1 : Exec.forEach NEWS_CATEGORIES gatherCategory (initialState w) = (s1, inr tt)).
  { apply (Exec.forEach_fold gatherCategory). intros. apply gatherCategory_shown. }
  assert (H2 : Exec.forEach (collectedData s1) processItem s1 = (s2, inr tt)).
  { apply (Exec.forEach_fold processItem). intros. apply processItem_shown. }
  unfold Client.handleStartAutomation, Client.phase1, Client.phase2, Exec.bind, Exec.get.
  rewrite H1. cbv beta iota. rewrite H2. done.
Qed.

Lemma browser_gather_loop categories s :
  let s' := fold_left gatherStep categories s in
  completedCount s' = completedCount s
  ∧ map fst (shown s') = map fst (shown s)
  ∧ ∃ gathered,
      collectedData s' = collectedData s ++ gathered
      ∧ map taskId gathered `sublist_of` map apiValue categories
      ∧ ∀ j x, (j, x) ∈ shown s' →
          (j ∈ map apiValue categories
           ∧ (x = ERROR ∨ (x = GATHERED ∧ j ∈ map taskId gathered)))
          ∨ ((j ∉ map apiValue categories) ∧ (j, x) ∈ shown s).
Proof.
  revert s. induction categories as [| c categories IH]; intros s; cbn [fold_left].
  { split; [done |]. split; [done |]. exists []. rewrite app_nil_r.
    split; [done |]. split; [done |]. intros j x Hin. right. split; [| done].
    apply not_elem_of_nil. }
  destruct (gatherCategory_shown c s) as (_ & Hcount & _ & Hround).
  fold (gatherStep s c) in Hcount, Hround. set (s1 := gatherStep s c) in *.
  destruct (IH s1) as (Hcount' & Hkeys' & gathered & Hcoll & Hsub & Hst).
  split; [congruence |].
  destruct Hround as [[Hshown Hsame] | (Hshown & d & Hd & Hmore)].
  - split; [by rewrite Hkeys', Hshown, keys_setStatus |].
    exists gathered. split; [by rewrite Hcoll, Hsame |].
    split; [by apply sublist_cons |].
    intros j x Hin. destruct (Hst j x Hin) as [[Hj Hx] | [Hj Hx]].
    + left. split; [by right | done].
    + rewrite Hshown in Hx. apply setStatus_elem in Hx as [[-> ->] | [Hne Hx]].
      * left. split; [by left | by left].
      * right. split; [| done]. cbn [map]. rewrite not_elem_of_cons. by split.
  - split; [by rewrite Hkeys', Hshown, keys_setStatus |].
    exists (d :: gathered). split; [by rewrite Hcoll, Hmore, <- app_assoc |].
    split; [cbn [map]; rewrite Hd; by apply sublist_skip |].
    intros j x Hin. destruct (Hst j x Hin) as [[Hj Hx] | [Hj Hx]].
    + left. split; [by right |].
      destruct Hx as [-> | [-> Hg]]; [by left |]. right. split; [done |]. by right.
    + rewrite Hshown in Hx. apply setStatus_elem in Hx as [[-> ->] | [Hne Hx]].
      * left. split; [by left |]. right. split; [done |]. cbn [map]. rewrite Hd. by left.
      * right. split; [| done]. cbn [map]. rewrite not_elem_of_cons. by split.
Qed.

Lemma browser_process_loop items s :
  NoDup (map fst (shown s)) → NoDup (map taskId items) →
  (∀ d, d ∈ items →
     taskId d ∈ map fst (shown s) ∧ ∀ x, (taskId d, x) ∈ shown s → x ≠ DONE) →
  completedCount s = doneIn (shown s) →
  let s' := fold_left processStep items s in
  completedCount s' = doneIn (shown s')
  ∧ map fst (shown s') = map fst (shown s)
  ∧ ∀ j x, (j, x) ∈ shown s' →
      (j ∈ map taskId items ∧ (x = DONE ∨ x = ERROR))
      ∨ ((j ∉ map taskId items) ∧ (j, x) ∈ shown s).
Proof.
  revert s. induction items as [| d items IH]; intros s Hkeys Hitems Hpending Hcount;
    cbn [fold_left].
  { split; [done |]. split; [done |]. intros j x Hin. right. split; [| done].
    apply not_elem_of_nil. }
  cbn [map] in Hitems. apply NoDup_cons in Hitems as [Hfresh Hitems].
  destruct (Hpending d) as [Hpresent Hnot]; [by left |].
  destruct (processItem_shown d s) as (_ & _ & _ & Hround).
  fold (processStep s d) in Hround. set (s1 := processStep s d) in *.
  assert (Hstep : ∃ status, (status = DONE ∨ status = ERROR)
                  ∧ shown s1 = setStatus (taskId d) status (shown s)
                  ∧ completedCount s1 = doneIn (shown s1)).
  { destruct Hround as [[Hshown Hsame] | [Hshown Hmore]].
    - exists ERROR. split; [by right |]. split; [done |].
      rewrite Hshown, doneIn_setStatus by done.
      rewrite bool_decide_eq_false_2 by done. lia.
    - exists DONE. split; [by left |]. split; [done |].
      rewrite Hshown, doneIn_setStatus by done.
      rewrite bool_decide_eq_true_2 by done. lia. }
  destruct Hstep as (status & Hstatus & Hshown & Hcount1).
  destruct (IH s1) as (Hcount' & Hkeys' & Hst).
  - by rewrite Hshown, keys_setStatus.
  - done.
  - intros d' Hd'. destruct (Hpending d') as [Hpresent' Hnot']; [by right |].
    rewrite Hshown, keys_setStatus. split; [done |].
    intros x [[E _] | [_ Hx]]%setStatus_elem; [| by apply Hnot'].
    destruct Hfresh. rewrite <- E. by apply list_elem_of_fmap_2.
  - done.
  - split; [done |]. split; [by rewrite Hkeys', Hshown, keys_setStatus |].
    intros j x Hin. destruct (Hst j x Hin) as [[Hj Hx] | [Hj Hx]].
    + left. split; [by right | done].
    + rewrite Hshown in Hx. apply setStatus_elem in Hx as [[-> ->] | [Hne Hx]].
      * left. split; [by left | done].
      * right. split; [| done]. cbn [map]. rewrite not_elem_of_cons. by split.
Qed.

(** X24. With categories of distinct ids, a run of the browser
    component returns, and when it does the page is at rest: the flag
    [isProcessing] is false, there is one task per category under the ids
    of the categories in their order, every task is DONE or ERROR, and the
    completed count is the number of tasks that are DONE. *)
Theorem browser_run_settles (w : W) :
  NoDup (map apiValue NEWS_CATEGORIES) →
  let s := (handleStartAutomation w).1 in
  (handleStartAutomation w).2 = inr tt
  ∧ isProcessing s = false
  ∧ map Task.id (tasks s) = map apiValue NEWS_CATEGORIES
  ∧ Forall (λ t, Task.status t = DONE ∨ Task.status t = ERROR) (tasks s)
  ∧ completedCount s = StreamFacts.doneCount (tasks s).
Proof.
  intros Hnodup s. subst s.
  destruct (run_fold w) as (Hreturns & Htasks & Hcount & Hflag).
  set (s0 := initialState w) in *.
  set (s1 := fold_left gatherStep NEWS_CATEGORIES s0) in *.
  set (s2 := fold_left processStep (collectedData s1) s1) in *.
  assert (Hkeys0 : map fst (shown s0) = map apiValue NEWS_CATEGORIES).
  { unfold shown. rewrite keys_shape. subst s0. cbn [Client.initialState Client.tasks].
    by rewrite map_map. }
  destruct (browser_gather_loop NEWS_CATEGORIES s0) as (Hcount1 & Hkeys1 & gathered & Hcoll & Hsub & Hst1).
  fold s1 in Hcount1, Hkeys1, Hcoll, Hst1.
  assert (Hcollected : collectedData s1 = gathered) by (by rewrite Hcoll).
  assert (Hst1' : ∀ j x, (j, x) ∈ shown s1 →
            x = ERROR ∨ (x = GATHERED ∧ j ∈ map taskId (collectedData s1))).
  { intros j x Hin. rewrite Hcollected.
    destruct (Hst1 j x Hin) as [[_ Hx] | [Hj Hx]]; [done |].
    destruct Hj. rewrite <- Hkeys0. by apply (list_elem_of_fmap_2 fst _ (j, x)). }
  destruct (browser_process_loop (collectedData s1) s1) as (Hcount2 & Hkeys2 & Hst2).
  - by rewrite Hkeys1, Hkeys0.
  - rewrite Hcollected. by eapply sublist_NoDup.
  - intros d Hd. split.
    + rewrite Hkeys1, Hkeys0. eapply elem_of_sublist; [| exact Hsub].
      rewrite <- Hcollected. by apply list_elem_of_fmap_2.
    + intros x Hx. by destruct (Hst1' _ _ Hx) as [-> | [-> _]].
  - rewrite Hcount1. rewrite doneIn_none; [done |].
    apply Forall_forall. intros [j x] Hin. cbn [snd].
    by destruct (Hst1' _ _ Hin) as [-> | [-> _]].
  - fold s2 in Hcount2, Hkeys2, Hst2.
    split; [done |]. split; [done |].
    split; [rewrite Htasks, <- keys_shape; fold (shown s2); by rewrite Hkeys2, Hkeys1 |].
    split; [| by rewrite Hcount, Htasks, doneCount_shape].
    rewrite Htasks. apply Forall_forall. intros t Ht.
    assert (Hin : (Task.id t, Task.status t) ∈ shown s2).
    { unfold shown, shape. by apply (list_elem_of_fmap_2 (λ t, (Task.id t, Task.status t))). }
    destruct (Hst2 _ _ Hin) as [[_ Hx] | [Hj Hx]]; [done |].
    destruct (Hst1' _ _ Hx) as [-> | [_ Hg]]; [by right | by destruct Hj].
Qed.

End Run.

End ClientFacts.

(* ===================================================================== *)
(** * More runs on the stand-ins *)
(* ===================================================================== *)

Module MoreExamples.
Import Examples.

Definition sports : Category := {| name := "Sports"; apiValue := "sports" |}.

Definition world : Category := {| name := "World"; apiValue := "world" |}.

(** An item whose article has no picture. *)
Definition worldItem : CollectedData :=
  {| taskId := "world"; analysis := parsed;
     article := story "https://news.example/2" None |}.

Definition clientRun : Client.State unit * (Thrown + unit) :=
  Client.handleStartAutomation unit unit categories "logo" "brand" "overlay" fetch generate
    picture upload deliver Client.isoDateTime Js.insertionSort firstListed browserLoad
    browserCompose tt.

(** An item with an empty phrase among its highlight phrases. *)
Definition stuckItem : CollectedData :=
  {| taskId := "world";
     analysis :=
       {| Analysis.headline := "Dhaka metro opens a new line";
          Analysis.highlightPhrases := ["Dhaka metro"; ""];
          Analysis.caption := "A big day for commuters. Source: Daily";
          Analysis.imagePrompt := "A train in a city";
          Analysis.sourceName := "Daily" |};
     article := story "https://news.example/2" None |}.

(** A stand-in for the wire: a record is written as its id and the number
    of its status, and a line is read back as the first record of the run
    that is written so. *)
Definition statusCode (status : TaskStatus) : string :=
  match status with
  | PENDING => "0" | GATHERING => "1" | GATHERED => "2" | PROCESSING => "3"
  | GENERATING_IMAGE => "4" | COMPOSING => "5" | UPLOADING => "6"
  | SENDING_WEBHOOK => "7" | DONE => "8" | ERROR => "9"
  end.

Definition stringify (t : Task.BatchTask) : string :=
  "{" +:+ Task.id t +:+ ":" +:+ statusCode (Task.status t) +:+ "}".

Definition parse (line : string) : option StreamClient.Parsed :=
  StreamClient.ParsedTask
    <$> head (filter (λ t, stringify t = line) (Server.stream unit serverRun.1)).

(** The body of the answer, cut in the middle of a line. *)
Definition wire : string := StreamFacts.wire stringify (Server.stream unit serverRun.1).

Definition chunks : list string :=
  [String.substring 0 100 wire; String.substring 100 (String.length wire - 100) wire].

Definition pageFetch : Exec unit StreamFacts.Response :=
  Exec.ret {| StreamFacts.ok := true; StreamFacts.statusText := "OK";
              StreamFacts.body := Some (chunks, None) |}.

Definition idle : StreamFacts.Page :=
  {| StreamFacts.shown := {| StreamClient.tasks := []; StreamClient.completedCount := 0 |};
     StreamFacts.isProcessing := false |}.

Lemma categories_distinct : NoDup (map apiValue categories).
Proof. apply (bool_decide_unpack _). vm_compute. exact I. Qed.

Lemma nothing_new_skips_the_analysis_witness :
  Server.gatherCategory unit fetch generate stays invalidState sports serverStart =
    (Server.setWorld unit tt
       (Server.applyUpdates unit "sports"
          [statusOnly GATHERING; errorUpdates "network down"] serverStart),
     inr (Some tt))
  ∧ ∃ t, Server.recorded unit "sports"
           (Server.gatherCategory unit fetch generate stays invalidState sports
              serverStart).1 = Some t
         ∧ Task.status t = ERROR ∧ Task.error t = Some "network down".
Proof.
  destruct (ServerFacts.nothing_new_skips_the_analysis unit fetch generate stays
              invalidState sports serverStart tt) as (Hfailed & _ & _).
  - apply list_elem_of_In. simpl. tauto.
  - exact (Hfailed (ErrorObj "network down") eq_refl eq_refl eq_refl).
Defined.

Lemma done_means_delivered_witness :
  (∃ t, Server.recorded unit "world" (serverRound worldItem serverStart).1 = Some t
        ∧ ((Task.status t = ERROR ∧ is_Some (Task.error t)
            ∧ (serverRound worldItem serverStart).2 ≠ inr None)
           ∨ (Task.status t = DONE
              ∧ (serverRound worldItem serverStart).2 = inr (Some tt)
              ∧ ∃ imageUrl,
                  ServerFacts.delivered unit unit "logo" "brand" "overlay" picture upload
                    deliver skia font measure encode firstListed worldItem tt
                    (Server.world unit (serverRound worldItem serverStart).1) imageUrl
                  ∧ Task.result t = Some (taskResult worldItem imageUrl))
           ∨ (Task.status t = COMPOSING
              ∧ (serverRound worldItem serverStart).2 = inr None
              ∧ "" ∈ Analysis.highlightPhrases (analysis worldItem))))
  ∧ (serverRound worldItem serverStart).2 = inr (Some tt)
  ∧ (serverRound stuckItem serverStart).2 = inr None.
Proof.
  split; [| split; vm_compute; reflexivity].
  apply (ServerFacts.done_means_delivered unit unit "logo" "brand" "overlay" picture upload
           deliver skia font measure encode firstListed stays invalidState worldItem
           serverStart).
  apply list_elem_of_In. simpl. tauto.
Defined.

Lemma task_statuses_follow_the_lifecycle_witness :
  ∃ generated walk,
    (walk = ServerFacts.happyPath generated
     ∨ ∃ k, (k = 2 ∨ 5 ≤ k < length (ServerFacts.happyPath generated))
            ∧ walk = take k (ServerFacts.happyPath generated) ++ [ERROR])
    ∧ ServerFacts.statuses unit "world" serverRun.1 `prefix_of` walk
    ∧ [PENDING] `prefix_of` ServerFacts.statuses unit "world" serverRun.1
    ∧ (serverRun.2 = inr (Some tt) →
         ServerFacts.statuses unit "world" serverRun.1 = walk).
Proof.
  apply (ServerFacts.task_statuses_follow_the_lifecycle unit unit categories "logo" "brand"
           "overlay" fetch generate picture upload deliver skia font measure encode
           firstListed stays invalidState tt world).
  - apply categories_distinct.
  - apply list_elem_of_In. simpl. tauto.
Defined.

Lemma updateTask_agrees_on_distinct_ids_witness :
  Client.tasks unit (Client.updateTaskState unit "sports" (statusOnly GATHERING) clientStart) =
    Server.tasks unit (Server.updateTaskState unit "sports" (statusOnly GATHERING) serverStart)
  ∧ Client.tasks unit
      (Client.updateTaskState unit "sports" (statusOnly GATHERING) clientStart) =
      Server.tasks unit
        (Server.updateTask unit (λ _, true) invalidState "sports" (statusOnly GATHERING)
           serverStart).1.
Proof.
  apply ClientFacts.updateTask_agrees_on_distinct_ids.
  - apply (bool_decide_unpack _). vm_compute. exact I.
  - reflexivity.
Defined.

Lemma browser_run_settles_witness :
  clientRun.2 = inr tt
  ∧ Client.isProcessing unit clientRun.1 = false
  ∧ map Task.id (Client.tasks unit clientRun.1) = map apiValue categories
  ∧ Forall (λ t, Task.status t = DONE ∨ Task.status t = ERROR) (Client.tasks unit clientRun.1)
  ∧ Client.completedCount unit clientRun.1 =
      StreamFacts.doneCount (Client.tasks unit clientRun.1).
Proof.
  apply (ClientFacts.browser_run_settles unit unit categories "logo" "brand" "overlay" fetch
           generate picture upload deliver Client.isoDateTime Js.insertionSort firstListed
           browserLoad browserCompose tt).
  apply categories_distinct.
Defined.

#[local] Instance result_eq_dec : EqDecision Task.Result.
Proof. solve_decision. Defined.

#[local] Instance task_eq_dec : EqDecision Task.BatchTask.
Proof. solve_decision. Defined.

#[local] Instance parsed_eq_dec : EqDecision StreamClient.Parsed.
Proof. solve_decision. Defined.

#[local] Instance readable_dec (t : Task.BatchTask) :
  Decision (StreamFacts.readable parse stringify t).
Proof. unfold StreamFacts.readable, JsFacts.lacks. apply _. Defined.

Lemma records_readable :
  Forall (StreamFacts.readable parse stringify) (Server.stream unit serverRun.1).
Proof. apply (bool_decide_unpack _). vm_compute. exact I. Qed.

Lemma chunks_carry_the_records : Js.concat chunks = wire.
Proof. vm_compute. reflexivity. Qed.

Lemma page_shows_the_final_tasks_witness :
  (StreamFacts.handleStartAutomation unit categories parse pageFetch idle tt).1 =
    StreamClient.Mounted
      {| StreamFacts.shown :=
           {| StreamClient.tasks := Server.tasks unit serverRun.1;
              StreamClient.completedCount :=
                StreamFacts.doneCount (Server.tasks unit serverRun.1) |};
         StreamFacts.isProcessing := false |}.
Proof.
  apply (ServerFacts.page_shows_the_final_tasks unit unit categories "logo" "brand" "overlay"
           fetch generate picture upload deliver skia font measure encode firstListed
           stays invalidState unit parse stringify pageFetch tt tt idle chunks).
  - apply categories_distinct.
  - vm_compute. reflexivity.
  - apply records_readable.
  - reflexivity.
  - exists tt. eexists. split; [reflexivity |]. split; reflexivity.
  - apply chunks_carry_the_records.
Defined.

End MoreExamples.
